(** * OAI-PMH harvester: a shallow embedding of [oai_harverster.py]

    The development follows the layout of the script: text and byte
    helpers, the two regular expressions and the repair pass, the
    ElementTree queries and the EDM field extraction, the retrying
    fetcher, the envelope and checkpoint files, and the paging loop of
    [harvest].  Definitions come first, the properties after them.

    What is outside the script is a parameter or an input: the
    responses of the server, the floats and the library calls of the
    fetcher ([float], [time.sleep], the decompressors),
    [ET.fromstring] and [ET.tostring].  The file system holds the
    output segments and the checkpoint as bytes; the rows of the CSV
    and JSONL sinks are recorded as events of the run, and of the log
    only the lines of a failure are kept.  The sinks, the log and the
    diagnostic dump are files of their own: an output file named with
    the extension [.csv], [.jsonl] or [.log], or named as the dump,
    would share its path with one of them and is not covered. *)

From Stdlib Require Import ZArith NArith QArith Lia Bool Ascii String.
From stdpp Require Import base option list gmap.

Set Default Proof Using "Type".
Local Open Scope N_scope.

(* ===================================================================== *)
(** * Part I: definitions                                                 *)
(* ===================================================================== *)

(** ** Text and bytes

    A Python [str] is a sequence of Unicode code points and a [bytes]
    object a sequence of octets; both are lists of [N] here. *)

Definition char := N.
Definition byte := N.
Abbreviation str := (list N) (only parsing).
Abbreviation bytes := (list N) (only parsing).

(** An ASCII literal as a [str]. *)
Definition lit (s : string) : str :=
  map N_of_ascii (list_ascii_of_string s).
Arguments lit s%_string.

Definition NL : char := 10.
Definition AMP : char := 38.
Definition SEMI : char := 59.

Definition in_range (lo hi c : char) : bool := (lo <=? c) && (c <=? hi).

(** [str.isspace] on one code point: the table of
    [_PyUnicode_IsWhitespace]. *)
Definition is_space (c : char) : bool :=
  in_range 9 13 c || in_range 28 32 c || (c =? 133) || (c =? 160)
  || (c =? 5760) || in_range 8192 8202 c || (c =? 8232) || (c =? 8233)
  || (c =? 8239) || (c =? 8287) || (c =? 12288).

Fixpoint lstrip (s : str) : str :=
  match s with
  | c :: t => if is_space c then lstrip t else s
  | [] => []
  end.

Definition rstrip (s : str) : str := rev (lstrip (rev s)).

(** [s.strip()] *)
Definition strip (s : str) : str := rstrip (lstrip s).

(** Truth value of an optional string: [None] and the empty string are
    false. *)
Definition truthy (o : option str) : bool :=
  match o with
  | Some (_ :: _) => true
  | _ => false
  end.

Fixpoint is_prefix (p s : str) : bool :=
  match p, s with
  | [], _ => true
  | a :: p', b :: s' => (a =? b) && is_prefix p' s'
  | _ :: _, [] => false
  end.

(** [s.rfind(p)]: index of the last occurrence. *)
Fixpoint str_rfind (p s : str) : option nat :=
  match s with
  | [] => if is_prefix p [] then Some O else None
  | _ :: t =>
      match str_rfind p t with
      | Some i => Some (S i)
      | None => if is_prefix p s then Some O else None
      end
  end.

(** ** UTF-8 *)

(** One code point as UTF-8.  Surrogates and values above U+10FFFF have
    no encoding ([UnicodeEncodeError]). *)
Definition utf8_encode_char (c : char) : option bytes :=
  if c <? 128 then Some [c]
  else if c <? 2048 then
    Some [N.lor 192 (N.shiftr c 6); N.lor 128 (N.land c 63)]
  else if in_range 55296 57343 c then None
  else if c <? 65536 then
    Some [N.lor 224 (N.shiftr c 12);
          N.lor 128 (N.land (N.shiftr c 6) 63);
          N.lor 128 (N.land c 63)]
  else if c <? 1114112 then
    Some [N.lor 240 (N.shiftr c 18);
          N.lor 128 (N.land (N.shiftr c 12) 63);
          N.lor 128 (N.land (N.shiftr c 6) 63);
          N.lor 128 (N.land c 63)]
  else None.

Fixpoint utf8_encode (s : str) : option bytes :=
  match s with
  | [] => Some []
  | c :: t =>
      match utf8_encode_char c, utf8_encode t with
      | Some b, Some r => Some (b ++ r)
      | _, _ => None
      end
  end.

Definition is_cont (b : byte) : bool := in_range 128 191 b.

(** Decode the code point at the head of [bs]: the code point and the
    number of bytes it takes, or [None] when the head is not the start
    of a well-formed sequence (overlong forms, surrogates and values
    above U+10FFFF are ill-formed). *)
Definition utf8_decode_head (bs : bytes) : option (char * nat) :=
  match bs with
  | [] => None
  | b0 :: r =>
      if b0 <? 128 then Some (b0, 1%nat)
      else if in_range 194 223 b0 then
        match r with
        | b1 :: _ =>
            if is_cont b1
            then Some (N.lor (N.shiftl (N.land b0 31) 6) (N.land b1 63), 2%nat)
            else None
        | _ => None
        end
      else if in_range 224 239 b0 then
        match r with
        | b1 :: b2 :: _ =>
            if in_range (if b0 =? 224 then 160 else 128)
                        (if b0 =? 237 then 159 else 191) b1
               && is_cont b2
            then Some (N.lor (N.shiftl (N.land b0 15) 12)
                        (N.lor (N.shiftl (N.land b1 63) 6) (N.land b2 63)),
                       3%nat)
            else None
        | _ => None
        end
      else if in_range 240 244 b0 then
        match r with
        | b1 :: b2 :: b3 :: _ =>
            if in_range (if b0 =? 240 then 144 else 128)
                        (if b0 =? 244 then 143 else 191) b1
               && is_cont b2 && is_cont b3
            then Some (N.lor (N.shiftl (N.land b0 7) 18)
                        (N.lor (N.shiftl (N.land b1 63) 12)
                          (N.lor (N.shiftl (N.land b2 63) 6) (N.land b3 63))),
                       4%nat)
            else None
        | _ => None
        end
      else None
  end.

(** [bs.decode("utf-8", errors="ignore")]: bytes that do not start a
    well-formed sequence are dropped.  [fuel] bounds the number of
    steps; [length bs] steps always suffice. *)
Fixpoint utf8_decode_ignore_from (fuel : nat) (bs : bytes) : str :=
  match fuel, bs with
  | O, _ | _, [] => []
  | S fuel', _ :: r =>
      match utf8_decode_head bs with
      | Some (c, n) => c :: utf8_decode_ignore_from fuel' (drop n bs)
      | None => utf8_decode_ignore_from fuel' r
      end
  end.

Definition utf8_decode_ignore (bs : bytes) : str :=
  utf8_decode_ignore_from (length bs) bs.

(** [bs.decode("utf-8")], the strict decoder behind
    [open(path, "r", encoding="utf-8")]: [None] is [UnicodeDecodeError]. *)
Fixpoint utf8_decode_strict_from (fuel : nat) (bs : bytes) : option str :=
  match fuel, bs with
  | _, [] => Some []
  | O, _ => None
  | S fuel', _ :: _ =>
      match utf8_decode_head bs with
      | Some (c, n) => (c ::.) <$> utf8_decode_strict_from fuel' (drop n bs)
      | None => None
      end
  end.

Definition utf8_decode_strict (bs : bytes) : option str :=
  utf8_decode_strict_from (length bs) bs.

(** ** Exceptions and results *)

Inductive exn :=
| HTTPError (code : Z)
| URLError
| RuntimeError
| AttributeError
| SyntaxError
| ValueError
| JSONDecodeError
| UnicodeDecodeError
| UnicodeEncodeError
| KeyError
| OverflowError
| OSError
| EOFError
| ZlibError
| SystemExit.

Inductive result (A : Type) :=
| Ok (a : A)
| Raise (e : exn).
Arguments Ok {A} a.
Arguments Raise {A} e.

(** Whether [except Exception] catches the exception: [SystemExit]
    is no [Exception]. *)
Definition is_Exception (e : exn) : bool :=
  match e with
  | SystemExit => false
  | _ => true
  end.

(** ** Regular expressions

    The fragment of [re] the two patterns of the script need.  A class
    is a list of inclusive ranges; [Star] is the greedy repetition of
    a class; [NotAhead] is the negative lookahead [(?!...)]. *)

Inductive regex :=
| Chr (c : char)
| Cls (ranges : list (char * char))
| Star (ranges : list (char * char))
| Cat (r1 r2 : regex)
| NotAhead (r : regex).

Definition in_class (ranges : list (char * char)) (c : char) : bool :=
  existsb (fun '(lo, hi) => in_range lo hi c) ranges.

(** Greedy repetition with backtracking: take as many as possible and
    give characters back while the continuation fails. *)
Fixpoint star_match {A} (ranges : list (char * char))
    (k : str -> option A) (s : str) : option A :=
  match s with
  | c :: t =>
      if in_class ranges c then
        match star_match ranges k t with
        | Some r => Some r
        | None => k s
        end
      else k s
  | [] => k s
  end.

(** Backtracking matcher anchored at the head of [s]; the continuation
    receives the unread rest. *)
Fixpoint re_match (A : Type) (r : regex) (s : str)
    (k : str -> option A) {struct r} : option A :=
  match r with
  | Chr c =>
      match s with
      | c' :: t => if c =? c' then k t else None
      | [] => None
      end
  | Cls ranges =>
      match s with
      | c' :: t => if in_class ranges c' then k t else None
      | [] => None
      end
  | Star ranges => star_match ranges k s
  | Cat r1 r2 => re_match A r1 s (fun t => re_match A r2 t k)
  | NotAhead r' =>
      match re_match unit r' s (fun _ => Some tt) with
      | Some _ => None
      | None => k s
      end
  end.
Arguments re_match {A} r s k.

(** [pattern.match(s)] as the rest after the match. *)
Definition re_match_at (r : regex) (s : str) : option str :=
  re_match r s Some.

(** [pattern.sub(repl, s)]: scan from the left, replace every
    non-overlapping match, copy the other characters.  An empty match
    is replaced and the scan moves on by one character. *)
Fixpoint re_sub_from (fuel : nat) (r : regex) (repl s : str) : str :=
  match fuel with
  | O => s
  | S fuel' =>
      let copy_one :=
        match s with
        | [] => []
        | c :: t => c :: re_sub_from fuel' r repl t
        end in
      match re_match_at r s with
      | Some rest =>
          if (length rest <? length s)%nat
          then repl ++ re_sub_from fuel' r repl rest
          else repl ++ copy_one
      | None => copy_one
      end
  end.

Definition re_sub (r : regex) (repl s : str) : str :=
  re_sub_from (S (length s)) r repl s.

(** ** The sanitizer *)

(** [INVALID_XML_CHARS = re.compile(r"[\x00-\x08\x0B\x0C\x0E-\x1F]")] *)
Definition INVALID_XML_CHARS : regex :=
  Cls [(0, 8); (11, 11); (12, 12); (14, 31)].

(** [AMP_FIX = re.compile(r'&(?![A-Za-z#][A-Za-z0-9]*;)')] *)
Definition AMP_FIX : regex :=
  Cat (Chr AMP)
      (NotAhead
         (Cat (Cls [(65, 90); (97, 122); (35, 35)])
              (Cat (Star [(65, 90); (97, 122); (48, 57)])
                   (Chr SEMI)))).

Definition clean_xml (s : str) : str := re_sub INVALID_XML_CHARS [] s.

(** [AMP_FIX.sub("&amp;", text)], the repair pass of [fetch_and_parse]. *)
Definition AMP_FIX_sub (text : str) : str := re_sub AMP_FIX (lit "&amp;") text.

(** ** A small result monad *)

Definition bind {A B} (m : result A) (k : A -> result B) : result B :=
  match m with
  | Ok a => k a
  | Raise e => Raise e
  end.

Notation "'let*' x ':=' m 'in' k" := (bind m (fun x => k))
  (at level 10, x pattern, m at level 100, k at level 200).

(** ** Dictionaries

    A Python [dict] with string keys keeps insertion order; assigning
    to a key that is present keeps its place. *)

Section Dict.
Context {V : Type}.

Fixpoint dict_get (k : str) (d : list (str * V)) : option V :=
  match d with
  | [] => None
  | (k', v) :: d' => if bool_decide (k = k') then Some v else dict_get k d'
  end.

Fixpoint dict_set (k : str) (v : V) (d : list (str * V)) : list (str * V) :=
  match d with
  | [] => [(k, v)]
  | (k', v') :: d' =>
      if bool_decide (k = k') then (k, v) :: d' else (k', v') :: dict_set k v d'
  end.

(** [dict(items)] and [{k: v for k, v in items}] *)
Definition dict_of_items (items : list (str * V)) : list (str * V) :=
  fold_left (fun d kv => dict_set kv.1 kv.2 d) items [].

(** [d.update(items)] *)
Definition dict_update (d items : list (str * V)) : list (str * V) :=
  fold_left (fun d kv => dict_set kv.1 kv.2 d) items d.
End Dict.

(** ** ElementTree

    An element as the queries of the script see it: its tag in Clark
    notation ([{uri}local]), its text (absent or a string) and its
    children in document order. *)

#[local] Set Warnings "-register-all".
Inductive Element :=
| Elem (tag : str) (text : option str) (children : list Element).

Definition tag (e : Element) : str := let 'Elem t _ _ := e in t.
Definition text (e : Element) : option str := let 'Elem _ x _ := e in x.
Definition children (e : Element) : list Element := let 'Elem _ _ c := e in c.

(** [Element.iter()]: the element and its descendants in document
    order. *)
Fixpoint iter (e : Element) : list Element :=
  match e with
  | Elem _ _ cs => e :: flat_map iter cs
  end.

(** [bool(element)]: an element without children is false. *)
Definition element_truth (e : Element) : bool :=
  match children e with
  | [] => false
  | _ :: _ => true
  end.

(** [a or b] on the results of two [find] calls: [b] is the value
    when [a] is [None] or an element that is false. *)
Definition find_or (a : option Element) (b : result (option Element))
  : result (option Element) :=
  match a with
  | Some e => if element_truth e then Ok a else b
  | None => b
  end.

(** The namespace map [NS]. *)
Definition NS : list (str * str) :=
  [ (lit "oai", lit "http://www.openarchives.org/OAI/2.0/");
    (lit "edm", lit "http://www.europeana.eu/schemas/edm/");
    (lit "dc", lit "http://purl.org/dc/elements/1.1/");
    (lit "dcterms", lit "http://purl.org/dc/terms/");
    (lit "ore", lit "http://www.openarchives.org/ore/terms/") ].

(** [s.split(":", 1)] when [s] has a colon. *)
Fixpoint split_colon (s : str) : option (str * str) :=
  match s with
  | [] => None
  | c :: t =>
      if c =? 58 then Some ([], t)
      else '(a, b) ← split_colon t; Some (c :: a, b)
  end.

(** The tag a path step names: [prefix:local] is looked up in the
    namespace map, and ElementPath raises [SyntaxError] for a prefix
    the map lacks; a name without a colon is used as it is.  A name
    that begins with the colon is no name to the tokenizer: it yields
    the colon as an operator, and the lookup of that operator raises
    [KeyError]. *)
Definition qualify (ns : list (str * str)) (name : str) : result str :=
  match split_colon name with
  | None => Ok name
  | Some ([], _) => Raise KeyError
  | Some (prefix, local) =>
      match dict_get prefix ns with
      | Some uri => Ok (lit "{" ++ uri ++ lit "}" ++ local)
      | None => Raise SyntaxError
      end
  end.

(** The paths of the script have one step: [name] and [./name] select
    children, [.//name] selects descendants.  The step is taken to be
    a plain name (no wildcard, predicate or further step). *)
Definition findall (e : Element) (path : str) (ns : list (str * str))
  : result (list Element) :=
  let '(candidates, name) :=
    if is_prefix (lit ".//") path
    then (flat_map iter (children e), drop 3 path)
    else if is_prefix (lit "./") path
    then (children e, drop 2 path)
    else (children e, path) in
  let* t := qualify ns name in
  Ok (filter (fun c => tag c = t) candidates).

Definition find (e : Element) (path : str) (ns : list (str * str))
  : result (option Element) :=
  let* l := findall e path ns in Ok (head l).

(** [e.findtext(path, default="", namespaces=ns)] *)
Definition findtext (e : Element) (path : str) (ns : list (str * str))
  : result str :=
  let* o := find e path ns in
  Ok match o with
     | None => []
     | Some el => default [] (text el)
     end.

(** ** EDM field extraction *)

Definition resolve_qname (qname : str) : str :=
  match split_colon qname with
  | None => qname
  | Some (prefix, local) =>
      match dict_get prefix NS with
      | None => qname
      | Some _ => lit ".//" ++ prefix ++ lit ":" ++ local
      end
  end.

Definition extract_edm_field_from_record (record_el : Element)
    (edm_field_qname : str) : result str :=
  let* md := find record_el (lit "oai:metadata") NS in
  match md with
  | None => Ok []
  | Some md =>
      let xpath := resolve_qname edm_field_qname in
      let* el := find md xpath NS in
      match el with
      | Some (Elem _ (Some (c :: t)) _) => Ok (strip (c :: t))
      | _ =>
          if bool_decide (edm_field_qname = lit "edm:isShownAt") then
            let* a := find md (lit ".//edm:isShownBy") NS in
            let* el2 := find_or a (find md (lit ".//dc:identifier") NS) in
            match el2 with
            | Some (Elem _ (Some (c :: t)) _) => Ok (strip (c :: t))
            | _ => Ok []
            end
          else Ok []
      end
  end.

(** ** The fetcher

    One pass through [urlopen] and [resp.read()] either gives the
    response as it came over the wire or raises; [HTTPError] carries
    the status and the headers of the error response. *)

Inductive attempt_outcome :=
| Responded (status : Z) (headers : list (str * str)) (raw : bytes)
| HTTPFailed (code : Z) (headers : list (str * str))
| Failed (e : exn).

(** What the fetcher takes from Python and its library: the floats
    with the product [backoff * (attempt + 1)], the comparison [>] and
    [float(s)] ([None] is [ValueError]); [time.sleep], which raises
    for a wait it does not accept ([ValueError] for a negative one,
    [OverflowError] for one too large) and otherwise sleeps;
    [str.lower]; [gzip.decompress], [zlib.decompress] and
    [zlib.decompress(raw, -zlib.MAX_WBITS)]. *)
Record PyLib := {
  float : Type;
  py_float : str -> option float;
  float_times : float -> Z -> float;
  float_gt : float -> float -> bool;
  time_sleep : float -> option exn;
  str_lower : str -> str;
  gzip_decompress : bytes -> result bytes;
  zlib_decompress : bytes -> result bytes;
  zlib_decompress_raw : bytes -> result bytes }.

Section Fetcher.

Variable py : PyLib.

(** [max(a, b)]: [b] when [b > a], else [a]. *)
Definition py_max (a b : float py) : float py :=
  if float_gt py b a then b else a.

(** The wait the [HTTPError] handler computes (the handler's first
    lines, up to the test for the last attempt).  The headers are
    copied into a plain dictionary, so the name is looked up as it is
    spelled. *)
Definition http_error_wait (backoff : float py) (attempt : nat) (status : Z)
    (headers : list (str * str)) : float py :=
  let headers := dict_of_items headers in
  let retry_after := dict_get (lit "Retry-After") headers in
  let wait := float_times py backoff (Z.of_nat attempt + 1) in
  if ((status =? 429)%Z || (status =? 503)%Z) && truthy retry_after then
    match retry_after ≫= py_float py with
    | Some r => py_max wait r
    | None => wait
    end
  else wait.

(** The decompression of a body by its [Content-Encoding]; a
    [zlib.error] of the first [zlib.decompress] leads to the second
    try, any other exception leaves the block. *)
Definition decompress (ce : str) (raw : bytes) : result bytes :=
  if bool_decide (str_lower py ce = lit "gzip") then gzip_decompress py raw
  else if bool_decide (str_lower py ce = lit "deflate")
          || bool_decide (str_lower py ce = lit "zlib") then
    match zlib_decompress py raw with
    | Raise ZlibError => zlib_decompress_raw py raw
    | r => r
    end
  else Ok raw.

(** How the [try] block ends: with the [return], in the handler of
    [HTTPError], in the handler of [Exception], or with an exception
    that neither handler catches. *)
Inductive try_outcome :=
| Returned (r : Z * str * bytes * list (str * str))
| HTTPCaught (code : Z) (headers : list (str * str))
| Caught (e : exn)
| Uncaught (e : exn).

(** The handler an exception raised in the block meets; an
    [HTTPError] without headers has [e.headers or {}] empty. *)
Definition handler_of (e : exn) : try_outcome :=
  match e with
  | HTTPError code => HTTPCaught code []
  | _ => if is_Exception e then Caught e else Uncaught e
  end.

Definition try_block (o : attempt_outcome) : try_outcome :=
  match o with
  | Responded status headers raw =>
      let headers := dict_of_items headers in
      let ct := default [] (dict_get (lit "Content-Type") headers) in
      let ce := default [] (dict_get (lit "Content-Encoding") headers) in
      match decompress ce raw with
      | Ok raw => Returned (status, ct, raw, headers)
      | Raise e => handler_of e
      end
  | HTTPFailed code headers => HTTPCaught code headers
  | Failed e => handler_of e
  end.

(** The loop [for attempt in range(retries)], from [attempt] on with
    [remaining] iterations to go.  [urlopen i] is what attempt [i]
    meets.  The result comes with the waits slept, oldest first;
    [Ok None] is the fall-through return of a loop that ran no
    attempt.  An exception of [time.sleep] is raised inside a handler
    and leaves the function. *)
Fixpoint safe_open_url_from (urlopen : nat -> attempt_outcome)
    (retries : Z) (backoff : float py) (remaining attempt : nat)
    (last_err : option exn) (slept : list (float py))
  : result (option (Z * str * bytes * list (str * str))) * list (float py) :=
  match remaining with
  | O =>
      match last_err with
      | Some e => (Raise e, slept)
      | None => (Ok None, slept)
      end
  | S remaining' =>
      match try_block (urlopen attempt) with
      | Returned r => (Ok (Some r), slept)
      | HTTPCaught status headers =>
          let wait := http_error_wait backoff attempt status headers in
          if (Z.of_nat attempt =? retries - 1)%Z
          then (Raise (HTTPError status), slept)
          else
            match time_sleep py wait with
            | Some e => (Raise e, slept)
            | None =>
                safe_open_url_from urlopen retries backoff remaining'
                  (S attempt) (Some (HTTPError status)) (slept ++ [wait])
            end
      | Caught e =>
          if (Z.of_nat attempt =? retries - 1)%Z
          then (Raise e, slept)
          else
            let wait := float_times py backoff (Z.of_nat attempt + 1) in
            match time_sleep py wait with
            | Some e' => (Raise e', slept)
            | None =>
                safe_open_url_from urlopen retries backoff remaining'
                  (S attempt) (Some e) (slept ++ [wait])
            end
      | Uncaught e => (Raise e, slept)
      end
  end.

Definition safe_open_url (urlopen : nat -> attempt_outcome)
    (retries : Z) (backoff : float py) :=
  safe_open_url_from urlopen retries backoff (Z.to_nat retries) 0 None [].

(** An attempt that ends in one of the two handlers. *)
Definition attempt_failed (o : attempt_outcome) : Prop :=
  match try_block o with
  | HTTPCaught _ _ | Caught _ => True
  | _ => False
  end.

(** The exception of an attempt that did not return. *)
Definition error_of (o : attempt_outcome) : option exn :=
  match try_block o with
  | Returned _ => None
  | HTTPCaught code _ => Some (HTTPError code)
  | Caught e | Uncaught e => Some e
  end.

(** The wait a handler computes for a failed attempt. *)
Definition wait_after (backoff : float py) (attempt : nat)
    (o : attempt_outcome) : float py :=
  match try_block o with
  | HTTPCaught status headers => http_error_wait backoff attempt status headers
  | _ => float_times py backoff (Z.of_nat attempt + 1)
  end.

(** An attempt that is retried: it fails and its wait is slept. *)
Definition retried (urlopen : nat -> attempt_outcome) (backoff : float py)
    (i : nat) : Prop :=
  attempt_failed (urlopen i)
  /\ time_sleep py (wait_after backoff i (urlopen i)) = None.

(** The waits of the first [k] attempts. *)
Definition waits_before (urlopen : nat -> attempt_outcome)
    (backoff : float py) (k : nat) : list (float py) :=
  map (fun i => wait_after backoff i (urlopen i)) (seq 0 k).

End Fetcher.

(** ** Parsing with one repair pass

    The parser is [ET.fromstring]; [None] is [ET.ParseError].  The
    result also tells what the diagnostic dump receives. *)

Section Parse.
Variable ET_fromstring : str -> option Element.

(** [fetch_and_parse] after the bytes arrived. *)
Definition parse_with_repair (raw_text : str)
  : result (Element * str) * option str :=
  let text := clean_xml raw_text in
  match ET_fromstring text with
  | Some root => (Ok (root, text), None)
  | None =>
      let repaired := AMP_FIX_sub text in
      match ET_fromstring repaired with
      | Some root => (Ok (root, repaired), None)
      | None => (Raise RuntimeError, Some text)
      end
  end.
End Parse.

(** ** Decimal numerals *)

Fixpoint digits_from (fuel : nat) (n : N) (acc : str) : str :=
  match fuel with
  | O => acc
  | S fuel' =>
      let acc' := (48 + n mod 10) :: acc in
      if n <? 10 then acc' else digits_from fuel' (n / 10) acc'
  end.

(** [str(n)] for a natural number: [log2 n + 1] digits are enough. *)
Definition str_of_N (n : N) : str :=
  digits_from (S (N.to_nat (N.log2 n))) n [].

(** [str(z)] *)
Definition str_of_Z (z : Z) : str :=
  match z with
  | Zneg p => 45 :: str_of_N (Npos p)
  | _ => str_of_N (Z.to_N z)
  end.

(** ** JSON

    The values of the [json] module.  A number with a fraction or an
    exponent, and the constants [NaN], [Infinity] and [-Infinity], are
    kept as their lexeme. *)

Inductive json :=
| JNull
| JBool (b : bool)
| JInt (z : Z)
| JFloat (lexeme : str)
| JStr (s : str)
| JList (l : list json)
| JDict (d : list (str * json)).

Definition QUOTE : char := 34.
Definition BACKSLASH : char := 92.

Definition hex_digit (n : N) : char :=
  if n <? 10 then 48 + n else 87 + n.

(** One character of a string literal under [ensure_ascii=False]. *)
Definition json_escape_char (c : char) : str :=
  if c =? QUOTE then [BACKSLASH; QUOTE]
  else if c =? BACKSLASH then [BACKSLASH; BACKSLASH]
  else if c =? 10 then [BACKSLASH; 110]
  else if c =? 13 then [BACKSLASH; 114]
  else if c =? 9 then [BACKSLASH; 116]
  else if c =? 8 then [BACKSLASH; 98]
  else if c =? 12 then [BACKSLASH; 102]
  else if c <? 32 then
    [BACKSLASH; 117; 48; 48; hex_digit (c / 16); hex_digit (c mod 16)]
  else [c].

Definition json_string (s : str) : str :=
  QUOTE :: flat_map json_escape_char s ++ [QUOTE].

(** [separator.join(parts)] *)
Fixpoint join (sep : str) (parts : list str) : str :=
  match parts with
  | [] => []
  | [p] => p
  | p :: rest => p ++ sep ++ join sep rest
  end.

Definition newline_indent (level : nat) : str :=
  NL :: repeat 32 (2 * level).

(** [json.dumps(v, ensure_ascii=False, indent=2)] at nesting [level]. *)
Fixpoint json_dumps_at (level : nat) (v : json) : str :=
  match v with
  | JNull => lit "null"
  | JBool true => lit "true"
  | JBool false => lit "false"
  | JInt z => str_of_Z z
  | JFloat lexeme => lexeme
  | JStr s => json_string s
  | JList [] => lit "[]"
  | JList l =>
      lit "[" ++ newline_indent (S level)
      ++ join (lit "," ++ newline_indent (S level))
              (map (json_dumps_at (S level)) l)
      ++ newline_indent level ++ lit "]"
  | JDict [] => lit "{}"
  | JDict d =>
      lit "{" ++ newline_indent (S level)
      ++ join (lit "," ++ newline_indent (S level))
              (map (fun kv => json_string kv.1 ++ lit ": "
                              ++ json_dumps_at (S level) kv.2) d)
      ++ newline_indent level ++ lit "}"
  end.

Definition json_dumps (v : json) : str := json_dumps_at 0 v.

(** *** The decoder *)

Definition is_json_ws (c : char) : bool :=
  (c =? 32) || (c =? 9) || (c =? 10) || (c =? 13).

Fixpoint skip_ws (s : str) : str :=
  match s with
  | c :: t => if is_json_ws c then skip_ws t else s
  | [] => []
  end.

Definition is_digit (c : char) : bool := in_range 48 57 c.

Definition hex_value (c : char) : option N :=
  if in_range 48 57 c then Some (c - 48)
  else if in_range 97 102 c then Some (c - 87)
  else if in_range 65 70 c then Some (c - 55)
  else None.

(** The four hex digits after [\u]. *)
Definition hex4 (s : str) : option (N * str) :=
  match s with
  | a :: b :: c :: d :: rest =>
      a ← hex_value a; b ← hex_value b; c ← hex_value c; d ← hex_value d;
      Some (((a * 16 + b) * 16 + c) * 16 + d, rest)
  | _ => None
  end.

Definition simple_escape (c : char) : option char :=
  if c =? QUOTE then Some QUOTE
  else if c =? BACKSLASH then Some BACKSLASH
  else if c =? 47 then Some 47
  else if c =? 98 then Some 8
  else if c =? 102 then Some 12
  else if c =? 110 then Some 10
  else if c =? 114 then Some 13
  else if c =? 116 then Some 9
  else None.

(** A string literal after its opening quote (strict mode: no raw
    control characters); a high and a low surrogate escape in a row
    make one code point. *)
Fixpoint scan_string (fuel : nat) (s : str) (acc : str)
  : option (str * str) :=
  match fuel with
  | O => None
  | S fuel' =>
      match s with
      | [] => None
      | c :: t =>
          if c =? QUOTE then Some (rev acc, t)
          else if c =? BACKSLASH then
            match t with
            | [] => None
            | e :: t' =>
                if e =? 117 then
                  '(u, r) ← hex4 t';
                  match r with
                  | b :: v :: r' =>
                      if in_range 55296 56319 u && (b =? BACKSLASH)
                         && (v =? 117)
                      then
                        match hex4 r' with
                        | Some (u2, r'') =>
                            if in_range 56320 57343 u2
                            then scan_string fuel' r''
                                   ((65536 + N.lor (N.shiftl (u - 55296) 10)
                                                   (u2 - 56320)) :: acc)
                            else scan_string fuel' r (u :: acc)
                        | None => None
                        end
                      else scan_string fuel' r (u :: acc)
                  | _ => scan_string fuel' r (u :: acc)
                  end
                else
                  x ← simple_escape e; scan_string fuel' t' (x :: acc)
            end
          else if c <? 32 then None
          else scan_string fuel' t (c :: acc)
      end
  end.

Fixpoint span_digits (s : str) : str * str :=
  match s with
  | c :: t =>
      if is_digit c then let '(d, r) := span_digits t in (c :: d, r)
      else ([], s)
  | [] => ([], [])
  end.

(** The value of a run of decimal digits. *)
Definition N_of_digits (d : str) : N :=
  fold_left (fun n c => n * 10 + (c - 48)) d 0.

(** The number pattern of the scanner: an optional minus sign, then
    [0] or a run of digits that does not start with [0], then an
    optional fraction (a dot and digits) and an optional exponent
    ([e] or [E], an optional sign, digits). *)
Definition scan_number (s : str) : option (json * str) :=
  let '(neg, s1) :=
    match s with
    | 45 :: t => (true, t)
    | _ => (false, s)
    end in
  let '(int_digits, s2) :=
    match s1 with
    | 48 :: t => ([48], t)
    | _ => span_digits s1
    end in
  match int_digits with
  | [] => None
  | _ :: _ =>
      let '(frac, s3) :=
        match s2 with
        | 46 :: t =>
            match span_digits t with
            | ([], _) => ([], s2)
            | (d, r) => (46 :: d, r)
            end
        | _ => ([], s2)
        end in
      let '(expo, s4) :=
        match s3 with
        | e :: t =>
            if (e =? 101) || (e =? 69) then
              let '(sign, t') :=
                match t with
                | 43 :: u => ([43], u)
                | 45 :: u => ([45], u)
                | _ => ([], t)
                end in
              match span_digits t' with
              | ([], _) => ([], s3)
              | (d, r) => (e :: sign ++ d, r)
              end
            else ([], s3)
        | [] => ([], s3)
        end in
      let sign := if neg then [45] else [] in
      match frac, expo with
      | [], [] =>
          let n := Z.of_N (N_of_digits int_digits) in
          Some (JInt (if neg then - n else n)%Z, s4)
      | _, _ => Some (JFloat (sign ++ int_digits ++ frac ++ expo), s4)
      end
  end.

(** A keyword at the head of the text. *)
Definition scan_keyword (kw : str) (v : json) (s : str)
  : option (json * str) :=
  if is_prefix kw s then Some (v, drop (length kw) s) else None.

(** [scan_once] with the object and array loops. *)
Fixpoint scan_value (fuel : nat) (s : str) : option (json * str) :=
  match fuel with
  | O => None
  | S fuel' =>
      match s with
      | [] => None
      | c :: t =>
          if c =? QUOTE then
            '(x, r) ← scan_string (length t) t []; Some (JStr x, r)
          else if c =? 123 then
            match skip_ws t with
            | 125 :: r => Some (JDict [], r)
            | 34 :: r => scan_members fuel' r []
            | _ => None
            end
          else if c =? 91 then
            match skip_ws t with
            | 93 :: r => Some (JList [], r)
            | r => scan_elements fuel' r []
            end
          else
            match scan_keyword (lit "null") JNull s with
            | Some x => Some x
            | None =>
            match scan_keyword (lit "true") (JBool true) s with
            | Some x => Some x
            | None =>
            match scan_keyword (lit "false") (JBool false) s with
            | Some x => Some x
            | None =>
            match scan_number s with
            | Some x => Some x
            | None =>
            match scan_keyword (lit "NaN") (JFloat (lit "NaN")) s with
            | Some x => Some x
            | None =>
            match scan_keyword (lit "Infinity") (JFloat (lit "Infinity")) s with
            | Some x => Some x
            | None =>
                scan_keyword (lit "-Infinity") (JFloat (lit "-Infinity")) s
            end end end end end end
      end
  end
(** The members of an object, after the opening quote of a key. *)
with scan_members (fuel : nat) (s : str) (acc : list (str * json))
  : option (json * str) :=
  match fuel with
  | O => None
  | S fuel' =>
      '(key, r) ← scan_string (length s) s [];
      match skip_ws r with
      | 58 :: r1 =>
          '(v, r2) ← scan_value fuel' (skip_ws r1);
          let acc := acc ++ [(key, v)] in
          match skip_ws r2 with
          | 125 :: r3 => Some (JDict (dict_of_items acc), r3)
          | 44 :: r3 =>
              match skip_ws r3 with
              | 34 :: r4 => scan_members fuel' r4 acc
              | _ => None
              end
          | _ => None
          end
      | _ => None
      end
  end
(** The elements of an array, at the start of an element. *)
with scan_elements (fuel : nat) (s : str) (acc : list json)
  : option (json * str) :=
  match fuel with
  | O => None
  | S fuel' =>
      '(v, r) ← scan_value fuel' s;
      let acc := acc ++ [v] in
      match skip_ws r with
      | 93 :: r1 => Some (JList acc, r1)
      | 44 :: r1 => scan_elements fuel' (skip_ws r1) acc
      | _ => None
      end
  end.

(** [json.loads(s)]: [None] is [JSONDecodeError].  A leading byte
    order mark, a missing value and text after the value are errors.
    The decoder is the grammar: the limits of an interpreter (the
    recursion limit for nested values, the digit limit for integers)
    are not part of it. *)
Definition json_loads (s : str) : option json :=
  match s with
  | 65279 :: _ => None
  | _ =>
      '(v, r) ← scan_value (S (length s)) (skip_ws s);
      match skip_ws r with
      | [] => Some v
      | _ :: _ => None
      end
  end.

(** ** Files

    The file system maps a path to the bytes of the file. *)

Abbreviation FS := (gmap (list N) (list N)) (only parsing).

(** [open(path, "a")] followed by a write. *)
Definition fs_append (path : str) (data : bytes) (fs : FS) : FS :=
  <[path := default [] (fs !! path) ++ data]> fs.

Definition encode_text (s : str) : result bytes :=
  match utf8_encode s with
  | Some b => Ok b
  | None => Raise UnicodeEncodeError
  end.

(** ** The envelope *)

Definition ListRecords : str := lit "ListRecords".
Definition ListIdentifiers : str := lit "ListIdentifiers".

Definition wrapper_open_tag (verb : str) : str :=
  if bool_decide (verb = ListRecords)
  then lit "<OAI-PMH>" ++ [NL] ++ lit "<ListRecords>" ++ [NL]
  else if bool_decide (verb = ListIdentifiers)
  then lit "<OAI-PMH>" ++ [NL] ++ lit "<ListIdentifiers>" ++ [NL]
  else lit "<OAI-PMH>" ++ [NL].

Definition wrapper_close_tag (verb : str) : str :=
  if bool_decide (verb = ListRecords)
  then lit "</ListRecords>" ++ [NL] ++ lit "</OAI-PMH>" ++ [NL]
  else if bool_decide (verb = ListIdentifiers)
  then lit "</ListIdentifiers>" ++ [NL] ++ lit "</OAI-PMH>" ++ [NL]
  else lit "</OAI-PMH>" ++ [NL].

(** The size of the window [ensure_open_wrapper] reads from the end. *)
#[local] Set Warnings "-abstract-large-number".
Definition TAIL_WINDOW : nat := 8192.

(** [ensure_open_wrapper].  The tags are ASCII, so their UTF-8
    encoding is the text itself.  The tail is read as bytes and decoded
    with [errors="ignore"]; [rfind] gives an index into the decoded
    text, and [seek(-tail_len + idx, SEEK_END)] uses that index as a
    byte offset. *)
Definition ensure_open_wrapper (out_path verb : str) (fs : FS) : FS :=
  let open_tag := wrapper_open_tag verb in
  let close_tag := wrapper_close_tag verb in
  match fs !! out_path with
  | None | Some [] => <[out_path := open_tag]> fs
  | Some content =>
      let size := length content in
      let tail_len := (TAIL_WINDOW `min` size)%nat in
      let tail := utf8_decode_ignore (drop (size - tail_len) content) in
      match str_rfind close_tag tail with
      | Some idx => <[out_path := take (size - tail_len + idx) content]> fs
      | None => fs
      end
  end.

Definition write_close_wrapper (out_path verb : str) (fs : FS) : FS :=
  fs_append out_path (wrapper_close_tag verb) fs.

Definition is_paginated (verb : str) : bool :=
  bool_decide (verb = ListRecords) || bool_decide (verb = ListIdentifiers).

Definition oai_params_first_call (verb : str)
    (metadata_prefix set_spec : option str) : list (str * str) :=
  let params := [(lit "verb", verb)] in
  if is_paginated verb then
    let params :=
      if truthy metadata_prefix
      then dict_set (lit "metadataPrefix") (default [] metadata_prefix) params
      else params in
    if truthy set_spec
    then dict_set (lit "set") (default [] set_spec) params
    else params
  else params.

(** ** The checkpoint *)

Definition state_path_for (out_path : str) : str :=
  out_path ++ lit ".state.json".

(** [save_state]: the document goes to a sibling file that then
    replaces the checkpoint. *)
Definition save_state (path : str) (state : list (str * json)) (fs : FS)
  : result FS :=
  let tmp := path ++ lit ".tmp" in
  let* data := encode_text (json_dumps (JDict state)) in
  let fs := <[tmp := data]> fs in
  Ok (<[path := data]> (delete tmp fs)).

(** [load_state]: [Ok None] when the file does not exist; reading and
    decoding are not guarded. *)
Definition load_state (path : str) (fs : FS) : result (option json) :=
  match fs !! path with
  | None => Ok None
  | Some content =>
      match utf8_decode_strict content with
      | None => Raise UnicodeDecodeError
      | Some text =>
          match json_loads text with
          | Some v => Ok (Some v)
          | None => Raise JSONDecodeError
          end
      end
  end.

Definition remove_state (path : str) (fs : FS) : FS := delete path fs.

(** ** Paths of the segments *)

(** [os.path.splitext] with [/] as the separator: the extension starts
    at the last dot of the last component, leading dots aside. *)
Definition splitext (p : str) : str * str :=
  let name_start :=
    match str_rfind [47] p with
    | Some i => S i
    | None => O
    end in
  match str_rfind [46] p with
  | Some dot =>
      if (name_start <=? dot)%nat
         && negb (forallb (N.eqb 46) (take (dot - name_start) (drop name_start p)))
      then (take dot p, drop dot p)
      else (p, [])
  | None => (p, [])
  end.

(** ** The harvest of a paginated verb

    What [harvest] is given.  The pages come from the fetcher and the
    parser, which this part takes as a list of results, one for each
    call the loop makes: the root of the response, or the exception
    that [fetch_and_parse] let through. *)

Record Config := {
  base_url : str;
  verb : str;
  metadata_prefix : option str;
  set_spec : option str;
  out_path : str;
  sleep_between : Q;
  max_items : option Z;
  rotate_every : option Z;
  dump_mode : str;
  edm_field : option str;
}.

(** What a run does, in the order it does it: a page is requested; a
    segment gets its envelope opened ([ensure_open_wrapper]), an
    element and a newline appended, its closing tags appended
    ([write_close_wrapper]); a row goes to the CSV writer or to the
    JSONL file; the checkpoint is saved or removed; the loop sleeps. *)
Inductive Event :=
| EvFetch (params : list (str * str))
| EvOpen (path : str)
| EvItem (path : str) (el : Element)
| EvSeal (path : str)
| EvCsvRow (identifier datestamp value : str)
| EvJsonlRow (identifier datestamp value : str)
| EvSaveState (state : list (str * json))
| EvRemoveState
| EvSleep (seconds : Q).

Record World := {
  files : gmap (list N) (list N);
  trace : list Event;
}.

Definition emit (ev : Event) (w : World) : World :=
  {| files := files w; trace := trace w ++ [ev] |}.

Definition on_files (f : FS -> FS) (w : World) : World :=
  {| files := f (files w); trace := trace w |}.

(** The variables of the loop. *)
Record LoopState := {
  num_items : Z;
  file_index : Z;
  current_out : str;
  params : list (str * str);
  state : option (list (str * json));
  page : nat;
}.

Definition set_num_items (n : Z) (st : LoopState) : LoopState :=
  {| num_items := n; file_index := file_index st;
     current_out := current_out st; params := params st;
     state := state st; page := page st |}.

Definition set_segment (idx : Z) (out : str) (st : LoopState) : LoopState :=
  {| num_items := num_items st; file_index := idx;
     current_out := out; params := params st;
     state := state st; page := page st |}.

Definition set_params (p : list (str * str)) (st : LoopState) : LoopState :=
  {| num_items := num_items st; file_index := file_index st;
     current_out := current_out st; params := p;
     state := state st; page := page st |}.

Definition set_state (d : list (str * json)) (st : LoopState) : LoopState :=
  {| num_items := num_items st; file_index := file_index st;
     current_out := current_out st; params := params st;
     state := Some d; page := page st |}.

Definition next_page (st : LoopState) : LoopState :=
  {| num_items := num_items st; file_index := file_index st;
     current_out := current_out st; params := params st;
     state := state st; page := S (page st) |}.

Inductive exit_reason := LimitReached | LastPage.

Inductive outcome :=
| Finished (why : exit_reason)
| Aborted (e : exn)
| Starved.

(** How the work on one page ends: with the token of the page, or with
    an exception; either way with the loop variables and the world at
    that point. *)
Inductive page_result :=
| PageDone (rt : str) (st : LoopState) (w : World)
| PageRaised (e : exn) (st : LoopState) (w : World).

Section Harvest.
(** [ET.tostring(el, encoding="unicode")] *)
Variable ET_tostring : Element -> str.
Variable cfg : Config.

Definition base_name : str := (splitext (out_path cfg)).1.
Definition ext : str :=
  match (splitext (out_path cfg)).2 with
  | [] => lit ".xml"
  | e => e
  end.

Definition out_path_for_index (idx : Z) : str :=
  if (1 <? idx)%Z
  then base_name ++ lit "_part" ++ str_of_Z idx ++ ext
  else out_path cfg.

Definition st_path : str := state_path_for (out_path cfg).

Definition csv_enabled : bool :=
  bool_decide (dump_mode cfg = lit "csv")
  || bool_decide (dump_mode cfg = lit "beide").

Definition jsonl_enabled : bool :=
  bool_decide (dump_mode cfg = lit "jsonl")
  || bool_decide (dump_mode cfg = lit "beide").

(** [max_items is not None and num_items >= max_items] *)
Definition limit_reached (n : Z) : bool :=
  match max_items cfg with
  | Some m => (m <=? n)%Z
  | None => false
  end.

(** [rotate_every and num_items > 0 and num_items % rotate_every == 0] *)
Definition rotation_due (n : Z) : bool :=
  match rotate_every cfg with
  | Some r => negb (r =? 0)%Z && (0 <? n)%Z && (n mod r =? 0)%Z
  | None => false
  end.

(** The export row of one element: identifier, datestamp and the
    extracted field. *)
Definition item_fields (el : Element) : result (str * str * str) :=
  let* header :=
    if bool_decide (verb cfg = ListRecords)
    then find el (lit "./oai:header") NS
    else Ok (Some el) in
  match header with
  | None => Raise AttributeError
  | Some header =>
      let* identifier := findtext header (lit "./oai:identifier") NS in
      let* datestamp := findtext header (lit "./oai:datestamp") NS in
      let* value :=
        if bool_decide (verb cfg = ListRecords) && truthy (edm_field cfg)
        then extract_edm_field_from_record el (default [] (edm_field cfg))
        else Ok [] in
      Ok (strip identifier, strip datestamp, value)
  end.

(** The body of [for el in elements] for one element.  An exception
    leaves what was written before it. *)
Definition write_item (el : Element) (st : LoopState) (w : World)
  : option exn * LoopState * World :=
  match encode_text (ET_tostring el) with
  | Raise e => (Some e, st, w)
  | Ok data =>
      let w := on_files (fs_append (current_out st) (data ++ [NL])) w in
      let w := emit (EvItem (current_out st) el) w in
      match item_fields el with
      | Raise e => (Some e, st, w)
      | Ok (identifier, datestamp, value) =>
          let w := if csv_enabled
                   then emit (EvCsvRow identifier datestamp value) w
                   else w in
          let w := if jsonl_enabled
                   then emit (EvJsonlRow identifier datestamp value) w
                   else w in
          (None, set_num_items (num_items st + 1) st, w)
      end
  end.

(** [for el in elements], with its [break] at the limit. *)
Fixpoint write_items (elements : list Element) (st : LoopState)
    (w : World) : option exn * LoopState * World :=
  match elements with
  | [] => (None, st, w)
  | el :: rest =>
      if limit_reached (num_items st) then (None, st, w)
      else
        match write_item el st w with
        | (None, st, w) => write_items rest st w
        | raised => raised
        end
  end.

(** The rotation after a page. *)
Definition rotate (st : LoopState) (w : World) : LoopState * World :=
  if rotation_due (num_items st) then
    let w := on_files (write_close_wrapper (current_out st) (verb cfg)) w in
    let w := emit (EvSeal (current_out st)) w in
    let idx := (file_index st + 1)%Z in
    let out := out_path_for_index idx in
    let w := on_files (ensure_open_wrapper out (verb cfg)) w in
    let w := emit (EvOpen out) w in
    (set_segment idx out st, w)
  else (st, w).

(** The token of a page: the stripped text of the first
    [resumptionToken] element, or the empty string. *)
Definition token_of (root : Element) : result str :=
  let* rt_el := find root (lit ".//oai:resumptionToken") NS in
  Ok match rt_el with
     | Some (Elem _ (Some (c :: t)) _) => strip (c :: t)
     | _ => []
     end.

(** What follows the loop: seal the segment, drop the checkpoint. *)
Definition finish (st : LoopState) (w : World) : World :=
  let w := on_files (write_close_wrapper (current_out st) (verb cfg)) w in
  let w := emit (EvSeal (current_out st)) w in
  let w := on_files (remove_state st_path) w in
  emit EvRemoveState w.

(** The checkpoint after a page; [state.update] on a state that is
    [None] is an [AttributeError]. *)
Definition checkpoint (rt : str) (st : LoopState) (w : World)
  : page_result :=
  match state st with
  | None => PageRaised AttributeError st w
  | Some d =>
      let d := dict_update d
                 [(lit "file_index", JInt (file_index st));
                  (lit "num_items", JInt (num_items st));
                  (lit "resumptionToken", JStr rt)] in
      let st := set_state d st in
      match save_state st_path d (files w) with
      | Raise e => PageRaised e st w
      | Ok fs =>
          PageDone rt st (emit (EvSaveState d) (on_files (fun _ => fs) w))
      end
  end.

(** The part of an iteration after the page arrived: select, write,
    rotate, read the token, save the checkpoint. *)
Definition process_page (root : Element) (st : LoopState) (w : World)
  : page_result :=
  match findall root
          (if bool_decide (verb cfg = ListRecords)
           then lit ".//oai:record" else lit ".//oai:header") NS with
  | Raise e => PageRaised e st w
  | Ok elements =>
      match write_items elements st w with
      | (Some e, st, w) => PageRaised e st w
      | (None, st, w) =>
          let '(st, w) := rotate st w in
          match token_of root with
          | Raise e => PageRaised e st w
          | Ok rt => checkpoint rt st w
          end
      end
  end.

(** [while True].  The result is how the run ended, with the loop
    variables and the world at that point; [Starved] is a run that
    asks for a page the list does not hold.  The pause between two
    pages is the operator's [--sleep], taken to be one [time.sleep]
    accepts. *)
Fixpoint paging (responses : list (result Element)) (st : LoopState)
    (w : World) : outcome * LoopState * World :=
  if limit_reached (num_items st)
  then (Finished LimitReached, st, finish st w)
  else
    match responses with
    | [] => (Starved, st, w)
    | response :: rest =>
        let st := next_page st in
        let w := emit (EvFetch (params st)) w in
        match response with
        | Raise e => (Aborted e, st, w)
        | Ok root =>
            match process_page root st w with
            | PageRaised e st w => (Aborted e, st, w)
            | PageDone [] st w => (Finished LastPage, st, finish st w)
            | PageDone rt st w =>
                paging rest
                  (set_params [(lit "verb", verb cfg);
                               (lit "resumptionToken", rt)] st)
                  (emit (EvSleep (sleep_between cfg)) w)
            end
        end
    end.

(** The start of a run without a checkpoint to resume: the [else]
    branch of the state initialisation, then the envelope. *)
Definition fresh_start (w : World) : result (LoopState * World) :=
  let d := [(lit "base_url", JStr (base_url cfg));
            (lit "verb", JStr (verb cfg));
            (lit "metadataPrefix",
               from_option JStr JNull (metadata_prefix cfg));
            (lit "set", from_option JStr JNull (set_spec cfg));
            (lit "out_base", JStr base_name);
            (lit "file_index", JInt 1);
            (lit "num_items", JInt 0);
            (lit "resumptionToken", JStr [])] in
  let* fs := save_state st_path d (files w) in
  let w := emit (EvSaveState d) (on_files (fun _ => fs) w) in
  let out := out_path_for_index 1 in
  let w := on_files (ensure_open_wrapper out (verb cfg)) w in
  let w := emit (EvOpen out) w in
  Ok ({| num_items := 0; file_index := 1; current_out := out;
         params := oai_params_first_call (verb cfg) (metadata_prefix cfg)
                     (set_spec cfg);
         state := Some d; page := 0 |}, w).

(** The start of a run whose operator declined to resume: the output
    is emptied, the checkpoint removed, and [state] is [None]. *)
Definition restart (w : World) : LoopState * World :=
  let out := out_path_for_index 1 in
  let w := on_files (insert out []) w in
  let w := on_files (remove_state st_path) w in
  let w := emit EvRemoveState w in
  let w := on_files (ensure_open_wrapper out (verb cfg)) w in
  let w := emit (EvOpen out) w in
  ({| num_items := 0; file_index := 1; current_out := out;
      params := oai_params_first_call (verb cfg) (metadata_prefix cfg)
                  (set_spec cfg);
      state := None; page := 0 |}, w).
End Harvest.

(** ** Notions the properties are stated with *)

(** *** The repair pass, read off the pattern

    [entity_like t] tells whether the text [t] after an ampersand
    starts with a letter or [#], then letters and digits, then [;]:
    what the lookahead of [AMP_FIX] accepts. *)

Definition is_alnum (c : char) : bool :=
  in_range 65 90 c || in_range 97 122 c || in_range 48 57 c.

Fixpoint semicolon_after_alnum (t : str) : bool :=
  match t with
  | c :: t' => if is_alnum c then semicolon_after_alnum t' else c =? SEMI
  | [] => false
  end.

Definition entity_like (t : str) : bool :=
  match t with
  | c :: t' =>
      (in_range 65 90 c || in_range 97 122 c || (c =? 35))
      && semicolon_after_alnum t'
  | [] => false
  end.

(** The repair as one pass over the text. *)
Fixpoint escape_amp (s : str) : str :=
  match s with
  | [] => []
  | c :: t =>
      if (c =? AMP) && negb (entity_like t)
      then lit "&amp;" ++ escape_amp t
      else c :: escape_amp t
  end.

(** [repaired_from text r]: [r] is [text] with [&amp;] in the place of
    each ampersand that no entity-like text follows, and nothing else
    changed. *)
Inductive repaired_from : str -> str -> Prop :=
| repaired_nil : repaired_from [] []
| repaired_keep c s r :
    (c = AMP -> entity_like s = true) ->
    repaired_from s r -> repaired_from (c :: s) (c :: r)
| repaired_escape s r :
    entity_like s = false ->
    repaired_from s r -> repaired_from (AMP :: s) (lit "&amp;" ++ r).

(** *** References of XML 1.0

    The text after an ampersand that makes a reference: a character
    reference ([#] and decimal digits, or [#x] and hexadecimal digits,
    then [;]) or an entity reference (a name, then [;]). *)

Definition is_name_start (c : char) : bool :=
  (c =? 58) || in_range 65 90 c || (c =? 95) || in_range 97 122 c
  || in_range 192 214 c || in_range 216 246 c || in_range 248 767 c
  || in_range 880 893 c || in_range 895 8191 c || in_range 8204 8205 c
  || in_range 8304 8591 c || in_range 11264 12271 c
  || in_range 12289 55295 c || in_range 63744 64975 c
  || in_range 65008 65533 c || in_range 65536 983039 c.

Definition is_name_char (c : char) : bool :=
  is_name_start c || (c =? 45) || (c =? 46) || in_range 48 57 c
  || (c =? 183) || in_range 768 879 c || in_range 8255 8256 c.

(** A non-empty run of characters of a class, then [;]. *)
Fixpoint run_then_semicolon (p : char -> bool) (seen : bool) (t : str)
  : bool :=
  match t with
  | c :: t' => if p c then run_then_semicolon p true t' else seen && (c =? SEMI)
  | [] => false
  end.

Definition is_hex (c : char) : bool :=
  in_range 48 57 c || in_range 65 70 c || in_range 97 102 c.

Definition xml_reference (t : str) : bool :=
  match t with
  | [] => false
  | c :: t' =>
      if c =? 35 then
        match t' with
        | d :: t'' =>
            if d =? 120 then run_then_semicolon is_hex false t''
            else run_then_semicolon is_digit false t'
        | [] => false
        end
      else is_name_start c && run_then_semicolon is_name_char true t'
  end.

(** The repair as the specification words it: escape exactly the
    ampersands that do not begin a reference. *)
Fixpoint repair_spec (s : str) : str :=
  match s with
  | [] => []
  | c :: t =>
      if (c =? AMP) && negb (xml_reference t)
      then lit "&amp;" ++ repair_spec t
      else c :: repair_spec t
  end.

(** *** Measures of a trace *)

Definition is_item (ev : Event) : bool :=
  match ev with EvItem _ _ => true | _ => false end.
Definition is_fetch (ev : Event) : bool :=
  match ev with EvFetch _ => true | _ => false end.
Definition is_seal (ev : Event) : bool :=
  match ev with EvSeal _ => true | _ => false end.
Definition is_open (ev : Event) : bool :=
  match ev with EvOpen _ => true | _ => false end.
Definition is_csv_row (ev : Event) : bool :=
  match ev with EvCsvRow _ _ _ => true | _ => false end.
Definition is_jsonl_row (ev : Event) : bool :=
  match ev with EvJsonlRow _ _ _ => true | _ => false end.

Definition count (p : Event -> bool) (tr : list Event) : nat :=
  length (filter (fun ev => p ev = true) tr).

(** The segments a trace seals, in order, each with the number of
    items written since the segment was opened ([n] counts the items
    of the segment that is open at the start of the trace). *)
Fixpoint sealed_segments (n : nat) (tr : list Event) : list (str * nat) :=
  match tr with
  | [] => []
  | EvItem _ _ :: tr' => sealed_segments (S n) tr'
  | EvOpen _ :: tr' => sealed_segments 0 tr'
  | EvSeal p :: tr' => (p, n) :: sealed_segments 0 tr'
  | _ :: tr' => sealed_segments n tr'
  end.

(** The envelope discipline of a trace that starts with the segment
    [cur] open ([None]: no segment open): items go to the open
    segment, only the open segment is sealed, and a segment is opened
    only when none is open.  The result is the segment left open, or
    [None] when the discipline is broken. *)
Fixpoint envelope (cur : option str) (tr : list Event) : option (option str) :=
  match tr with
  | [] => Some cur
  | EvItem p _ :: tr' =>
      if bool_decide (cur = Some p) then envelope cur tr' else None
  | EvSeal p :: tr' =>
      if bool_decide (cur = Some p) then envelope None tr' else None
  | EvOpen p :: tr' =>
      match cur with
      | None => envelope (Some p) tr'
      | Some _ => None
      end
  | _ :: tr' => envelope cur tr'
  end.

(** *** Stretches of a run *)

(** A stretch of a run inside the loop body: it starts with segment
    [cur] open and ends with [cur'] open, seals as many segments as it
    opens, fetches nothing and leaves the checkpoint in place. *)
Definition steady (cur cur' : str) (tr : list Event) : Prop :=
  envelope (Some cur) tr = Some (Some cur')
  /\ count is_seal tr = count is_open tr
  /\ count is_fetch tr = 0%nat
  /\ EvRemoveState ∉ tr.

(** Events that neither open nor seal a segment, fetch a page or
    drop the checkpoint; an item among them goes to [cur]. *)
Definition quiet (cur : str) (ev : Event) : Prop :=
  match ev with
  | EvItem p _ => p = cur
  | EvCsvRow _ _ _ | EvJsonlRow _ _ _ | EvSaveState _ | EvSleep _ => True
  | _ => False
  end.

(** *** Text that can be written

    A text has a UTF-8 encoding when it holds no surrogate and no
    value above U+10FFFF. *)

Definition char_ok (c : char) : bool :=
  match utf8_encode_char c with
  | Some _ => true
  | None => false
  end.

Definition text_ok (s : str) : bool := forallb char_ok s.

(** A JSON value all of whose strings can be written. *)
Fixpoint json_ok (v : json) : bool :=
  match v with
  | JNull | JBool _ | JInt _ => true
  | JFloat lexeme => text_ok lexeme
  | JStr s => text_ok s
  | JList l => forallb json_ok l
  | JDict d => forallb (fun kv => text_ok kv.1 && json_ok kv.2) d
  end.

(** *** Pages that are processed without an exception *)

(** The elements the loop selects from a page. *)
Definition elements_of (cfg : Config) (root : Element) : list Element :=
  match findall root
          (if bool_decide (verb cfg = ListRecords)
           then lit ".//oai:record" else lit ".//oai:header") NS with
  | Ok elements => elements
  | Raise _ => []
  end.

(** The text of the first [resumptionToken] element of a page. *)
Definition token_text (root : Element) : option str :=
  match find root (lit ".//oai:resumptionToken") NS with
  | Ok (Some el) => text el
  | _ => None
  end.

(** The token the loop reads from a page. *)
Definition page_token (root : Element) : str :=
  strip (default [] (token_text root)).

(** An element that can be written and has its export row. *)
Definition item_ok (ET_tostring : Element -> str) (cfg : Config)
    (el : Element) : bool :=
  match encode_text (ET_tostring el), item_fields cfg el with
  | Ok _, Ok _ => true
  | _, _ => false
  end.

Definition page_ok (ET_tostring : Element -> str) (cfg : Config)
    (root : Element) : bool :=
  forallb (item_ok ET_tostring cfg) (elements_of cfg root)
  && text_ok (page_token root).

Definition has_token (root : Element) : bool :=
  match page_token root with
  | [] => false
  | _ :: _ => true
  end.

(** The number of elements the pages hold. *)
Definition items_of (cfg : Config) (pages : list Element) : Z :=
  Z.of_nat (length (flat_map (elements_of cfg) pages)).

(** How many of [len] elements the loop writes when [n] items are
    written already. *)
Definition written (cfg : Config) (n : Z) (len : nat) : nat :=
  match max_items cfg with
  | Some m => (len `min` Z.to_nat (m - n))%nat
  | None => len
  end.

(** The loop variables that writing items leaves alone. *)
Definition same_vars (st st' : LoopState) : Prop :=
  file_index st' = file_index st
  /\ current_out st' = current_out st
  /\ params st' = params st
  /\ state st' = state st
  /\ page st' = page st.

(** The fetches of a trace that come after its [n]-th item. *)
Fixpoint fetches_after (n : nat) (tr : list Event) : nat :=
  match tr with
  | [] => 0
  | ev :: tr' =>
      match n with
      | O => (if is_fetch ev then 1 else 0) + fetches_after 0 tr'
      | S m => if is_item ev then fetches_after m tr' else fetches_after n tr'
      end
  end.

(** A stretch of a run that writes [k] items, each with its rows in
    the enabled sinks, and fetches nothing. *)
Definition tally (cfg : Config) (k : nat) (tr : list Event) : Prop :=
  count is_item tr = k
  /\ count is_csv_row tr = (if csv_enabled cfg then k else 0%nat)
  /\ count is_jsonl_row tr = (if jsonl_enabled cfg then k else 0%nat)
  /\ count is_fetch tr = 0%nat.

(** *** Example data *)

(** A plain serializer for the examples. *)
Fixpoint plain_tostring (e : Element) : str :=
  match e with
  | Elem t x cs =>
      lit "<" ++ t ++ lit ">" ++ default [] x
      ++ flat_map plain_tostring cs ++ lit "</" ++ t ++ lit ">"
  end.

Definition oai (name : string) : str :=
  lit "{http://www.openarchives.org/OAI/2.0/}" ++ lit name.
Definition edm (name : string) : str :=
  lit "{http://www.europeana.eu/schemas/edm/}" ++ lit name.
Definition dc (name : string) : str :=
  lit "{http://purl.org/dc/elements/1.1/}" ++ lit name.

(** A record with its header and the given metadata. *)
Definition example_record (identifier : string) (metadata : list Element)
  : Element :=
  Elem (oai "record") None
    [Elem (oai "header") None
       [Elem (oai "identifier") (Some (lit identifier)) [];
        Elem (oai "datestamp") (Some (lit "2024-01-01")) []];
     Elem (oai "metadata") None metadata].

(** A [ListRecords] response with the given records and token
    element. *)
Definition example_page (records : list Element) (token : option str)
  : Element :=
  Elem (oai "OAI-PMH") None
    [Elem (oai "ListRecords") None
       (records ++ [Elem (oai "resumptionToken") token []])].

Definition example_config (limit rotation : option Z) : Config :=
  {| base_url := lit "http://example.org/oai";
     verb := ListRecords;
     metadata_prefix := Some (lit "edm");
     set_spec := None;
     out_path := lit "harvest.xml";
     sleep_between := 0.3%Q;
     max_items := limit;
     rotate_every := rotation;
     dump_mode := lit "beide";
     edm_field := Some (lit "edm:isShownAt") |}.

Definition empty_world : World := {| files := ∅; trace := [] |}.

(** A record whose metadata holds an [edm:isShownBy] with text and no
    [edm:isShownAt]. *)
Definition shown_by_only : list Element :=
  [Elem (edm "isShownBy") (Some (lit "http://example.org/image.jpg")) []].

(** The same, with a [dc:identifier] after it. *)
Definition shown_by_and_identifier : list Element :=
  shown_by_only ++ [Elem (dc "identifier") (Some (lit "urn:object:9")) []].

(** A sealed segment with one record whose text holds [é] (two bytes
    in UTF-8): the part before the closing tags, and the file. *)
Definition sealed_body : bytes :=
  wrapper_open_tag ListRecords
  ++ lit "<record>" ++ [195; 169] ++ lit "</record>" ++ [NL].

Definition sealed_file : bytes := sealed_body ++ wrapper_close_tag ListRecords.

(** [float] on a plain decimal numeral (a non-empty run of digits),
    for the examples. *)
Definition decimal_seconds (s : str) : option Q :=
  match s with
  | [] => None
  | _ :: _ =>
      if forallb is_digit s then Some (inject_Z (Z.of_N (N_of_digits s)))
      else None
  end.

(** [s.lower()] on the letters [A] to [Z]. *)
Definition ascii_lower (s : str) : str :=
  map (fun c => if in_range 65 90 c then c + 32 else c) s.

(** A library with rational seconds, for the examples (whose products
    are exact in floating point as well): [time.sleep] raises
    [ValueError] for a negative wait and [OverflowError] from [2 ^ 63]
    nanoseconds on; the bodies of the examples are no compressed
    streams, which [gzip.decompress] refuses with [BadGzipFile] (an
    [OSError]) and [zlib.decompress] with [zlib.error]. *)
Definition rational_py (py_float : str -> option Q) : PyLib :=
  {| float := Q;
     py_float := py_float;
     float_times := fun b n => (b * inject_Z n)%Q;
     float_gt := fun a b => if Qlt_le_dec b a then true else false;
     time_sleep := fun q =>
       if Qlt_le_dec q 0 then Some ValueError
       else if Qlt_le_dec q (9223372036854775808 / 1000000000) then None
       else Some OverflowError;
     str_lower := ascii_lower;
     gzip_decompress := fun _ => Raise OSError;
     zlib_decompress := fun _ => Raise ZlibError;
     zlib_decompress_raw := fun _ => Raise ZlibError |}.

Definition example_py : PyLib := rational_py decimal_seconds.

(** The responses of property 5 of the specification: twice [503]
    with [Retry-After: 2], then [200]. *)
Definition busy_twice (attempt : nat) : attempt_outcome :=
  match attempt with
  | 0%nat | 1%nat => HTTPFailed 503 [(lit "Retry-After", lit "2")]
  | _ => Responded 200 [(lit "Content-Type", lit "text/xml")] (lit "<OAI-PMH/>")
  end.

(** A [503] whose header is spelled [retry-after], then [200]. *)
Definition busy_lowercase (attempt : nat) : attempt_outcome :=
  match attempt with
  | 0%nat => HTTPFailed 503 [(lit "retry-after", lit "120")]
  | _ => Responded 200 [(lit "Content-Type", lit "text/xml")] (lit "<OAI-PMH/>")
  end.

(** A [503] that asks for more seconds than [time.sleep] takes. *)
Definition busy_for_ages (attempt : nat) : attempt_outcome :=
  HTTPFailed 503 [(lit "Retry-After", lit "10000000000")].


(** Three records and two pages of them: the first page carries a
    token, the second is the last. *)
Definition three_records : list Element :=
  [example_record "a" []; example_record "b" []; example_record "c" []].

Definition first_page : Element :=
  example_page three_records (Some (lit " t1 ")).

Definition second_page : Element := example_page three_records None.

(** A run from a fresh start on an empty file system. *)
Definition run_fresh (ET_tostring : Element -> str) (cfg : Config)
    (responses : list (result Element))
  : option (outcome * LoopState * World) :=
  match fresh_start cfg empty_world with
  | Ok (st, w) => Some (paging ET_tostring cfg responses st w)
  | Raise _ => None
  end.

(** The loop variables of a run that starts with nothing written. *)
Definition example_start : LoopState :=
  {| num_items := 0;
     file_index := 1;
     current_out := lit "harvest.xml";
     params := [(lit "verb", ListRecords); (lit "metadataPrefix", lit "edm")];
     state := Some [(lit "verb", JStr ListRecords);
                    (lit "out_base", JStr (lit "harvest"));
                    (lit "file_index", JInt 1);
                    (lit "num_items", JInt 0);
                    (lit "resumptionToken", JStr [])];
     page := 0 |}.

(** *** Characters the sanitizer removes *)

(** The control characters of [INVALID_XML_CHARS]. *)
Definition is_invalid_xml_char (c : char) : bool :=
  in_range 0 8 c || (c =? 11) || (c =? 12) || in_range 14 31 c.

(** A text without such characters. *)
Definition clean (s : str) : Prop :=
  Forall (fun c => is_invalid_xml_char c = false) s.

(** *** Attempts of the fetcher *)

(** Three network failures in a row. *)
Definition always_down (attempt : nat) : attempt_outcome := Failed URLError.

(** *** The books of a run *)

Definition is_save (ev : Event) : bool :=
  match ev with EvSaveState _ => true | _ => false end.

(** The requests of a trace, in order. *)
Definition requests (tr : list Event) : list (list (str * str)) :=
  flat_map (fun ev => match ev with EvFetch p => [p] | _ => [] end) tr.

(** The keys of the checkpoint the loop assigns after a page. *)
Definition volatile_key (k : str) : Prop :=
  k = lit "file_index" \/ k = lit "num_items" \/ k = lit "resumptionToken".

(** The loop keeps the other keys of its checkpoint dictionary, and
    keeps having none when it has none. *)
Definition state_kept (st st' : LoopState) : Prop :=
  match state st, state st' with
  | None, None => True
  | Some d, Some d' =>
      forall k, ~ volatile_key k -> dict_get k d' = dict_get k d
  | _, _ => False
  end.

(** The books of a stretch of a run from [st] to [st'] with trace
    [tr]: [slack] items were written without being counted, and the
    stretch made [fetches] requests and saved [saves] checkpoints. *)
Record ledger (cfg : Config) (st st' : LoopState) (tr : list Event)
    (slack saves fetches : nat) : Prop := {
  led_items :
    Z.of_nat (count is_item tr)
    = (num_items st' - num_items st + Z.of_nat slack)%Z;
  led_mono : (num_items st <= num_items st')%Z;
  led_csv :
    count is_csv_row tr
    = if csv_enabled cfg then Z.to_nat (num_items st' - num_items st)
      else 0%nat;
  led_jsonl :
    count is_jsonl_row tr
    = if jsonl_enabled cfg then Z.to_nat (num_items st' - num_items st)
      else 0%nat;
  led_limit :
    forall N, max_items cfg = Some N -> (num_items st <= N)%Z ->
              (num_items st' + Z.of_nat slack <= N)%Z;
  led_index :
    file_index st' = (file_index st + Z.of_nat (count is_open tr))%Z;
  led_path :
    current_out st = out_path_for_index cfg (file_index st) ->
    current_out st' = out_path_for_index cfg (file_index st');
  led_page : page st' = (page st + fetches)%nat;
  led_fetch : count is_fetch tr = fetches;
  led_saves : count is_save tr = saves;
  led_state : state_kept st st';
}.

(** A request that continues a result set: the verb and the token,
    nothing else. *)
Definition token_request (cfg : Config) (p : list (str * str)) : Prop :=
  exists rt, rt <> []
             /\ p = [(lit "verb", verb cfg); (lit "resumptionToken", rt)].

(** The request that follows a page: the verb and the token of the
    page. *)
Definition request_after (cfg : Config) (response : result Element)
  : list (str * str) :=
  [(lit "verb", verb cfg);
   (lit "resumptionToken",
    match response with
    | Ok root => page_token root
    | Raise _ => []
    end)].

(** A name of letters, digits, [_] and [-], as the prefixes of field
    names are. *)
Definition plain_name (s : str) : bool :=
  forallb (fun c => is_alnum c || (c =? 95) || (c =? 45)) s.

(** A configuration whose field name has a prefix the namespace map
    lacks. *)
Definition unknown_field_config : Config :=
  {| base_url := lit "http://example.org/oai";
     verb := ListRecords;
     metadata_prefix := Some (lit "edm");
     set_spec := None;
     out_path := lit "harvest.xml";
     sleep_between := 0.3%Q;
     max_items := None;
     rotate_every := None;
     dump_mode := lit "csv";
     edm_field := Some (lit "foaf:depiction") |}.

(** Metadata whose [edm:isShownAt] holds white space only, followed by
    the elements of the fallback. *)
Definition blank_shown_at : list Element :=
  Elem (edm "isShownAt") (Some (lit "  ")) [] :: shown_by_and_identifier.

(** *** Reading back what was written *)

(** [P] holds for every number below [n]. *)
Definition all_below (n : N) (P : N -> bool) : bool :=
  (N.iter n (fun st : N * bool => (N.succ st.1, st.2 && P st.1)) (0, true)).2.

(** The bytes of a multi-byte sequence carry the bits of their field:
    a continuation byte six, the lead bytes five, four and three. *)
Definition cont_byte_ok (l : N) : bool :=
  (N.lor 128 l =? 128 + l) && (N.land (N.lor 128 l) 63 =? l).
Definition lead2_ok (h : N) : bool :=
  (N.lor 192 h =? 192 + h) && (N.land (N.lor 192 h) 31 =? h).
Definition lead3_ok (h : N) : bool :=
  (N.lor 224 h =? 224 + h) && (N.land (N.lor 224 h) 15 =? h).
Definition lead4_ok (h : N) : bool :=
  (N.lor 240 h =? 240 + h) && (N.land (N.lor 240 h) 7 =? h).

(** The values a checkpoint holds: no lists, dictionaries or floats. *)
Definition scalar (v : json) : bool :=
  match v with
  | JNull | JBool _ | JInt _ | JStr _ => true
  | JFloat _ | JList _ | JDict _ => false
  end.

(** The two hex digits of a control character read back as its
    value. *)
Definition hex_round (c : N) : bool :=
  match hex_value (hex_digit (c / 16)), hex_value (hex_digit (c mod 16)) with
  | Some a, Some b => ((0 * 16 + 0) * 16 + a) * 16 + b =? c
  | _, _ => false
  end.

(** What follows a number in a document written with an indent: the
    end of the text, a comma or a newline. *)
Definition number_end (rest : str) : bool :=
  match rest with
  | [] => true
  | c :: _ => (c =? 44) || (c =? 10)
  end.

(** A numeral as [str] writes it: digits, and no leading zero unless
    it is [0]. *)
Definition numeral (d : str) : bool :=
  match d with
  | [] => false
  | c :: t => forallb is_digit d && (negb (c =? 48) || bool_decide (t = []))
  end.

(** The members of an object as [json_dumps] writes them at the top
    level, after the opening quote of the first key. *)
Fixpoint members_body (d : list (str * json)) : str :=
  match d with
  | [] => []
  | (k, v) :: d' =>
      flat_map json_escape_char k ++ QUOTE :: lit ": " ++ json_dumps_at 1 v
      ++ match d' with
         | [] => []
         | _ :: _ => lit "," ++ newline_indent 1 ++ QUOTE :: members_body d'
         end
  end.

(** A checkpoint dictionary: distinct keys, scalar values. *)
Definition flat_state (d : list (str * json)) : Prop :=
  NoDup (map fst d) /\ forallb (fun kv => scalar kv.2) d = true.

(** The loop and the disk agree on the checkpoint: the loop holds the
    dictionary [d], the checkpoint file reads back as [d], and the
    segment the loop writes to is not the checkpoint file. *)
Definition synced (cfg : Config) (st : LoopState) (w : World)
    (d : list (str * json)) : Prop :=
  state st = Some d
  /\ flat_state d
  /\ load_state (st_path cfg) (files w) = Ok (Some (JDict d))
  /\ current_out st <> st_path cfg.

(** Two checkpoints of one harvest: they agree on every key the loop
    does not assign. *)
Definition same_harvest (d d' : list (str * json)) : Prop :=
  forall k, ~ volatile_key k -> dict_get k d' = dict_get k d.

(** A file system that holds the checkpoint of [example_start]. *)
Definition checkpointed_world : World :=
  match save_state (lit "harvest.xml.state.json")
          (default [] (state example_start)) ∅ with
  | Ok fs => {| files := fs; trace := [] |}
  | Raise _ => empty_world
  end.

(** ** Resuming

    The state initialisation of [harvest] when a checkpoint was
    loaded and the operator chose to resume.  The values of the
    checkpoint are whatever [json.load] returned. *)

Section Resume.
(** [int(v)] on a value that is neither an integer nor a boolean:
    strings, floats, and the [TypeError] for the rest. *)
Variable int_of_other : json -> result Z.
(** The truth value of a float, from its lexeme. *)
Variable float_truth : str -> bool.
(** [str(v)], as [urlencode] applies it to a value that is not a
    string. *)
Variable py_str : json -> str.
Variable cfg : Config.

(** [int(v)] *)
Definition py_int (v : json) : result Z :=
  match v with
  | JInt z => Ok z
  | JBool b => Ok (if b then 1 else 0)%Z
  | _ => int_of_other v
  end.

(** [bool(v)] *)
Definition json_truth (v : json) : bool :=
  match v with
  | JNull => false
  | JBool b => b
  | JInt z => negb (z =? 0)%Z
  | JFloat lexeme => float_truth lexeme
  | JStr s => match s with [] => false | _ :: _ => true end
  | JList l => match l with [] => false | _ :: _ => true end
  | JDict d => match d with [] => false | _ :: _ => true end
  end.

(** The text of a request parameter. *)
Definition param_text (v : json) : str :=
  match v with
  | JStr s => s
  | _ => py_str v
  end.

(** [v == s] for a string [s] *)
Definition is_string (s : str) (v : json) : bool :=
  match v with
  | JStr x => bool_decide (x = s)
  | _ => false
  end.

(** [state.get(k, dflt)] *)
Definition state_get (k : str) (dflt : json) (d : list (str * json)) : json :=
  default dflt (dict_get k d).

(** [state and state.get("verb") == verb and
    state.get("out_base") == base_name]: whether the checkpoint is
    offered for resuming.  A value that is true and not a dictionary
    has no [get]. *)
Definition offers_resume (loaded : option json) : result bool :=
  match loaded with
  | None => Ok false
  | Some v =>
      if json_truth v then
        match v with
        | JDict d =>
            Ok (is_string (verb cfg) (state_get (lit "verb") JNull d)
                && is_string (base_name cfg)
                     (state_get (lit "out_base") JNull d))
        | _ => Raise AttributeError
        end
      else Ok false
  end.

(** [oai_params_first_call] on the values of a checkpoint. *)
Definition oai_params_resumed (mp sp : json) : list (str * str) :=
  let params := [(lit "verb", verb cfg)] in
  if is_paginated (verb cfg) then
    let params :=
      if json_truth mp
      then dict_set (lit "metadataPrefix") (param_text mp) params
      else params in
    if json_truth sp
    then dict_set (lit "set") (param_text sp) params
    else params
  else params.

(** The branch that resumes, then the envelope. *)
Definition resume_start (d : list (str * json)) (w : World)
  : result (LoopState * World) :=
  let* n := py_int (state_get (lit "num_items") (JInt 0) d) in
  let rt := state_get (lit "resumptionToken") (JStr []) d in
  let params :=
    if json_truth rt
    then [(lit "verb", verb cfg); (lit "resumptionToken", param_text rt)]
    else oai_params_resumed (state_get (lit "metadataPrefix") JNull d)
           (state_get (lit "set") JNull d) in
  let* idx := py_int (state_get (lit "file_index") (JInt 1) d) in
  let out := out_path_for_index cfg idx in
  let w := on_files (ensure_open_wrapper out (verb cfg)) w in
  let w := emit (EvOpen out) w in
  Ok ({| num_items := n; file_index := idx; current_out := out;
         params := params; state := Some d; page := 0 |}, w).
End Resume.

(** ** The request URL

    [build_url]: the base without trailing question marks, a question
    mark, and the parameters as [urllib.parse.urlencode] writes them:
    [quote_plus] of the key, [=], [quote_plus] of the value, joined
    by [&].  [quote_plus] keeps the bytes of letters, digits and
    [_.-~], writes a space as [+] and every other byte of the UTF-8
    encoding as [%XX]. *)

Definition is_unreserved (b : byte) : bool :=
  in_range 65 90 b || in_range 97 122 b || in_range 48 57 b
  || (b =? 95) || (b =? 46) || (b =? 45) || (b =? 126).

Definition upper_hex (n : N) : char :=
  if n <? 10 then 48 + n else 55 + n.

Definition quote_byte (b : byte) : str :=
  if is_unreserved b then [b]
  else if b =? 32 then [43]
  else [37; upper_hex (b / 16); upper_hex (b mod 16)].

Definition quote_plus (s : str) : result str :=
  let* bs := encode_text s in Ok (flat_map quote_byte bs).

Fixpoint urlencode_parts (params : list (str * str)) : result (list str) :=
  match params with
  | [] => Ok []
  | (k, v) :: rest =>
      let* k := quote_plus k in
      let* v := quote_plus v in
      let* parts := urlencode_parts rest in
      Ok ((k ++ lit "=" ++ v) :: parts)
  end.

Definition urlencode (params : list (str * str)) : result str :=
  let* parts := urlencode_parts params in Ok (join (lit "&") parts).

(** [s.rstrip("?")] *)
Fixpoint lstrip_question (s : str) : str :=
  match s with
  | c :: t => if c =? 63 then lstrip_question t else s
  | [] => []
  end.

Definition rstrip_question (s : str) : str := rev (lstrip_question (rev s)).

Definition build_url (base : str) (params : list (str * str)) : result str :=
  let base := rstrip_question base in
  let* query := urlencode params in
  Ok (base ++ lit "?" ++ query).

(** *** Reading a query string

    What a server does with the query: split at [&], split each part
    at its first [=], undo [+] and [%XX], decode UTF-8. *)

Fixpoint unquote_plus_bytes (s : str) : option bytes :=
  match s with
  | [] => Some []
  | c :: t =>
      if c =? 43 then (32 ::.) <$> unquote_plus_bytes t
      else if c =? 37 then
        match t with
        | h :: l :: t' =>
            hv ← hex_value h; lv ← hex_value l;
            ((hv * 16 + lv) ::.) <$> unquote_plus_bytes t'
        | _ => None
        end
      else (c ::.) <$> unquote_plus_bytes t
  end.

Definition unquote_plus (s : str) : option str :=
  unquote_plus_bytes s ≫= utf8_decode_strict.

Fixpoint split_on (sep : char) (s : str) : list str :=
  match s with
  | [] => [[]]
  | c :: t =>
      if c =? sep then [] :: split_on sep t
      else match split_on sep t with
           | p :: ps => (c :: p) :: ps
           | [] => [[c]]
           end
  end.

Fixpoint split_first (sep : char) (s : str) : option (str * str) :=
  match s with
  | [] => None
  | c :: t =>
      if c =? sep then Some ([], t)
      else '(a, b) ← split_first sep t; Some (c :: a, b)
  end.

Definition decode_pair (part : str) : option (str * str) :=
  '(k, v) ← split_first 61 part;
  k ← unquote_plus k; v ← unquote_plus v; Some (k, v).

Fixpoint decode_pairs (parts : list str) : option (list (str * str)) :=
  match parts with
  | [] => Some []
  | p :: rest =>
      kv ← decode_pair p; l ← decode_pairs rest; Some (kv :: l)
  end.

Definition query_decode (q : str) : option (list (str * str)) :=
  match q with
  | [] => Some []
  | _ :: _ => decode_pairs (split_on 38 q)
  end.

(** The characters of a query string that [urlencode] writes. *)
Definition query_char (c : char) : bool :=
  is_unreserved c || (c =? 37) || (c =? 43) || (c =? 61) || (c =? 38).

(** One byte is written with characters that are neither [&], [=]
    nor [?], and read back. *)
Definition quote_byte_ok (b : byte) : bool :=
  forallb (fun c => query_char c && negb (c =? 38) && negb (c =? 61)
                    && negb (c =? 63)) (quote_byte b)
  && match unquote_plus_bytes (quote_byte b) with
     | Some [b'] => b' =? b
     | _ => false
     end.

(** ** The preflight check of the metadata prefix

    The part of [preflight_check_metadata_prefix] after the response
    is parsed: the stripped texts of the [metadataPrefix] elements
    that have text, and [SystemExit] when the desired prefix is not
    among them. *)

Definition metadata_prefixes (root : Element) : result (list str) :=
  let* els := findall root (lit ".//oai:metadataPrefix") NS in
  Ok (omap (fun el => match text el with
                      | Some (c :: t) => Some (strip (c :: t))
                      | _ => None
                      end) els).

Definition preflight_check_metadata_prefix (root : Element)
    (desired_prefix : str) : result unit :=
  let* prefixes := metadata_prefixes root in
  if bool_decide (desired_prefix ∈ prefixes) then Ok tt
  else Raise SystemExit.

(** ** A row of the JSONL export

    [write_jsonl_row]: the dictionary literal (a key that occurs
    twice keeps its first place and its last value), written by
    [json.dumps] with [ensure_ascii=False] and the default
    separators, and a newline; the file is opened as UTF-8. *)




(** ** The start of [harvest] and the guard of [main]

    [harvest] runs the two preflight requests, loads the checkpoint
    and goes on with the state initialisation; [main] calls it inside
    [try], logs [Fout: ...] for an [Exception] and raises it again,
    and logs the closing line in [finally]. *)

(** The lines of the log that tell of a failure, and the closing
    line. *)
Inductive log_line :=
| Waarschuwing (e : exn)
| Fout (e : exn)
| Einde.

Section Main.
Context {A : Type}.
Variable cfg : Config.

(** [harvest].  [identify] and [prefix_check] are what the two
    preflight calls come to, [fs] is the file system as they leave
    it, and [rest] is the function from the state initialisation on,
    given what [load_state] returned.  Only the call of
    [preflight_identify] is guarded. *)
Definition harvest (identify prefix_check : result unit)
    (rest : option json -> FS -> result A * FS * list log_line) (fs : FS)
  : result A * FS * list log_line :=
  let guarded :=
    match identify with
    | Ok _ => Ok []
    | Raise e => if is_Exception e then Ok [Waarschuwing e] else Raise e
    end in
  match guarded with
  | Raise e => (Raise e, fs, [])
  | Ok log =>
      match (if is_paginated (verb cfg) && truthy (metadata_prefix cfg)
             then prefix_check else Ok tt) with
      | Raise e => (Raise e, fs, log)
      | Ok _ =>
          match load_state (st_path cfg) fs with
          | Raise e => (Raise e, fs, log)
          | Ok state =>
              let '(r, fs', log') := rest state fs in (r, fs', log ++ log')
          end
      end
  end.

(** The [try] statement of [main] around the call of [harvest]. *)
Definition main (run : result A * FS * list log_line)
  : result A * FS * list log_line :=
  let '(r, fs, log) := run in
  match r with
  | Ok _ => (r, fs, log ++ [Einde])
  | Raise e =>
      (r, fs, log ++ (if is_Exception e then [Fout e] else []) ++ [Einde])
  end.

End Main.

(** The log of the guarded preflight. *)
Definition identify_log (identify : result unit) : list log_line :=
  match identify with
  | Ok _ => []
  | Raise e => [Waarschuwing e]
  end.

(** *** The segments on disk *)

(** The bytes one item adds to its segment. *)
Definition item_line (ET_tostring : Element -> str) (el : Element) : bytes :=
  match utf8_encode (ET_tostring el) with
  | Some data => data ++ [NL]
  | None => []
  end.

(** What the events of a trace stand for on disk: an item and the
    closing tags are added at the end of the file of the segment, a
    segment is opened by [ensure_open_wrapper], the checkpoint file
    gets the document of the state (written through the temporary
    file, which is gone afterwards) or is removed; requests, rows and
    pauses leave the files of the segments and the checkpoint alone. *)
Definition event_on_files (ET_tostring : Element -> str) (cfg : Config)
    (fs : FS) (ev : Event) : FS :=
  match ev with
  | EvItem p el => <[p := default [] (fs !! p) ++ item_line ET_tostring el]> fs
  | EvSeal p =>
      <[p := default [] (fs !! p) ++ wrapper_close_tag (verb cfg)]> fs
  | EvOpen p => ensure_open_wrapper p (verb cfg) fs
  | EvSaveState d =>
      match utf8_encode (json_dumps (JDict d)) with
      | Some data =>
          <[st_path cfg := data]> (delete (st_path cfg ++ lit ".tmp") fs)
      | None => fs
      end
  | EvRemoveState => delete (st_path cfg) fs
  | _ => fs
  end.

Definition files_after (ET_tostring : Element -> str) (cfg : Config)
    (tr : list Event) (fs : FS) : FS :=
  fold_left (event_on_files ET_tostring cfg) tr fs.

(** The segments a trace seals, in order. *)
Definition sealed_paths (tr : list Event) : list str :=
  flat_map (fun ev => match ev with EvSeal p => [p] | _ => [] end) tr.

(** A file that ends with the closing tags. *)
Definition ends_sealed (cfg : Config) (content : option bytes) : Prop :=
  exists body, content = Some (body ++ wrapper_close_tag (verb cfg)).

(** The loop writes to the segment its index names, and the index is
    at least one, as at every start of a run and in every checkpoint
    the loop saves. *)
Definition aligned (cfg : Config) (st : LoopState) : Prop :=
  current_out st = out_path_for_index cfg (file_index st)
  /\ (1 <= file_index st)%Z.

(** The indices from [a] up to [b], [b] not included. *)
Definition indices (a b : Z) : list Z :=
  map (fun k => (a + Z.of_nat k)%Z) (seq 0 (Z.to_nat (b - a))).

Definition finished (o : outcome) : bool :=
  match o with
  | Finished _ => true
  | _ => false
  end.

(** The loop variables and the world at the end of a page. *)
Definition page_end (r : page_result) : LoopState * World :=
  match r with
  | PageDone _ st w | PageRaised _ st w => (st, w)
  end.


(** The bytes the items of a trace add to the file [p]. *)
Definition lines_for (ET_tostring : Element -> str) (p : str)
    (tr : list Event) : bytes :=
  flat_map (fun ev =>
              match ev with
              | EvItem q el =>
                  if bool_decide (q = p) then item_line ET_tostring el else []
              | _ => []
              end) tr.

(** The file of segment [i] after a run that started at segment [idx]
    on the files [fs0], is at segment [idx'] and has the trace [tr]:
    what the file held at the start, for a segment the run opened
    after [ensure_open_wrapper] prepared it; then the items the run
    wrote to it; then the closing tags, for a segment the run rotated
    away from and, when [sealed_last] is set, for the last one. *)
Definition segment_file (ET_tostring : Element -> str) (cfg : Config)
    (fs0 : FS) (idx idx' : Z) (sealed_last : bool) (tr : list Event)
    (i : Z) : bytes :=
  let p := out_path_for_index cfg i in
  (if (idx <? i)%Z && (i <=? idx')%Z
   then default [] (ensure_open_wrapper p (verb cfg) fs0 !! p)
   else default [] (fs0 !! p))
  ++ lines_for ET_tostring p tr
  ++ (if ((idx <=? i)%Z && (i <? idx')%Z) || ((i =? idx')%Z && sealed_last)
      then wrapper_close_tag (verb cfg) else []).

(** The files of all segments are as [segment_file] tells, and the
    run wrote no item to a segment before [idx] or after [idx']. *)
Definition describes (ET_tostring : Element -> str) (cfg : Config)
    (fs0 : FS) (idx idx' : Z) (sealed_last : bool) (tr : list Event)
    (fs : FS) : Prop :=
  (forall i, (1 <= i)%Z ->
             default [] (fs !! out_path_for_index cfg i)
             = segment_file ET_tostring cfg fs0 idx idx' sealed_last tr i)
  /\ (forall i, (1 <= i)%Z -> (i < idx \/ idx' < i)%Z ->
                lines_for ET_tostring (out_path_for_index cfg i) tr = []).

(** The elements a trace writes, in order. *)
Definition written_elements (tr : list Event) : list Element :=
  flat_map (fun ev => match ev with EvItem _ el => [el] | _ => [] end) tr.

(** The elements the responses hold, in order. *)
Definition served (cfg : Config) (responses : list (result Element))
  : list Element :=
  flat_map (fun r => match r with
                     | Ok root => elements_of cfg root
                     | Raise _ => []
                     end) responses.

(* ===================================================================== *)
(** * Part II: properties                                                 *)
(* ===================================================================== *)

(** ** The repair pass *)

Section Repair.

Lemma star_alnum_then_semicolon (t : str) :
  star_match [(65, 90); (97, 122); (48, 57)]
    (fun u => re_match (Chr SEMI) u (fun _ => Some tt)) t
  = if semicolon_after_alnum t then Some tt else None.
Proof.
  induction t as [|c t IH]; [reflexivity|].
  cbn [star_match semicolon_after_alnum].
  replace (in_class [(65, 90); (97, 122); (48, 57)] c) with (is_alnum c)
    by (unfold in_class, is_alnum; cbn; now rewrite orb_false_r, orb_assoc).
  destruct (is_alnum c) eqn:Hc.
  - rewrite IH. destruct (semicolon_after_alnum t); [reflexivity|].
    cbn [re_match]. destruct (N.eqb_spec SEMI c) as [<-|_]; [|reflexivity].
    vm_compute in Hc. discriminate.
  - cbn [re_match]. rewrite (N.eqb_sym SEMI c).
    now destruct (c =? SEMI).
Qed.

(** What one match of [AMP_FIX] is: an ampersand that no entity-like
    text follows; the match takes the ampersand alone. *)
Lemma AMP_FIX_match (s : str) :
  re_match_at AMP_FIX s
  = match s with
    | c :: t => if (c =? AMP) && negb (entity_like t) then Some t else None
    | [] => None
    end.
Proof.
  destruct s as [|c t]; [reflexivity|].
  unfold re_match_at, AMP_FIX. cbn [re_match].
  rewrite (N.eqb_sym AMP c). destruct (c =? AMP); [|reflexivity].
  cbn [andb]. destruct t as [|d t]; [reflexivity|].
  cbn [entity_like].
  replace (in_class [(65, 90); (97, 122); (35, 35)] d)
    with (in_range 65 90 d || in_range 97 122 d || (d =? 35)).
  2:{ unfold in_class; cbn. rewrite orb_false_r, orb_assoc. f_equal.
      unfold in_range. destruct (N.eqb_spec d 35) as [->|Hne]; [reflexivity|].
      apply eq_sym, andb_false_iff.
      destruct (N.leb_spec 35 d), (N.leb_spec d 35); auto; lia. }
  destruct (in_range 65 90 d || in_range 97 122 d || (d =? 35)); [|reflexivity].
  cbn [andb]. rewrite star_alnum_then_semicolon.
  now destruct (semicolon_after_alnum t).
Qed.

Lemma re_sub_from_AMP_FIX (fuel : nat) (s : str) :
  (length s < fuel)%nat ->
  re_sub_from fuel AMP_FIX (lit "&amp;") s = escape_amp s.
Proof.
  revert s. induction fuel as [|fuel IH]; intros s Hlen; [lia|].
  cbn [re_sub_from]. rewrite AMP_FIX_match.
  destruct s as [|c t]; [reflexivity|]. cbn [escape_amp].
  cbn [length] in Hlen.
  destruct ((c =? AMP) && negb (entity_like t)).
  - replace (length t <? length (c :: t))%nat with true
      by (symmetry; apply Nat.ltb_lt; cbn; lia).
    rewrite IH by lia. reflexivity.
  - rewrite IH by lia. reflexivity.
Qed.

(** The repair pass is the one-pass escape. *)
Lemma AMP_FIX_sub_escape (s : str) : AMP_FIX_sub s = escape_amp s.
Proof. apply re_sub_from_AMP_FIX. lia. Qed.

Lemma amp_entity_unfold : lit "&amp;" = [AMP; 97; 109; 112; SEMI].
Proof. reflexivity. Qed.

Lemma is_alnum_not_amp (c : char) : is_alnum c = true -> (c =? AMP) = false.
Proof.
  intros H. destruct (N.eqb_spec c AMP) as [->|]; [|reflexivity].
  vm_compute in H. discriminate.
Qed.

(** The text the lookahead reads holds no ampersand, so the pass
    leaves the verdict of the lookahead as it was. *)
Lemma semicolon_after_alnum_escape (t : str) :
  semicolon_after_alnum (escape_amp t) = semicolon_after_alnum t.
Proof.
  induction t as [|c t IH]; [reflexivity|].
  cbn [escape_amp semicolon_after_alnum].
  destruct (is_alnum c) eqn:Hc.
  - rewrite (is_alnum_not_amp c Hc). cbn [andb semicolon_after_alnum].
    now rewrite Hc.
  - destruct ((c =? AMP) && negb (entity_like t)) eqn:E.
    + apply andb_true_iff in E as [E _]. apply N.eqb_eq in E. subst c.
      reflexivity.
    + cbn [semicolon_after_alnum]. now rewrite Hc.
Qed.

Lemma entity_like_escape (t : str) :
  entity_like (escape_amp t) = entity_like t.
Proof.
  destruct t as [|c t]; [reflexivity|].
  cbn [escape_amp].
  destruct ((c =? AMP) && negb (entity_like t)) eqn:E.
  - apply andb_true_iff in E as [E _]. apply N.eqb_eq in E. subst c.
    reflexivity.
  - cbn [entity_like]. now rewrite semicolon_after_alnum_escape.
Qed.

Lemma entity_like_amp_entity (r : str) :
  entity_like ([97; 109; 112; SEMI] ++ r) = true.
Proof. reflexivity. Qed.

Lemma escape_amp_after_entity (r : str) :
  escape_amp ([97; 109; 112; SEMI] ++ r) = [97; 109; 112; SEMI] ++ escape_amp r.
Proof. reflexivity. Qed.

Lemma escape_amp_idempotent (s : str) :
  escape_amp (escape_amp s) = escape_amp s.
Proof.
  induction s as [|c t IH]; [reflexivity|].
  cbn [escape_amp].
  destruct ((c =? AMP) && negb (entity_like t)) eqn:E.
  - rewrite amp_entity_unfold.
    change ([AMP; 97; 109; 112; SEMI] ++ escape_amp t)
      with (AMP :: [97; 109; 112; SEMI] ++ escape_amp t).
    cbn [escape_amp]. rewrite entity_like_amp_entity.
    rewrite N.eqb_refl. cbn [andb negb].
    rewrite escape_amp_after_entity. cbn [app]. now rewrite IH.
  - cbn [escape_amp]. rewrite entity_like_escape, E. now rewrite IH.
Qed.

Lemma escape_amp_repaired (s : str) : repaired_from s (escape_amp s).
Proof.
  induction s as [|c t IH]; [constructor|].
  cbn [escape_amp].
  destruct ((c =? AMP) && negb (entity_like t)) eqn:E.
  - apply andb_true_iff in E as [Ec Et]. apply N.eqb_eq in Ec. subst c.
    apply negb_true_iff in Et. now constructor.
  - constructor; [|exact IH]. intros ->.
    rewrite N.eqb_refl in E. cbn [andb] in E.
    now apply negb_false_iff in E.
Qed.

(** After the pass every ampersand starts an entity-like text. *)
Lemma escape_amp_ampersands (s pre post : str) :
  escape_amp s = pre ++ AMP :: post -> entity_like post = true.
Proof.
  revert pre. induction s as [|c t IH]; intros pre H.
  - destruct pre; discriminate.
  - cbn [escape_amp] in H.
    destruct ((c =? AMP) && negb (entity_like t)) eqn:E.
    + rewrite amp_entity_unfold in H. cbn [app] in H.
      destruct pre as [|p0 pre]; cbn [app] in H.
      { injection H as <-. apply entity_like_amp_entity. }
      injection H as _ H.
      do 4 (destruct pre as [|? pre]; cbn [app] in H;
            [discriminate H | injection H as _ H]).
      exact (IH _ H).
    + destruct pre as [|p0 pre]; cbn [app] in H.
      * injection H as -> <-. rewrite N.eqb_refl in E. cbn [andb] in E.
        apply negb_false_iff in E. now rewrite entity_like_escape.
      * injection H as _ H. exact (IH _ H).
Qed.

(** A run of characters that ends at the semicolon the lookahead
    found is read the same before and after the pass. *)
Lemma run_then_semicolon_escape (p : N -> bool) (seen : bool) (u : str) :
  p SEMI = false -> semicolon_after_alnum u = true ->
  run_then_semicolon p seen (escape_amp u) = run_then_semicolon p seen u.
Proof.
  intros Hsemi. revert seen. induction u as [|d u IH]; intros seen Hu;
    [reflexivity|].
  cbn [semicolon_after_alnum] in Hu. cbn [escape_amp].
  destruct (is_alnum d) eqn:Hd.
  - rewrite (is_alnum_not_amp d Hd). cbn [andb run_then_semicolon].
    destruct (p d); [now apply IH|reflexivity].
  - apply N.eqb_eq in Hu. subst d.
    change (SEMI =? AMP) with false. cbn [andb run_then_semicolon].
    now rewrite Hsemi.
Qed.

Lemma xml_reference_escape (t : str) :
  entity_like t = true -> xml_reference (escape_amp t) = xml_reference t.
Proof.
  destruct t as [|c u]; [reflexivity|]. cbn [entity_like]. intros H.
  apply andb_true_iff in H as [Hc Hu].
  assert (Hamp : (c =? AMP) = false).
  { destruct (N.eqb_spec c AMP) as [->|]; [|reflexivity].
    vm_compute in Hc. discriminate. }
  cbn [escape_amp]. rewrite Hamp. cbn [andb xml_reference].
  destruct (c =? 35).
  - destruct u as [|d u]; [reflexivity|].
    pose proof (run_then_semicolon_escape is_digit false (d :: u) eq_refl Hu)
      as Hdigits.
    cbn [semicolon_after_alnum] in Hu. cbn [escape_amp] in Hdigits |- *.
    destruct (is_alnum d) eqn:Hd.
    + rewrite (is_alnum_not_amp d Hd) in Hdigits |- *.
      cbn [andb] in Hdigits |- *.
      destruct (d =? 120); [|exact Hdigits].
      now apply run_then_semicolon_escape.
    + apply N.eqb_eq in Hu. subst d. exact Hdigits.
  - now rewrite run_then_semicolon_escape.
Qed.

(** When the entity-like texts of the input are references, every
    ampersand of the repaired text begins a reference. *)
Lemma escape_amp_references (s pre post : str) :
  (forall pre' post',
      s = pre' ++ AMP :: post' -> entity_like post' = true ->
      xml_reference post' = true) ->
  escape_amp s = pre ++ AMP :: post -> xml_reference post = true.
Proof.
  revert pre. induction s as [|c t IH]; intros pre Hrefs H.
  - destruct pre; discriminate.
  - assert (Hrefs' : forall pre' post',
               t = pre' ++ AMP :: post' -> entity_like post' = true ->
               xml_reference post' = true).
    { intros pre' post' ->. apply (Hrefs (c :: pre')). reflexivity. }
    cbn [escape_amp] in H.
    destruct ((c =? AMP) && negb (entity_like t)) eqn:E.
    + rewrite amp_entity_unfold in H. cbn [app] in H.
      destruct pre as [|p0 pre]; cbn [app] in H.
      { injection H as <-. reflexivity. }
      injection H as _ H.
      do 4 (destruct pre as [|? pre]; cbn [app] in H;
            [discriminate H | injection H as _ H]).
      exact (IH _ Hrefs' H).
    + destruct pre as [|p0 pre]; cbn [app] in H.
      * injection H as -> <-. rewrite N.eqb_refl in E. cbn [andb] in E.
        apply negb_false_iff in E. rewrite (xml_reference_escape t E).
        now apply (Hrefs []).
      * injection H as _ H. exact (IH _ Hrefs' H).
Qed.

(** What the pass does: it puts [&amp;] in the place of exactly
    those ampersands that are not followed by a letter or [#], then
    letters and digits, then [;], and changes nothing else; after the
    pass every ampersand of the text starts such a sequence; and when
    every such sequence of the input is a reference of XML, every
    ampersand of the repaired text begins a reference. *)
Theorem AMP_FIX_sub_repairs (text : str) :
  repaired_from text (AMP_FIX_sub text)
  /\ (forall pre post,
        AMP_FIX_sub text = pre ++ AMP :: post -> entity_like post = true)
  /\ ((forall pre post,
         text = pre ++ AMP :: post -> entity_like post = true ->
         xml_reference post = true) ->
      forall pre post,
        AMP_FIX_sub text = pre ++ AMP :: post -> xml_reference post = true).
Proof.
  rewrite AMP_FIX_sub_escape. split; [|split].
  - apply escape_amp_repaired.
  - intros pre post. apply escape_amp_ampersands.
  - intros Hrefs pre post. now apply escape_amp_references.
Qed.

Lemma AMP_FIX_sub_repairs_witness :
  repaired_from (lit "A&B") (AMP_FIX_sub (lit "A&B"))
  /\ entity_like (lit "amp;B") = true
  /\ xml_reference (lit "amp;B") = true.
Proof.
  destruct (AMP_FIX_sub_repairs (lit "A&B")) as (Hrepaired & Hamp & Hrefs).
  split; [exact Hrepaired|]. split.
  - apply (Hamp (lit "A") (lit "amp;B")). reflexivity.
  - apply (Hrefs) with (pre := lit "A"); [|reflexivity].
    intros pre post Htext Hlike.
    destruct pre as [|a [|b pre]]; cbn [app] in Htext.
    + discriminate Htext.
    + injection Htext as _ <-. discriminate Hlike.
    + injection Htext as _ _ Htext.
      destruct pre as [|? [|? ?]]; discriminate Htext.
Defined.

(** C4: the repair pass leaves the ampersand of [&#;] as it is,
    although it opens no reference of XML (a character reference
    needs a digit); the pass that escapes every ampersand which opens
    no reference, as the comment on [AMP_FIX] and the specification
    have it, escapes this one.  A document whose only flaw is that
    ampersand is therefore not repaired: a parser that refuses the
    text is given the same text again, and [fetch_and_parse] raises
    and dumps it. *)
Theorem AMP_FIX_sub_keeps_invalid_reference :
  let text := lit "<a>&#;</a>" in
  xml_reference (lit "#;</a>") = false
  /\ entity_like (lit "#;</a>") = true
  /\ AMP_FIX_sub text = text
  /\ repair_spec text = lit "<a>&amp;#;</a>"
  /\ AMP_FIX_sub text <> repair_spec text
  /\ forall ET_fromstring : str -> option Element,
       ET_fromstring text = None ->
       parse_with_repair ET_fromstring text = (Raise RuntimeError, Some text).
Proof.
  cbv zeta. repeat split; try reflexivity.
  - vm_compute. discriminate.
  - intros ET_fromstring Hrefused. unfold parse_with_repair.
    change (clean_xml (lit "<a>&#;</a>")) with (lit "<a>&#;</a>").
    rewrite Hrefused.
    change (AMP_FIX_sub (lit "<a>&#;</a>")) with (lit "<a>&#;</a>").
    now rewrite Hrefused.
Qed.

(** C9: the repair pass is idempotent. *)
Theorem AMP_FIX_sub_idempotent (text : str) :
  AMP_FIX_sub (AMP_FIX_sub text) = AMP_FIX_sub text.
Proof. rewrite !AMP_FIX_sub_escape. apply escape_amp_idempotent. Qed.

End Repair.

(** ** Field extraction *)

Section Extraction.

Lemma split_colon_app (prefix local : str) :
  58 ∉ prefix -> split_colon (prefix ++ 58 :: local) = Some (prefix, local).
Proof.
  induction prefix as [|c p IH]; intros Hnot; [reflexivity|].
  cbn [app split_colon].
  destruct (N.eqb_spec c 58) as [->|_].
  - exfalso. apply Hnot. constructor.
  - rewrite IH; [reflexivity|]. intros Hin. apply Hnot. now constructor.
Qed.

Lemma is_prefix_app (p s : str) : is_prefix p (p ++ s) = true.
Proof.
  induction p as [|c p IH]; [reflexivity|].
  cbn [app is_prefix]. now rewrite N.eqb_refl, IH.
Qed.

(** A descendant path finds the first element with the tag among the
    descendants, in document order. *)
Lemma find_descendant (e : Element) (prefix local uri : str) :
  58 ∉ prefix ->
  dict_get prefix NS = Some uri ->
  find e (lit ".//" ++ prefix ++ 58 :: local) NS
  = Ok (head (filter (fun c => tag c = lit "{" ++ uri ++ lit "}" ++ local)
                (flat_map iter (children e)))).
Proof.
  intros Hp Hns. unfold find, findall.
  rewrite is_prefix_app.
  change (drop 3 (lit ".//" ++ prefix ++ 58 :: local))
    with (prefix ++ 58 :: local).
  unfold qualify. rewrite split_colon_app by assumption. rewrite Hns.
  destruct prefix; [discriminate Hns|reflexivity].
Qed.

(** Extraction without the fallback: for a field [prefix:local]
    whose prefix the namespace map knows, the value is the stripped
    text of the first element with that name anywhere below the
    metadata element, when that text is not empty. *)
Lemma extract_first_match (record_el md el : Element)
    (prefix local uri x : str) :
  find record_el (lit "oai:metadata") NS = Ok (Some md) ->
  58 ∉ prefix ->
  dict_get prefix NS = Some uri ->
  head (filter (fun c => tag c = lit "{" ++ uri ++ lit "}" ++ local)
          (flat_map iter (children md))) = Some el ->
  text el = Some x -> x <> [] ->
  extract_edm_field_from_record record_el (prefix ++ 58 :: local)
  = Ok (strip x).
Proof.
  intros Hmd Hp Hns Hel Hx Hne.
  unfold extract_edm_field_from_record. rewrite Hmd. cbn [bind].
  unfold resolve_qname. rewrite split_colon_app by assumption. rewrite Hns.
  change (lit ":" ++ local) with (58 :: local).
  rewrite (find_descendant md prefix local uri Hp Hns), Hel. cbn [bind].
  destruct el as [t x' cs]. cbn [text] in Hx. subst x'.
  destruct x as [|c r]; [contradiction|]. reflexivity.
Qed.

(** C5 on the code: a record without [edm:isShownAt] whose metadata
    holds an [edm:isShownBy] with text yields the empty string, and
    the [dc:identifier] when there is one: the element found for
    [edm:isShownBy] has no children, so [or] passes it over. *)
Theorem extract_passes_over_isShownBy :
  extract_edm_field_from_record (example_record "id1" shown_by_only)
    (lit "edm:isShownAt") = Ok []
  /\ extract_edm_field_from_record
       (example_record "id1" shown_by_and_identifier)
       (lit "edm:isShownAt") = Ok (lit "urn:object:9")
  /\ find (Elem (oai "metadata") None shown_by_only)
       (lit ".//edm:isShownBy") NS
     = Ok (Some (Elem (edm "isShownBy")
                   (Some (lit "http://example.org/image.jpg")) [])).
Proof. repeat split; vm_compute; reflexivity. Qed.

End Extraction.

(** ** The envelope of an existing file *)

Section Envelope.

(** An absent or empty file receives the opening tag and nothing
    else. *)
Lemma ensure_open_wrapper_new (out_path verb : str) (fs : FS) :
  fs !! out_path = None \/ fs !! out_path = Some [] ->
  ensure_open_wrapper out_path verb fs
  = <[out_path := wrapper_open_tag verb]> fs.
Proof. intros [H|H]; unfold ensure_open_wrapper; now rewrite H. Qed.

(** The tags are ASCII: their encoding is the text itself. *)
Lemma wrapper_tags_ascii (verb : str) :
  utf8_encode (wrapper_open_tag verb) = Some (wrapper_open_tag verb)
  /\ utf8_encode (wrapper_close_tag verb) = Some (wrapper_close_tag verb).
Proof.
  unfold wrapper_open_tag, wrapper_close_tag.
  repeat case_bool_decide; split; reflexivity.
Qed.

(** C6 on the code: the closing tags of [sealed_file] begin at byte
    [length sealed_body], and [ensure_open_wrapper] cuts the file one
    byte before that, at the index the closing tags have in the
    decoded tail: the newline that ends the record is lost. *)
Theorem ensure_open_wrapper_cuts_by_characters :
  let path := lit "harvest.xml" in
  let fs : FS := {[ path := sealed_file ]} in
  ensure_open_wrapper path ListRecords fs !! path
  = Some (take (length sealed_body - 1) sealed_body)
  /\ take (length sealed_body - 1) sealed_body <> sealed_body
  /\ str_rfind (wrapper_close_tag ListRecords) (utf8_decode_ignore sealed_file)
     = Some (length sealed_body - 1)%nat.
Proof.
  cbv zeta. split; [|split].
  - unfold ensure_open_wrapper. rewrite lookup_singleton_eq.
    vm_compute. reflexivity.
  - vm_compute. discriminate.
  - vm_compute. reflexivity.
Qed.

End Envelope.

Section AsciiTail.

Lemma is_prefix_length (p s : str) :
  is_prefix p s = true -> (length p <= length s)%nat.
Proof.
  revert s. induction p as [|a p IH]; intros s H; [cbn; lia|].
  destruct s as [|b s]; [discriminate|]. cbn [is_prefix] in H.
  apply andb_true_iff in H as [_ H]. apply IH in H. cbn [length]. lia.
Qed.

Lemma str_rfind_short (p s : str) :
  (length s < length p)%nat -> str_rfind p s = None.
Proof.
  induction s as [|c s IH]; intros Hlen.
  - destruct p; [cbn in Hlen; lia|reflexivity].
  - cbn [str_rfind]. rewrite IH by (cbn [length] in Hlen; lia).
    destruct (is_prefix p (c :: s)) eqn:E; [|reflexivity].
    apply is_prefix_length in E. lia.
Qed.

(** The last occurrence of a text in a text that ends with it. *)
Lemma str_rfind_suffix (p x : str) :
  p <> [] -> str_rfind p (x ++ p) = Some (length x).
Proof.
  intros Hp. induction x as [|c x IH].
  - cbn [app length]. destruct p as [|a p]; [contradiction|].
    cbn [str_rfind]. rewrite str_rfind_short by (cbn [length]; lia).
    rewrite <- (app_nil_r (a :: p)) at 2. now rewrite is_prefix_app.
  - cbn [app str_rfind length]. now rewrite IH.
Qed.

Lemma utf8_decode_ignore_ascii (fuel : nat) (bs : bytes) :
  Forall (fun b => b < 128) bs -> (length bs <= fuel)%nat ->
  utf8_decode_ignore_from fuel bs = bs.
Proof.
  revert bs. induction fuel as [|fuel IH]; intros bs Hbs Hlen.
  - destruct bs; [reflexivity|cbn [length] in Hlen; lia].
  - destruct bs as [|b bs]; [reflexivity|].
    cbn [utf8_decode_ignore_from utf8_decode_head].
    inversion Hbs as [|? ? Hb Hrest]; subst.
    replace (b <? 128) with true by (symmetry; now apply N.ltb_lt).
    change (drop 1 (b :: bs)) with bs.
    rewrite IH; [reflexivity|exact Hrest|].
    cbn [length] in Hlen. lia.
Qed.

Lemma wrapper_close_tag_short (verb : str) :
  wrapper_close_tag verb <> []
  /\ (length (wrapper_close_tag verb) <= TAIL_WINDOW)%nat.
Proof.
  unfold wrapper_close_tag.
  repeat case_bool_decide; (split; [discriminate|]);
    apply Nat.leb_le; vm_compute; reflexivity.
Qed.

(** When the bytes of the window are ASCII, a file that ends with the
    closing tags is cut exactly where they begin, and the bytes before
    them stay. *)
Lemma ensure_open_wrapper_ascii (out_path verb : str) (fs : FS)
    (body : bytes) :
  fs !! out_path = Some (body ++ wrapper_close_tag verb) ->
  Forall (fun b => b < 128) (body ++ wrapper_close_tag verb) ->
  ensure_open_wrapper out_path verb fs = <[out_path := body]> fs.
Proof.
  intros Hfile Hascii. unfold ensure_open_wrapper. rewrite Hfile.
  destruct (wrapper_close_tag_short verb) as [Hne Hshort].
  set (ct := wrapper_close_tag verb) in *.
  remember (body ++ ct) as content eqn:Econtent in |- *.
  destruct content as [|b0 content].
  { destruct body, ct; try discriminate. contradiction. }
  rewrite Econtent. clear b0 content Econtent.
  rewrite length_app.
  generalize dependent TAIL_WINDOW. intros window Hshort.
  set (cut := (length body + length ct
               - window `min` (length body + length ct))%nat).
  assert (Hcut : (cut <= length body)%nat) by (subst cut; lia).
  rewrite drop_app_le by exact Hcut.
  unfold utf8_decode_ignore. rewrite utf8_decode_ignore_ascii.
  - rewrite str_rfind_suffix by exact Hne.
    rewrite length_drop.
    replace (cut + (length body - cut))%nat with (length body) by lia.
    now rewrite take_app_length.
  - rewrite <- drop_app_le by exact Hcut. now apply Forall_drop.
  - lia.
Qed.

End AsciiTail.

(** ** The fetcher *)

Section FetcherFacts.

Variable py : PyLib.
Variable urlopen : nat -> attempt_outcome.
Variable retries : Z.
Variable backoff : float py.

Local Abbreviation run_from :=
  (safe_open_url_from py urlopen retries backoff).
Local Abbreviation wait_of i := (wait_after py backoff i (urlopen i)).

Lemma wait_after_http (i : nat) (code : Z) (headers : list (str * str)) :
  try_block py (urlopen i) = HTTPCaught code headers ->
  wait_of i = http_error_wait py backoff i code headers.
Proof. unfold wait_after. now intros ->. Qed.

Lemma wait_after_other (i : nat) (e : exn) :
  try_block py (urlopen i) = Caught e ->
  wait_of i = float_times py backoff (Z.of_nat i + 1).
Proof. unfold wait_after. now intros ->. Qed.

(** The waits already slept stay at the head of the list. *)
Lemma safe_open_url_from_slept (remaining attempt : nat)
    (last_err : option exn) (slept : list (float py)) :
  exists more, (run_from remaining attempt last_err slept).2 = slept ++ more.
Proof.
  revert attempt last_err slept.
  induction remaining as [|n IH]; intros attempt last_err slept;
    cbn [safe_open_url_from].
  - exists []. rewrite app_nil_r. now destruct last_err.
  - destruct (try_block py (urlopen attempt)) as [r|status headers|e|e].
    + exists []. now rewrite app_nil_r.
    + destruct (Z.of_nat attempt =? retries - 1)%Z;
        [exists []; now rewrite app_nil_r|].
      destruct (time_sleep py _); [exists []; now rewrite app_nil_r|].
      edestruct IH as [more ->]. rewrite <- app_assoc. eauto.
    + destruct (Z.of_nat attempt =? retries - 1)%Z;
        [exists []; now rewrite app_nil_r|].
      destruct (time_sleep py _); [exists []; now rewrite app_nil_r|].
      edestruct IH as [more ->]. rewrite <- app_assoc. eauto.
    + exists []. now rewrite app_nil_r.
Qed.

(** Retried attempts before the last one lead to the next attempt,
    each with its wait slept. *)
Lemma safe_open_url_from_reach (k remaining attempt : nat)
    (last_err : option exn) (slept : list (float py)) :
  (forall i, (attempt <= i < attempt + k)%nat ->
             retried py urlopen backoff i /\ Z.of_nat i <> (retries - 1)%Z) ->
  exists last_err',
    run_from (k + remaining) attempt last_err slept
    = run_from remaining (attempt + k) last_err'
        (slept ++ map (fun i => wait_of i) (seq attempt k)).
Proof.
  revert attempt last_err slept.
  induction k as [|k IH]; intros attempt last_err slept Hfail.
  - exists last_err. cbn [seq map]. rewrite Nat.add_0_r, app_nil_r.
    reflexivity.
  - cbn [Nat.add safe_open_url_from seq map].
    destruct (Hfail attempt ltac:(lia)) as [[Hf Hs] Hne].
    apply Z.eqb_neq in Hne. rewrite Hne.
    unfold attempt_failed in Hf.
    destruct (try_block py (urlopen attempt)) as [r|status headers|e|e] eqn:E;
      [destruct Hf| | |destruct Hf].
    + rewrite (wait_after_http _ _ _ E) in Hs |- *. rewrite Hs.
      edestruct (IH (S attempt)) as (last_err' & ->);
        [intros i Hi; apply Hfail; lia|].
      exists last_err'. rewrite Nat.add_succ_r, <- app_assoc. reflexivity.
    + rewrite (wait_after_other _ _ E) in Hs |- *. rewrite Hs.
      edestruct (IH (S attempt)) as (last_err' & ->);
        [intros i Hi; apply Hfail; lia|].
      exists last_err'. rewrite Nat.add_succ_r, <- app_assoc. reflexivity.
Qed.

(** An attempt within the bound is reached when those before it are
    retried. *)
Lemma safe_open_url_reach (a : nat) :
  (Z.of_nat a < retries)%Z ->
  (forall i, (i < a)%nat -> retried py urlopen backoff i) ->
  exists n last_err,
    safe_open_url py urlopen retries backoff
    = run_from (S n) a last_err (waits_before py urlopen backoff a).
Proof.
  intros Hlt Hfail.
  destruct (safe_open_url_from_reach a (Z.to_nat retries - a) 0 None [])
    as (last_err & Hrun).
  { intros i Hi. split; [apply Hfail; lia | lia]. }
  replace (a + (Z.to_nat retries - a))%nat with (Z.to_nat retries) in Hrun
    by lia.
  cbn [Nat.add app] in Hrun.
  exists (Z.to_nat retries - a - 1)%nat, last_err.
  unfold safe_open_url. rewrite Hrun. f_equal. lia.
Qed.

Lemma waits_before_length (k : nat) :
  length (waits_before py urlopen backoff k) = k.
Proof. unfold waits_before. now rewrite length_map, length_seq. Qed.

(** A failed attempt that is reached and is not the last is followed
    by its wait, or by the exception of [time.sleep]. *)
Lemma safe_open_url_sleep (a : nat) :
  (Z.of_nat a < retries - 1)%Z ->
  (forall i, (i < a)%nat -> retried py urlopen backoff i) ->
  attempt_failed py (urlopen a) ->
  let run := safe_open_url py urlopen retries backoff in
  match time_sleep py (wait_of a) with
  | Some e => run = (Raise e, waits_before py urlopen backoff a)
  | None => exists more,
      run.2 = waits_before py urlopen backoff a ++ wait_of a :: more
  end.
Proof.
  intros Hlt Hfail Hfa run.
  destruct (safe_open_url_reach a ltac:(lia) Hfail) as (n & last_err & Hrun).
  subst run. rewrite Hrun. clear Hrun.
  cbn [safe_open_url_from].
  assert (Hne : (Z.of_nat a =? retries - 1)%Z = false)
    by (apply Z.eqb_neq; lia).
  rewrite Hne. unfold attempt_failed in Hfa.
  destruct (try_block py (urlopen a)) as [r|status headers|e|e] eqn:E;
    [destruct Hfa| | |destruct Hfa].
  - rewrite (wait_after_http _ _ _ E).
    destruct (time_sleep py _); [reflexivity|].
    edestruct safe_open_url_from_slept as [more ->].
    exists more. now rewrite <- app_assoc.
  - rewrite (wait_after_other _ _ E).
    destruct (time_sleep py _); [reflexivity|].
    edestruct safe_open_url_from_slept as [more ->].
    exists more. now rewrite <- app_assoc.
Qed.

(** The last attempt raises what it meets. *)
Lemma safe_open_url_last (a : nat) (e : exn) :
  Z.of_nat a = (retries - 1)%Z ->
  (forall i, (i < a)%nat -> retried py urlopen backoff i) ->
  error_of py (urlopen a) = Some e ->
  safe_open_url py urlopen retries backoff
  = (Raise e, waits_before py urlopen backoff a).
Proof.
  intros Hlast Hfail He.
  destruct (safe_open_url_reach a ltac:(lia) Hfail) as (n & last_err & Hrun).
  rewrite Hrun. cbn [safe_open_url_from].
  apply Z.eqb_eq in Hlast. rewrite Hlast. unfold error_of in He.
  destruct (try_block py (urlopen a)) as [r|status headers|e'|e'];
    [discriminate| | |]; now injection He as <-.
Qed.

Lemma float_gt_irrefl (x : float py) :
  (forall a b, float_gt py a b = true -> float_gt py b a = false) ->
  float_gt py x x = false.
Proof.
  intros Hasym. destruct (float_gt py x x) eqn:E; [|reflexivity].
  rewrite (Hasym _ _ E) in E. discriminate.
Qed.

(** X29: the wait after an HTTP error.  Attempt [a] is reached and
    meets an HTTP error.  The header is looked up under the name
    [Retry-After] as spelled.  For a status 429 or 503 whose header
    is a number the wait is the larger of [backoff * (a + 1)] and
    that number: neither is greater than the wait, and the wait is
    one of them.  Without the header, with an empty one or with one
    that is no number the wait is [backoff * (a + 1)].  The last
    attempt raises the error; an earlier one sleeps for the wait, and
    an exception of [time.sleep] leaves the fetcher. *)
Theorem safe_open_url_wait_after_http_error
    (a : nat) (code : Z) (headers : list (str * str)) :
  (forall x y, float_gt py x y = true -> float_gt py y x = false) ->
  (Z.of_nat a < retries)%Z ->
  (forall i, (i < a)%nat -> retried py urlopen backoff i) ->
  urlopen a = HTTPFailed code headers ->
  let run := safe_open_url py urlopen retries backoff in
  let earlier := waits_before py urlopen backoff a in
  let base := float_times py backoff (Z.of_nat a + 1) in
  let retry_after := dict_get (lit "Retry-After") (dict_of_items headers) in
  let wait := http_error_wait py backoff a code headers in
  (forall v r,
      code = 429%Z \/ code = 503%Z ->
      retry_after = Some v -> v <> [] -> py_float py v = Some r ->
      float_gt py r wait = false
      /\ float_gt py base wait = false
      /\ (wait = base \/ wait = r))
  /\ (retry_after = None \/ retry_after = Some []
      \/ (exists v, retry_after = Some v /\ py_float py v = None) ->
      wait = base)
  /\ (Z.of_nat a = (retries - 1)%Z -> run = (Raise (HTTPError code), earlier))
  /\ (Z.of_nat a <> (retries - 1)%Z ->
      (time_sleep py wait = None ->
       exists more, run.2 = earlier ++ wait :: more)
      /\ (forall e, time_sleep py wait = Some e -> run = (Raise e, earlier))).
Proof.
  intros Hasym Hlt Hfail Ha run earlier base retry_after wait.
  assert (Htry : try_block py (urlopen a) = HTTPCaught code headers)
    by now rewrite Ha.
  split; [|split; [|split]].
  - intros v r Hcode Hv Hne Hr. subst wait. unfold http_error_wait.
    fold retry_after. fold base.
    assert (Hst : ((code =? 429)%Z || (code =? 503)%Z) = true).
    { destruct Hcode as [-> | ->]; reflexivity. }
    rewrite Hst, Hv. destruct v as [|c v]; [congruence|].
    cbn [andb truthy mbind option_bind]. rewrite Hr. unfold py_max.
    destruct (float_gt py r base) eqn:G.
    + split; [now apply float_gt_irrefl|]. split; [now apply Hasym|now right].
    + split; [exact G|]. split; [now apply float_gt_irrefl|now left].
  - subst wait. unfold http_error_wait. fold retry_after. fold base.
    intros [Hnone | [Hempty | (v & Hv & Hr)]].
    + rewrite Hnone. cbn [truthy]. now rewrite andb_false_r.
    + rewrite Hempty. cbn [truthy]. now rewrite andb_false_r.
    + rewrite Hv. cbn [mbind option_bind]. rewrite Hr.
      now destruct (_ && _).
  - intros Hlast. apply (safe_open_url_last a _ Hlast Hfail).
    unfold error_of. now rewrite Htry.
  - intros Hnot.
    assert (Hfa : attempt_failed py (urlopen a))
      by (unfold attempt_failed; now rewrite Htry).
    pose proof (safe_open_url_sleep a ltac:(lia) Hfail Hfa) as Hs.
    cbv zeta in Hs. rewrite (wait_after_http _ _ _ Htry) in Hs.
    fold wait in Hs. fold run in Hs. fold earlier in Hs.
    split.
    + intros Hok. now rewrite Hok in Hs.
    + intros e He. now rewrite He in Hs.
Qed.

(** X3: the wait after an HTTP error is never shorter than the
    backoff schedule, whatever the status and the headers: it is
    [backoff * (attempt + 1)] or greater than it, so a small or
    negative [Retry-After] does not shorten it. *)
Theorem http_error_wait_at_least_backoff (attempt : nat) (status : Z)
    (headers : list (str * str)) :
  let base := float_times py backoff (Z.of_nat attempt + 1) in
  let wait := http_error_wait py backoff attempt status headers in
  wait = base \/ float_gt py wait base = true.
Proof.
  cbv zeta. unfold http_error_wait.
  destruct (_ && _); [|now left].
  destruct (_ ≫= py_float py) as [r|]; [|now left].
  unfold py_max. destruct (float_gt py r _) eqn:G; [now right|now left].
Qed.


(** X5: when every attempt fails, the fetcher raises.  If every wait
    is slept it raises the error of the last attempt, after the waits
    of all attempts but the last; the wait after a network error or a
    body that does not decompress is [backoff * (attempt + 1)].  If
    [time.sleep] raises for the wait of an attempt, that exception
    leaves the fetcher, after the waits before it. *)
Theorem safe_open_url_exhausted :
  (1 <= retries)%Z ->
  (forall i, (Z.of_nat i < retries)%Z -> attempt_failed py (urlopen i)) ->
  let run := safe_open_url py urlopen retries backoff in
  ((forall i, (Z.of_nat i < retries - 1)%Z ->
              time_sleep py (wait_of i) = None) ->
   exists e, error_of py (urlopen (Z.to_nat retries - 1)) = Some e
             /\ run = (Raise e,
                       waits_before py urlopen backoff (Z.to_nat retries - 1)))
  /\ (forall k e,
        (Z.of_nat k < retries - 1)%Z ->
        (forall i, (i < k)%nat -> time_sleep py (wait_of i) = None) ->
        time_sleep py (wait_of k) = Some e ->
        run = (Raise e, waits_before py urlopen backoff k))
  /\ (forall i e,
        try_block py (urlopen i) = Caught e ->
        wait_of i = float_times py backoff (Z.of_nat i + 1)).
Proof.
  intros Hpos Hfail run. split; [|split].
  - intros Hsleep.
    pose proof (Hfail (Z.to_nat retries - 1)%nat ltac:(lia)) as Hf.
    assert (He : exists e,
               error_of py (urlopen (Z.to_nat retries - 1)) = Some e).
    { unfold attempt_failed in Hf. unfold error_of.
      destruct (try_block py _); [destruct Hf|eauto|eauto|destruct Hf]. }
    destruct He as [e He]. exists e. split; [exact He|].
    apply safe_open_url_last; [lia| |exact He].
    intros i Hi. split; [apply Hfail; lia|apply Hsleep; lia].
  - intros k e Hk Hsleep He.
    assert (Hretried : forall i, (i < k)%nat -> retried py urlopen backoff i).
    { intros i Hi. split; [apply Hfail; lia|now apply Hsleep]. }
    pose proof (safe_open_url_sleep k Hk Hretried (Hfail k ltac:(lia))) as Hs.
    cbv zeta in Hs. now rewrite He in Hs.
  - intros i e. apply wait_after_other.
Qed.

Lemma safe_open_url_from_bound (remaining attempt : nat)
    (last_err : option exn) (slept : list (float py)) :
  Z.of_nat (attempt + remaining) = retries -> (1 <= remaining)%nat ->
  let run := run_from remaining attempt last_err slept in
  run.1 <> Ok None /\ (length run.2 < length slept + remaining)%nat.
Proof.
  revert attempt last_err slept.
  induction remaining as [|n IH]; intros attempt last_err slept Hsum Hpos;
    [lia|].
  cbn [safe_open_url_from].
  destruct (Z.eqb_spec (Z.of_nat attempt) (retries - 1)) as [Heq|Hne].
  - destruct (try_block py (urlopen attempt)); cbn [fst snd];
      (split; [discriminate|lia]).
  - assert (Hn : (1 <= n)%nat) by lia.
    destruct (try_block py (urlopen attempt)) as [r|status headers|e|e];
      cbn zeta.
    4:{ cbn [fst snd]. split; [discriminate|lia]. }
    + cbn [fst snd]. split; [discriminate|lia].
    + destruct (time_sleep py _);
        [cbn [fst snd]; split; [discriminate|lia]|].
      destruct (IH (S attempt) (Some (HTTPError status))
                  (slept ++ [http_error_wait py backoff attempt
                               status headers]) ltac:(lia) Hn) as [H1 H2].
      split; [exact H1|]. rewrite length_app in H2. cbn [length] in H2. lia.
    + destruct (time_sleep py _);
        [cbn [fst snd]; split; [discriminate|lia]|].
      destruct (IH (S attempt) (Some e)
                  (slept ++ [float_times py backoff (Z.of_nat attempt + 1)])
                  ltac:(lia) Hn) as [H1 H2].
      split; [exact H1|]. rewrite length_app in H2. cbn [length] in H2. lia.
Qed.

(** X6: with at least one attempt allowed the fetcher never falls
    through: it returns a response or raises, and it sleeps fewer
    times than attempts are allowed.  With [retries <= 0] it makes no
    attempt at all and returns [None] without raising. *)
Theorem safe_open_url_attempt_bound :
  let run := safe_open_url py urlopen retries backoff in
  ((retries <= 0)%Z -> run = (Ok None, []))
  /\ ((1 <= retries)%Z ->
      run.1 <> Ok None /\ (length run.2 < Z.to_nat retries)%nat).
Proof.
  cbv zeta. unfold safe_open_url. split.
  - intros H. replace (Z.to_nat retries) with 0%nat by lia. reflexivity.
  - intros H.
    apply (safe_open_url_from_bound (Z.to_nat retries) 0 None []); lia.
Qed.

End FetcherFacts.

(** With rational seconds the bound of the wait reads as an
    inequality. *)
Lemma http_error_wait_rational (py_float : str -> option Q) (backoff : Q)
    (attempt : nat) (status : Z) (headers : list (str * str)) :
  (backoff * inject_Z (Z.of_nat attempt + 1)
   <= http_error_wait (rational_py py_float) backoff attempt status headers)%Q.
Proof.
  unfold http_error_wait.
  destruct (_ && _); [|apply Qle_refl].
  destruct (_ ≫= _) as [r|]; [|apply Qle_refl].
  unfold py_max. cbn [float_gt float_times rational_py].
  destruct (Qlt_le_dec _ r) as [H|_]; [now apply Qlt_le_weak|apply Qle_refl].
Qed.

Lemma rational_gt_asym (py_float : str -> option Q) (x y : Q) :
  float_gt (rational_py py_float) x y = true ->
  float_gt (rational_py py_float) y x = false.
Proof.
  cbn [float_gt rational_py].
  destruct (Qlt_le_dec y x) as [H|_]; [|discriminate]. intros _.
  destruct (Qlt_le_dec x y) as [H'|_]; [|reflexivity].
  exfalso. apply (Qlt_irrefl x). now apply Qlt_trans with y.
Qed.

(** Property 5 of the specification, evaluated: two waits of two
    seconds and of three, neither shorter than the two seconds asked
    for, then the body of the [200]. *)
Lemma busy_twice_then_body :
  safe_open_url example_py busy_twice 3 1.5%Q
  = (Ok (Some (200%Z, lit "text/xml", lit "<OAI-PMH/>",
               [(lit "Content-Type", lit "text/xml")])),
     [2; 1.5 * 2]%Q)
  /\ (2 <= 2)%Q /\ (2 <= 1.5 * 2)%Q.
Proof. split; [reflexivity|]. split; discriminate. Qed.

(** A wait that [time.sleep] refuses ends the fetch at once, with
    [OverflowError] in place of the [503]. *)
Lemma busy_for_ages_raises :
  safe_open_url example_py busy_for_ages 3 1.5%Q = (Raise OverflowError, []).
Proof. reflexivity. Qed.

Lemma safe_open_url_wait_after_http_error_witness :
  exists more,
    (safe_open_url example_py busy_twice 3 1.5%Q).2
    = waits_before example_py busy_twice 1.5%Q 1
      ++ http_error_wait example_py 1.5%Q 1 503 [(lit "Retry-After", lit "2")]
      :: more.
Proof.
  assert (Hfail : forall i,
             (i < 1)%nat -> retried example_py busy_twice 1.5%Q i).
  { intros i Hi. destruct i; [split; [exact I|reflexivity] | lia]. }
  destruct (safe_open_url_wait_after_http_error example_py busy_twice 3 1.5%Q
              1%nat 503%Z [(lit "Retry-After", lit "2")]
              (rational_gt_asym decimal_seconds) ltac:(lia) Hfail eq_refl)
    as (_ & _ & _ & Hsleep).
  destruct (Hsleep ltac:(lia)) as [Hok _].
  exact (Hok eq_refl).
Defined.

(** C7: a [503] on the first of three attempts whose header,
    spelled [retry-after], asks for 120 seconds, a value [float]
    reads.  The fetcher copies the headers into a plain dictionary
    and looks up [Retry-After] as spelled, so it finds nothing: the
    wait is the backoff of one and a half seconds, less than the 120
    asked for, and the next attempt follows after it. *)
Theorem lowercase_retry_after_is_ignored :
  busy_lowercase 0 = HTTPFailed 503 [(lit "retry-after", lit "120")]
  /\ py_float example_py (lit "120") = Some 120%Q
  /\ http_error_wait example_py 1.5%Q 0 503 [(lit "retry-after", lit "120")]
     = 1.5%Q
  /\ http_error_wait example_py 1.5%Q 0 503 [(lit "Retry-After", lit "120")]
     = 120%Q
  /\ safe_open_url example_py busy_lowercase 3 1.5%Q
     = (Ok (Some (200%Z, lit "text/xml", lit "<OAI-PMH/>",
                  [(lit "Content-Type", lit "text/xml")])),
        [1.5%Q])
  /\ (1.5 < 120)%Q.
Proof. repeat split. Qed.


Lemma safe_open_url_exhausted_witness :
  safe_open_url example_py always_down 3 1.5%Q
  = (Raise URLError, waits_before example_py always_down 1.5%Q 2).
Proof.
  destruct (safe_open_url_exhausted example_py always_down 3 1.5%Q
              ltac:(lia) (fun i _ => I)) as (Hlast & _ & _).
  destruct Hlast as (e & He & Hrun).
  - intros i Hi. destruct i as [|[|i]]; [reflexivity|reflexivity|lia].
  - rewrite Hrun. injection He as <-. reflexivity.
Defined.

Lemma safe_open_url_attempt_bound_witness :
  safe_open_url example_py busy_twice 0 1.5%Q = (Ok None, []).
Proof.
  apply (proj1 (safe_open_url_attempt_bound example_py busy_twice 0 1.5%Q)).
  lia.
Defined.

(** ** The checkpoint file *)

Section Checkpoint.

Context {A : Type}.
Variable cfg : Config.

Lemma load_state_raises (path : str) (fs : FS) (content : bytes) :
  fs !! path = Some content ->
  utf8_decode_strict content ≫= json_loads = None ->
  exists e,
    load_state path fs = Raise e
    /\ is_Exception e = true
    /\ (utf8_decode_strict content = None -> e = UnicodeDecodeError).
Proof.
  intros Hfile Hbad. unfold load_state. rewrite Hfile.
  destruct (utf8_decode_strict content) as [text|].
  - cbn [mbind option_bind] in Hbad. rewrite Hbad.
    exists JSONDecodeError. now repeat split.
  - exists UnicodeDecodeError. now repeat split.
Qed.

(** C3, as the code has it.  When the preflights let the run go on
    and the checkpoint file exists but is not UTF-8 or holds no JSON
    document, [load_state] raises ([UnicodeDecodeError] when the
    bytes are not UTF-8).  [harvest] calls it outside any [try], so
    the exception leaves [harvest] before the state initialisation:
    whatever the rest of [harvest] would do, it is not run, and no
    run without a checkpoint is started in its place.  [main] logs
    [Fout: ...] and the closing line and raises the exception again.
    The log holds no other line about the checkpoint, and the file
    system is as it was, the checkpoint file included.  With no
    checkpoint file the rest of [harvest] is run with no state. *)
Theorem corrupt_checkpoint_ends_run (identify prefix_check : result unit)
    (rest : option json -> FS -> result A * FS * list log_line)
    (fs : FS) (content : bytes) :
  (forall e, identify = Raise e -> is_Exception e = true) ->
  prefix_check = Ok tt ->
  (fs !! st_path cfg = Some content ->
   utf8_decode_strict content ≫= json_loads = None ->
   exists e,
     load_state (st_path cfg) fs = Raise e
     /\ is_Exception e = true
     /\ (utf8_decode_strict content = None -> e = UnicodeDecodeError)
     /\ harvest cfg identify prefix_check rest fs
        = (Raise e, fs, identify_log identify)
     /\ main (harvest cfg identify prefix_check rest fs)
        = (Raise e, fs, identify_log identify ++ [Fout e; Einde]))
  /\ (fs !! st_path cfg = None ->
      harvest cfg identify prefix_check rest fs
      = (let '(r, fs', log') := rest None fs in
         (r, fs', identify_log identify ++ log'))).
Proof.
  intros Hid Hprefix.
  assert (Hguard :
            match identify with
            | Ok _ => Ok []
            | Raise e => if is_Exception e then Ok [Waarschuwing e] else Raise e
            end = Ok (identify_log identify)).
  { destruct identify as [u|e]; [reflexivity|].
    now rewrite (Hid e eq_refl). }
  assert (Hcheck :
            (if is_paginated (verb cfg) && truthy (metadata_prefix cfg)
             then prefix_check else Ok tt) = Ok tt).
  { rewrite Hprefix. now destruct (_ && _). }
  split.
  - intros Hfile Hbad.
    destruct (load_state_raises _ _ _ Hfile Hbad) as (e & Hload & Hexc & Hutf).
    exists e. split; [exact Hload|]. split; [exact Hexc|].
    split; [exact Hutf|].
    assert (Hrun : harvest cfg identify prefix_check rest fs
                   = (Raise e, fs, identify_log identify)).
    { unfold harvest. cbv zeta. now rewrite Hguard, Hcheck, Hload. }
    split; [exact Hrun|]. rewrite Hrun. unfold main. now rewrite Hexc.
  - intros Hnone. unfold harvest. cbv zeta. rewrite Hguard, Hcheck.
    unfold load_state. now rewrite Hnone.
Qed.

End Checkpoint.

Lemma corrupt_checkpoint_ends_run_witness :
  let cfg := example_config None None in
  let fs : FS := {[ lit "harvest.xml.state.json" := lit "{" ]} in
  main (harvest cfg (Raise URLError) (Ok tt)
          (fun _ fs => (Ok tt, fs, [])) fs)
  = (Raise JSONDecodeError, fs, [Waarschuwing URLError; Fout JSONDecodeError;
                                 Einde]).
Proof.
  cbv zeta.
  assert (Hid : forall e, Raise URLError = @Raise unit e ->
                          is_Exception e = true)
    by now intros e [= <-].
  destruct (corrupt_checkpoint_ends_run (example_config None None)
              (Raise URLError) (Ok tt) (fun _ fs => (Ok tt, fs, []))
              ({[ lit "harvest.xml.state.json" := lit "{" ]} : FS) (lit "{")
              Hid eq_refl)
    as [Hbad _].
  destruct Hbad as (e & Hload & _ & _ & _ & Hmain);
    [apply lookup_singleton_eq|reflexivity|].
  rewrite Hmain. unfold load_state in Hload.
  change (st_path (example_config None None))
    with (lit "harvest.xml.state.json") in Hload.
  rewrite lookup_singleton_eq in Hload.
  vm_compute in Hload. now injection Hload as <-.
Defined.

(** C3, as the specification words it, fails: a checkpoint file that
    holds [{] is no JSON document, and loading it raises instead of
    giving no state. *)
Lemma load_state_corrupt_raises :
  let path := lit "harvest.xml.state.json" in
  let fs : FS := {[ path := lit "{" ]} in
  json_loads (lit "{") = None
  /\ load_state path fs = Raise JSONDecodeError
  /\ load_state path fs <> Ok None.
Proof.
  cbv zeta.
  assert (H : load_state (lit "harvest.xml.state.json")
                ({[ lit "harvest.xml.state.json" := lit "{" ]} : FS)
              = Raise JSONDecodeError).
  { unfold load_state. rewrite lookup_singleton_eq. reflexivity. }
  split; [reflexivity|]. split; [exact H|]. rewrite H. discriminate.
Qed.

(** ** Traces *)

Section Traces.

Lemma count_app (p : Event -> bool) (a b : list Event) :
  count p (a ++ b) = (count p a + count p b)%nat.
Proof. unfold count. now rewrite filter_app, length_app. Qed.

Lemma count_nil (p : Event -> bool) : count p [] = 0%nat.
Proof. reflexivity. Qed.

Lemma count_cons (p : Event -> bool) (ev : Event) (tr : list Event) :
  count p (ev :: tr) = ((if p ev then 1 else 0) + count p tr)%nat.
Proof.
  unfold count. rewrite filter_cons.
  destruct (p ev); case_decide; try congruence; reflexivity.
Qed.

Lemma envelope_app (cur : option str) (a b : list Event) :
  envelope cur (a ++ b) = envelope cur a ≫= fun c => envelope c b.
Proof.
  revert cur. induction a as [|ev a IH]; intros cur; [reflexivity|].
  cbn [app envelope].
  destruct ev; try apply IH.
  - destruct cur; [reflexivity|apply IH].
  - case_bool_decide; [apply IH|reflexivity].
  - case_bool_decide; [apply IH|reflexivity].
Qed.

Lemma steady_nil (cur : str) : steady cur cur [].
Proof. repeat split. apply not_elem_of_nil. Qed.

Lemma steady_app (c1 c2 c3 : str) (a b : list Event) :
  steady c1 c2 a -> steady c2 c3 b -> steady c1 c3 (a ++ b).
Proof.
  intros (Ha1 & Ha2 & Ha3 & Ha4) (Hb1 & Hb2 & Hb3 & Hb4).
  repeat split.
  - rewrite envelope_app, Ha1. exact Hb1.
  - rewrite !count_app. lia.
  - rewrite count_app. lia.
  - rewrite elem_of_app. tauto.
Qed.

End Traces.

(** ** The paging loop *)

Section LoopFacts.

Variable ET_tostring : Element -> str.
Variable cfg : Config.

Lemma steady_quiet (cur : str) (tr : list Event) :
  Forall (quiet cur) tr -> steady cur cur tr.
Proof.
  induction 1 as [|ev tr Hev _ IH]; [apply steady_nil|].
  change (ev :: tr) with ([ev] ++ tr).
  apply (steady_app cur cur cur); [|exact IH].
  destruct ev; cbn in Hev; try contradiction; subst;
    (split; [|split; [reflexivity|split; [reflexivity|]]]);
    try reflexivity;
    try (apply not_elem_of_cons; split; [discriminate|apply not_elem_of_nil]).
  cbn [envelope]. now rewrite bool_decide_eq_true_2.
Qed.

(** One element: the segment stays, and what is written goes to it. *)
Lemma write_item_steady (el : Element) (st : LoopState) (w : World)
    (o : option exn) (st' : LoopState) (w' : World) :
  write_item ET_tostring cfg el st w = (o, st', w') ->
  current_out st' = current_out st
  /\ exists tr, trace w' = trace w ++ tr
                /\ Forall (quiet (current_out st)) tr.
Proof.
  unfold write_item. intros H.
  destruct (encode_text (ET_tostring el)) as [data|e].
  2:{ injection H as <- <- <-. split; [reflexivity|].
      exists []. now rewrite app_nil_r. }
  destruct (item_fields cfg el) as [[[identifier datestamp] value]|e].
  2:{ injection H as <- <- <-. split; [reflexivity|].
      exists [EvItem (current_out st) el]. split; [reflexivity|].
      repeat constructor. }
  injection H as <- <- <-. split; [reflexivity|].
  destruct (csv_enabled cfg), (jsonl_enabled cfg); cbn [emit on_files trace];
    rewrite <- ?app_assoc; eexists; (split; [reflexivity|]);
    repeat constructor.
Qed.

Lemma write_items_steady (elements : list Element) (st : LoopState)
    (w : World) (o : option exn) (st' : LoopState) (w' : World) :
  write_items ET_tostring cfg elements st w = (o, st', w') ->
  current_out st' = current_out st
  /\ exists tr, trace w' = trace w ++ tr
                /\ Forall (quiet (current_out st)) tr.
Proof.
  revert st w. induction elements as [|el rest IH]; intros st w H;
    cbn [write_items] in H.
  - injection H as <- <- <-. split; [reflexivity|].
    exists []. now rewrite app_nil_r.
  - destruct (limit_reached cfg (num_items st)).
    { injection H as <- <- <-. split; [reflexivity|].
      exists []. now rewrite app_nil_r. }
    destruct (write_item ET_tostring cfg el st w) as [[o1 st1] w1] eqn:E1.
    apply write_item_steady in E1 as (Hc1 & tr1 & Ht1 & Hq1).
    destruct o1 as [e|].
    + injection H as <- <- <-. eauto.
    + apply IH in H as (Hc2 & tr2 & Ht2 & Hq2).
      split; [congruence|]. exists (tr1 ++ tr2).
      split; [now rewrite Ht2, Ht1, app_assoc|].
      apply Forall_app. split; [exact Hq1|]. now rewrite <- Hc1.
Qed.

Lemma rotate_steady (st : LoopState) (w : World) :
  exists tr, trace (rotate cfg st w).2 = trace w ++ tr
             /\ steady (current_out st) (current_out (rotate cfg st w).1) tr.
Proof.
  unfold rotate. destruct (rotation_due cfg (num_items st)).
  - eexists. cbn [emit on_files trace snd fst set_segment current_out].
    rewrite <- app_assoc. split; [reflexivity|].
    split; [|split; [reflexivity|split; [reflexivity|]]].
    + cbn [envelope app]. now rewrite bool_decide_eq_true_2.
    + cbn [app]. intros Hin.
      apply elem_of_cons in Hin as [Hin|Hin]; [discriminate|].
      apply elem_of_cons in Hin as [Hin|Hin]; [discriminate|].
      now apply elem_of_nil in Hin.
  - exists []. cbn [snd fst]. rewrite app_nil_r. split; [reflexivity|].
    apply steady_nil.
Qed.

Lemma checkpoint_steady (rt : str) (st : LoopState) (w : World) :
  match checkpoint cfg rt st w with
  | PageDone rt' st' w' =>
      rt' = rt
      /\ current_out st' = current_out st
      /\ exists d, state st' = Some d
                   /\ dict_get (lit "resumptionToken") d = Some (JStr rt)
                   /\ trace w' = trace w ++ [EvSaveState d]
  | PageRaised _ st' w' =>
      current_out st' = current_out st /\ trace w' = trace w
  end.
Proof.
  unfold checkpoint. destruct (state st) as [d|]; [|now split].
  destruct (save_state _ _ _); [|now split].
  repeat split. eexists. split; [reflexivity|]. split; [|reflexivity].
  unfold dict_update. cbn [fold_left fst snd].
  generalize (dict_set (lit "num_items") (JInt (num_items st))
                (dict_set (lit "file_index") (JInt (file_index st)) d)).
  intros d'. induction d' as [|[k v] d' IH]; cbn [dict_set dict_get].
  - now rewrite bool_decide_eq_true_2.
  - case_bool_decide as Hk.
    + cbn [dict_get]. now rewrite bool_decide_eq_true_2.
    + cbn [dict_get]. rewrite bool_decide_eq_false_2 by exact Hk. exact IH.
Qed.

(** A page, however its processing ends, keeps the envelope
    discipline: every segment it seals is followed by a new open one. *)
Lemma process_page_steady (root : Element) (st : LoopState) (w : World) :
  match process_page ET_tostring cfg root st w with
  | PageDone _ st' w' | PageRaised _ st' w' =>
      exists tr, trace w' = trace w ++ tr
                 /\ steady (current_out st) (current_out st') tr
  end.
Proof.
  unfold process_page.
  destruct (findall root _ NS) as [elements|e].
  2:{ exists []. rewrite app_nil_r. split; [reflexivity|apply steady_nil]. }
  destruct (write_items ET_tostring cfg elements st w) as [[o1 st1] w1] eqn:E1.
  apply write_items_steady in E1 as (Hc1 & tr1 & Ht1 & Hq1).
  apply steady_quiet in Hq1.
  destruct o1 as [e|].
  { exists tr1. now rewrite Hc1. }
  destruct (rotate_steady st1 w1) as (tr2 & Ht2 & Hs2).
  destruct (rotate cfg st1 w1) as [st2 w2]. cbn [fst snd] in Ht2, Hs2.
  rewrite Hc1 in Hs2.
  pose proof (steady_app _ _ _ _ _ Hq1 Hs2) as Hs12.
  destruct (token_of root) as [rt|e].
  2:{ exists (tr1 ++ tr2). now rewrite Ht2, Ht1, app_assoc. }
  pose proof (checkpoint_steady rt st2 w2) as Hcp.
  destruct (checkpoint cfg rt st2 w2) as [rt' st3 w3|e st3 w3].
  - destruct Hcp as (_ & Hc3 & d & _ & _ & Ht3).
    exists ((tr1 ++ tr2) ++ [EvSaveState d]).
    split; [now rewrite Ht3, Ht2, Ht1, !app_assoc|].
    apply (steady_app _ _ _ _ _ Hs12). rewrite Hc3.
    apply steady_quiet. repeat constructor.
  - destruct Hcp as (Hc3 & Ht3).
    exists (tr1 ++ tr2). rewrite Hc3.
    now rewrite Ht3, Ht2, Ht1, app_assoc.
Qed.

End LoopFacts.

(** ** Writing text *)

Section Encoding.

Lemma utf8_encode_text_ok (s : str) :
  text_ok s = true <-> is_Some (utf8_encode s).
Proof.
  induction s as [|c s IH]; cbn [text_ok forallb utf8_encode].
  - split; [eauto|reflexivity].
  - unfold char_ok. destruct (utf8_encode_char c) as [b|]; cbn [andb].
    + fold (text_ok s). rewrite IH.
      destruct (utf8_encode s); split; intros H; eauto; now destruct H.
    + split; [discriminate|]. intros [x H]. discriminate.
Qed.

Lemma text_ok_app (a b : str) :
  text_ok (a ++ b) = text_ok a && text_ok b.
Proof. apply forallb_app. Qed.

Lemma char_ok_ascii (c : char) : c < 128 -> char_ok c = true.
Proof.
  intros H. unfold char_ok, utf8_encode_char.
  now destruct (N.ltb_spec c 128); [|lia].
Qed.

Lemma text_ok_digits (fuel : nat) (n : N) (acc : str) :
  text_ok acc = true -> text_ok (digits_from fuel n acc) = true.
Proof.
  revert n acc. induction fuel as [|fuel IH]; intros n acc Hacc; [exact Hacc|].
  cbn [digits_from].
  assert (Hd : text_ok ((48 + n mod 10) :: acc) = true).
  { cbn [text_ok forallb]. fold (text_ok acc). rewrite Hacc, andb_true_r.
    apply char_ok_ascii. pose proof (N.mod_lt n 10 ltac:(lia)). lia. }
  destruct (n <? 10); [exact Hd|]. now apply IH.
Qed.

Lemma text_ok_str_of_Z (z : Z) : text_ok (str_of_Z z) = true.
Proof.
  destruct z; cbn [str_of_Z]; unfold str_of_N;
    [apply text_ok_digits; reflexivity | apply text_ok_digits; reflexivity |].
  cbn [text_ok forallb]. apply text_ok_digits. reflexivity.
Qed.

Lemma hex_digit_ascii (n : N) : n < 16 -> hex_digit n < 128.
Proof. unfold hex_digit. intros H. destruct (n <? 10); lia. Qed.

Lemma text_ok_escape_char (c : char) :
  char_ok c = true -> text_ok (json_escape_char c) = true.
Proof.
  intros Hc. unfold json_escape_char.
  repeat match goal with
         | |- context [if ?b then _ else _] => destruct b eqn:?; [reflexivity|]
         end.
  destruct (N.ltb_spec c 32) as [Hlt|_].
  - cbn [text_ok forallb].
    rewrite (char_ok_ascii (hex_digit (c / 16))), (char_ok_ascii (hex_digit (c mod 16))).
    + reflexivity.
    + apply hex_digit_ascii. apply N.mod_lt. lia.
    + apply hex_digit_ascii. apply N.Div0.div_lt_upper_bound. lia.
  - cbn [text_ok forallb]. now rewrite Hc.
Qed.

Lemma text_ok_json_string (s : str) :
  text_ok s = true -> text_ok (json_string s) = true.
Proof.
  intros Hs. unfold json_string. cbn [text_ok forallb].
  change (char_ok QUOTE) with true. cbn [andb].
  fold (text_ok (flat_map json_escape_char s ++ [QUOTE])).
  rewrite text_ok_app, andb_true_r.
  induction s as [|c s IH]; [reflexivity|].
  cbn [flat_map]. rewrite text_ok_app.
  cbn [text_ok forallb] in Hs. apply andb_true_iff in Hs as [Hc Hs].
  rewrite (text_ok_escape_char c Hc). now apply IH.
Qed.

Lemma text_ok_newline_indent (level : nat) :
  text_ok (newline_indent level) = true.
Proof.
  unfold newline_indent. cbn [text_ok forallb]. change (char_ok NL) with true.
  cbn [andb]. induction (2 * level)%nat as [|n IH]; [reflexivity|].
  cbn [repeat forallb]. now rewrite IH.
Qed.

Lemma text_ok_join (sep : str) (parts : list str) :
  text_ok sep = true -> Forall (fun p => text_ok p = true) parts ->
  text_ok (join sep parts) = true.
Proof.
  intros Hsep. induction 1 as [|p parts Hp _ IH]; [reflexivity|].
  cbn [join]. destruct parts as [|q parts]; [exact Hp|].
  rewrite !text_ok_app, Hp, Hsep. exact IH.
Qed.

(** Induction on JSON values, with the hypothesis for the members of
    lists and objects. *)
Lemma json_nested_ind (P : json -> Prop) :
  P JNull -> (forall b, P (JBool b)) -> (forall z, P (JInt z)) ->
  (forall x, P (JFloat x)) -> (forall s, P (JStr s)) ->
  (forall l, Forall P l -> P (JList l)) ->
  (forall d, Forall (fun kv => P kv.2) d -> P (JDict d)) ->
  forall v, P v.
Proof.
  intros Hnull Hbool Hint Hfloat Hstr Hlist Hdict.
  fix IH 1. intros [| b | z | x | s | l | d].
  - exact Hnull.
  - apply Hbool.
  - apply Hint.
  - apply Hfloat.
  - apply Hstr.
  - apply Hlist. induction l as [|v l IHl]; constructor; [apply IH|exact IHl].
  - apply Hdict. induction d as [|[k v] d IHd]; constructor;
      [apply IH|exact IHd].
Qed.

Lemma text_ok_json_dumps_at (v : json) :
  json_ok v = true -> forall level, text_ok (json_dumps_at level v) = true.
Proof.
  induction v as [| b | z | x | s | l IHl | d IHd] using json_nested_ind;
    intros Hok level; cbn [json_dumps_at].
  - reflexivity.
  - now destruct b.
  - apply text_ok_str_of_Z.
  - exact Hok.
  - now apply text_ok_json_string.
  - destruct l as [|v l]; [reflexivity|].
    rewrite !text_ok_app, !text_ok_newline_indent. cbn [andb].
    rewrite andb_true_r. change (text_ok (lit "[")) with true. cbn [andb].
    apply text_ok_join.
    + rewrite text_ok_app. now rewrite text_ok_newline_indent.
    + cbn [json_ok] in Hok. rewrite forallb_forall in Hok.
      apply Forall_map. rewrite Forall_forall in IHl |- *.
      intros u Hu. apply IHl; [exact Hu|]. apply Hok.
      now apply list_elem_of_In.
  - destruct d as [|kv d]; [reflexivity|].
    rewrite !text_ok_app, !text_ok_newline_indent. cbn [andb].
    rewrite andb_true_r. change (text_ok (lit "{")) with true. cbn [andb].
    apply text_ok_join.
    + rewrite text_ok_app. now rewrite text_ok_newline_indent.
    + cbn [json_ok] in Hok. rewrite forallb_forall in Hok.
      apply Forall_map. rewrite Forall_forall in IHd |- *.
      intros u Hu. specialize (Hok u (proj1 (list_elem_of_In _ _) Hu)).
      apply andb_true_iff in Hok as [Hk Hv].
      rewrite !text_ok_app, (text_ok_json_string _ Hk). cbn [andb].
      change (text_ok (lit ": ")) with true. cbn [andb].
      now apply IHd.
Qed.

(** A checkpoint whose strings can be written is saved. *)
Lemma save_state_ok (path : str) (d : list (str * json)) (fs : FS) :
  json_ok (JDict d) = true -> exists fs', save_state path d fs = Ok fs'.
Proof.
  intros Hok. unfold save_state, encode_text.
  destruct (proj1 (utf8_encode_text_ok (json_dumps (JDict d)))) as [b ->].
  - now apply text_ok_json_dumps_at.
  - cbn [bind]. eauto.
Qed.

Lemma json_ok_dict_set (k : str) (v : json) (d : list (str * json)) :
  text_ok k = true -> json_ok v = true -> json_ok (JDict d) = true ->
  json_ok (JDict (dict_set k v d)) = true.
Proof.
  intros Hk Hv. cbn [json_ok].
  induction d as [|[k' v'] d IH]; cbn [dict_set forallb fst snd]; intros Hd.
  - now rewrite Hk, Hv.
  - apply andb_true_iff in Hd as [Hkv Hd]. case_bool_decide.
    + cbn [forallb fst snd]. now rewrite Hk, Hv, Hd.
    + cbn [forallb fst snd]. rewrite Hkv. now apply IH.
Qed.

End Encoding.

Section CleanRuns.

Variable ET_tostring : Element -> str.
Variable cfg : Config.

Lemma findall_elements (root : Element) :
  findall root
    (if bool_decide (verb cfg = ListRecords)
     then lit ".//oai:record" else lit ".//oai:header") NS
  = Ok (elements_of cfg root).
Proof.
  unfold elements_of. case_bool_decide.
  - assert (H0 : exists l, findall root (lit ".//oai:record") NS = Ok l)
      by (eexists; reflexivity).
    destruct H0 as [l ->]. reflexivity.
  - assert (H0 : exists l, findall root (lit ".//oai:header") NS = Ok l)
      by (eexists; reflexivity).
    destruct H0 as [l ->]. reflexivity.
Qed.

Lemma token_of_page (root : Element) : token_of root = Ok (page_token root).
Proof.
  unfold token_of, page_token, token_text.
  assert (H0 : exists o, find root (lit ".//oai:resumptionToken") NS = Ok o)
    by (eexists; reflexivity).
  destruct H0 as [o ->]. cbn [bind].
  destruct o as [[t [[|c r]|] cs]|]; reflexivity.
Qed.

Lemma tally_nil : tally cfg 0 [].
Proof. unfold tally. now destruct (csv_enabled cfg), (jsonl_enabled cfg). Qed.

Lemma tally_app (k1 k2 : nat) (a b : list Event) :
  tally cfg k1 a -> tally cfg k2 b -> tally cfg (k1 + k2) (a ++ b).
Proof.
  intros (Ha1 & Ha2 & Ha3 & Ha4) (Hb1 & Hb2 & Hb3 & Hb4).
  unfold tally. rewrite !count_app, Ha1, Ha2, Ha3, Ha4, Hb1, Hb2, Hb3, Hb4.
  now destruct (csv_enabled cfg), (jsonl_enabled cfg).
Qed.

Lemma write_item_clean (el : Element) (st : LoopState) (w : World) :
  item_ok ET_tostring cfg el = true ->
  exists w' tr,
    write_item ET_tostring cfg el st w
    = (None, set_num_items (num_items st + 1) st, w')
    /\ trace w' = trace w ++ tr
    /\ tally cfg 1 tr.
Proof.
  unfold item_ok, write_item. intros H.
  destruct (encode_text (ET_tostring el)) as [data|e]; [|discriminate].
  destruct (item_fields cfg el) as [[[identifier datestamp] value]|e];
    [|discriminate].
  unfold tally.
  destruct (csv_enabled cfg), (jsonl_enabled cfg); eexists; eexists;
    (split; [reflexivity|]); cbn [emit on_files trace];
    rewrite <- ?app_assoc; (split; [reflexivity|]); repeat split.
Qed.

Lemma written_nil (n : Z) : written cfg n 0 = 0%nat.
Proof. unfold written. now destruct (max_items cfg). Qed.

Lemma written_at_limit (n : Z) (len : nat) :
  limit_reached cfg n = true -> written cfg n len = 0%nat.
Proof.
  unfold limit_reached, written. destruct (max_items cfg) as [m|]; [|discriminate].
  intros H. apply Z.leb_le in H. lia.
Qed.

Lemma written_below_limit (n : Z) (len : nat) :
  limit_reached cfg n = false ->
  written cfg n (S len) = S (written cfg (n + 1) len).
Proof.
  unfold limit_reached, written. destruct (max_items cfg) as [m|]; [|reflexivity].
  intros H. apply Z.leb_gt in H. lia.
Qed.

Lemma same_vars_refl (st : LoopState) : same_vars st st.
Proof. now repeat split. Qed.

(** The elements of a clean page: as many are written as the limit
    leaves room for, each with its rows. *)
Lemma write_items_clean (elements : list Element) (st : LoopState)
    (w : World) :
  forallb (item_ok ET_tostring cfg) elements = true ->
  exists st' w' tr,
    write_items ET_tostring cfg elements st w = (None, st', w')
    /\ num_items st'
       = (num_items st
          + Z.of_nat (written cfg (num_items st) (length elements)))%Z
    /\ same_vars st st'
    /\ trace w' = trace w ++ tr
    /\ tally cfg (written cfg (num_items st) (length elements)) tr.
Proof.
  revert st w. induction elements as [|el rest IH]; intros st w Hok;
    cbn [write_items length].
  - exists st, w, []. rewrite written_nil, app_nil_r.
    split; [reflexivity|]. split; [cbn; lia|].
    split; [apply same_vars_refl|]. split; [reflexivity|apply tally_nil].
  - destruct (limit_reached cfg (num_items st)) eqn:Hlim.
    { exists st, w, []. rewrite (written_at_limit _ _ Hlim), app_nil_r.
      split; [reflexivity|]. split; [cbn; lia|].
      split; [apply same_vars_refl|]. split; [reflexivity|apply tally_nil]. }
    cbn [forallb] in Hok. apply andb_true_iff in Hok as [Hel Hrest].
    destruct (write_item_clean el st w Hel) as (w1 & tr1 & -> & Ht1 & Hy1).
    destruct (IH (set_num_items (num_items st + 1) st) w1 Hrest)
      as (st' & w' & tr2 & -> & Hn & Hv & Ht2 & Hy2).
    exists st', w', (tr1 ++ tr2).
    rewrite (written_below_limit _ _ Hlim).
    cbn [set_num_items num_items] in Hn, Hy2.
    split; [reflexivity|]. split; [rewrite Hn; lia|].
    split; [exact Hv|]. split; [now rewrite Ht2, Ht1, app_assoc|].
    now apply (tally_app 1).
Qed.

Lemma rotate_tally (st : LoopState) (w : World) :
  num_items (rotate cfg st w).1 = num_items st
  /\ state (rotate cfg st w).1 = state st
  /\ exists tr, trace (rotate cfg st w).2 = trace w ++ tr /\ tally cfg 0 tr.
Proof.
  unfold rotate. destruct (rotation_due cfg (num_items st)); cbn [fst snd].
  - repeat split. eexists. cbn [emit on_files trace].
    rewrite <- app_assoc. split; [reflexivity|].
    unfold tally. now destruct (csv_enabled cfg), (jsonl_enabled cfg).
  - repeat split. exists []. rewrite app_nil_r. split; [reflexivity|].
    apply tally_nil.
Qed.

(** A clean page is processed to its checkpoint. *)
Lemma process_page_clean (root : Element) (st : LoopState) (w : World)
    (d : list (str * json)) :
  page_ok ET_tostring cfg root = true ->
  state st = Some d -> json_ok (JDict d) = true ->
  let k := written cfg (num_items st) (length (elements_of cfg root)) in
  exists st' w' tr d',
    process_page ET_tostring cfg root st w = PageDone (page_token root) st' w'
    /\ num_items st' = (num_items st + Z.of_nat k)%Z
    /\ state st' = Some d' /\ json_ok (JDict d') = true
    /\ trace w' = trace w ++ tr
    /\ tally cfg k tr.
Proof.
  intros Hpage Hst Hd k. unfold page_ok in Hpage.
  apply andb_true_iff in Hpage as [Hitems Htok].
  unfold process_page. rewrite findall_elements.
  destruct (write_items_clean (elements_of cfg root) st w Hitems)
    as (st1 & w1 & tr1 & -> & Hn1 & Hv1 & Ht1 & Hy1).
  destruct (rotate_tally st1 w1) as (Hn2 & Hs2 & tr2 & Ht2 & Hy2).
  destruct (rotate cfg st1 w1) as [st2 w2]. cbn [fst snd] in Hn2, Hs2, Ht2.
  rewrite token_of_page. unfold checkpoint.
  destruct Hv1 as (_ & _ & _ & Hstate1 & _).
  rewrite Hs2, Hstate1, Hst.
  set (d' := dict_update d _).
  assert (Hd' : json_ok (JDict d') = true).
  { subst d'. unfold dict_update. cbn [fold_left fst snd].
    repeat apply json_ok_dict_set; try reflexivity; assumption. }
  destruct (save_state_ok (st_path cfg) d' (files w2) Hd') as [fs ->].
  exists (set_state d' st2), (emit (EvSaveState d') (on_files (fun _ => fs) w2)),
    ((tr1 ++ tr2) ++ [EvSaveState d']), d'.
  split; [reflexivity|]. cbn [set_state num_items state].
  split; [now rewrite Hn2, Hn1|]. split; [reflexivity|]. split; [exact Hd'|].
  split; [cbn [emit on_files trace]; now rewrite Ht2, Ht1, !app_assoc|].
  replace k with (k + 0 + 0)%nat by lia.
  apply tally_app; [now apply tally_app|].
  unfold tally. now destruct (csv_enabled cfg), (jsonl_enabled cfg).
Qed.

Lemma paging_at_limit (responses : list (result Element)) (st : LoopState)
    (w : World) :
  limit_reached cfg (num_items st) = true ->
  paging ET_tostring cfg responses st w
  = (Finished LimitReached, st, finish cfg st w).
Proof. intros H. destruct responses; cbn [paging]; now rewrite H. Qed.

Lemma finish_trace (st : LoopState) (w : World) :
  trace (finish cfg st w) = trace w ++ [EvSeal (current_out st); EvRemoveState].
Proof. unfold finish. cbn [emit on_files trace]. now rewrite <- app_assoc. Qed.

Lemma fetches_after_none (n : nat) (tr : list Event) :
  count is_fetch tr = 0%nat -> fetches_after n tr = 0%nat.
Proof.
  revert n. induction tr as [|ev tr IH]; intros n H; [reflexivity|].
  rewrite count_cons in H. cbn [fetches_after].
  destruct (is_fetch ev); [discriminate|]. cbn [Nat.add] in H.
  destruct n; [now rewrite IH|]. destruct (is_item ev); now apply IH.
Qed.

Lemma fetches_after_app (n : nat) (a b : list Event) :
  (count is_item a < n)%nat ->
  fetches_after n (a ++ b) = fetches_after (n - count is_item a) b.
Proof.
  revert n. induction a as [|ev a IH]; intros n H.
  - now rewrite count_nil, Nat.sub_0_r.
  - rewrite count_cons in H |- *. cbn [app fetches_after].
    destruct n as [|m]; [lia|].
    destruct (is_item ev).
    + rewrite IH by lia. f_equal.
    + rewrite IH by lia. f_equal.
Qed.

End CleanRuns.

Section ItemLimit.

Variable ET_tostring : Element -> str.
Variable cfg : Config.

Lemma items_of_cons (p : Element) (ps : list Element) :
  items_of cfg (p :: ps)
  = (Z.of_nat (length (elements_of cfg p)) + items_of cfg ps)%Z.
Proof. unfold items_of. cbn [flat_map]. rewrite length_app. lia. Qed.

Lemma items_of_nil : items_of cfg [] = 0%Z.
Proof. reflexivity. Qed.

(** The counts of a run with a limit.  With [max_items = N], on a
    server whose pages are processed without an exception, carry a
    token as long as the limit is not reached, and hold enough items
    to reach it on the page [last], the run ends, has [N] items
    counted, has written the missing [N - num_items] items, one row
    for each to every enabled sink, has fetched the pages up to
    [last] and no response after it, and fetches nothing after the
    item that reaches the limit. *)
Lemma max_items_counts (N : Z) (init : list Element) (last : Element)
    (rest : list (result Element)) (st : LoopState) (w : World)
    (d : list (str * json)) :
  max_items cfg = Some N ->
  state st = Some d -> json_ok (JDict d) = true ->
  forallb (page_ok ET_tostring cfg) (init ++ [last]) = true ->
  forallb has_token init = true ->
  (num_items st + items_of cfg init < N
   <= num_items st + items_of cfg (init ++ [last]))%Z ->
  exists why st' w' tr,
    paging ET_tostring cfg (map Ok init ++ Ok last :: rest) st w
    = (Finished why, st', w')
    /\ trace w' = trace w ++ tr
    /\ num_items st' = N
    /\ Z.of_nat (count is_item tr) = (N - num_items st)%Z
    /\ count is_csv_row tr = (if csv_enabled cfg then count is_item tr else 0%nat)
    /\ count is_jsonl_row tr
       = (if jsonl_enabled cfg then count is_item tr else 0%nat)
    /\ count is_fetch tr = S (length init)
    /\ fetches_after (count is_item tr) tr = 0%nat.
Proof.
  intros Hmax. revert st w d.
  induction init as [|p init IH]; intros st w d Hst Hd Hok Htok Hsum.
  - (* the page on which the limit is reached *)
    cbn [app forallb] in Hok. rewrite andb_true_r in Hok.
    rewrite items_of_nil in Hsum. cbn [app] in Hsum.
    rewrite items_of_cons, items_of_nil in Hsum.
    cbn [map app paging].
    assert (Hlim : limit_reached cfg (num_items st) = false).
    { unfold limit_reached. rewrite Hmax. apply Z.leb_gt. lia. }
    rewrite Hlim.
    destruct (process_page_clean ET_tostring cfg last (next_page st)
                (emit (EvFetch (params (next_page st))) w) d Hok Hst Hd)
      as (st1 & w1 & tr1 & d1 & -> & Hn1 & Hst1 & Hd1 & Ht1 & Hy1).
    cbn [next_page num_items] in Hn1, Hy1.
    set (k := written cfg (num_items st) (length (elements_of cfg last)))
      in Hn1, Hy1.
    assert (Hk : Z.of_nat k = (N - num_items st)%Z).
    { subst k. unfold written. rewrite Hmax. lia. }
    clearbody k. cbn [emit trace] in Ht1.
    destruct Hy1 as (Hi1 & Hc1 & Hj1 & Hf1).
    assert (Hfa : forall more,
               count is_fetch more = 0%nat ->
               fetches_after k (EvFetch (params st) :: tr1 ++ more) = 0%nat).
    { intros more Hmore. destruct k as [|m] eqn:Ek; [lia|].
      cbn [fetches_after is_item]. apply fetches_after_none.
      rewrite count_app. lia. }
    destruct (page_token last) as [|c rt] eqn:Hrt.
    + exists LastPage, st1, (finish cfg st1 w1),
        (EvFetch (params st) :: tr1
           ++ [EvSeal (current_out st1); EvRemoveState]).
      split; [reflexivity|].
      split; [rewrite finish_trace, Ht1; now rewrite <- !app_assoc|].
      split; [lia|].
      rewrite !count_cons, !count_app, Hi1, Hc1, Hj1, Hf1. cbn.
      rewrite !Nat.add_0_r.
      repeat split; try reflexivity; try lia.
      apply Hfa. reflexivity.
    + rewrite paging_at_limit.
      2:{ cbn [set_params num_items]. unfold limit_reached. rewrite Hmax.
          apply Z.leb_le. lia. }
      eexists LimitReached, _, _,
        (EvFetch (params st) :: tr1
           ++ [EvSleep (sleep_between cfg);
               EvSeal (current_out st1); EvRemoveState]).
      split; [reflexivity|].
      split; [rewrite finish_trace; cbn [emit trace set_params current_out];
              rewrite Ht1; now rewrite <- !app_assoc|].
      split; [cbn [set_params num_items]; lia|].
      rewrite !count_cons, !count_app, Hi1, Hc1, Hj1, Hf1. cbn.
      rewrite !Nat.add_0_r.
      repeat split; try reflexivity; try lia.
      apply Hfa. reflexivity.
  - (* a page before it *)
    cbn [app forallb] in Hok, Htok.
    apply andb_true_iff in Hok as [Hp Hok].
    apply andb_true_iff in Htok as [Hptok Htok].
    cbn [app] in Hsum. rewrite !items_of_cons in Hsum.
    assert (Hpos : (0 <= items_of cfg init)%Z) by (unfold items_of; lia).
    cbn [map app paging].
    assert (Hlim : limit_reached cfg (num_items st) = false).
    { unfold limit_reached. rewrite Hmax. apply Z.leb_gt. lia. }
    rewrite Hlim.
    destruct (process_page_clean ET_tostring cfg p (next_page st)
                (emit (EvFetch (params (next_page st))) w) d Hp Hst Hd)
      as (st1 & w1 & tr1 & d1 & -> & Hn1 & Hst1 & Hd1 & Ht1 & Hy1).
    cbn [next_page num_items] in Hn1, Hy1.
    set (k := written cfg (num_items st) (length (elements_of cfg p)))
      in Hn1, Hy1.
    assert (Hk : k = length (elements_of cfg p)).
    { subst k. unfold written. rewrite Hmax. lia. }
    clearbody k. cbn [emit trace] in Ht1.
    destruct Hy1 as (Hi1 & Hc1 & Hj1 & Hf1).
    unfold has_token in Hptok.
    destruct (page_token p) as [|c rt] eqn:Hrt; [discriminate|].
    set (st2 := set_params _ st1).
    destruct (IH st2 (emit (EvSleep (sleep_between cfg)) w1) d1)
      as (why & st' & w' & tr2 & -> & Ht2 & Hn2 & Hi2 & Hc2 & Hj2 & Hf2 & Ha2);
      [exact Hst1|exact Hd1|exact Hok|exact Htok|
       subst st2; cbn [set_params num_items]; lia|].
    replace (num_items st2) with (num_items st + Z.of_nat k)%Z in Hi2
      by (subst st2; cbn [set_params num_items]; lia).
    exists why, st', w',
      ((EvFetch (params st) :: tr1 ++ [EvSleep (sleep_between cfg)]) ++ tr2).
    split; [reflexivity|].
    split; [rewrite Ht2; cbn [emit trace]; rewrite Ht1;
            rewrite <- ?app_assoc; cbn [app]; now rewrite <- ?app_assoc|].
    split; [exact Hn2|].
    assert (Hia : count is_item
                    (EvFetch (params st) :: tr1 ++ [EvSleep (sleep_between cfg)])
                  = k).
    { rewrite count_cons, count_app, count_cons, count_nil, Hi1.
      cbn [is_item]. lia. }
    rewrite !(count_app _ (_ :: _)), Hia.
    assert (Hafter :
              fetches_after (k + count is_item tr2)
                ((EvFetch (params st) :: tr1 ++ [EvSleep (sleep_between cfg)])
                   ++ tr2) = 0%nat).
    { rewrite fetches_after_app by (rewrite Hia; lia).
      rewrite Hia. now replace (k + count is_item tr2 - k)%nat
                     with (count is_item tr2) by lia. }
    rewrite Hafter.
    rewrite !count_cons, !count_app, !count_cons, !count_nil,
      Hc1, Hj1, Hf1, Hc2, Hj2, Hf2.
    cbn [is_csv_row is_jsonl_row is_fetch].
    split; [lia|].
    split; [destruct (csv_enabled cfg); lia|].
    split; [destruct (jsonl_enabled cfg); lia|].
    split; [cbn [length]; lia|reflexivity].
Qed.

End ItemLimit.

Section Sealing.

Variable ET_tostring : Element -> str.
Variable cfg : Config.

(** The closing tags reach the file of the segment. *)
Lemma finish_files (st : LoopState) (w : World) :
  current_out st <> st_path cfg ->
  files (finish cfg st w) !! current_out st
  = Some (default [] (files w !! current_out st)
          ++ wrapper_close_tag (verb cfg)).
Proof.
  intros Hne. unfold finish, remove_state, write_close_wrapper, fs_append.
  cbn [emit on_files files].
  rewrite lookup_delete_ne by congruence. apply lookup_insert_eq.
Qed.

(** A stretch that keeps the envelope, followed by the end of a run. *)
Lemma envelope_prefix (o : outcome) (c1 c2 : str) (st' : LoopState)
    (a b : list Event) :
  envelope (Some c1) a = Some (Some c2) ->
  count is_seal a = count is_open a ->
  EvRemoveState ∉ a ->
  match o with
  | Finished _ =>
      envelope (Some c2) b = Some None
      /\ count is_seal b = S (count is_open b)
      /\ exists b0, b = b0 ++ [EvSeal (current_out st'); EvRemoveState]
  | _ =>
      envelope (Some c2) b = Some (Some (current_out st'))
      /\ count is_seal b = count is_open b
      /\ EvRemoveState ∉ b
  end ->
  match o with
  | Finished _ =>
      envelope (Some c1) (a ++ b) = Some None
      /\ count is_seal (a ++ b) = S (count is_open (a ++ b))
      /\ exists b0, a ++ b = b0 ++ [EvSeal (current_out st'); EvRemoveState]
  | _ =>
      envelope (Some c1) (a ++ b) = Some (Some (current_out st'))
      /\ count is_seal (a ++ b) = count is_open (a ++ b)
      /\ EvRemoveState ∉ a ++ b
  end.
Proof.
  intros Ha1 Ha2 Ha3 Hb. rewrite envelope_app, Ha1, !count_app. cbn [mbind option_bind].
  destruct o as [why|e|]; destruct Hb as (Hb1 & Hb2 & Hb3).
  - split; [exact Hb1|]. split; [lia|]. destruct Hb3 as [b0 ->].
    exists (a ++ b0). now rewrite app_assoc.
  - split; [exact Hb1|]. split; [lia|]. rewrite elem_of_app. tauto.
  - split; [exact Hb1|]. split; [lia|]. rewrite elem_of_app. tauto.
Qed.

(** The envelope discipline of a run.  A run that ends normally has
    sealed one segment more than it opened, and the last thing it
    does is seal the current segment and remove the checkpoint; a run
    that ends with an exception (or that waits for a page) has sealed
    as many segments as it opened, has the current segment open and
    has not removed the checkpoint.  Neither breaks the discipline. *)
Lemma paging_envelope (responses : list (result Element))
    (st : LoopState) (w : World) :
  let '(o, st', w') := paging ET_tostring cfg responses st w in
  exists tr,
    trace w' = trace w ++ tr
    /\ match o with
       | Finished _ =>
           envelope (Some (current_out st)) tr = Some None
           /\ count is_seal tr = S (count is_open tr)
           /\ exists tr0, tr = tr0 ++ [EvSeal (current_out st'); EvRemoveState]
       | _ =>
           envelope (Some (current_out st)) tr = Some (Some (current_out st'))
           /\ count is_seal tr = count is_open tr
           /\ EvRemoveState ∉ tr
       end.
Proof.
  revert st w. induction responses as [|response rest IH]; intros st w.
  - cbn [paging]. destruct (limit_reached cfg (num_items st)).
    + exists [EvSeal (current_out st); EvRemoveState].
      split; [apply finish_trace|]. cbn [envelope].
      rewrite bool_decide_eq_true_2 by reflexivity.
      split; [reflexivity|]. split; [reflexivity|]. now exists [].
    + exists []. rewrite app_nil_r. split; [reflexivity|].
      split; [reflexivity|]. split; [reflexivity|apply not_elem_of_nil].
  - cbn [paging]. destruct (limit_reached cfg (num_items st)).
    { exists [EvSeal (current_out st); EvRemoveState].
      split; [apply finish_trace|]. cbn [envelope].
      rewrite bool_decide_eq_true_2 by reflexivity.
      split; [reflexivity|]. split; [reflexivity|]. now exists []. }
    assert (Hfetch : forall p, EvRemoveState ∉ [EvFetch p]).
    { intros p Hin. apply elem_of_cons in Hin as [Hin|Hin]; [discriminate|].
      now apply elem_of_nil in Hin. }
    destruct response as [root|e].
    2:{ exists [EvFetch (params st)]. split; [reflexivity|].
        split; [reflexivity|]. split; [reflexivity|apply Hfetch]. }
    pose proof (process_page_steady ET_tostring cfg root (next_page st)
                  (emit (EvFetch (params (next_page st))) w)) as Hpage.
    destruct (process_page ET_tostring cfg root (next_page st)
                (emit (EvFetch (params (next_page st))) w))
      as [rt st1 w1|e st1 w1];
      destruct Hpage as (tr1 & Ht1 & He1 & Hs1 & _ & Hr1);
      cbn [emit trace next_page current_out params] in Ht1, He1.
    2:{ exists ([EvFetch (params st)] ++ tr1).
        split; [now rewrite Ht1, <- app_assoc|].
        apply (envelope_prefix (Aborted e) _ (current_out st) st1);
          [reflexivity|reflexivity|apply Hfetch|].
        now split. }
    destruct rt as [|c rt].
    + exists (([EvFetch (params st)] ++ tr1)
              ++ [EvSeal (current_out st1); EvRemoveState]).
      split; [rewrite finish_trace, Ht1; now rewrite <- !app_assoc|].
      apply (envelope_prefix (Finished LastPage) _ (current_out st1) st1).
      * rewrite envelope_app. exact He1.
      * rewrite !count_app. cbn. lia.
      * rewrite elem_of_app. intros [Hin|Hin]; [now apply Hfetch in Hin|tauto].
      * cbn [envelope]. rewrite bool_decide_eq_true_2 by reflexivity.
        split; [reflexivity|]. split; [reflexivity|]. now exists [].
    + set (st2 := set_params _ st1).
      specialize (IH st2 (emit (EvSleep (sleep_between cfg)) w1)).
      destruct (paging ET_tostring cfg rest st2
                  (emit (EvSleep (sleep_between cfg)) w1))
        as [[o st'] w'].
      destruct IH as (tr2 & Ht2 & Hshape).
      exists ((([EvFetch (params st)] ++ tr1) ++ [EvSleep (sleep_between cfg)])
              ++ tr2).
      split; [rewrite Ht2; cbn [emit trace]; rewrite Ht1;
              now rewrite <- !app_assoc|].
      apply (envelope_prefix o _ (current_out st1) st').
      * rewrite !envelope_app. cbn [envelope mbind option_bind].
        rewrite He1. reflexivity.
      * rewrite !count_app. cbn. lia.
      * rewrite !elem_of_app. intros [[Hin|Hin]|Hin];
          [now apply Hfetch in Hin|tauto|].
        apply elem_of_cons in Hin as [Hin|Hin]; [discriminate|].
        now apply elem_of_nil in Hin.
      * exact Hshape.
Qed.

End Sealing.

(** ** The token of a page *)

Section Token.

Variable ET_tostring : Element -> str.
Variable cfg : Config.

Lemma lstrip_nil (s : str) : lstrip s = [] <-> forallb is_space s = true.
Proof.
  induction s as [|c s IH]; [easy|]. cbn [lstrip forallb].
  destruct (is_space c); [exact IH|]. easy.
Qed.

Lemma lstrip_spaces (s : str) :
  forallb is_space (lstrip s) = true -> forallb is_space s = true.
Proof.
  induction s as [|c s IH]; [easy|]. cbn [lstrip].
  destruct (is_space c) eqn:Hc; cbn [forallb]; rewrite ?Hc; [exact IH|easy].
Qed.

Lemma forallb_rev (p : N -> bool) (s : str) :
  forallb p (rev s) = forallb p s.
Proof.
  induction s as [|c s IH]; [reflexivity|].
  cbn [rev forallb]. rewrite forallb_app, IH. cbn [forallb].
  now rewrite andb_true_r, andb_comm.
Qed.

(** The stripped text is empty exactly for a text of white space. *)
Lemma strip_nil (s : str) : strip s = [] <-> forallb is_space s = true.
Proof.
  unfold strip, rstrip. split.
  - intros H. apply (f_equal (@rev N)) in H. rewrite rev_involutive in H.
    cbn [rev] in H. apply lstrip_nil in H. rewrite forallb_rev in H.
    now apply lstrip_spaces.
  - intros H. apply lstrip_nil in H. now rewrite H.
Qed.

(** A processed page has its token in the checkpoint it saved. *)
Lemma process_page_done (root : Element) (st : LoopState) (w : World)
    (rt : str) (st1 : LoopState) (w1 : World) :
  process_page ET_tostring cfg root st w = PageDone rt st1 w1 ->
  rt = page_token root
  /\ exists d tr,
       state st1 = Some d
       /\ dict_get (lit "resumptionToken") d = Some (JStr rt)
       /\ trace w1 = tr ++ [EvSaveState d].
Proof.
  unfold process_page. rewrite findall_elements.
  destruct (write_items _ _ _ _ _) as [[[e|] st0] w0]; [discriminate|].
  destruct (rotate cfg st0 w0) as [st2 w2].
  rewrite token_of_page. intros H.
  pose proof (checkpoint_steady cfg (page_token root) st2 w2) as Hcp.
  rewrite H in Hcp. destruct Hcp as (-> & _ & d & Hd & Hget & Ht).
  split; [reflexivity|]. eauto.
Qed.

(** The token of a page that is processed to its end: it is the
    stripped text of the [resumptionToken] element (the empty string
    when the element or its text is missing), and that is the token
    the checkpoint holds; the token is empty exactly when the text is
    white space only; with an empty token the run ends right after
    the page, without another fetch, and with any other token the
    loop goes on with that token as its request. *)
Theorem blank_token_ends_paging (root : Element)
    (rest : list (result Element)) (st : LoopState) (w : World)
    (rt : str) (st1 : LoopState) (w1 : World) :
  limit_reached cfg (num_items st) = false ->
  process_page ET_tostring cfg root (next_page st)
    (emit (EvFetch (params st)) w) = PageDone rt st1 w1 ->
  rt = strip (default [] (token_text root))
  /\ (rt = [] <-> forallb is_space (default [] (token_text root)) = true)
  /\ (exists d tr,
        state st1 = Some d
        /\ dict_get (lit "resumptionToken") d = Some (JStr rt)
        /\ trace w1 = tr ++ [EvSaveState d])
  /\ (rt = [] ->
      paging ET_tostring cfg (Ok root :: rest) st w
      = (Finished LastPage, st1, finish cfg st1 w1))
  /\ (rt <> [] ->
      paging ET_tostring cfg (Ok root :: rest) st w
      = paging ET_tostring cfg rest
          (set_params [(lit "verb", verb cfg); (lit "resumptionToken", rt)] st1)
          (emit (EvSleep (sleep_between cfg)) w1)).
Proof.
  intros Hlim Hpage.
  destruct (process_page_done _ _ _ _ _ _ Hpage) as (Hrt & Hsaved).
  split; [exact Hrt|]. split; [rewrite Hrt; apply strip_nil|].
  split; [exact Hsaved|].
  cbn [paging]. rewrite Hlim.
  change (params (next_page st)) with (params st). rewrite Hpage.
  split; intros H.
  - now rewrite H.
  - destruct rt; [contradiction|reflexivity].
Qed.

End Token.

(** A page whose token element holds white space only, as the first
    page of a run: the run ends after it and the second response is
    not fetched. *)
Lemma blank_token_ends_paging_witness :
  exists st1 w1,
    paging plain_tostring (example_config None None)
      [Ok (example_page three_records (Some (lit "  ")));
       Raise RuntimeError] example_start empty_world
    = (Finished LastPage, st1, finish (example_config None None) st1 w1).
Proof.
  destruct (process_page plain_tostring (example_config None None)
              (example_page three_records (Some (lit "  ")))
              (next_page example_start)
              (emit (EvFetch (params example_start)) empty_world))
    as [rt st1 w1|e st1 w1] eqn:Hpage.
  - destruct (blank_token_ends_paging plain_tostring
                (example_config None None)
                (example_page three_records (Some (lit "  ")))
                [Raise RuntimeError] example_start empty_world rt st1 w1
                eq_refl Hpage) as (Hrt & _ & _ & Hend & _).
    exists st1, w1. apply Hend. rewrite Hrt. reflexivity.
  - exfalso. vm_compute in Hpage. discriminate Hpage.
Defined.

(** ** Runs on the example pages *)

Section Examples.

(** C1 on the code: with [rotate_every = 5] and six items on two
    pages of three, the count is 3 and 6 at the ends of the pages and
    never a multiple of five there, so no rotation takes place: the
    run seals one segment, with six items, where [6 / 5 = 1] segment
    of exactly five items is due. *)
Theorem rotation_only_at_page_ends :
  exists st w,
    run_fresh plain_tostring (example_config None (Some 5%Z))
      [Ok first_page; Ok second_page]
    = Some (Finished LastPage, st, w)
    /\ num_items st = 6%Z
    /\ file_index st = 1%Z
    /\ sealed_segments 0 (trace w) = [(lit "harvest.xml", 6%nat)]
    /\ (6 / 5 = 1)%Z.
Proof.
  eexists _, _. split; [vm_compute; reflexivity|].
  repeat split; vm_compute; reflexivity.
Qed.

(** When the pages end on the multiples, segments of five are sealed:
    ten items on two pages of five give two segments of five, and a
    third, empty one that the end of the run seals. *)
Lemma rotation_at_aligned_pages :
  let five := three_records ++ [example_record "d" []; example_record "e" []] in
  exists st w,
    run_fresh plain_tostring (example_config None (Some 5%Z))
      [Ok (example_page five (Some (lit "t1")));
       Ok (example_page five None)]
    = Some (Finished LastPage, st, w)
    /\ sealed_segments 0 (trace w)
       = [(lit "harvest.xml", 5%nat); (lit "harvest_part2.xml", 5%nat);
          (lit "harvest_part3.xml", 0%nat)].
Proof.
  cbv zeta. eexists _, _. split; [vm_compute; reflexivity|].
  vm_compute. reflexivity.
Qed.

(** C2, as the specification words it, fails: a run whose second
    fetch fails ends with the exception; it has sealed nothing, the
    file of the segment holds the opening tags and the three records
    but no closing tags, and the checkpoint is still there. *)
Lemma fatal_error_leaves_segment_open :
  exists st w content,
    run_fresh plain_tostring (example_config None None)
      [Ok first_page; Raise RuntimeError]
    = Some (Aborted RuntimeError, st, w)
    /\ count is_seal (trace w) = 0%nat
    /\ count is_item (trace w) = 3%nat
    /\ files w !! current_out st = Some content
    /\ is_prefix (wrapper_open_tag ListRecords) content = true
    /\ str_rfind (wrapper_close_tag ListRecords) content = None
    /\ is_Some (files w !! lit "harvest.xml.state.json").
Proof.
  eexists _, _, _. split; [vm_compute; reflexivity|].
  split; [vm_compute; reflexivity|].
  split; [vm_compute; reflexivity|].
  split; [vm_compute; reflexivity|].
  split; [vm_compute; reflexivity|].
  split; [vm_compute; reflexivity|].
  vm_compute. eauto.
Qed.

(** A run that starts after the operator declined to resume has no
    checkpoint dictionary: it writes its first page and ends at
    [state.update] with an [AttributeError]. *)
Lemma restart_ends_after_first_page :
  let '(st, w) := restart (example_config None None) empty_world in
  exists st' w',
    paging plain_tostring (example_config None None)
      [Ok first_page; Ok second_page] st w
    = (Aborted AttributeError, st', w')
    /\ count is_item (trace w') = 3%nat
    /\ count is_fetch (trace w') = 1%nat.
Proof.
  cbv zeta. eexists _, _. split; [vm_compute; reflexivity|].
  split; vm_compute; reflexivity.
Qed.


End Examples.

(** ** The sanitizer and the parse of a response *)

Section Sanitizer.

Lemma INVALID_XML_CHARS_match (s : str) :
  re_match_at INVALID_XML_CHARS s
  = match s with
    | c :: t => if is_invalid_xml_char c then Some t else None
    | [] => None
    end.
Proof.
  destruct s as [|c t]; [reflexivity|].
  unfold re_match_at, INVALID_XML_CHARS. cbn [re_match].
  replace (in_class [(0, 8); (11, 11); (12, 12); (14, 31)] c)
    with (is_invalid_xml_char c); [reflexivity|].
  unfold in_class, is_invalid_xml_char. cbn [existsb].
  rewrite orb_false_r, !orb_assoc.
  assert (Heq : forall k, in_range k k c = (c =? k)).
  { intros k. unfold in_range. destruct (N.eqb_spec c k) as [->|Hne].
    - now rewrite N.leb_refl.
    - apply andb_false_iff.
      destruct (N.leb_spec k c), (N.leb_spec c k); auto; lia. }
  now rewrite !Heq.
Qed.

Lemma re_sub_from_INVALID (fuel : nat) (s : str) :
  (length s < fuel)%nat ->
  re_sub_from fuel INVALID_XML_CHARS [] s
  = filter (fun c => is_invalid_xml_char c = false) s.
Proof.
  revert s. induction fuel as [|fuel IH]; intros s Hlen; [lia|].
  cbn [re_sub_from]. rewrite INVALID_XML_CHARS_match.
  destruct s as [|c t]; [reflexivity|]. cbn [length] in Hlen.
  rewrite filter_cons.
  destruct (is_invalid_xml_char c) eqn:Hc.
  - replace (length t <? length (c :: t))%nat with true
      by (symmetry; apply Nat.ltb_lt; cbn; lia).
    rewrite IH by lia. case_decide; [discriminate|reflexivity].
  - rewrite IH by lia. case_decide; [reflexivity|contradiction].
Qed.

Lemma clean_xml_filter (s : str) :
  clean_xml s = filter (fun c => is_invalid_xml_char c = false) s.
Proof. apply re_sub_from_INVALID. lia. Qed.

Lemma clean_xml_clean (s : str) : clean (clean_xml s).
Proof.
  rewrite clean_xml_filter. unfold clean. apply Forall_forall.
  intros c Hc. now apply list_elem_of_filter in Hc as [Hc _].
Qed.

Lemma clean_xml_fixed (s : str) : clean s -> clean_xml s = s.
Proof.
  rewrite clean_xml_filter. induction 1 as [|c s Hc _ IH]; [reflexivity|].
  rewrite filter_cons. case_decide; [f_equal; exact IH|contradiction].
Qed.

(** The repair pass adds no control character. *)
Lemma escape_amp_clean (s : str) : clean s -> clean (escape_amp s).
Proof.
  induction 1 as [|c s Hc _ IH]; [constructor|].
  cbn [escape_amp]. destruct ((c =? AMP) && negb (entity_like s)).
  - rewrite amp_entity_unfold. cbn [app].
    repeat (constructor; [reflexivity|]). exact IH.
  - now constructor.
Qed.

(** X1: [clean_xml] removes exactly the control characters of the
    pattern and keeps the other characters in their order; applied
    again, and applied after the repair pass, it changes nothing. *)
Theorem clean_xml_removes_control_chars (s : str) :
  clean_xml s = filter (fun c => is_invalid_xml_char c = false) s
  /\ clean_xml (clean_xml s) = clean_xml s
  /\ clean_xml (AMP_FIX_sub (clean_xml s)) = AMP_FIX_sub (clean_xml s).
Proof.
  split; [apply clean_xml_filter|]. split.
  - apply clean_xml_fixed, clean_xml_clean.
  - apply clean_xml_fixed. rewrite AMP_FIX_sub_escape.
    apply escape_amp_clean, clean_xml_clean.
Qed.

Variable ET_fromstring : str -> option Element.

(** X2: what [fetch_and_parse] returns has been parsed as it is: the
    text is free of control characters, so the second [clean_xml] of
    the callers changes nothing, and parsing it again gives the same
    root; nothing is dumped.  An error is raised only when the cleaned
    text and its repair both fail to parse, and the dump then holds
    the cleaned text from before the repair. *)
Theorem parse_with_repair_reparse (raw_text : str) :
  match parse_with_repair ET_fromstring raw_text with
  | (Ok (root, text), dump) =>
      dump = None
      /\ clean_xml text = text
      /\ ET_fromstring (clean_xml text) = Some root
      /\ (text = clean_xml raw_text \/ text = AMP_FIX_sub (clean_xml raw_text))
  | (Raise e, dump) =>
      e = RuntimeError
      /\ dump = Some (clean_xml raw_text)
      /\ ET_fromstring (clean_xml raw_text) = None
      /\ ET_fromstring (AMP_FIX_sub (clean_xml raw_text)) = None
  end.
Proof.
  unfold parse_with_repair.
  destruct (ET_fromstring (clean_xml raw_text)) as [root|] eqn:E1.
  - split; [reflexivity|].
    rewrite (clean_xml_fixed _ (clean_xml_clean raw_text)). auto.
  - destruct (ET_fromstring (AMP_FIX_sub (clean_xml raw_text)))
      as [root|] eqn:E2.
    + split; [reflexivity|].
      assert (Hfix : clean_xml (AMP_FIX_sub (clean_xml raw_text))
                     = AMP_FIX_sub (clean_xml raw_text)).
      { apply clean_xml_fixed. rewrite AMP_FIX_sub_escape.
        apply escape_amp_clean, clean_xml_clean. }
      rewrite Hfix. auto.
    + auto.
Qed.

End Sanitizer.

(** ** Paths of the segments and of the checkpoint *)

Section Paths.

Variable cfg : Config.

Lemma str_rfind_prefix (p s : str) (i : nat) :
  str_rfind p s = Some i -> is_prefix p (drop i s) = true.
Proof.
  revert i. induction s as [|c s IH]; intros i; cbn [str_rfind].
  - destruct (is_prefix p []) eqn:E; [|discriminate].
    now intros [= <-].
  - destruct (str_rfind p s) as [j|].
    + intros [= <-]. now apply IH.
    + destruct (is_prefix p (c :: s)) eqn:E; [|discriminate].
      now intros [= <-].
Qed.

(** The two parts of [splitext] make up the path, and the extension
    is empty or starts with a dot. *)
Lemma splitext_parts (p : str) :
  (splitext p).1 ++ (splitext p).2 = p
  /\ ((splitext p).2 = [] \/ exists t, (splitext p).2 = 46 :: t).
Proof.
  unfold splitext.
  destruct (str_rfind [46] p) as [dot|] eqn:Hdot.
  2:{ cbn [fst snd]. rewrite app_nil_r. auto. }
  destruct (_ && _); cbn [fst snd].
  2:{ rewrite app_nil_r. auto. }
  split; [apply take_drop|]. right.
  apply str_rfind_prefix in Hdot.
  destruct (drop dot p) as [|c t]; [discriminate|].
  cbn [is_prefix] in Hdot. apply andb_true_iff in Hdot as [Hc _].
  apply N.eqb_eq in Hc. subst c. eauto.
Qed.

Lemma N_of_digits_snoc (d : str) (c : N) :
  N_of_digits (d ++ [c]) = N_of_digits d * 10 + (c - 48).
Proof. unfold N_of_digits. now rewrite fold_left_app. Qed.

(** The digits of a number, read back, give the number. *)
Lemma digits_from_value (fuel : nat) (n : N) (acc : str) :
  n < 2 ^ N.of_nat fuel ->
  exists d, digits_from fuel n acc = d ++ acc /\ N_of_digits d = n.
Proof.
  revert n acc. induction fuel as [|fuel IH]; intros n acc Hn.
  - exists []. split; [reflexivity|].
    change (2 ^ N.of_nat 0) with 1 in Hn.
    change (N_of_digits []) with 0. lia.
  - cbn [digits_from]. destruct (N.ltb_spec n 10) as [Hsmall|Hbig].
    + exists [48 + n mod 10]. split; [reflexivity|].
      rewrite N.mod_small by exact Hsmall. cbn. lia.
    + destruct (IH (n / 10) ((48 + n mod 10) :: acc)) as (d & Hd & Hv).
      { rewrite Nat2N.inj_succ, N.pow_succ_r' in Hn.
        apply N.Div0.div_lt_upper_bound. lia. }
      exists (d ++ [48 + n mod 10]). rewrite <- app_assoc. split; [exact Hd|].
      rewrite N_of_digits_snoc, Hv.
      pose proof (N.div_mod n 10 ltac:(lia)) as Hdm.
      set (q := n / 10) in *. set (r := n mod 10) in *.
      clearbody q r. lia.
Qed.

Lemma str_of_N_value (n : N) : N_of_digits (str_of_N n) = n.
Proof.
  unfold str_of_N.
  destruct (digits_from_value (S (N.to_nat (N.log2 n))) n []) as (d & -> & Hv).
  - rewrite Nat2N.inj_succ, N2Nat.id.
    destruct n as [|p]; [reflexivity|].
    apply N.log2_spec. reflexivity.
  - now rewrite app_nil_r.
Qed.

Lemma str_of_Z_injective (i j : Z) :
  (0 <= i)%Z -> (0 <= j)%Z -> str_of_Z i = str_of_Z j -> i = j.
Proof.
  intros Hi Hj H.
  assert (Hz : forall z, (0 <= z)%Z -> str_of_Z z = str_of_N (Z.to_N z)).
  { intros z Hz. destruct z; [reflexivity|reflexivity|lia]. }
  rewrite (Hz i Hi), (Hz j Hj) in H.
  apply (f_equal N_of_digits) in H. rewrite !str_of_N_value in H. lia.
Qed.

Lemma out_path_split : out_path cfg = base_name cfg ++ (splitext (out_path cfg)).2.
Proof. unfold base_name. symmetry. apply splitext_parts. Qed.

(** A segment path with a [_part] suffix is not the output path
    followed by nothing or by a suffix that starts with a dot. *)
Lemma part_path_differs (idx : Z) (more : str) :
  (hd 0 more = 46 \/ more = []) ->
  base_name cfg ++ lit "_part" ++ str_of_Z idx ++ ext cfg
  <> out_path cfg ++ more.
Proof.
  intros Hmore H. rewrite out_path_split in H at 1. rewrite <- app_assoc in H.
  apply app_inv_head in H.
  destruct (proj2 (splitext_parts (out_path cfg))) as [He|[t He]];
    rewrite He in H.
  - destruct Hmore as [Hdot| ->]; [|discriminate H].
    destruct more as [|c more]; [discriminate H|].
    cbn [hd] in Hdot. subst c. discriminate H.
  - discriminate H.
Qed.

(** X7: the segments of a run have paths of their own: two indices
    give the same path only when they are the same index or both name
    the first segment, so a rotation never writes over an earlier
    segment or over the base file. *)
Theorem out_path_for_index_injective (i j : Z) :
  out_path_for_index cfg i = out_path_for_index cfg j ->
  i = j \/ ((i <= 1)%Z /\ (j <= 1)%Z).
Proof.
  unfold out_path_for_index.
  destruct (Z.ltb_spec 1 i) as [Hi|Hi], (Z.ltb_spec 1 j) as [Hj|Hj]; intros H.
  - left. do 2 apply app_inv_head in H. apply app_inv_tail in H.
    apply str_of_Z_injective; [lia|lia|exact H].
  - exfalso. rewrite <- (app_nil_r (out_path cfg)) in H.
    now apply part_path_differs in H; [|right].
  - exfalso. symmetry in H. rewrite <- (app_nil_r (out_path cfg)) in H.
    now apply part_path_differs in H; [|right].
  - right. now split.
Qed.

(** X8: the checkpoint and the temporary file it is written through
    are never the file of a segment. *)
Theorem state_path_is_no_segment (idx : Z) :
  out_path_for_index cfg idx <> st_path cfg
  /\ out_path_for_index cfg idx <> st_path cfg ++ lit ".tmp".
Proof.
  unfold out_path_for_index, st_path, state_path_for.
  destruct (Z.ltb_spec 1 idx) as [Hi|Hi].
  - split.
    + apply part_path_differs. now left.
    + rewrite <- app_assoc. apply part_path_differs. now left.
  - split; intros H; apply (f_equal length) in H;
      rewrite ?length_app in H; cbn in H; lia.
Qed.

End Paths.

(** ** Files of the envelope and of the checkpoint *)

Section FileFacts.

(** X9: [save_state] puts the document at the checkpoint path, leaves
    no temporary file behind and touches no other file. *)
Theorem save_state_frame (path : str) (d : list (str * json)) (fs fs' : FS) :
  save_state path d fs = Ok fs' ->
  utf8_encode (json_dumps (JDict d)) = fs' !! path
  /\ fs' !! (path ++ lit ".tmp") = None
  /\ (forall q, q <> path -> q <> path ++ lit ".tmp" -> fs' !! q = fs !! q).
Proof.
  unfold save_state, encode_text.
  destruct (utf8_encode (json_dumps (JDict d))) as [data|]; [|discriminate].
  cbn [bind]. intros [= <-].
  assert (Hne : path <> path ++ lit ".tmp").
  { intros H. apply (f_equal length) in H. rewrite length_app in H.
    cbn in H. lia. }
  split; [now rewrite lookup_insert_eq|]. split.
  - rewrite lookup_insert_ne by exact Hne. apply lookup_delete_eq.
  - intros q Hq Htmp.
    rewrite lookup_insert_ne by congruence.
    rewrite lookup_delete_ne by congruence.
    now rewrite lookup_insert_ne by congruence.
Qed.

Lemma wrapper_close_tag_ascii (verb : str) :
  Forall (fun b => b < 128) (wrapper_close_tag verb).
Proof.
  unfold wrapper_close_tag.
  repeat case_bool_decide; apply Forall_forall; intros b Hb;
    repeat (apply elem_of_cons in Hb as [->|Hb]; [reflexivity|]);
    now apply elem_of_nil in Hb.
Qed.

(** X10: sealing a segment and opening it again gives back the file
    system from before the seal, when the bytes of the segment are
    ASCII. *)
Theorem reopen_after_seal (out_path verb : str) (fs : FS) (content : bytes) :
  fs !! out_path = Some content ->
  Forall (fun b => b < 128) content ->
  ensure_open_wrapper out_path verb (write_close_wrapper out_path verb fs)
  = fs.
Proof.
  intros Hfile Hascii. unfold write_close_wrapper, fs_append.
  rewrite Hfile. cbn [default].
  rewrite (ensure_open_wrapper_ascii out_path verb _ content).
  - rewrite insert_insert_eq. now apply insert_id.
  - apply lookup_insert_eq.
  - apply Forall_app. split; [exact Hascii|apply wrapper_close_tag_ascii].
Qed.

Lemma utf8_decode_head_width (bs : bytes) (c : char) (n : nat) :
  utf8_decode_head bs = Some (c, n) -> (1 <= n <= length bs)%nat.
Proof.
  unfold utf8_decode_head. destruct bs as [|b0 r]; [discriminate|].
  destruct (b0 <? 128); [intros [= _ <-]; cbn [length]; lia|].
  destruct (in_range 194 223 b0).
  { destruct r as [|b1 r]; [discriminate|].
    destruct (is_cont b1); [|discriminate].
    intros [= _ <-]. cbn [length]. lia. }
  destruct (in_range 224 239 b0).
  { destruct r as [|b1 [|b2 r]]; try discriminate.
    destruct (_ && _); [|discriminate].
    intros [= _ <-]. cbn [length]. lia. }
  destruct (in_range 240 244 b0); [|discriminate].
  destruct r as [|b1 [|b2 [|b3 r]]]; try discriminate.
  destruct (_ && _); [|discriminate].
  intros [= _ <-]. cbn [length]. lia.
Qed.

(** The decoded text is no longer than the bytes. *)
Lemma utf8_decode_ignore_length (fuel : nat) (bs : bytes) :
  (length (utf8_decode_ignore_from fuel bs) <= length bs)%nat.
Proof.
  revert bs. induction fuel as [|fuel IH]; intros bs.
  - destruct bs; cbn; lia.
  - destruct bs as [|b r]; [cbn; lia|].
    cbn [utf8_decode_ignore_from].
    destruct (utf8_decode_head (b :: r)) as [[c n]|] eqn:E.
    + apply utf8_decode_head_width in E.
      cbn [length]. specialize (IH (drop n (b :: r))).
      rewrite length_drop in IH. cbn [length] in IH, E. lia.
    + specialize (IH r). cbn [length]. lia.
Qed.

Lemma str_rfind_bound (p s : str) (i : nat) :
  str_rfind p s = Some i -> (i <= length s)%nat.
Proof.
  revert i. induction s as [|c s IH]; intros i; cbn [str_rfind].
  - destruct (is_prefix p []); [|discriminate]. intros [= <-]. cbn. lia.
  - destruct (str_rfind p s) as [j|].
    + intros [= <-]. specialize (IH j eq_refl). cbn [length]. lia.
    + destruct (is_prefix p (c :: s)); [|discriminate].
      intros [= <-]. lia.
Qed.

(** X11: on a file that is not empty, [ensure_open_wrapper] only cuts:
    the new content is a prefix of the old one, the bytes before the
    trailing window stay, and no other file changes. *)
Theorem ensure_open_wrapper_cuts_in_window (out_path verb : str) (fs : FS)
    (content : bytes) :
  fs !! out_path = Some content -> content <> [] ->
  exists k,
    (length content - TAIL_WINDOW <= k <= length content)%nat
    /\ ensure_open_wrapper out_path verb fs = <[out_path := take k content]> fs.
Proof.
  intros Hfile Hne. unfold ensure_open_wrapper. rewrite Hfile.
  destruct content as [|b0 content0] eqn:Ec; [contradiction|].
  rewrite <- Ec in *. clear Ec b0 content0 Hne.
  set (tail_len := (TAIL_WINDOW `min` length content)%nat).
  destruct (str_rfind _ _) as [idx|] eqn:Hfind.
  - exists (length content - tail_len + idx)%nat. split; [|reflexivity].
    apply str_rfind_bound in Hfind.
    pose proof (utf8_decode_ignore_length
                  (length (drop (length content - tail_len) content))
                  (drop (length content - tail_len) content)) as Hdec.
    unfold utf8_decode_ignore in Hfind. rewrite length_drop in Hdec, Hfind.
    subst tail_len. lia.
  - exists (length content). split; [lia|].
    rewrite firstn_all. symmetry. now apply insert_id.
Qed.

End FileFacts.

Lemma save_state_frame_witness :
  exists fs' : FS,
    save_state (lit "harvest.xml.state.json") [(lit "num_items", JInt 3)] ∅
    = Ok fs'
    /\ fs' !! lit "harvest.xml.state.json.tmp" = None.
Proof.
  destruct (save_state (lit "harvest.xml.state.json")
              [(lit "num_items", JInt 3)] (∅ : FS)) as [fs'|e] eqn:E.
  - exists fs'. split; [reflexivity|].
    exact (proj1 (proj2 (save_state_frame _ _ _ _ E))).
  - exfalso.
    apply (f_equal (fun r => match r with Ok _ => true | Raise _ => false end)) in E.
    vm_compute in E. discriminate E.
Defined.

Lemma reopen_after_seal_witness :
  ensure_open_wrapper (lit "harvest.xml") ListRecords
    (write_close_wrapper (lit "harvest.xml") ListRecords
       ({[ lit "harvest.xml" := wrapper_open_tag ListRecords ]} : FS))
  = {[ lit "harvest.xml" := wrapper_open_tag ListRecords ]}.
Proof.
  apply (reopen_after_seal _ _ _ (wrapper_open_tag ListRecords)).
  - apply lookup_singleton_eq.
  - apply Forall_forall. intros b Hb.
    repeat (apply elem_of_cons in Hb as [->|Hb]; [reflexivity|]).
    now apply elem_of_nil in Hb.
Defined.

Lemma ensure_open_wrapper_cuts_in_window_witness :
  exists k,
    (length sealed_file - TAIL_WINDOW <= k <= length sealed_file)%nat
    /\ ensure_open_wrapper (lit "harvest.xml") ListRecords
         ({[ lit "harvest.xml" := sealed_file ]} : FS)
       = <[ lit "harvest.xml" := take k sealed_file ]>
           ({[ lit "harvest.xml" := sealed_file ]} : FS).
Proof.
  apply ensure_open_wrapper_cuts_in_window.
  - apply lookup_singleton_eq.
  - discriminate.
Defined.

Lemma out_path_for_index_injective_witness :
  (3 = 3 \/ (3 <= 1 /\ 3 <= 1))%Z.
Proof.
  apply (out_path_for_index_injective (example_config None None) 3 3).
  reflexivity.
Defined.

(** ** The books of a run *)

(** Closes the side conditions of a [ledger] on a concrete trace. *)
Ltac close_books :=
  cbn [app];
  rewrite ?count_app, ?count_cons, ?count_nil, ?Z.sub_diag;
  cbn [is_item is_csv_row is_jsonl_row is_open is_fetch is_save];
  try reflexivity; try lia;
  try (now destruct (csv_enabled _));
  try (now destruct (jsonl_enabled _));
  try (intros; lia); try (intros; assumption).

Section Books.

Variable ET_tostring : Element -> str.
Variable cfg : Config.

Lemma dict_get_set_eq {V : Type} (k : list N) (v : V) (d : list (list N * V)) :
  dict_get k (dict_set k v d) = Some v.
Proof.
  induction d as [|[k' v'] d IH]; cbn [dict_set dict_get].
  - now rewrite bool_decide_eq_true_2.
  - case_bool_decide as Hk; cbn [dict_get].
    + now rewrite bool_decide_eq_true_2.
    + now rewrite bool_decide_eq_false_2.
Qed.

Lemma dict_get_set_ne {V : Type} (k k' : list N) (v : V)
    (d : list (list N * V)) :
  k' <> k -> dict_get k' (dict_set k v d) = dict_get k' d.
Proof.
  intros Hne. induction d as [|[k2 v2] d IH]; cbn [dict_set dict_get].
  - now rewrite bool_decide_eq_false_2.
  - case_bool_decide as Hk; cbn [dict_get].
    + subst k2. now rewrite !bool_decide_eq_false_2.
    + case_bool_decide; [reflexivity|exact IH].
Qed.

Lemma state_kept_refl (st : LoopState) : state_kept st st.
Proof. unfold state_kept. now destruct (state st). Qed.

Lemma state_kept_same (st st' : LoopState) :
  state st' = state st -> state_kept st st'.
Proof. unfold state_kept. intros ->. now destruct (state st). Qed.

Lemma state_kept_trans (a b c : LoopState) :
  state_kept a b -> state_kept b c -> state_kept a c.
Proof.
  unfold state_kept.
  destruct (state a), (state b), (state c); try tauto.
  intros H1 H2 k Hk. now rewrite H2, H1.
Qed.

Lemma ledger_refl (st : LoopState) : ledger cfg st st [] 0 0 0.
Proof.
  split; close_books. apply state_kept_refl.
Qed.

Lemma ledger_app (a b c : LoopState) (tr1 tr2 : list Event)
    (slack s1 s2 f1 f2 : nat) :
  ledger cfg a b tr1 0 s1 f1 -> ledger cfg b c tr2 slack s2 f2 ->
  ledger cfg a c (tr1 ++ tr2) slack (s1 + s2) (f1 + f2).
Proof.
  intros [A1 A2 A3 A4 A5 A6 A7 A8 A9 A10 A11]
         [B1 B2 B3 B4 B5 B6 B7 B8 B9 B10 B11].
  split; rewrite ?count_app.
  - lia.
  - lia.
  - rewrite A3, B3. destruct (csv_enabled cfg); lia.
  - rewrite A4, B4. destruct (jsonl_enabled cfg); lia.
  - intros N HN Hle. apply (B5 N HN). specialize (A5 N HN Hle). lia.
  - lia.
  - auto.
  - lia.
  - lia.
  - lia.
  - eapply state_kept_trans; eassumption.
Qed.

Lemma limit_open (n : Z) :
  limit_reached cfg n = false ->
  forall N, max_items cfg = Some N -> (n + 1 <= N)%Z.
Proof.
  unfold limit_reached. intros H N HN. rewrite HN in H.
  apply Z.leb_gt in H. lia.
Qed.

Lemma write_item_ledger (el : Element) (st : LoopState) (w : World)
    (o : option exn) (st' : LoopState) (w' : World) :
  limit_reached cfg (num_items st) = false ->
  write_item ET_tostring cfg el st w = (o, st', w') ->
  exists tr slack,
    trace w' = trace w ++ tr
    /\ (slack <= 1)%nat
    /\ (o = None -> slack = 0%nat)
    /\ ledger cfg st st' tr slack 0 0.
Proof.
  intros Hlim H. unfold write_item in H.
  pose proof (limit_open _ Hlim) as Hopen.
  destruct (encode_text (ET_tostring el)) as [data|e].
  2:{ injection H as <- <- <-. exists [], 0%nat.
      rewrite app_nil_r. repeat split; try lia; apply ledger_refl. }
  destruct (item_fields cfg el) as [[[identifier datestamp] value]|e].
  2:{ injection H as <- <- <-. exists [EvItem (current_out st) el], 1%nat.
      split; [reflexivity|]. split; [lia|]. split; [discriminate|].
      split; close_books.
      - intros N HN _. specialize (Hopen N HN). lia.
      - apply state_kept_refl. }
  injection H as <- <- <-.
  exists (EvItem (current_out st) el
          :: (if csv_enabled cfg
              then [EvCsvRow identifier datestamp value] else [])
          ++ (if jsonl_enabled cfg
              then [EvJsonlRow identifier datestamp value] else [])), 0%nat.
  split.
  { destruct (csv_enabled cfg), (jsonl_enabled cfg);
      cbn [emit on_files trace app]; rewrite <- ?app_assoc; reflexivity. }
  split; [lia|]. split; [reflexivity|].
  split; cbn [set_num_items num_items file_index current_out page state];
    replace (num_items st + 1 - num_items st)%Z with 1%Z by lia;
    try (destruct (csv_enabled cfg), (jsonl_enabled cfg); close_books; fail).
  - intros N HN _. specialize (Hopen N HN). lia.
  - now apply state_kept_same.
Qed.

Lemma write_items_ledger (elements : list Element) (st : LoopState)
    (w : World) (o : option exn) (st' : LoopState) (w' : World) :
  write_items ET_tostring cfg elements st w = (o, st', w') ->
  exists tr slack,
    trace w' = trace w ++ tr
    /\ (slack <= 1)%nat
    /\ (o = None -> slack = 0%nat)
    /\ ledger cfg st st' tr slack 0 0.
Proof.
  revert st w. induction elements as [|el rest IH]; intros st w H;
    cbn [write_items] in H.
  - injection H as <- <- <-. exists [], 0%nat. rewrite app_nil_r.
    repeat split; try lia; apply ledger_refl.
  - destruct (limit_reached cfg (num_items st)) eqn:Hlim.
    { injection H as <- <- <-. exists [], 0%nat. rewrite app_nil_r.
      repeat split; try lia; apply ledger_refl. }
    destruct (write_item ET_tostring cfg el st w) as [[o1 st1] w1] eqn:E1.
    apply (write_item_ledger _ _ _ _ _ _ Hlim) in E1
      as (tr1 & k1 & Ht1 & Hk1 & Ho1 & L1).
    destruct o1 as [e|].
    + injection H as <- <- <-. exists tr1, k1. auto.
    + rewrite (Ho1 eq_refl) in L1.
      apply IH in H as (tr2 & k2 & Ht2 & Hk2 & Ho2 & L2).
      exists (tr1 ++ tr2), k2.
      split; [now rewrite Ht2, Ht1, app_assoc|].
      split; [exact Hk2|]. split; [exact Ho2|].
      exact (ledger_app _ _ _ _ _ _ _ _ _ _ L1 L2).
Qed.

Lemma rotate_ledger (st : LoopState) (w : World) :
  exists tr, trace (rotate cfg st w).2 = trace w ++ tr
             /\ ledger cfg st (rotate cfg st w).1 tr 0 0 0.
Proof.
  unfold rotate. destruct (rotation_due cfg (num_items st)).
  - eexists. cbn [emit on_files trace snd fst].
    rewrite <- app_assoc. split; [reflexivity|].
    split; cbn [set_segment num_items file_index current_out page state app];
      close_books.
    now apply state_kept_same.
  - exists []. cbn [snd fst]. rewrite app_nil_r. split; [reflexivity|].
    apply ledger_refl.
Qed.

Lemma volatile_update (d : list (list N * json)) (a b c : json) (k : list N) :
  ~ volatile_key k ->
  dict_get k (dict_update d [(lit "file_index", a); (lit "num_items", b);
                             (lit "resumptionToken", c)])
  = dict_get k d.
Proof.
  intros Hk. unfold dict_update. cbn [fold_left fst snd].
  rewrite !dict_get_set_ne; [reflexivity|..];
    intros ->; apply Hk; unfold volatile_key; auto.
Qed.

Lemma ledger_state (st : LoopState) (d' : list (list N * json)) :
  (forall d, state st = Some d ->
             forall k, ~ volatile_key k -> dict_get k d' = dict_get k d) ->
  state st <> None ->
  ledger cfg st (set_state d' st) [] 0 0 0.
Proof.
  intros Hd Hs.
  split; cbn [set_state num_items file_index current_out page state];
    close_books.
  unfold state_kept. cbn [set_state state].
  destruct (state st) as [d|]; [|congruence]. now apply Hd.
Qed.

Lemma ledger_save (st : LoopState) (d : list (list N * json)) :
  ledger cfg st st [EvSaveState d] 0 1 0.
Proof.
  split; close_books. apply state_kept_refl.
Qed.

(** The checkpoint after a page: what it holds, and its books. *)
Lemma checkpoint_ledger (rt : str) (st : LoopState) (w : World) :
  match checkpoint cfg rt st w with
  | PageDone rt' st' w' =>
      rt' = rt
      /\ (exists d data, state st' = Some d
            /\ encode_text (json_dumps (JDict d)) = Ok data
            /\ files w' !! st_path cfg = Some data
            /\ dict_get (lit "file_index") d = Some (JInt (file_index st'))
            /\ dict_get (lit "num_items") d = Some (JInt (num_items st'))
            /\ dict_get (lit "resumptionToken") d = Some (JStr rt)
            /\ trace w' = trace w ++ [EvSaveState d])
      /\ ledger cfg st st' [EvSaveState (default [] (state st'))] 0 1 0
  | PageRaised _ st' w' =>
      trace w' = trace w /\ ledger cfg st st' [] 0 0 0
  end.
Proof.
  unfold checkpoint. destruct (state st) as [d|] eqn:Hst.
  2:{ split; [reflexivity|apply ledger_refl]. }
  set (d' := dict_update d _).
  assert (Hl : ledger cfg st (set_state d' st) [] 0 0 0).
  { apply ledger_state; [|congruence].
    intros d0 Hd0 k Hk. rewrite Hst in Hd0. injection Hd0 as <-.
    now apply volatile_update. }
  unfold save_state.
  destruct (encode_text (json_dumps (JDict d'))) as [data|e] eqn:He;
    cbn [bind]; [|now split].
  split; [reflexivity|]. split.
  - exists d', data. split; [reflexivity|]. split; [exact He|].
    split; [cbn [emit on_files files]; apply lookup_insert_eq|].
    cbn [set_state file_index num_items].
    unfold d', dict_update. cbn [fold_left fst snd].
    split; [|split; [|split; [|reflexivity]]].
    + rewrite !dict_get_set_ne by discriminate. apply dict_get_set_eq.
    + rewrite dict_get_set_ne by discriminate. apply dict_get_set_eq.
    + apply dict_get_set_eq.
  - cbn [set_state state default].
    exact (ledger_app _ _ _ _ _ _ _ _ _ _ Hl (ledger_save _ d')).
Qed.

(** The books of one page. *)
Lemma process_page_ledger (root : Element) (st : LoopState) (w : World) :
  match process_page ET_tostring cfg root st w with
  | PageDone _ st' w' =>
      exists tr, trace w' = trace w ++ tr /\ ledger cfg st st' tr 0 1 0
  | PageRaised _ st' w' =>
      exists tr slack, trace w' = trace w ++ tr
                       /\ (slack <= 1)%nat
                       /\ ledger cfg st st' tr slack 0 0
  end.
Proof.
  unfold process_page.
  destruct (findall root _ NS) as [elements|e].
  2:{ exists [], 0%nat. rewrite app_nil_r.
      split; [reflexivity|]. split; [lia|apply ledger_refl]. }
  destruct (write_items ET_tostring cfg elements st w) as [[o1 st1] w1] eqn:E1.
  apply write_items_ledger in E1 as (tr1 & k1 & Ht1 & Hk1 & Ho1 & L1).
  destruct o1 as [e|].
  { exists tr1, k1. auto. }
  rewrite (Ho1 eq_refl) in L1.
  destruct (rotate_ledger st1 w1) as (tr2 & Ht2 & L2).
  destruct (rotate cfg st1 w1) as [st2 w2]. cbn [fst snd] in Ht2, L2.
  pose proof (ledger_app _ _ _ _ _ _ _ _ _ _ L1 L2) as L12.
  destruct (token_of root) as [rt|e].
  2:{ exists (tr1 ++ tr2), 0%nat. rewrite Ht2, Ht1, app_assoc.
      split; [reflexivity|]. split; [lia|exact L12]. }
  pose proof (checkpoint_ledger rt st2 w2) as Hcp.
  destruct (checkpoint cfg rt st2 w2) as [rt' st3 w3|e st3 w3].
  - destruct Hcp as (_ & (d & data & Hd & _ & _ & _ & _ & _ & Ht3) & L3).
    rewrite Hd in L3. cbn [default] in L3.
    exists ((tr1 ++ tr2) ++ [EvSaveState d]).
    split; [now rewrite Ht3, Ht2, Ht1, !app_assoc|].
    exact (ledger_app _ _ _ _ _ _ _ _ _ _ L12 L3).
  - destruct Hcp as (Ht3 & L3).
    exists ((tr1 ++ tr2) ++ []), 0%nat.
    split; [now rewrite Ht3, Ht2, Ht1, app_nil_r, app_assoc|].
    split; [lia|].
    exact (ledger_app _ _ _ _ _ _ _ _ _ _ L12 L3).
Qed.

Lemma ledger_quiet (st st' : LoopState) (tr : list Event) :
  num_items st' = num_items st -> file_index st' = file_index st ->
  current_out st' = current_out st -> state st' = state st ->
  page st' = page st ->
  count is_item tr = 0%nat -> count is_csv_row tr = 0%nat ->
  count is_jsonl_row tr = 0%nat -> count is_open tr = 0%nat ->
  count is_fetch tr = 0%nat -> count is_save tr = 0%nat ->
  ledger cfg st st' tr 0 0 0.
Proof.
  intros E1 E2 E3 E4 E5 C1 C2 C3 C4 C5 C6.
  split; rewrite ?E1, ?E2, ?E3, ?E5, ?C1, ?C2, ?C3, ?C4, ?C5, ?C6;
    close_books.
  now apply state_kept_same.
Qed.

Lemma ledger_fetch (st : LoopState) (p : list (list N * list N)) :
  ledger cfg st (next_page st) [EvFetch p] 0 0 1.
Proof.
  split; cbn [next_page num_items file_index current_out page state];
    close_books.
  now apply state_kept_same.
Qed.

(** The books of a run of the loop, however it ends: a run that is
    not aborted counted every item it wrote and saved a checkpoint
    after every request; an aborted one wrote at most one item it did
    not count, and its last request has no checkpoint. *)
Lemma paging_ledger (responses : list (result Element)) (st : LoopState)
    (w : World) :
  let '(o, st', w') := paging ET_tostring cfg responses st w in
  exists tr slack saves fetches,
    trace w' = trace w ++ tr
    /\ ledger cfg st st' tr slack saves fetches
    /\ match o with
       | Aborted _ => (slack <= 1)%nat /\ fetches = S saves
       | _ => slack = 0%nat /\ fetches = saves
       end.
Proof.
  revert st w. induction responses as [|response rest IH]; intros st w;
    cbn [paging]; destruct (limit_reached cfg (num_items st)).
  1,3: exists [EvSeal (current_out st); EvRemoveState], 0%nat, 0%nat, 0%nat;
       (split; [cbn [finish emit on_files trace];
                now rewrite <- app_assoc|]);
       (split; [now apply ledger_quiet|now split]).
  { exists [], 0%nat, 0%nat, 0%nat. rewrite app_nil_r.
    split; [reflexivity|]. split; [apply ledger_refl|now split]. }
  pose proof (ledger_fetch st (params st)) as Lf.
  change (params (next_page st)) with (params st).
  destruct response as [root|e].
  2:{ exists [EvFetch (params st)], 0%nat, 0%nat, 1%nat.
      split; [reflexivity|]. split; [exact Lf|]. split; [lia|reflexivity]. }
  pose proof (process_page_ledger root (next_page st)
                (emit (EvFetch (params st)) w)) as Hp.
  destruct (process_page ET_tostring cfg root (next_page st) _)
    as [rt st1 w1|e st1 w1].
  2:{ destruct Hp as (tr1 & k1 & Ht1 & Hk1 & L1).
      exists ([EvFetch (params st)] ++ tr1), k1, 0%nat, 1%nat.
      split; [now rewrite Ht1; cbn [emit trace]; rewrite <- app_assoc|].
      split; [exact (ledger_app _ _ _ _ _ _ _ _ _ _ Lf L1)|].
      split; [exact Hk1|reflexivity]. }
  destruct Hp as (tr1 & Ht1 & L1).
  pose proof (ledger_app _ _ _ _ _ _ _ _ _ _ Lf L1) as L01.
  cbn [Nat.add] in L01.
  destruct rt as [|c rt].
  { exists (([EvFetch (params st)] ++ tr1)
            ++ [EvSeal (current_out st1); EvRemoveState]),
           0%nat, 1%nat, 1%nat.
    split.
    { cbn [finish emit on_files trace]. rewrite Ht1. cbn [emit trace].
      now rewrite <- !app_assoc. }
    split; [|now split].
    assert (Lq : ledger cfg st1 st1
                   [EvSeal (current_out st1); EvRemoveState] 0 0 0)
      by now apply ledger_quiet.
    exact (ledger_app _ _ _ _ _ _ _ _ _ _ L01 Lq). }
  set (st2 := set_params _ st1).
  set (w2 := emit (EvSleep _) w1).
  specialize (IH st2 w2).
  destruct (paging ET_tostring cfg rest st2 w2) as [[o st3] w3].
  destruct IH as (tr3 & k3 & s3 & f3 & Ht3 & L3 & Ho).
  assert (Lq : ledger cfg st1 st2 [EvSleep (sleep_between cfg)] 0 0 0)
    by now apply ledger_quiet.
  pose proof (ledger_app _ _ _ _ _ _ _ _ _ _ L01 Lq) as L02.
  pose proof (ledger_app _ _ _ _ _ _ _ _ _ _ L02 L3) as L03.
  exists ((([EvFetch (params st)] ++ tr1) ++ [EvSleep (sleep_between cfg)])
          ++ tr3), k3, (1 + 0 + s3)%nat, (1 + 0 + f3)%nat.
  split.
  { rewrite Ht3. unfold w2. cbn [emit trace]. rewrite Ht1. cbn [emit trace].
    now rewrite <- !app_assoc. }
  split; [exact L03|].
  destruct o; destruct Ho as [Hk ->]; split; auto.
Qed.

End Books.
(** ** Runs of the loop, however they end *)

Section BooksOfRuns.

Variable ET_tostring : Element -> str.
Variable cfg : Config.

(** X12: whatever the server sends and however the run ends, a run
    with [max_items = N] that starts at or below the limit never
    counts more than [N] items and never writes more than the
    [N - num_items] items that are missing. *)
Theorem paging_never_exceeds_limit (N : Z)
    (responses : list (result Element)) (st : LoopState) (w : World) :
  max_items cfg = Some N ->
  (num_items st <= N)%Z ->
  let '(o, st', w') := paging ET_tostring cfg responses st w in
  (num_items st' <= N)%Z
  /\ exists tr, trace w' = trace w ++ tr
                /\ (Z.of_nat (count is_item tr) <= N - num_items st)%Z.
Proof.
  intros Hmax Hle.
  pose proof (paging_ledger ET_tostring cfg responses st w) as H.
  destruct (paging ET_tostring cfg responses st w) as [[o st'] w'].
  destruct H as (tr & k & s & f & Ht & L & _).
  pose proof (led_limit _ _ _ _ _ _ _ L N Hmax Hle) as Hlim.
  pose proof (led_items _ _ _ _ _ _ _ L) as Hi.
  split; [lia|]. exists tr. split; [exact Ht|lia].
Qed.

(** X13: the count of a run and its export.  Every run adds to every
    enabled export exactly one row for each item it counts.  A run
    that is not aborted has written to the segments exactly the items
    it counted; an aborted run has written at most one item more, the
    one whose export row raised. *)
Theorem paging_counts_what_it_writes (responses : list (result Element))
    (st : LoopState) (w : World) :
  let '(o, st', w') := paging ET_tostring cfg responses st w in
  exists tr,
    trace w' = trace w ++ tr
    /\ (num_items st <= num_items st')%Z
    /\ count is_csv_row tr
       = (if csv_enabled cfg then Z.to_nat (num_items st' - num_items st)
          else 0%nat)
    /\ count is_jsonl_row tr
       = (if jsonl_enabled cfg then Z.to_nat (num_items st' - num_items st)
          else 0%nat)
    /\ match o with
       | Aborted _ =>
           (num_items st' - num_items st <= Z.of_nat (count is_item tr)
            <= num_items st' - num_items st + 1)%Z
       | _ => Z.of_nat (count is_item tr) = (num_items st' - num_items st)%Z
       end.
Proof.
  pose proof (paging_ledger ET_tostring cfg responses st w) as H.
  destruct (paging ET_tostring cfg responses st w) as [[o st'] w'].
  destruct H as (tr & k & s & f & Ht & L & Ho).
  pose proof (led_items _ _ _ _ _ _ _ L) as Hi.
  exists tr. split; [exact Ht|].
  split; [exact (led_mono _ _ _ _ _ _ _ L)|].
  split; [exact (led_csv _ _ _ _ _ _ _ L)|].
  split; [exact (led_jsonl _ _ _ _ _ _ _ L)|].
  destruct o; destruct Ho as [Hk Hf]; lia.
Qed.

(** X14: the counters of a run follow what it does.  The page counter
    advances by one for each request and the segment index by one for
    each segment opened; a checkpoint is saved after every request of
    a run that is not aborted, and after every request but the last
    of an aborted one; the keys of the checkpoint other than
    [file_index], [num_items] and [resumptionToken] keep their
    values. *)
Theorem paging_counters (responses : list (result Element))
    (st : LoopState) (w : World) :
  let '(o, st', w') := paging ET_tostring cfg responses st w in
  exists tr,
    trace w' = trace w ++ tr
    /\ page st' = (page st + count is_fetch tr)%nat
    /\ file_index st' = (file_index st + Z.of_nat (count is_open tr))%Z
    /\ count is_fetch tr
       = (count is_save tr
          + match o with Aborted _ => 1 | _ => 0 end)%nat
    /\ state_kept st st'.
Proof.
  pose proof (paging_ledger ET_tostring cfg responses st w) as H.
  destruct (paging ET_tostring cfg responses st w) as [[o st'] w'].
  destruct H as (tr & k & s & f & Ht & L & Ho).
  exists tr. split; [exact Ht|].
  rewrite (led_fetch _ _ _ _ _ _ _ L), (led_saves _ _ _ _ _ _ _ L).
  split; [exact (led_page _ _ _ _ _ _ _ L)|].
  split; [exact (led_index _ _ _ _ _ _ _ L)|].
  split; [|exact (led_state _ _ _ _ _ _ _ L)].
  destruct o; destruct Ho as [Hk ->]; lia.
Qed.

(** X15: after a page that is processed to its end, the checkpoint
    file holds the position of the run: the document on disk is the
    dictionary of the loop, its [file_index] and [num_items] are the
    loop's, its token is the token of the page, its other keys are
    untouched, and the segment the loop writes to is the one
    [out_path_for_index] gives for that [file_index]. *)
Theorem page_checkpoint_holds_position (root : Element) (st : LoopState)
    (w : World) (d : list (str * json)) (rt : str) (st' : LoopState)
    (w' : World) :
  state st = Some d ->
  current_out st = out_path_for_index cfg (file_index st) ->
  process_page ET_tostring cfg root st w = PageDone rt st' w' ->
  exists d' data,
    state st' = Some d'
    /\ encode_text (json_dumps (JDict d')) = Ok data
    /\ files w' !! st_path cfg = Some data
    /\ dict_get (lit "file_index") d' = Some (JInt (file_index st'))
    /\ dict_get (lit "num_items") d' = Some (JInt (num_items st'))
    /\ dict_get (lit "resumptionToken") d' = Some (JStr rt)
    /\ rt = page_token root
    /\ (forall k, ~ volatile_key k -> dict_get k d' = dict_get k d)
    /\ current_out st' = out_path_for_index cfg (file_index st').
Proof.
  intros Hst Hout H.
  pose proof (process_page_ledger ET_tostring cfg root st w) as Hl.
  rewrite H in Hl. destruct Hl as (tr & _ & L).
  pose proof (led_state _ _ _ _ _ _ _ L) as Hk.
  pose proof (led_path _ _ _ _ _ _ _ L Hout) as Hp.
  revert H. unfold process_page.
  destruct (findall root _ NS) as [elements|e]; [|discriminate].
  destruct (write_items _ _ _ _ _) as [[[e|] st0] w0]; [discriminate|].
  destruct (rotate cfg st0 w0) as [st2 w2].
  rewrite (token_of_page root). intros H.
  pose proof (checkpoint_ledger cfg (page_token root) st2 w2) as Hcp.
  rewrite H in Hcp.
  destruct Hcp as (-> & (d' & data & Hd' & He & Hf & Hfi & Hni & Hrt & _) & _).
  exists d', data. unfold state_kept in Hk. rewrite Hst, Hd' in Hk.
  repeat (split; [assumption || reflexivity|]). exact Hp.
Qed.

End BooksOfRuns.
(** ** The requests of a run *)

Section Requests.

Variable ET_tostring : Element -> str.
Variable cfg : Config.

Lemma requests_app (a b : list Event) :
  requests (a ++ b) = requests a ++ requests b.
Proof. unfold requests. apply flat_map_app. Qed.

Lemma requests_none (tr : list Event) :
  count is_fetch tr = 0%nat -> requests tr = [].
Proof.
  induction tr as [|ev tr IH]; [reflexivity|].
  rewrite count_cons. destruct ev; cbn [is_fetch]; intros H;
    try discriminate; cbn [requests flat_map app]; apply IH; lia.
Qed.

Lemma paging_requests_from (responses : list (result Element))
    (st : LoopState) (w : World) :
  let '(o, st', w') := paging ET_tostring cfg responses st w in
  exists tr,
    trace w' = trace w ++ tr
    /\ (requests tr = []
        \/ exists more,
             requests tr = params st :: more
             /\ more `prefix_of` map (request_after cfg) responses
             /\ Forall (token_request cfg) more).
Proof.
  revert st w. induction responses as [|response rest IH]; intros st w;
    cbn [paging]; destruct (limit_reached cfg (num_items st)).
  1,3: exists [EvSeal (current_out st); EvRemoveState];
       (split; [apply finish_trace|now left]).
  { exists []. rewrite app_nil_r. split; [reflexivity|now left]. }
  change (params (next_page st)) with (params st).
  destruct response as [root|e].
  2:{ exists [EvFetch (params st)]. split; [reflexivity|]. right.
      exists []. split; [reflexivity|]. split; [apply prefix_nil|constructor]. }
  pose proof (process_page_ledger ET_tostring cfg root (next_page st)
                (emit (EvFetch (params st)) w)) as Hp.
  destruct (process_page ET_tostring cfg root (next_page st) _)
    as [rt st1 w1|e st1 w1] eqn:E.
  2:{ destruct Hp as (tr1 & k1 & Ht1 & _ & L1).
      exists ([EvFetch (params st)] ++ tr1).
      split; [now rewrite Ht1; cbn [emit trace]; rewrite <- app_assoc|].
      right. exists [].
      rewrite requests_app, (requests_none tr1 (led_fetch _ _ _ _ _ _ _ L1)).
      split; [reflexivity|]. split; [apply prefix_nil|constructor]. }
  destruct Hp as (tr1 & Ht1 & L1).
  pose proof (requests_none tr1 (led_fetch _ _ _ _ _ _ _ L1)) as Hr1.
  apply process_page_done in E as (Hrt & _).
  destruct rt as [|c rt].
  { exists (([EvFetch (params st)] ++ tr1)
            ++ [EvSeal (current_out st1); EvRemoveState]).
    split.
    { rewrite finish_trace, Ht1. cbn [emit trace]. now rewrite <- !app_assoc. }
    right. exists []. rewrite !requests_app, Hr1.
    split; [reflexivity|]. split; [apply prefix_nil|constructor]. }
  set (st2 := set_params _ st1).
  set (w2 := emit (EvSleep _) w1).
  specialize (IH st2 w2).
  destruct (paging ET_tostring cfg rest st2 w2) as [[o st3] w3].
  destruct IH as (tr3 & Ht3 & Hreq).
  exists ((([EvFetch (params st)] ++ tr1) ++ [EvSleep (sleep_between cfg)])
          ++ tr3).
  split.
  { rewrite Ht3. unfold w2. cbn [emit trace]. rewrite Ht1. cbn [emit trace].
    now rewrite <- !app_assoc. }
  right. rewrite !requests_app, Hr1.
  change (requests [EvFetch (params st)]) with [params st].
  change (requests [EvSleep (sleep_between cfg)])
    with (@nil (list (list N * list N))).
  cbn [app].
  destruct Hreq as [->|(more & -> & Hpre & Hall)].
  - exists []. split; [reflexivity|]. split; [apply prefix_nil|constructor].
  - exists (params st2 :: more). split; [reflexivity|].
    assert (Hp2 : params st2 = request_after cfg (Ok root)).
    { unfold st2, request_after. cbn [set_params params]. now rewrite Hrt. }
    split.
    + cbn [map]. rewrite Hp2. now apply prefix_cons.
    + constructor; [|exact Hall].
      exists (c :: rt). split; [discriminate|reflexivity].
Qed.

(** X16: the requests of a run.  The first request carries the
    parameters the run starts with; every later request carries the
    verb and the token of the page before it, that token is not
    empty, and nothing else is sent with it. *)
Theorem paging_requests (responses : list (result Element))
    (st : LoopState) (w : World) :
  let '(o, st', w') := paging ET_tostring cfg responses st w in
  exists tr,
    trace w' = trace w ++ tr
    /\ requests tr `prefix_of` (params st :: map (request_after cfg) responses)
    /\ Forall (token_request cfg) (tail (requests tr)).
Proof.
  pose proof (paging_requests_from responses st w) as H.
  destruct (paging ET_tostring cfg responses st w) as [[o st'] w'].
  destruct H as (tr & Ht & [Hr|(more & Hr & Hpre & Hall)]);
    exists tr; (split; [exact Ht|]); rewrite Hr.
  - split; [apply prefix_nil|constructor].
  - split; [now apply prefix_cons|exact Hall].
Qed.

(** X17: a fresh run whose limit is zero or negative asks the server
    for nothing: it leaves an output file that holds the opening and
    the closing tags and nothing between them, and no checkpoint. *)
Theorem zero_limit_leaves_empty_envelope (N : Z)
    (responses : list (result Element)) (w0 : World) (st : LoopState)
    (w : World) :
  max_items cfg = Some N -> (N <= 0)%Z ->
  files w0 !! out_path cfg = None ->
  fresh_start cfg w0 = Ok (st, w) ->
  exists w' d,
    paging ET_tostring cfg responses st w = (Finished LimitReached, st, w')
    /\ trace w' = trace w0 ++ [EvSaveState d; EvOpen (out_path cfg);
                               EvSeal (out_path cfg); EvRemoveState]
    /\ files w' !! out_path cfg
       = Some (wrapper_open_tag (verb cfg) ++ wrapper_close_tag (verb cfg))
    /\ files w' !! st_path cfg = None.
Proof.
  intros Hmax HN Hnew. unfold fresh_start.
  set (d := (lit "base_url", JStr (base_url cfg)) :: _).
  unfold save_state.
  destruct (encode_text (json_dumps (JDict d))) as [data|e];
    cbn [bind]; [|discriminate].
  change (out_path_for_index cfg 1) with (out_path cfg).
  intros H. injection H as <- <-.
  assert (Hne1 : out_path cfg <> st_path cfg).
  { unfold st_path, state_path_for. intros H. apply (f_equal length) in H.
    rewrite length_app in H. cbn in H. lia. }
  assert (Hne2 : out_path cfg <> st_path cfg ++ lit ".tmp").
  { unfold st_path, state_path_for. intros H. apply (f_equal length) in H.
    rewrite !length_app in H. cbn in H. lia. }
  eexists _, d. split.
  { apply paging_at_limit. unfold limit_reached. rewrite Hmax.
    cbn [num_items]. apply Z.leb_le. exact HN. }
  rewrite finish_trace. cbn [current_out emit on_files trace files].
  split; [now rewrite <- !app_assoc|].
  unfold finish. cbn [current_out emit on_files trace files].
  unfold remove_state, write_close_wrapper, fs_append.
  rewrite ensure_open_wrapper_new.
  2:{ left. rewrite lookup_insert_ne by (intros E; now apply Hne1).
      rewrite lookup_delete_ne by (intros E; now apply Hne2).
      rewrite lookup_insert_ne by (intros E; now apply Hne2).
      exact Hnew. }
  split.
  - rewrite lookup_delete_ne by (intros E; now apply Hne1).
    rewrite lookup_insert_eq. rewrite lookup_insert_eq. reflexivity.
  - apply lookup_delete_eq.
Qed.

End Requests.
(** ** Export rows and field extraction *)

Section Rows.

Variable cfg : Config.

Lemma lstrip_head (s : list N) (c : N) (t : list N) :
  lstrip s = c :: t -> is_space c = false.
Proof.
  induction s as [|a s IH]; [discriminate|]. cbn [lstrip].
  destruct (is_space a) eqn:Ha; [exact IH|].
  intros H. injection H as <- _. exact Ha.
Qed.

Lemma lstrip_app_solid (a : list N) (c : N) (b : list N) :
  is_space c = false -> lstrip (a ++ c :: b) = lstrip a ++ c :: b.
Proof.
  intros Hc. induction a as [|x a IH]; cbn [app lstrip].
  - now rewrite Hc.
  - destruct (is_space x); [exact IH|reflexivity].
Qed.

Lemma lstrip_idempotent (s : list N) : lstrip (lstrip s) = lstrip s.
Proof.
  induction s as [|c s IH]; [reflexivity|]. cbn [lstrip].
  destruct (is_space c) eqn:Hc; [exact IH|]. cbn [lstrip]. now rewrite Hc.
Qed.

(** [strip] leaves no white space at either end. *)
Lemma strip_idempotent (s : list N) : strip (strip s) = strip s.
Proof.
  unfold strip.
  assert (Hl : lstrip (rstrip (lstrip s)) = rstrip (lstrip s)).
  { destruct (lstrip s) as [|c t] eqn:E; [reflexivity|].
    apply lstrip_head in E. unfold rstrip. cbn [rev].
    rewrite (lstrip_app_solid _ _ [] E), rev_app_distr. cbn [rev app lstrip].
    now rewrite E. }
  rewrite Hl. unfold rstrip. now rewrite rev_involutive, lstrip_idempotent.
Qed.

Lemma extract_stripped (record_el : Element) (qname v : list N) :
  extract_edm_field_from_record record_el qname = Ok v -> strip v = v.
Proof.
  unfold extract_edm_field_from_record.
  destruct (find record_el _ NS) as [[md|]|e]; cbn [bind];
    [|intros [= <-]; reflexivity|discriminate].
  destruct (find md (resolve_qname qname) NS) as [el|e]; cbn [bind];
    [|discriminate].
  assert (Hfall :
            (if bool_decide (qname = lit "edm:isShownAt")
             then
               let* a := find md (lit ".//edm:isShownBy") NS in
               let* el2 := find_or a (find md (lit ".//dc:identifier") NS) in
               match el2 with
               | Some (Elem _ (Some (c :: t)) _) => Ok (strip (c :: t))
               | _ => Ok []
               end
             else Ok []) = Ok v -> strip v = v).
  { case_bool_decide; [|intros [= <-]; reflexivity].
    destruct (find md (lit ".//edm:isShownBy") NS) as [a|e]; cbn [bind];
      [|discriminate].
    destruct (find_or a _) as [[[t [[|c x]|] cs]|]|e]; cbn [bind];
      intros [= <-]; try reflexivity. apply strip_idempotent. }
  destruct el as [[t [[|c x]|] cs]|]; try exact Hfall.
  intros [= <-]. apply strip_idempotent.
Qed.

(** X18: a field name whose prefix the namespace map does not know is
    an error only where it is looked up: a record without metadata
    gives the empty value, and for a record with metadata the lookup
    raises [SyntaxError]; in a [ListRecords] run with such a field
    the first record that has a header and metadata ends the run
    after its XML is written, before any export row and before it is
    counted. *)
Theorem unknown_prefix_stops_at_first_record (ET_tostring : Element -> str)
    (prefix local : str) (el header md : Element) (data : bytes)
    (st : LoopState) (w : World) :
  prefix <> [] -> plain_name prefix = true ->
  dict_get prefix NS = None ->
  verb cfg = ListRecords ->
  edm_field cfg = Some (prefix ++ 58 :: local) ->
  find el (lit "./oai:header") NS = Ok (Some header) ->
  find el (lit "oai:metadata") NS = Ok (Some md) ->
  encode_text (ET_tostring el) = Ok data ->
  (forall record_el,
      find record_el (lit "oai:metadata") NS = Ok None ->
      extract_edm_field_from_record record_el (prefix ++ 58 :: local) = Ok [])
  /\ extract_edm_field_from_record el (prefix ++ 58 :: local)
     = Raise SyntaxError
  /\ write_item ET_tostring cfg el st w
     = (Some SyntaxError, st,
        emit (EvItem (current_out st) el)
          (on_files (fs_append (current_out st) (data ++ [NL])) w)).
Proof.
  intros Hne Hplain Hns Hverb Hfield Hheader Hmd Hdata.
  assert (Hcolon : 58 ∉ prefix).
  { intros Hin. unfold plain_name in Hplain.
    rewrite forallb_forall in Hplain.
    apply list_elem_of_In in Hin. apply Hplain in Hin. discriminate. }
  assert (Hslash : is_prefix (lit ".//") (prefix ++ 58 :: local) = false
                   /\ is_prefix (lit "./") (prefix ++ 58 :: local) = false).
  { destruct prefix as [|a p]; [split; reflexivity|].
    cbn [plain_name forallb] in Hplain.
    apply andb_true_iff in Hplain as [Ha _].
    cbn [app].
    change (lit ".//") with (46 :: lit "//").
    change (lit "./") with (46 :: lit "/"). cbn [is_prefix].
    destruct (N.eqb_spec 46 a) as [<-|_]; [discriminate|].
    split; reflexivity. }
  assert (Hex : extract_edm_field_from_record el (prefix ++ 58 :: local)
                = Raise SyntaxError).
  { unfold extract_edm_field_from_record. rewrite Hmd. cbn [bind].
    unfold resolve_qname. rewrite split_colon_app by exact Hcolon.
    rewrite Hns. unfold find, findall.
    destruct Hslash as [-> ->].
    unfold qualify. rewrite split_colon_app by exact Hcolon.
    rewrite Hns. destruct prefix; [now destruct Hne|reflexivity]. }
  split; [|split; [exact Hex|]].
  - intros record_el Hnone. unfold extract_edm_field_from_record.
    now rewrite Hnone.
  - unfold write_item. rewrite Hdata. unfold item_fields.
    rewrite Hverb, Hfield. rewrite bool_decide_eq_true_2 by reflexivity.
    rewrite Hheader. cbn [bind].
    destruct (findtext header (lit "./oai:identifier") NS) as [i|e] eqn:Ei.
    2:{ vm_compute in Ei. discriminate. }
    destruct (findtext header (lit "./oai:datestamp") NS) as [ds|e] eqn:Ed.
    2:{ vm_compute in Ed. discriminate. }
    cbn [bind].
    replace (truthy (Some (prefix ++ 58 :: local))) with true
      by (now destruct prefix).
    cbn [andb from_option id]. now rewrite Hex.
Qed.

(** A field name that begins with the colon has the empty prefix,
    which the namespace map lacks as well; the path is the name
    itself, its first token is the colon, and the lookup raises
    [KeyError]. *)
Lemma empty_prefix_raises_key_error (el md : Element) (local : str) :
  find el (lit "oai:metadata") NS = Ok (Some md) ->
  extract_edm_field_from_record el (58 :: local) = Raise KeyError.
Proof.
  intros Hmd. unfold extract_edm_field_from_record. rewrite Hmd. cbn [bind].
  assert (Hsplit : split_colon (58 :: local) = Some ([], local)).
  { apply (split_colon_app [] local). apply not_elem_of_nil. }
  unfold resolve_qname. rewrite Hsplit.
  change (dict_get [] NS) with (@None str).
  unfold find, findall. change (is_prefix (lit ".//") (58 :: local)) with false.
  change (is_prefix (lit "./") (58 :: local)) with false.
  unfold qualify. now rewrite Hsplit.
Qed.

(** X19: an [edm:isShownAt] whose text is white space only counts as
    found: the value is the empty string and the fallback to
    [edm:isShownBy] and [dc:identifier] is not consulted, whatever
    the metadata holds besides. *)
Theorem blank_text_suppresses_fallback (record_el md el : Element)
    (x : str) :
  find record_el (lit "oai:metadata") NS = Ok (Some md) ->
  find md (lit ".//edm:isShownAt") NS = Ok (Some el) ->
  text el = Some x -> x <> [] -> forallb is_space x = true ->
  extract_edm_field_from_record record_el (lit "edm:isShownAt") = Ok [].
Proof.
  intros Hmd Hel Hx Hne Hsp.
  unfold extract_edm_field_from_record. rewrite Hmd. cbn [bind].
  change (resolve_qname (lit "edm:isShownAt")) with (lit ".//edm:isShownAt").
  rewrite Hel. cbn [bind].
  destruct el as [t x' cs]. cbn [text] in Hx. subst x'.
  destruct x as [|c r]; [contradiction|].
  f_equal. now apply strip_nil.
Qed.

(** X20: the values of an export row carry no white space at either
    end: stripping the identifier, the datestamp or the field value
    once more changes nothing. *)
Theorem item_fields_stripped (el : Element) (identifier datestamp value : str) :
  item_fields cfg el = Ok (identifier, datestamp, value) ->
  strip identifier = identifier
  /\ strip datestamp = datestamp
  /\ strip value = value.
Proof.
  unfold item_fields.
  destruct (if bool_decide (verb cfg = ListRecords)
            then find el (lit "./oai:header") NS else Ok (Some el))
    as [[header|]|e]; cbn [bind]; try discriminate.
  destruct (findtext header (lit "./oai:identifier") NS) as [i|e];
    cbn [bind]; [|discriminate].
  destruct (findtext header (lit "./oai:datestamp") NS) as [ds|e];
    cbn [bind]; [|discriminate].
  destruct (bool_decide (verb cfg = ListRecords) && truthy (edm_field cfg)).
  - destruct (extract_edm_field_from_record el _) as [v|e] eqn:Ev;
      cbn [bind]; [|discriminate].
    intros [= <- <- <-]. apply extract_stripped in Ev.
    now rewrite !strip_idempotent.
  - cbn [bind]. intros [= <- <- <-]. now rewrite !strip_idempotent.
Qed.

End Rows.
Lemma paging_never_exceeds_limit_witness :
  let '(o, st', w') :=
    paging plain_tostring (example_config (Some 5%Z) None)
      [Ok first_page; Ok second_page; Raise RuntimeError]
      example_start empty_world in
  (num_items st' <= 5)%Z
  /\ exists tr, trace w' = trace empty_world ++ tr
                /\ (Z.of_nat (count is_item tr)
                    <= 5 - num_items example_start)%Z.
Proof.
  apply (paging_never_exceeds_limit plain_tostring
           (example_config (Some 5%Z) None) 5%Z
           [Ok first_page; Ok second_page; Raise RuntimeError]
           example_start empty_world).
  - reflexivity.
  - vm_compute. discriminate.
Defined.

Lemma page_checkpoint_holds_position_witness :
  exists rt st' w' d',
    process_page plain_tostring (example_config None None) first_page
      example_start empty_world = PageDone rt st' w'
    /\ state st' = Some d'
    /\ dict_get (lit "num_items") d' = Some (JInt (num_items st'))
    /\ dict_get (lit "resumptionToken") d' = Some (JStr rt)
    /\ dict_get (lit "out_base") d' = Some (JStr (lit "harvest")).
Proof.
  destruct (process_page plain_tostring (example_config None None) first_page
              example_start empty_world) as [rt st' w'|e st' w'] eqn:E.
  - destruct (page_checkpoint_holds_position plain_tostring
                (example_config None None) first_page example_start
                empty_world _ rt st' w' eq_refl eq_refl E)
      as (d' & data & Hd & _ & _ & _ & Hn & Ht & _ & Hk & _).
    exists rt, st', w', d'. split; [reflexivity|].
    split; [exact Hd|]. split; [exact Hn|]. split; [exact Ht|].
    rewrite Hk; [reflexivity|].
    intros [H|[H|H]]; discriminate H.
  - exfalso.
    apply (f_equal (fun r => match r with
                       | PageDone _ _ _ => true
                       | PageRaised _ _ _ => false
                       end)) in E.
    vm_compute in E. discriminate E.
Defined.

Lemma zero_limit_leaves_empty_envelope_witness :
  exists st w w',
    fresh_start (example_config (Some 0%Z) None) empty_world = Ok (st, w)
    /\ paging plain_tostring (example_config (Some 0%Z) None)
         [Ok first_page] st w = (Finished LimitReached, st, w')
    /\ files w' !! lit "harvest.xml"
       = Some (wrapper_open_tag ListRecords ++ wrapper_close_tag ListRecords)
    /\ files w' !! lit "harvest.xml.state.json" = None.
Proof.
  destruct (fresh_start (example_config (Some 0%Z) None) empty_world)
    as [[st w]|e] eqn:E.
  - destruct (zero_limit_leaves_empty_envelope plain_tostring
                (example_config (Some 0%Z) None) 0%Z [Ok first_page]
                empty_world st w eq_refl (Z.le_refl 0) eq_refl E)
      as (w' & d & Hp & _ & Hout & Hst).
    exists st, w, w'. split; [reflexivity|].
    split; [exact Hp|]. split; [exact Hout|exact Hst].
  - exfalso.
    apply (f_equal (fun r => match r with Ok _ => true | Raise _ => false end)) in E.
    vm_compute in E. discriminate E.
Defined.

Lemma unknown_prefix_stops_at_first_record_witness :
  exists data,
    encode_text (plain_tostring (example_record "a" [])) = Ok data
    /\ write_item plain_tostring unknown_field_config (example_record "a" [])
         example_start empty_world
       = (Some SyntaxError, example_start,
          emit (EvItem (current_out example_start) (example_record "a" []))
            (on_files (fs_append (current_out example_start) (data ++ [NL]))
               empty_world)).
Proof.
  destruct (encode_text (plain_tostring (example_record "a" [])))
    as [data|e] eqn:E.
  - exists data. split; [reflexivity|].
    apply (unknown_prefix_stops_at_first_record unknown_field_config
             plain_tostring (lit "foaf") (lit "depiction")
             (example_record "a" [])
             (Elem (oai "header") None
                [Elem (oai "identifier") (Some (lit "a")) [];
                 Elem (oai "datestamp") (Some (lit "2024-01-01")) []])
             (Elem (oai "metadata") None []) data
             example_start empty_world);
      try reflexivity; [discriminate|exact E].
  - exfalso.
    apply (f_equal (fun r => match r with Ok _ => true | Raise _ => false end)) in E.
    vm_compute in E. discriminate E.
Defined.

Lemma blank_text_suppresses_fallback_witness :
  extract_edm_field_from_record (example_record "a" blank_shown_at)
    (lit "edm:isShownAt") = Ok [].
Proof.
  apply (blank_text_suppresses_fallback (example_record "a" blank_shown_at)
           (Elem (oai "metadata") None blank_shown_at)
           (Elem (edm "isShownAt") (Some (lit "  ")) []) (lit "  "));
    try reflexivity.
  discriminate.
Defined.

Lemma item_fields_stripped_witness :
  exists identifier datestamp value,
    item_fields (example_config None None)
      (example_record " a " shown_by_and_identifier)
    = Ok (identifier, datestamp, value)
    /\ strip identifier = identifier
    /\ strip datestamp = datestamp
    /\ strip value = value.
Proof.
  destruct (item_fields (example_config None None)
              (example_record " a " shown_by_and_identifier))
    as [[[identifier datestamp] value]|e] eqn:E.
  - exists identifier, datestamp, value. split; [reflexivity|].
    exact (item_fields_stripped (example_config None None) _ _ _ _ E).
  - exfalso.
    apply (f_equal (fun r => match r with Ok _ => true | Raise _ => false end)) in E.
    vm_compute in E. discriminate E.
Defined.

(** ** Reading the checkpoint back *)

Section Utf8RoundTrip.

Lemma all_below_iter (n : N) (P : N -> bool) :
  (N.iter n (fun st : N * bool => (N.succ st.1, st.2 && P st.1)) (0, true)).1
  = n.
Proof.
  induction n as [|n IH] using N.peano_ind; [reflexivity|].
  rewrite N.iter_succ. cbn [fst]. now rewrite IH.
Qed.

Lemma all_below_spec (n : N) (P : N -> bool) :
  all_below n P = true -> forall c, c < n -> P c = true.
Proof.
  unfold all_below. induction n as [|n IH] using N.peano_ind.
  - intros _ c Hc. lia.
  - rewrite N.iter_succ. cbn [snd]. rewrite all_below_iter.
    intros H c Hc. apply andb_true_iff in H as [H1 H2].
    destruct (N.eq_dec c n) as [->|Hne]; [exact H2|].
    apply IH; [exact H1|lia].
Qed.

Lemma cont_byte (l : N) :
  l < 64 -> N.lor 128 l = 128 + l /\ N.land (N.lor 128 l) 63 = l.
Proof.
  intros H. assert (Hb : cont_byte_ok l = true).
  { revert l H. apply all_below_spec. vm_compute. reflexivity. }
  apply andb_true_iff in Hb as [H1 H2].
  now apply N.eqb_eq in H1, H2.
Qed.

Lemma lead2_byte (h : N) :
  h < 32 -> N.lor 192 h = 192 + h /\ N.land (N.lor 192 h) 31 = h.
Proof.
  intros H. assert (Hb : lead2_ok h = true).
  { revert h H. apply all_below_spec. vm_compute. reflexivity. }
  apply andb_true_iff in Hb as [H1 H2].
  now apply N.eqb_eq in H1, H2.
Qed.

Lemma lead3_byte (h : N) :
  h < 16 -> N.lor 224 h = 224 + h /\ N.land (N.lor 224 h) 15 = h.
Proof.
  intros H. assert (Hb : lead3_ok h = true).
  { revert h H. apply all_below_spec. vm_compute. reflexivity. }
  apply andb_true_iff in Hb as [H1 H2].
  now apply N.eqb_eq in H1, H2.
Qed.

Lemma lead4_byte (h : N) :
  h < 8 -> N.lor 240 h = 240 + h /\ N.land (N.lor 240 h) 7 = h.
Proof.
  intros H. assert (Hb : lead4_ok h = true).
  { revert h H. apply all_below_spec. vm_compute. reflexivity. }
  apply andb_true_iff in Hb as [H1 H2].
  now apply N.eqb_eq in H1, H2.
Qed.

(** The low six bits and the rest make the number. *)
Lemma split_low_six (c : N) :
  N.lor (N.shiftl (N.shiftr c 6) 6) (N.land c 63) = c.
Proof.
  apply N.bits_inj. intros n.
  rewrite N.lor_spec, N.land_spec.
  change 63 with (N.ones 6).
  destruct (N.lt_ge_cases n 6) as [Hn|Hn].
  - rewrite N.shiftl_spec_low by exact Hn.
    rewrite N.ones_spec_low by exact Hn. cbn [orb]. apply andb_true_r.
  - rewrite N.shiftl_spec_high' by exact Hn.
    rewrite N.shiftr_spec', N.sub_add by exact Hn.
    rewrite N.ones_spec_high by exact Hn. now rewrite andb_false_r, orb_false_r.
Qed.

Lemma low_six (c : N) :
  N.shiftr c 6 = c / 64 /\ N.land c 63 = c mod 64
  /\ c = 64 * (c / 64) + c mod 64 /\ c mod 64 < 64.
Proof.
  split; [apply (N.shiftr_div_pow2 c 6)|].
  split; [apply (N.land_ones c 6)|].
  split; [now apply N.div_mod|now apply N.mod_lt].
Qed.

End Utf8RoundTrip.
Section Utf8RoundTrip2.

Ltac decide_tests :=
  repeat match goal with
         | |- context [?a =? ?b] => destruct (N.eqb_spec a b); try lia
         | |- context [?a <? ?b] => destruct (N.ltb_spec a b); try lia
         | |- context [?a <=? ?b] => destruct (N.leb_spec a b); try lia
         end.

(** Decoding reads back the code point that was encoded, whatever
    follows. *)
Lemma utf8_decode_head_encode (c : N) (b r : list N) :
  utf8_encode_char c = Some b ->
  utf8_decode_head (b ++ r) = Some (c, length b).
Proof.
  unfold utf8_encode_char.
  destruct (N.ltb_spec c 128) as [H1|H1].
  { intros [= <-]. cbn [app utf8_decode_head length].
    destruct (N.ltb_spec c 128); [reflexivity|lia]. }
  pose proof (split_low_six c) as Sc.
  destruct (low_six c) as (Ex & El & Ec & Hl).
  destruct (N.ltb_spec c 2048) as [H2|H2].
  { intros [= <-]. cbn [app utf8_decode_head length].
    rewrite Ex, El in *.
    set (x := c / 64) in *. set (l := c mod 64) in *. clearbody x l.
    destruct (cont_byte l Hl) as [Lb La].
    destruct (lead2_byte x) as [Xb Xa]; [lia|].
    rewrite La, Xa, Lb, Xb, Sc. unfold is_cont, in_range.
    decide_tests; reflexivity. }
  destruct (in_range 55296 57343 c) eqn:Hsur; [discriminate|].
  assert (H3 : c < 55296 \/ 57343 < c).
  { unfold in_range in Hsur. revert Hsur.
    decide_tests; cbn [andb]; intros; try discriminate; lia. }
  clear Hsur.
  destruct (N.ltb_spec c 65536) as [H5|H5].
  { intros [= <-]. cbn [app utf8_decode_head length].
    change 12 with (6 + 6). rewrite <- N.shiftr_shiftr.
    rewrite Ex, El in *. set (x := c / 64) in *.
    set (l := c mod 64) in *. clearbody x l.
    pose proof (split_low_six x) as Sx.
    destruct (low_six x) as (Ey & Em & Exx & Hm).
    rewrite Ey, Em in *. set (y := x / 64) in *.
    set (m := x mod 64) in *. clearbody y m.
    destruct (cont_byte l Hl) as [Lb La].
    destruct (cont_byte m Hm) as [Mb Ma].
    destruct (lead3_byte y) as [Yb Ya]; [lia|].
    rewrite La, Ma, Ya, Lb, Mb, Yb.
    assert (Hv : N.lor (N.shiftl y (6 + 6)) (N.lor (N.shiftl m 6) l) = c).
    { rewrite <- Sc at 1. rewrite <- Sx at 1.
      now rewrite N.shiftl_lor, N.shiftl_shiftl, N.lor_assoc. }
    rewrite Hv. unfold is_cont, in_range.
    decide_tests; reflexivity. }
  destruct (N.ltb_spec c 1114112) as [H6|H6]; [|discriminate].
  intros [= <-]. cbn [app utf8_decode_head length].
  change 12 with (6 + 6). change 18 with (6 + 6 + 6).
  rewrite <- !N.shiftr_shiftr.
  rewrite Ex, El in *. set (x := c / 64) in *.
  set (l := c mod 64) in *. clearbody x l.
  pose proof (split_low_six x) as Sx.
  destruct (low_six x) as (Ey & Em & Exx & Hm).
  rewrite Ey, Em in *. set (y := x / 64) in *.
  set (m := x mod 64) in *. clearbody y m.
  pose proof (split_low_six y) as Sy.
  destruct (low_six y) as (Eh & En & Eyy & Hn).
  rewrite Eh, En in *. set (h := y / 64) in *.
  set (n := y mod 64) in *. clearbody h n.
  destruct (cont_byte l Hl) as [Lb La].
  destruct (cont_byte m Hm) as [Mb Ma].
  destruct (cont_byte n Hn) as [Nb Na].
  destruct (lead4_byte h) as [Hb Ha]; [lia|].
  rewrite La, Ma, Na, Ha, Lb, Mb, Nb, Hb.
  assert (Hv : N.lor (N.shiftl h (6 + 6 + 6))
                 (N.lor (N.shiftl n (6 + 6)) (N.lor (N.shiftl m 6) l)) = c).
  { rewrite <- Sc at 1. rewrite <- Sx at 1. rewrite <- Sy at 1.
    now rewrite !N.shiftl_lor, !N.shiftl_shiftl, !N.lor_assoc. }
  rewrite Hv. unfold is_cont, in_range.
  decide_tests; reflexivity.
Qed.

End Utf8RoundTrip2.
Section TextRoundTrip.

Lemma utf8_encode_char_length (c : N) (b : list N) :
  utf8_encode_char c = Some b -> (1 <= length b)%nat.
Proof.
  unfold utf8_encode_char.
  repeat match goal with
         | |- context [if ?t then _ else _] => destruct t
         end; intros [= <-]; cbn [length]; lia.
Qed.

Lemma utf8_decode_strict_from_encode (s : list N) :
  forall (b : list N) (fuel : nat),
    utf8_encode s = Some b -> (length b <= fuel)%nat ->
    utf8_decode_strict_from fuel b = Some s.
Proof.
  induction s as [|c s IH]; intros b fuel; cbn [utf8_encode].
  - intros [= <-] _. now destruct fuel.
  - destruct (utf8_encode_char c) as [bc|] eqn:Ec; [|discriminate].
    destruct (utf8_encode s) as [bs|] eqn:Es; [|discriminate].
    intros [= <-] Hfuel.
    pose proof (utf8_encode_char_length c bc Ec) as Hlen.
    rewrite length_app in Hfuel.
    destruct fuel as [|fuel]; [lia|].
    destruct bc as [|b0 bc]; [cbn [length] in Hlen; lia|].
    cbn [app utf8_decode_strict_from].
    change (b0 :: bc ++ bs) with ((b0 :: bc) ++ bs).
    rewrite (utf8_decode_head_encode c (b0 :: bc) bs Ec).
    rewrite drop_app_length.
    rewrite (IH bs fuel eq_refl); [reflexivity|].
    cbn [length] in Hfuel. lia.
Qed.

(** Text that can be encoded is read back as it was. *)
Lemma utf8_decode_strict_encode (s b : list N) :
  utf8_encode s = Some b -> utf8_decode_strict b = Some s.
Proof.
  intros H. unfold utf8_decode_strict.
  now apply utf8_decode_strict_from_encode.
Qed.

Lemma hex_round_control (c : N) : c < 32 -> hex_round c = true.
Proof. revert c. apply all_below_spec. vm_compute. reflexivity. Qed.

Lemma scan_string_quote (fuel : nat) (t acc : list N) :
  scan_string (S fuel) (QUOTE :: t) acc = Some (rev acc, t).
Proof. reflexivity. Qed.

Lemma scan_string_escape (fuel : nat) (e x : N) (t acc : list N) :
  e <> 117 -> simple_escape e = Some x ->
  scan_string (S fuel) (BACKSLASH :: e :: t) acc
  = scan_string fuel t (x :: acc).
Proof.
  intros He Hx. cbn [scan_string].
  change (BACKSLASH =? QUOTE) with false.
  change (BACKSLASH =? BACKSLASH) with true. cbv iota.
  destruct (N.eqb_spec e 117) as [->|_]; [contradiction|].
  now rewrite Hx.
Qed.

Lemma scan_string_control (fuel : nat) (c : N) (t acc : list N) :
  c < 32 ->
  scan_string (S fuel)
    (BACKSLASH :: 117 :: 48 :: 48 :: hex_digit (c / 16)
       :: hex_digit (c mod 16) :: t) acc
  = scan_string fuel t (c :: acc).
Proof.
  intros Hc. cbn [scan_string].
  change (BACKSLASH =? QUOTE) with false.
  change (BACKSLASH =? BACKSLASH) with true.
  change (117 =? 117) with true. cbv iota.
  pose proof (hex_round_control c Hc) as Hr. unfold hex_round in Hr.
  unfold hex4. change (hex_value 48) with (Some 0). cbn [mbind option_bind].
  destruct (hex_value (hex_digit (c / 16))) as [a|]; [|discriminate].
  destruct (hex_value (hex_digit (c mod 16))) as [b|]; [|discriminate].
  apply N.eqb_eq in Hr. cbn [mbind option_bind]. rewrite Hr.
  assert (Hs : in_range 55296 56319 c = false).
  { unfold in_range. destruct (N.leb_spec 55296 c); [lia|reflexivity]. }
  destruct t as [|b1 [|v r']]; try reflexivity.
  now rewrite Hs.
Qed.

Lemma scan_string_plain (fuel : nat) (c : N) (t acc : list N) :
  c <> QUOTE -> c <> BACKSLASH -> 32 <= c ->
  scan_string (S fuel) (c :: t) acc = scan_string fuel t (c :: acc).
Proof.
  intros H1 H2 H3. cbn [scan_string].
  destruct (N.eqb_spec c QUOTE); [contradiction|].
  destruct (N.eqb_spec c BACKSLASH); [contradiction|].
  destruct (N.ltb_spec c 32); [lia|reflexivity].
Qed.

(** The scanner reads a string literal back as the string that was
    written. *)
Lemma scan_string_dumps (s : list N) :
  forall (acc rest : list N) (fuel : nat),
    (length s < fuel)%nat ->
    scan_string fuel (flat_map json_escape_char s ++ QUOTE :: rest) acc
    = Some (rev acc ++ s, rest).
Proof.
  induction s as [|c s IH]; intros acc rest fuel Hfuel.
  - destruct fuel as [|fuel]; [lia|]. cbn [flat_map app].
    rewrite scan_string_quote. now rewrite app_nil_r.
  - destruct fuel as [|fuel]; [cbn [length] in Hfuel; lia|].
    cbn [length] in Hfuel.
    assert (Hnext : scan_string fuel
                      (flat_map json_escape_char s ++ QUOTE :: rest)
                      (c :: acc) = Some (rev acc ++ c :: s, rest)).
    { rewrite IH by lia. cbn [rev]. now rewrite <- app_assoc. }
    cbn [flat_map]. rewrite <- app_assoc. unfold json_escape_char.
    destruct (N.eqb_spec c QUOTE) as [->|H1].
    { cbn [app]. rewrite (scan_string_escape _ _ QUOTE); easy. }
    destruct (N.eqb_spec c BACKSLASH) as [->|H2].
    { cbn [app]. rewrite (scan_string_escape _ _ BACKSLASH); easy. }
    destruct (N.eqb_spec c 10) as [->|H3].
    { cbn [app]. rewrite (scan_string_escape _ _ 10); easy. }
    destruct (N.eqb_spec c 13) as [->|H4].
    { cbn [app]. rewrite (scan_string_escape _ _ 13); easy. }
    destruct (N.eqb_spec c 9) as [->|H5].
    { cbn [app]. rewrite (scan_string_escape _ _ 9); easy. }
    destruct (N.eqb_spec c 8) as [->|H6].
    { cbn [app]. rewrite (scan_string_escape _ _ 8); easy. }
    destruct (N.eqb_spec c 12) as [->|H7].
    { cbn [app]. rewrite (scan_string_escape _ _ 12); easy. }
    destruct (N.ltb_spec c 32) as [H8|H8].
    { cbn [app]. rewrite scan_string_control by exact H8. exact Hnext. }
    cbn [app]. rewrite scan_string_plain by assumption. exact Hnext.
Qed.

End TextRoundTrip.
Section NumberRoundTrip.

Lemma digit_cases (c : N) :
  is_digit c = true ->
  c = 48 \/ c = 49 \/ c = 50 \/ c = 51 \/ c = 52 \/ c = 53 \/ c = 54
  \/ c = 55 \/ c = 56 \/ c = 57.
Proof.
  unfold is_digit, in_range. intros H. apply andb_true_iff in H as [H1 H2].
  apply N.leb_le in H1, H2. lia.
Qed.

Lemma span_digits_app (ds rest : list N) :
  forallb is_digit ds = true -> number_end rest = true ->
  span_digits (ds ++ rest) = (ds, rest).
Proof.
  intros Hd Hr. induction ds as [|c ds IH]; cbn [app].
  - destruct rest as [|c t]; [reflexivity|]. cbn [number_end] in Hr.
    cbn [span_digits]. apply orb_true_iff in Hr as [Hr|Hr];
      apply N.eqb_eq in Hr; subst c; reflexivity.
  - cbn [forallb] in Hd. apply andb_true_iff in Hd as [Hc Hd].
    cbn [span_digits]. now rewrite Hc, IH.
Qed.

Lemma digits_from_numeral (fuel : nat) (n : N) (acc : list N) :
  (0 < fuel)%nat -> n < 2 ^ N.of_nat fuel ->
  exists d, digits_from fuel n acc = d ++ acc
            /\ numeral d = true /\ N_of_digits d = n.
Proof.
  revert n acc. induction fuel as [|fuel IH]; intros n acc Hf Hn; [lia|].
  cbn [digits_from]. destruct (N.ltb_spec n 10) as [Hsmall|Hbig].
  - exists [48 + n mod 10]. split; [reflexivity|].
    rewrite N.mod_small by exact Hsmall. split.
    + unfold numeral, is_digit, in_range. cbn [forallb].
      rewrite bool_decide_eq_true_2 by reflexivity. rewrite orb_true_r.
      destruct (N.leb_spec 48 (48 + n)); [|lia].
      destruct (N.leb_spec (48 + n) 57); [reflexivity|lia].
    + cbn. lia.
  - assert (Hfuel : (0 < fuel)%nat).
    { destruct fuel; [|lia]. change (2 ^ N.of_nat 1) with 2 in Hn. lia. }
    destruct (IH (n / 10) ((48 + n mod 10) :: acc) Hfuel) as (d & Hd & Hnum & Hv).
    { rewrite Nat2N.inj_succ, N.pow_succ_r' in Hn.
      apply N.Div0.div_lt_upper_bound. lia. }
    pose proof (N.div_mod n 10 ltac:(lia)) as Hdm.
    pose proof (N.mod_lt n 10 ltac:(lia)) as Hlt.
    set (q := n / 10) in *. set (r := n mod 10) in *. clearbody q r.
    exists (d ++ [48 + r]). rewrite <- app_assoc. split; [exact Hd|].
    split.
    + destruct d as [|c t]; [discriminate|].
      unfold numeral in *. cbn [app].
      apply andb_true_iff in Hnum as [Hall Hlead].
      apply andb_true_iff. split.
      * change (c :: t ++ [48 + r]) with ((c :: t) ++ [48 + r]).
        rewrite forallb_app. apply andb_true_iff. split; [exact Hall|].
        cbn [forallb]. rewrite andb_true_r.
        unfold is_digit, in_range.
        destruct (N.leb_spec 48 (48 + r)); [|lia].
        destruct (N.leb_spec (48 + r) 57); [reflexivity|lia].
      * apply orb_true_iff in Hlead as [Hlead|Hlead];
          [now rewrite Hlead|].
        apply bool_decide_eq_true in Hlead. subst t.
        destruct (N.eqb_spec c 48) as [->|]; [|reflexivity].
        exfalso. cbn in Hv. lia.
    + rewrite N_of_digits_snoc, Hv. lia.
Qed.

Lemma str_of_N_numeral (n : N) : numeral (str_of_N n) = true.
Proof.
  unfold str_of_N.
  destruct (digits_from_numeral (S (N.to_nat (N.log2 n))) n []) as (d & -> & H & _).
  - lia.
  - rewrite Nat2N.inj_succ, N2Nat.id.
    destruct n as [|p]; [reflexivity|].
    apply N.log2_spec. reflexivity.
  - now rewrite app_nil_r.
Qed.

(** The scanner reads a numeral, with or without a minus sign, as the
    integer it denotes. *)
Lemma scan_number_numeral (d rest : list N) :
  numeral d = true -> number_end rest = true ->
  scan_number (d ++ rest) = Some (JInt (Z.of_N (N_of_digits d)), rest)
  /\ scan_number (45 :: d ++ rest)
     = Some (JInt (- Z.of_N (N_of_digits d)), rest).
Proof.
  intros Hd Hr. destruct d as [|c t]; [discriminate|].
  unfold numeral in Hd. apply andb_true_iff in Hd as [Hall Hlead].
  pose proof (span_digits_app (c :: t) rest Hall Hr) as Hspan.
  assert (Hc : is_digit c = true).
  { cbn [forallb] in Hall. now apply andb_true_iff in Hall as [? _]. }
  assert (Hrest : rest = [] \/ (exists r, rest = 44 :: r)
                  \/ exists r, rest = 10 :: r).
  { destruct rest as [|x r]; [now left|right]. cbn [number_end] in Hr.
    apply orb_true_iff in Hr as [Hx|Hx]; apply N.eqb_eq in Hx; subst x; eauto. }
  apply digit_cases in Hc.
  destruct Hc as [->|Hc].
  { apply orb_true_iff in Hlead as [Hlead|Hlead]; [discriminate|].
    apply bool_decide_eq_true in Hlead. subst t.
    destruct Hrest as [->|[[r ->]|[r ->]]]; split; reflexivity. }
  cbn [app] in *.
  repeat (destruct Hc as [->|Hc]);
    try subst c;
    cbv beta iota delta [scan_number]; rewrite Hspan;
    (destruct Hrest as [->|[[r ->]|[r ->]]]; split; reflexivity).
Qed.

Lemma scan_number_str_of_Z (z : Z) (rest : list N) :
  number_end rest = true ->
  scan_number (str_of_Z z ++ rest) = Some (JInt z, rest).
Proof.
  intros Hr. unfold str_of_Z.
  destruct z as [|p|p].
  - destruct (scan_number_numeral _ rest (str_of_N_numeral (Z.to_N 0)) Hr)
      as [-> _].
    now rewrite str_of_N_value.
  - destruct (scan_number_numeral _ rest (str_of_N_numeral (Z.to_N (Z.pos p))) Hr)
      as [-> _].
    now rewrite str_of_N_value.
  - cbn [app].
    destruct (scan_number_numeral _ rest (str_of_N_numeral (N.pos p)) Hr)
      as [_ ->].
    rewrite str_of_N_value. reflexivity.
Qed.

End NumberRoundTrip.
Section JsonRoundTrip.

Lemma skip_ws_solid (c : N) (r : list N) :
  is_json_ws c = false -> skip_ws (c :: r) = c :: r.
Proof. intros H. cbn [skip_ws]. now rewrite H. Qed.

Lemma skip_ws_blank (c : N) (r : list N) :
  is_json_ws c = true -> skip_ws (c :: r) = skip_ws r.
Proof. intros H. cbn [skip_ws]. now rewrite H. Qed.

Lemma digit_solid (c : N) : is_digit c = true -> is_json_ws c = false.
Proof.
  intros H. apply digit_cases in H.
  repeat (destruct H as [->|H]; [reflexivity|]). now subst c.
Qed.

Lemma str_of_Z_head (z : Z) :
  exists c t, str_of_Z z = c :: t /\ (is_digit c = true \/ c = 45).
Proof.
  assert (Hn : forall n, exists c t, str_of_N n = c :: t /\ is_digit c = true).
  { intros n. pose proof (str_of_N_numeral n) as H.
    destruct (str_of_N n) as [|c t]; [discriminate|].
    exists c, t. split; [reflexivity|]. unfold numeral in H.
    apply andb_true_iff in H as [H _]. cbn [forallb] in H.
    now apply andb_true_iff in H as [H _]. }
  unfold str_of_Z. destruct z as [|p|p].
  - destruct (Hn (Z.to_N 0)) as (c & t & -> & Hc). eauto.
  - destruct (Hn (Z.to_N (Z.pos p))) as (c & t & -> & Hc). eauto.
  - eauto.
Qed.

(** A scalar begins with a character that is not white space. *)
Lemma scalar_head (v : json) :
  scalar v = true ->
  exists c t, json_dumps_at 1 v = c :: t /\ is_json_ws c = false.
Proof.
  destruct v as [|[|]|z|x|s|l|d]; try discriminate; intros _;
    try (eexists _, _; split; reflexivity).
  destruct (str_of_Z_head z) as (c & t & Hz & [Hc| ->]).
  - exists c, t. split; [exact Hz|now apply digit_solid].
  - exists 45, t. split; [exact Hz|reflexivity].
Qed.

Lemma scan_value_quote (fuel : nat) (t : list N) :
  scan_value (S fuel) (QUOTE :: t)
  = '(x, r) ← scan_string (length t) t []; Some (JStr x, r).
Proof. reflexivity. Qed.

Lemma scan_value_number (fuel : nat) (c : N) (t : list N)
    (x : json * list N) :
  is_digit c = true \/ c = 45 ->
  scan_number (c :: t) = Some x ->
  scan_value (S fuel) (c :: t) = Some x.
Proof.
  intros Hc Hx.
  assert (Hcases : c = 45 \/ c = 48 \/ c = 49 \/ c = 50 \/ c = 51 \/ c = 52
                   \/ c = 53 \/ c = 54 \/ c = 55 \/ c = 56 \/ c = 57).
  { destruct Hc as [Hc|Hc]; [apply digit_cases in Hc; tauto|now left]. }
  clear Hc.
  repeat (destruct Hcases as [->|Hcases]);
    try subst c; cbn -[scan_number]; now rewrite Hx.
Qed.

Lemma flat_map_escape_length (s : list N) :
  (length s <= length (flat_map json_escape_char s))%nat.
Proof.
  induction s as [|c s IH]; [reflexivity|].
  cbn [flat_map length]. rewrite length_app.
  assert (1 <= length (json_escape_char c))%nat; [|lia].
  unfold json_escape_char.
  repeat match goal with
         | |- context [if ?t then _ else _] => destruct t
         end; cbn [length]; lia.
Qed.

(** The scanner reads a scalar back as the value that was written. *)
Lemma scan_value_scalar (v : json) (rest : list N) (fuel : nat) :
  scalar v = true -> number_end rest = true ->
  scan_value (S fuel) (json_dumps_at 1 v ++ rest) = Some (v, rest).
Proof.
  intros Hv Hr.
  destruct v as [|[|]|z|x|s|l|d]; try discriminate; try reflexivity.
  - cbn [json_dumps_at].
    destruct (str_of_Z_head z) as (c & t & Hz & Hc).
    pose proof (scan_number_str_of_Z z rest Hr) as Hn.
    rewrite Hz in *. cbn [app] in *.
    now apply scan_value_number.
  - cbn [json_dumps_at]. unfold json_string. cbn [app].
    rewrite scan_value_quote, <- app_assoc. cbn [app].
    rewrite scan_string_dumps; [reflexivity|].
    rewrite length_app. pose proof (flat_map_escape_length s).
    cbn [length]. lia.
Qed.

Lemma members_body_last (k : list N) (v : json) :
  members_body [(k, v)]
  = flat_map json_escape_char k ++ QUOTE :: 58 :: 32 :: json_dumps_at 1 v.
Proof. cbn [members_body]. now rewrite app_nil_r. Qed.

Lemma members_body_more (k : list N) (v : json) (kv : list N * json)
    (d : list (list N * json)) :
  members_body ((k, v) :: kv :: d)
  = flat_map json_escape_char k ++ QUOTE :: 58 :: 32
      :: (json_dumps_at 1 v
          ++ 44 :: 10 :: 32 :: 32 :: QUOTE :: members_body (kv :: d)).
Proof. reflexivity. Qed.

Lemma skip_ws_scalar (v : json) (r : list N) :
  scalar v = true ->
  skip_ws (json_dumps_at 1 v ++ r) = json_dumps_at 1 v ++ r.
Proof.
  intros Hv. destruct (scalar_head v Hv) as (c & t & -> & Hc).
  cbn [app]. now apply skip_ws_solid.
Qed.

Lemma scan_value_scalar_fuel (v : json) (rest : list N) (fuel : nat) :
  (0 < fuel)%nat -> scalar v = true -> number_end rest = true ->
  scan_value fuel (json_dumps_at 1 v ++ rest) = Some (v, rest).
Proof.
  intros Hf. destruct fuel as [|fuel]; [lia|]. apply scan_value_scalar.
Qed.

(** The object loop reads the members back in their order. *)
Lemma scan_members_body (d : list (list N * json)) :
  forall (k : list N) (v : json) (acc : list (list N * json)) (fuel : nat)
         (tail : list N),
    forallb (fun kv => scalar kv.2) ((k, v) :: d) = true ->
    (length d + 1 < fuel)%nat ->
    scan_members fuel (members_body ((k, v) :: d) ++ 10 :: 125 :: tail) acc
    = Some (JDict (dict_of_items (acc ++ (k, v) :: d)), tail).
Proof.
  induction d as [|kv d IH]; intros k v acc fuel tail Hs Hf;
    (destruct fuel as [|fuel]; [cbn [length] in Hf; lia|]);
    cbn [forallb snd] in Hs; apply andb_true_iff in Hs as [Hv Hs].
  - rewrite members_body_last, <- app_assoc. cbn [app scan_members].
    rewrite scan_string_dumps.
    2:{ rewrite length_app. pose proof (flat_map_escape_length k).
        cbn [length]. lia. }
    cbn [mbind option_bind rev app].
    rewrite (skip_ws_solid 58) by reflexivity.
    rewrite (skip_ws_blank 32) by reflexivity.
    rewrite skip_ws_scalar by exact Hv.
    rewrite scan_value_scalar_fuel by (cbn [length] in Hf; easy || lia).
    cbn [mbind option_bind].
    rewrite (skip_ws_blank 10) by reflexivity.
    rewrite (skip_ws_solid 125) by reflexivity. reflexivity.
  - rewrite members_body_more, <- app_assoc. cbn [app scan_members].
    rewrite scan_string_dumps.
    2:{ rewrite length_app. pose proof (flat_map_escape_length k).
        cbn [length]. lia. }
    cbn [mbind option_bind rev app].
    rewrite (skip_ws_solid 58) by reflexivity.
    rewrite (skip_ws_blank 32) by reflexivity.
    rewrite <- app_assoc. cbn [app].
    rewrite skip_ws_scalar by exact Hv.
    rewrite scan_value_scalar_fuel by (cbn [length] in Hf; easy || lia).
    cbn [mbind option_bind].
    rewrite (skip_ws_solid 44) by reflexivity. cbv beta iota.
    rewrite (skip_ws_blank 10) by reflexivity.
    rewrite (skip_ws_blank 32) by reflexivity.
    rewrite (skip_ws_blank 32) by reflexivity.
    rewrite (skip_ws_solid QUOTE) by reflexivity. cbv beta iota.
    destruct kv as [k2 v2].
    rewrite IH; [|exact Hs|cbn [length] in *; lia].
    now rewrite <- app_assoc.
Qed.

End JsonRoundTrip.
Section StateRoundTrip.

Lemma dict_set_fresh {V : Type} (k : list N) (v : V) (acc : list (list N * V)) :
  k ∉ map fst acc -> dict_set k v acc = acc ++ [(k, v)].
Proof.
  induction acc as [|[k' v'] acc IH]; intros Hk; [reflexivity|].
  cbn [dict_set map fst] in *. apply not_elem_of_cons in Hk as [Hne Hk].
  rewrite bool_decide_eq_false_2 by exact Hne. cbn [app]. now rewrite IH.
Qed.

Lemma dict_set_keys {V : Type} (k : list N) (v : V) (d : list (list N * V)) :
  k ∈ map fst d -> map fst (dict_set k v d) = map fst d.
Proof.
  induction d as [|[k' v'] d IH]; intros Hk; [now apply elem_of_nil in Hk|].
  cbn [dict_set map fst] in *. case_bool_decide as E.
  - subst k'. reflexivity.
  - cbn [map fst]. apply elem_of_cons in Hk as [Hk|Hk]; [contradiction|].
    now rewrite IH.
Qed.

Lemma dict_items_distinct {V : Type} (items : list (list N * V)) :
  forall acc,
    NoDup (map fst (acc ++ items)) ->
    fold_left (fun d kv => dict_set kv.1 kv.2 d) items acc = acc ++ items.
Proof.
  induction items as [|[k v] items IH]; intros acc Hnd; cbn [fold_left].
  - now rewrite app_nil_r.
  - cbn [fst snd]. rewrite dict_set_fresh.
    + rewrite IH; rewrite <- app_assoc; [reflexivity|exact Hnd].
    + rewrite map_app in Hnd. apply NoDup_app in Hnd as (_ & Hd & _).
      intros Hin. apply (Hd k Hin). cbn [map fst]. apply elem_of_cons. now left.
Qed.

Lemma dict_of_items_distinct {V : Type} (d : list (list N * V)) :
  NoDup (map fst d) -> dict_of_items d = d.
Proof. intros H. unfold dict_of_items. now rewrite dict_items_distinct. Qed.

Lemma join_members (kv : list N * json) (d : list (list N * json)) :
  join (lit "," ++ newline_indent 1)
    (map (fun kv => json_string kv.1 ++ lit ": " ++ json_dumps_at 1 kv.2)
       (kv :: d))
  = QUOTE :: members_body (kv :: d).
Proof.
  revert kv. induction d as [|kv2 d IH]; intros [k v].
  - cbn [map join members_body fst snd]. unfold json_string.
    cbn [app]. rewrite <- !app_assoc, app_nil_r. reflexivity.
  - change (map ?f ((k, v) :: kv2 :: d)) with (f (k, v) :: map f (kv2 :: d)).
    cbn [join]. rewrite IH. cbn [fst snd]. unfold json_string.
    cbn [app]. rewrite <- !app_assoc. reflexivity.
Qed.

Lemma json_dumps_dict (kv : list N * json) (d : list (list N * json)) :
  json_dumps (JDict (kv :: d))
  = 123 :: 10 :: 32 :: 32 :: QUOTE :: members_body (kv :: d) ++ [10; 125].
Proof.
  unfold json_dumps.
  change (json_dumps_at 0 (JDict (kv :: d)))
    with (lit "{" ++ newline_indent 1
          ++ join (lit "," ++ newline_indent 1)
               (map (fun kv => json_string kv.1 ++ lit ": "
                               ++ json_dumps_at 1 kv.2) (kv :: d))
          ++ newline_indent 0 ++ lit "}").
  rewrite join_members. reflexivity.
Qed.

Lemma members_body_length (d : list (list N * json)) :
  (length d <= length (members_body d))%nat.
Proof.
  induction d as [|[k v] d IH]; [reflexivity|].
  destruct d as [|kv d].
  - rewrite members_body_last, length_app. cbn [length]. lia.
  - rewrite members_body_more, length_app. cbn [length].
    rewrite length_app. cbn [length] in *. lia.
Qed.

(** A dictionary of scalars with distinct keys is read back from its
    document as it was written. *)
Lemma json_loads_dumps (d : list (list N * json)) :
  NoDup (map fst d) ->
  forallb (fun kv => scalar kv.2) d = true ->
  json_loads (json_dumps (JDict d)) = Some (JDict d).
Proof.
  intros Hnd Hs. destruct d as [|[k v] d]; [reflexivity|].
  rewrite json_dumps_dict. unfold json_loads. cbv beta iota.
  rewrite (skip_ws_solid 123) by reflexivity.
  cbn [scan_value length].
  change (123 =? QUOTE) with false. change (123 =? 123) with true.
  cbv beta iota.
  rewrite (skip_ws_blank 10) by reflexivity.
  rewrite (skip_ws_blank 32) by reflexivity.
  rewrite (skip_ws_blank 32) by reflexivity.
  rewrite (skip_ws_solid QUOTE) by reflexivity. cbv beta iota.
  rewrite (scan_members_body d k v [] _ []).
  - cbn [mbind option_bind app skip_ws].
    now rewrite dict_of_items_distinct.
  - exact Hs.
  - rewrite length_app.
    pose proof (members_body_length ((k, v) :: d)) as Hlen.
    cbn [length] in *. lia.
Qed.

End StateRoundTrip.
Section CheckpointRoundTrip.

Variable ET_tostring : Element -> str.
Variable cfg : Config.

Lemma flat_state_set (k : list N) (v : json) (d : list (list N * json)) :
  scalar v = true -> flat_state d -> flat_state (dict_set k v d).
Proof.
  intros Hv [Hnd Hs]. split.
  - destruct (decide (k ∈ map fst d)) as [Hin|Hout].
    + now rewrite dict_set_keys.
    + rewrite dict_set_fresh by exact Hout. rewrite map_app.
      apply NoDup_app. split; [exact Hnd|]. split.
      * intros x Hx Hx'. cbn [map fst] in Hx'.
        apply elem_of_cons in Hx' as [->|Hx']; [contradiction|].
        now apply elem_of_nil in Hx'.
      * cbn [map fst]. apply NoDup_singleton.
  - clear Hnd. induction d as [|[k' v'] d IH]; cbn [dict_set forallb snd].
    + now rewrite Hv.
    + cbn [forallb snd] in Hs. apply andb_true_iff in Hs as [H1 H2].
      case_bool_decide; cbn [forallb snd].
      * now rewrite Hv, H2.
      * now rewrite H1, IH.
Qed.

Lemma load_after_save (path : list N) (d : list (list N * json))
    (fs fs' : gmap (list N) (list N)) :
  flat_state d -> save_state path d fs = Ok fs' ->
  load_state path fs' = Ok (Some (JDict d)).
Proof.
  intros [Hnd Hs]. unfold save_state, encode_text.
  destruct (utf8_encode (json_dumps (JDict d))) as [data|] eqn:E;
    cbn [bind]; [|discriminate].
  intros [= <-]. unfold load_state. rewrite lookup_insert_eq.
  rewrite (utf8_decode_strict_encode _ _ E).
  now rewrite json_loads_dumps.
Qed.

Lemma write_item_state (el : Element) (st : LoopState) (w : World)
    (o : option exn) (st' : LoopState) (w' : World) :
  write_item ET_tostring cfg el st w = (o, st', w') -> state st' = state st.
Proof.
  unfold write_item.
  destruct (encode_text (ET_tostring el)); [|now intros [= <- <- <-]].
  destruct (item_fields cfg el) as [[[i ds] v]|e]; now intros [= <- <- <-].
Qed.

Lemma write_items_state (elements : list Element) (st : LoopState)
    (w : World) (o : option exn) (st' : LoopState) (w' : World) :
  write_items ET_tostring cfg elements st w = (o, st', w') ->
  state st' = state st.
Proof.
  revert st w. induction elements as [|el rest IH]; intros st w;
    cbn [write_items]; [now intros [= <- <- <-]|].
  destruct (limit_reached cfg (num_items st)); [now intros [= <- <- <-]|].
  destruct (write_item ET_tostring cfg el st w) as [[o1 st1] w1] eqn:E1.
  apply write_item_state in E1. destruct o1.
  - now intros [= <- <- <-].
  - intros H. apply IH in H. congruence.
Qed.

Lemma rotate_state (st : LoopState) (w : World) :
  state (rotate cfg st w).1 = state st.
Proof. unfold rotate. now destruct (rotation_due cfg (num_items st)). Qed.

(** X21: what [save_state] writes, [load_state] reads back: for a
    dictionary with distinct keys and scalar values (strings,
    integers, booleans, [None]) that [save_state] could write, the
    checkpoint file decodes to that dictionary. *)
Theorem load_state_after_save_state (path : str) (d : list (str * json))
    (fs fs' : FS) :
  NoDup (map fst d) ->
  forallb (fun kv => scalar kv.2) d = true ->
  save_state path d fs = Ok fs' ->
  load_state path fs' = Ok (Some (JDict d)).
Proof. intros Hnd Hs. now apply load_after_save. Qed.

(** X22: after a page that is processed to its end the checkpoint on
    disk is the dictionary of the loop: when the loop starts the page
    with a dictionary of distinct keys and scalar values, [load_state]
    on the files after the page gives the dictionary the loop holds,
    and that dictionary again has distinct keys and scalar values. *)
Theorem page_checkpoint_loads_back (root : Element) (st : LoopState)
    (w : World) (d : list (str * json)) (rt : str) (st' : LoopState)
    (w' : World) :
  state st = Some d -> flat_state d ->
  process_page ET_tostring cfg root st w = PageDone rt st' w' ->
  exists d',
    state st' = Some d'
    /\ load_state (st_path cfg) (files w') = Ok (Some (JDict d'))
    /\ flat_state d'.
Proof.
  intros Hst Hflat. unfold process_page.
  destruct (findall root _ NS) as [elements|e]; [|discriminate].
  destruct (write_items _ _ _ _ _) as [[[e|] st0] w0] eqn:E0; [discriminate|].
  apply write_items_state in E0.
  pose proof (rotate_state st0 w0) as E2.
  destruct (rotate cfg st0 w0) as [st2 w2]. cbn [fst] in E2.
  destruct (token_of root) as [rt'|e]; [|discriminate].
  unfold checkpoint. rewrite E2, E0, Hst.
  set (d' := dict_update d _).
  assert (Hflat' : flat_state d').
  { unfold d', dict_update. cbn [fold_left fst snd].
    repeat apply flat_state_set; easy. }
  destruct (save_state (st_path cfg) d' (files w2)) as [fs|e] eqn:Es;
    [|discriminate].
  intros [= <- <- <-]. exists d'. split; [reflexivity|].
  split; [|exact Hflat'].
  cbn [emit on_files files]. now apply (load_after_save _ _ (files w2)).
Qed.

End CheckpointRoundTrip.

Lemma load_state_after_save_state_witness :
  exists fs' : FS,
    save_state (lit "harvest.xml.state.json")
      [(lit "verb", JStr ListRecords); (lit "set", JNull);
       (lit "num_items", JInt 250); (lit "resumptionToken", JStr (lit "to\ken"))]
      ∅ = Ok fs'
    /\ load_state (lit "harvest.xml.state.json") fs'
       = Ok (Some (JDict [(lit "verb", JStr ListRecords); (lit "set", JNull);
                          (lit "num_items", JInt 250);
                          (lit "resumptionToken", JStr (lit "to\ken"))])).
Proof.
  destruct (save_state (lit "harvest.xml.state.json")
              [(lit "verb", JStr ListRecords); (lit "set", JNull);
               (lit "num_items", JInt 250);
               (lit "resumptionToken", JStr (lit "to\ken"))] (∅ : FS))
    as [fs'|e] eqn:E.
  - exists fs'. split; [reflexivity|].
    apply (load_state_after_save_state _ _ ∅ fs'); [|reflexivity|exact E].
    apply (bool_decide_unpack _). vm_compute. exact I.
  - exfalso.
    apply (f_equal (fun r => match r with Ok _ => true | Raise _ => false end)) in E.
    vm_compute in E. discriminate E.
Defined.

Lemma page_checkpoint_loads_back_witness :
  exists rt st' w' d',
    process_page plain_tostring (example_config None None) first_page
      example_start empty_world = PageDone rt st' w'
    /\ state st' = Some d'
    /\ load_state (lit "harvest.xml.state.json") (files w')
       = Ok (Some (JDict d')).
Proof.
  destruct (process_page plain_tostring (example_config None None) first_page
              example_start empty_world) as [rt st' w'|e st' w'] eqn:E.
  - assert (Hflat : flat_state (default [] (state example_start))).
    { split; [|reflexivity]. apply (bool_decide_unpack _). vm_compute. exact I. }
    destruct (page_checkpoint_loads_back plain_tostring
                (example_config None None) first_page example_start
                empty_world _ rt st' w' eq_refl Hflat E)
      as (d' & Hd & Hl & _).
    exists rt, st', w', d'. split; [reflexivity|]. split; [exact Hd|exact Hl].
  - exfalso.
    apply (f_equal (fun r => match r with
                       | PageDone _ _ _ => true
                       | PageRaised _ _ _ => false
                       end)) in E.
    vm_compute in E. discriminate E.
Defined.
Section CrashConsistency.

Variable ET_tostring : Element -> str.
Variable cfg : Config.

Lemma segment_is_no_checkpoint (idx : Z) :
  out_path_for_index cfg idx <> st_path cfg.
Proof.
  unfold out_path_for_index, st_path, state_path_for.
  destruct (Z.ltb_spec 1 idx) as [Hi|Hi].
  - apply part_path_differs. now left.
  - intros H. apply (f_equal length) in H.
    rewrite length_app in H. cbn in H. lia.
Qed.

Lemma ensure_open_wrapper_other (p q verb : list N)
    (fs : gmap (list N) (list N)) :
  q <> p -> ensure_open_wrapper p verb fs !! q = fs !! q.
Proof.
  intros Hne. unfold ensure_open_wrapper.
  destruct (fs !! p) as [[|b content]|];
    try (now rewrite lookup_insert_ne by congruence).
  destruct (str_rfind _ _); [|reflexivity].
  now rewrite lookup_insert_ne by congruence.
Qed.

Lemma load_state_same (p : list N) (fs fs' : gmap (list N) (list N)) :
  fs' !! p = fs !! p -> load_state p fs' = load_state p fs.
Proof. unfold load_state. now intros ->. Qed.

Lemma write_item_disk (el : Element) (st : LoopState) (w : World)
    (o : option exn) (st' : LoopState) (w' : World) (p : list N) :
  current_out st <> p ->
  write_item ET_tostring cfg el st w = (o, st', w') ->
  files w' !! p = files w !! p /\ current_out st' = current_out st.
Proof.
  intros Hne. unfold write_item.
  destruct (encode_text (ET_tostring el)) as [data|e];
    [|now intros [= <- <- <-]].
  assert (Hf : fs_append (current_out st) (data ++ [NL]) (files w) !! p
               = files w !! p).
  { unfold fs_append. now rewrite lookup_insert_ne. }
  destruct (item_fields cfg el) as [[[i ds] v]|e]; intros [= <- <- <-];
    (split; [|reflexivity]);
    destruct (csv_enabled cfg), (jsonl_enabled cfg); exact Hf.
Qed.

Lemma write_items_disk (elements : list Element) (st : LoopState)
    (w : World) (o : option exn) (st' : LoopState) (w' : World)
    (p : list N) :
  current_out st <> p ->
  write_items ET_tostring cfg elements st w = (o, st', w') ->
  files w' !! p = files w !! p /\ current_out st' = current_out st.
Proof.
  revert st w. induction elements as [|el rest IH]; intros st w Hne;
    cbn [write_items]; [now intros [= <- <- <-]|].
  destruct (limit_reached cfg (num_items st)); [now intros [= <- <- <-]|].
  destruct (write_item ET_tostring cfg el st w) as [[o1 st1] w1] eqn:E1.
  apply (write_item_disk _ _ _ _ _ _ p Hne) in E1 as [Hf Hc].
  destruct o1.
  - intros [= <- <- <-]. now split.
  - intros H. apply IH in H as [Hf2 Hc2]; [|congruence].
    split; congruence.
Qed.

Lemma rotate_disk (st : LoopState) (w : World) :
  current_out st <> st_path cfg ->
  files (rotate cfg st w).2 !! st_path cfg = files w !! st_path cfg
  /\ current_out (rotate cfg st w).1 <> st_path cfg.
Proof.
  intros Hne. unfold rotate.
  destruct (rotation_due cfg (num_items st)); [|now split].
  cbn [fst snd emit on_files files set_segment current_out].
  split; [|apply segment_is_no_checkpoint].
  rewrite ensure_open_wrapper_other
    by (intros E; symmetry in E; revert E; apply segment_is_no_checkpoint).
  unfold write_close_wrapper, fs_append.
  now rewrite lookup_insert_ne.
Qed.

(** One page: processed to its end, it leaves the loop and the disk in
    agreement again; ended by an exception, it leaves the checkpoint
    file as it was. *)
Lemma process_page_synced (root : Element) (st : LoopState) (w : World)
    (d : list (list N * json)) :
  synced cfg st w d ->
  match process_page ET_tostring cfg root st w with
  | PageDone _ st' w' => exists d', synced cfg st' w' d' /\ same_harvest d d'
  | PageRaised _ _ w' => files w' !! st_path cfg = files w !! st_path cfg
  end.
Proof.
  intros (Hst & Hflat & Hload & Hout). unfold process_page.
  destruct (findall root _ NS) as [elements|e]; [|reflexivity].
  destruct (write_items _ _ _ _ _) as [[o st0] w0] eqn:E0.
  pose proof (write_items_state _ _ _ _ _ _ _ _ E0) as Es0.
  apply (write_items_disk _ _ _ _ _ _ _ Hout) in E0 as [Hf0 Hc0].
  destruct o as [e|]; [exact Hf0|].
  assert (Hout0 : current_out st0 <> st_path cfg) by congruence.
  destruct (rotate_disk st0 w0 Hout0) as [Hf2 Hout2].
  pose proof (rotate_state cfg st0 w0) as Es2.
  destruct (rotate cfg st0 w0) as [st2 w2]. cbn [fst snd] in *.
  destruct (token_of root) as [rt|e]; [|congruence].
  unfold checkpoint. rewrite Es2, Es0, Hst.
  set (d' := dict_update d _).
  assert (Hflat' : flat_state d').
  { unfold d', dict_update. cbn [fold_left fst snd].
    repeat apply flat_state_set; easy. }
  destruct (save_state (st_path cfg) d' (files w2)) as [fs|e] eqn:Es;
    [|congruence].
  exists d'. split.
  - split; [reflexivity|]. split; [exact Hflat'|]. split; [|exact Hout2].
    cbn [emit on_files files]. now apply (load_after_save _ _ (files w2)).
  - intros k Hk. now apply volatile_update.
Qed.

Lemma finish_removes (st : LoopState) (w : World) :
  current_out st <> st_path cfg ->
  load_state (st_path cfg) (files (finish cfg st w)) = Ok None.
Proof.
  intros _. unfold finish, load_state, remove_state.
  cbn [emit on_files files]. now rewrite lookup_delete_eq.
Qed.

(** X23: the checkpoint survives every end of a run.  When the loop
    starts in agreement with the checkpoint file, a run that finishes
    leaves no checkpoint, and a run that is aborted, at whatever
    point, leaves a checkpoint that [load_state] reads without error:
    a dictionary with distinct keys and scalar values that agrees
    with the one the run started from on every key but [file_index],
    [num_items] and [resumptionToken]. *)
Theorem paging_leaves_readable_checkpoint
    (responses : list (result Element)) (st : LoopState) (w : World)
    (d : list (str * json)) :
  synced cfg st w d ->
  let '(o, st', w') := paging ET_tostring cfg responses st w in
  match o with
  | Finished _ => load_state (st_path cfg) (files w') = Ok None
  | Aborted _ | Starved =>
      exists d',
        load_state (st_path cfg) (files w') = Ok (Some (JDict d'))
        /\ flat_state d' /\ same_harvest d d'
  end.
Proof.
  revert st w d.
  induction responses as [|response rest IH]; intros st w d Hs;
    cbn [paging]; destruct (limit_reached cfg (num_items st)).
  1,3: apply finish_removes; apply Hs.
  { destruct Hs as (_ & Hflat & Hload & _). exists d. now split. }
  destruct response as [root|e].
  2:{ destruct Hs as (_ & Hflat & Hload & _). exists d.
      cbn [emit files]. now split. }
  assert (Hs1 : synced cfg (next_page st)
                  (emit (EvFetch (params (next_page st))) w) d) by exact Hs.
  pose proof (process_page_synced root _ _ d Hs1) as Hp.
  destruct (process_page ET_tostring cfg root (next_page st) _)
    as [rt st1 w1|e st1 w1].
  2:{ destruct Hs as (_ & Hflat & Hload & _). exists d.
      split; [|now split].
      rewrite <- Hload. apply load_state_same. exact Hp. }
  destruct Hp as (d1 & Hs1' & Hsame).
  destruct rt as [|c rt]; [apply finish_removes; apply Hs1'|].
  set (st2 := set_params _ st1).
  set (w2 := emit (EvSleep _) w1).
  assert (Hs2 : synced cfg st2 w2 d1) by exact Hs1'.
  specialize (IH st2 w2 d1 Hs2).
  destruct (paging ET_tostring cfg rest st2 w2) as [[o st3] w3].
  destruct o as [why|e|]; [exact IH|..];
    destruct IH as (d' & Hl & Hf & Hk); exists d';
    (split; [exact Hl|]); (split; [exact Hf|]);
    intros k Hv; now rewrite (Hk k Hv), (Hsame k Hv).
Qed.

End CrashConsistency.

Lemma paging_leaves_readable_checkpoint_witness :
  let '(o, st', w') :=
    paging plain_tostring (example_config None None)
      [Ok first_page; Raise URLError] example_start checkpointed_world in
  match o with
  | Finished _ =>
      load_state (st_path (example_config None None)) (files w') = Ok None
  | Aborted _ | Starved =>
      exists d',
        load_state (st_path (example_config None None)) (files w')
        = Ok (Some (JDict d'))
        /\ flat_state d'
        /\ same_harvest (default [] (state example_start)) d'
  end.
Proof.
  apply (paging_leaves_readable_checkpoint plain_tostring
           (example_config None None) [Ok first_page; Raise URLError]
           example_start checkpointed_world
           (default [] (state example_start))).
  split; [reflexivity|]. split; [|split].
  - split; [|reflexivity]. apply (bool_decide_unpack _). vm_compute. exact I.
  - vm_compute. reflexivity.
  - intros H. vm_compute in H. discriminate H.
Defined.

(** ** Resuming from the checkpoint *)

Section Resuming.

Variable int_of_other : json -> result Z.
Variable float_truth : str -> bool.
Variable py_str : json -> str.
Variable ET_tostring : Element -> str.
Variable cfg : Config.

(** The position a processed page leaves in the loop's dictionary. *)
Lemma process_page_position (root : Element) (st : LoopState) (w : World)
    (d : list (list N * json)) (rt : list N) (st' : LoopState) (w' : World) :
  state st = Some d ->
  process_page ET_tostring cfg root st w = PageDone rt st' w' ->
  exists d',
    state st' = Some d'
    /\ dict_get (lit "file_index") d' = Some (JInt (file_index st'))
    /\ dict_get (lit "num_items") d' = Some (JInt (num_items st'))
    /\ dict_get (lit "resumptionToken") d' = Some (JStr rt)
    /\ same_harvest d d'.
Proof.
  intros Hst H.
  pose proof (process_page_ledger ET_tostring cfg root st w) as Hl.
  rewrite H in Hl. destruct Hl as (tr & _ & L).
  pose proof (led_state _ _ _ _ _ _ _ L) as Hk.
  revert H. unfold process_page.
  destruct (findall root _ NS) as [elements|e]; [|discriminate].
  destruct (write_items _ _ _ _ _) as [[[e|] st0] w0]; [discriminate|].
  destruct (rotate cfg st0 w0) as [st2 w2].
  destruct (token_of root) as [rt'|e]; [|discriminate]. intros H.
  pose proof (checkpoint_ledger cfg rt' st2 w2) as Hcp.
  rewrite H in Hcp.
  destruct Hcp as (-> & (d' & data & Hd' & _ & _ & Hfi & Hni & Hrt & _) & _).
  exists d'. unfold state_kept in Hk. rewrite Hst, Hd' in Hk.
  repeat (split; [assumption|]). exact Hk.
Qed.

(** X24: resuming restores the position.  After a page that is
    processed to its end with a token, the checkpoint of a harvest
    (one whose dictionary names the verb and the output base of the
    configuration) is offered for resuming, and resuming from it
    gives the loop variables the loop had after the page: the same
    item count, segment index and segment, the same dictionary, and
    as parameters the verb and the token of the page. *)
Theorem resume_restores_position (root : Element) (st : LoopState)
    (w : World) (d : list (str * json)) (rt : str) (st' : LoopState)
    (w' w0 : World) :
  state st = Some d ->
  current_out st = out_path_for_index cfg (file_index st) ->
  dict_get (lit "verb") d = Some (JStr (verb cfg)) ->
  dict_get (lit "out_base") d = Some (JStr (base_name cfg)) ->
  process_page ET_tostring cfg root st w = PageDone rt st' w' ->
  rt <> [] ->
  exists d',
    state st' = Some d'
    /\ offers_resume float_truth cfg (Some (JDict d')) = Ok true
    /\ resume_start int_of_other float_truth py_str cfg d' w0
       = Ok ({| num_items := num_items st';
                file_index := file_index st';
                current_out := current_out st';
                params := [(lit "verb", verb cfg);
                           (lit "resumptionToken", rt)];
                state := Some d';
                page := 0 |},
             emit (EvOpen (current_out st'))
               (on_files (ensure_open_wrapper (current_out st') (verb cfg))
                  w0)).
Proof.
  intros Hst Hout Hverb Hbase H Hrt.
  pose proof (process_page_ledger ET_tostring cfg root st w) as Hl.
  rewrite H in Hl. destruct Hl as (tr & _ & L).
  pose proof (led_path _ _ _ _ _ _ _ L Hout) as Hout'.
  destruct (process_page_position root st w d rt st' w' Hst H)
    as (d' & Hd' & Hfi & Hni & Htok & Hsame).
  exists d'. split; [exact Hd'|]. split.
  - unfold offers_resume, state_get.
    rewrite (Hsame (lit "verb")), Hverb
      by (intros [E|[E|E]]; discriminate E).
    rewrite (Hsame (lit "out_base")), Hbase
      by (intros [E|[E|E]]; discriminate E).
    cbn [json_truth from_option id is_string].
    rewrite !bool_decide_eq_true_2 by reflexivity.
    destruct d' as [|kv d']; [discriminate|reflexivity].
  - unfold resume_start, state_get. rewrite Hni, Hfi, Htok.
    cbn [from_option id py_int bind json_truth param_text].
    rewrite <- Hout'. destruct rt as [|c rt]; [contradiction|reflexivity].
Qed.

End Resuming.

Lemma resume_restores_position_witness :
  exists rt st' w' d' w1,
    process_page plain_tostring (example_config None None) first_page
      example_start empty_world = PageDone rt st' w'
    /\ state st' = Some d'
    /\ offers_resume (fun _ => true) (example_config None None)
         (Some (JDict d')) = Ok true
    /\ resume_start (fun _ => Raise ValueError) (fun _ => true)
         (fun _ => []) (example_config None None) d' empty_world
       = Ok ({| num_items := num_items st';
                file_index := file_index st';
                current_out := current_out st';
                params := [(lit "verb", ListRecords);
                           (lit "resumptionToken", rt)];
                state := Some d'; page := 0 |}, w1).
Proof.
  destruct (process_page plain_tostring (example_config None None) first_page
              example_start empty_world) as [rt st' w'|e st' w'] eqn:E.
  - assert (Hrt : rt <> []).
    { apply (f_equal (fun r => match r with
                               | PageDone rt _ _ => rt
                               | PageRaised _ _ _ => []
                               end)) in E.
      vm_compute in E. subst rt. discriminate. }
    destruct (resume_restores_position (fun _ => Raise ValueError)
                (fun _ => true) (fun _ => []) plain_tostring
                (example_config None None) first_page example_start
                empty_world _ rt st' w' empty_world
                eq_refl eq_refl eq_refl eq_refl E Hrt)
      as (d' & Hd & Ho & Hr).
    exists rt, st', w', d'. eexists. split; [reflexivity|].
    split; [exact Hd|]. split; [exact Ho|exact Hr].
  - exfalso.
    apply (f_equal (fun r => match r with
                             | PageDone _ _ _ => true
                             | PageRaised _ _ _ => false
                             end)) in E.
    vm_compute in E. discriminate E.
Defined.
Section Lag.

Variable ET_tostring : Element -> str.
Variable cfg : Config.

(** X25: the checkpoint never runs ahead of the output, and lags by
    at most the page in progress.  When the loop starts in agreement
    with the checkpoint file and the checkpoint holds the loop's item
    count, the trace of a run that does not finish splits in two: up
    to the last save the run wrote exactly the items the checkpoint
    on disk counts; after it the run made at most one request, saved
    nothing, and wrote the items the loop counted since (and at most
    one more), which the checkpoint does not know of. *)
Theorem checkpoint_lags_by_one_page (responses : list (result Element))
    (st : LoopState) (w : World) (d : list (str * json)) :
  synced cfg st w d ->
  dict_get (lit "num_items") d = Some (JInt (num_items st)) ->
  let '(o, st', w') := paging ET_tostring cfg responses st w in
  match o with
  | Finished _ => True
  | Aborted _ | Starved =>
      exists d' n tr1 tr2,
        trace w' = trace w ++ tr1 ++ tr2
        /\ load_state (st_path cfg) (files w') = Ok (Some (JDict d'))
        /\ dict_get (lit "num_items") d' = Some (JInt n)
        /\ Z.of_nat (count is_item tr1) = (n - num_items st)%Z
        /\ (count is_fetch tr2 <= 1)%nat
        /\ count is_save tr2 = 0%nat
        /\ (num_items st' - n <= Z.of_nat (count is_item tr2)
            <= num_items st' - n + 1)%Z
  end.
Proof.
  revert st w d.
  induction responses as [|response rest IH]; intros st w d Hs Hn;
    cbn [paging]; destruct (limit_reached cfg (num_items st));
    [exact I| |exact I|].
  { destruct Hs as (_ & _ & Hload & _).
    exists d, (num_items st), [], []. rewrite !app_nil_r, !count_nil.
    repeat (split; [first [assumption|reflexivity|lia]|]). lia. }
  destruct response as [root|e].
  2:{ destruct Hs as (_ & _ & Hload & _).
      exists d, (num_items st), [], [EvFetch (params (next_page st))].
      rewrite !count_cons, !count_nil. cbn [is_fetch is_save is_item].
      cbn [emit trace files next_page num_items app].
      repeat (split; [first [assumption|reflexivity|lia]|]). lia. }
  assert (Hs1 : synced cfg (next_page st)
                  (emit (EvFetch (params (next_page st))) w) d) by exact Hs.
  pose proof (process_page_synced ET_tostring cfg root _ _ d Hs1) as Hp.
  pose proof (process_page_ledger ET_tostring cfg root (next_page st)
                (emit (EvFetch (params (next_page st))) w)) as Hl.
  destruct (process_page ET_tostring cfg root (next_page st) _)
    as [rt st1 w1|e st1 w1] eqn:E.
  2:{ destruct Hs as (_ & _ & Hload & _).
      destruct Hl as (tr & k & Ht & Hk & L).
      exists d, (num_items st), [], ([EvFetch (params (next_page st))] ++ tr).
      split; [rewrite Ht; cbn [emit trace app]; now rewrite <- app_assoc|].
      split; [now rewrite (load_state_same _ _ _ Hp)|].
      split; [exact Hn|]. split; [rewrite count_nil; lia|].
      rewrite !count_app, !count_cons, !count_nil.
      cbn [is_fetch is_save is_item].
      rewrite (led_fetch _ _ _ _ _ _ _ L), (led_saves _ _ _ _ _ _ _ L).
      pose proof (led_items _ _ _ _ _ _ _ L) as Hi.
      cbn [next_page num_items] in Hi.
      split; [lia|]. split; [reflexivity|]. lia. }
  destruct Hp as (d1 & Hs1' & _).
  destruct Hl as (tr & Ht & L).
  destruct (process_page_position ET_tostring cfg root _ _ d rt st1 w1
              (proj1 Hs1) E) as (d1' & Hd1' & _ & Hn1 & _).
  assert (d1' = d1) as -> by (destruct Hs1' as (Hd1 & _); congruence).
  destruct rt as [|c rt]; [exact I|].
  set (st2 := set_params _ st1).
  set (w2 := emit (EvSleep _) w1).
  assert (Hs2 : synced cfg st2 w2 d1) by exact Hs1'.
  specialize (IH st2 w2 d1 Hs2 Hn1).
  destruct (paging ET_tostring cfg rest st2 w2) as [[o st3] w3].
  pose proof (led_items _ _ _ _ _ _ _ L) as Hi.
  cbn [next_page num_items] in Hi.
  destruct o as [why|e|]; [exact I|..];
    destruct IH as (d' & n & tr1 & tr2 & Ht3 & Hl3 & Hn3 & Hi3 & Hf3 & Hv3 & Hr3);
    exists d', n,
      (([EvFetch (params (next_page st))] ++ tr
        ++ [EvSleep (sleep_between cfg)]) ++ tr1), tr2;
    (split; [rewrite Ht3; unfold w2; cbn [emit trace]; rewrite Ht;
             cbn [emit trace]; rewrite <- ?app_assoc; cbn [app];
             now rewrite <- ?app_assoc|]);
    (split; [exact Hl3|]); (split; [exact Hn3|]);
    (split; [|split; [exact Hf3|split; [exact Hv3|exact Hr3]]]);
    rewrite !count_app, !count_cons, !count_nil; cbn [is_item];
    change (num_items st2) with (num_items st1) in Hi3; lia.
Qed.

End Lag.

Lemma checkpoint_lags_by_one_page_witness :
  let '(o, st', w') :=
    paging plain_tostring (example_config None None)
      [Ok first_page; Raise URLError] example_start checkpointed_world in
  match o with
  | Finished _ => True
  | Aborted _ | Starved =>
      exists d' n tr1 tr2,
        trace w' = trace checkpointed_world ++ tr1 ++ tr2
        /\ load_state (st_path (example_config None None)) (files w')
           = Ok (Some (JDict d'))
        /\ dict_get (lit "num_items") d' = Some (JInt n)
        /\ Z.of_nat (count is_item tr1) = (n - num_items example_start)%Z
        /\ (count is_fetch tr2 <= 1)%nat
        /\ count is_save tr2 = 0%nat
        /\ (num_items st' - n <= Z.of_nat (count is_item tr2)
            <= num_items st' - n + 1)%Z
  end.
Proof.
  apply (checkpoint_lags_by_one_page plain_tostring
           (example_config None None) [Ok first_page; Raise URLError]
           example_start checkpointed_world
           (default [] (state example_start))); [|reflexivity].
  split; [reflexivity|]. split; [|split].
  - split; [|reflexivity]. apply (bool_decide_unpack _). vm_compute. exact I.
  - vm_compute. reflexivity.
  - intros H. vm_compute in H. discriminate H.
Defined.

(** ** The request URL *)

Section Urls.

Lemma quote_byte_round (b : N) : b < 256 -> quote_byte_ok b = true.
Proof. revert b. apply all_below_spec. vm_compute. reflexivity. Qed.

Lemma utf8_decode_head_bytes (bs : list N) (c : N) (n : nat) :
  utf8_decode_head bs = Some (c, n) ->
  Forall (fun b => b < 256) (take n bs).
Proof.
  unfold utf8_decode_head, is_cont, in_range.
  destruct bs as [|b0 [|b1 [|b2 [|b3 r]]]];
    repeat match goal with
           | |- context [if ?t then _ else _] => destruct t eqn:?
           end;
    try discriminate; intros [= <- <-]; cbn [take firstn];
    repeat match goal with
           | H : _ && _ = true |- _ => apply andb_true_iff in H as [? ?]
           | H : (_ <=? _) = true |- _ => apply N.leb_le in H
           | H : (_ <? _) = true |- _ => apply N.ltb_lt in H
           end;
    repeat match goal with
           | H : context [if ?t then _ else _] |- _ => destruct t
           end;
    repeat (once constructor); cbv beta; lia.
Qed.

Lemma utf8_encode_bytes (s bs : list N) :
  utf8_encode s = Some bs -> Forall (fun b => b < 256) bs.
Proof.
  revert bs. induction s as [|c s IH]; intros bs; cbn [utf8_encode].
  - intros [= <-]. constructor.
  - destruct (utf8_encode_char c) as [bc|] eqn:Ec; [|discriminate].
    destruct (utf8_encode s) as [br|]; [|discriminate].
    intros [= <-]. apply Forall_app. split; [|now apply IH].
    pose proof (utf8_decode_head_encode c bc [] Ec) as Hd.
    rewrite app_nil_r in Hd. apply utf8_decode_head_bytes in Hd.
    now rewrite firstn_all in Hd.
Qed.

End Urls.
Section Urls2.

Lemma quote_byte_facts (b : N) :
  b < 256 ->
  unquote_plus_bytes (quote_byte b) = Some [b]
  /\ Forall (fun c => query_char c = true /\ c <> 38 /\ c <> 61 /\ c <> 63)
       (quote_byte b).
Proof.
  intros Hb. pose proof (quote_byte_round b Hb) as H.
  unfold quote_byte_ok in H. apply andb_true_iff in H as [H1 H2]. split.
  - destruct (unquote_plus_bytes (quote_byte b)) as [[|b' [|? ?]]|];
      try discriminate.
    apply N.eqb_eq in H2. now subst b'.
  - rewrite forallb_forall in H1. apply Forall_forall. intros c Hc.
    apply list_elem_of_In in Hc. apply H1 in Hc.
    apply andb_true_iff in Hc as [Hc H63].
    apply andb_true_iff in Hc as [Hc H61].
    apply andb_true_iff in Hc as [Hc H38].
    apply negb_true_iff, N.eqb_neq in H38, H61, H63. easy.
Qed.

Lemma unquote_plus_bytes_app (a : list N) :
  forall (a' r : list N),
    unquote_plus_bytes a = Some a' ->
    unquote_plus_bytes (a ++ r) = (a' ++.) <$> unquote_plus_bytes r.
Proof.
  induction a as [a IH] using (induction_ltof1 _ (@length N)).
  unfold ltof in IH. intros a' r.
  destruct a as [|c t]; cbn [unquote_plus_bytes app].
  { intros [= <-]. now destruct (unquote_plus_bytes r). }
  destruct (c =? 43).
  { destruct (unquote_plus_bytes t) as [t'|] eqn:Et; [|discriminate].
    intros [= <-]. rewrite (IH t ltac:(cbn [length]; lia) t' r Et).
    now destruct (unquote_plus_bytes r). }
  destruct (c =? 37).
  { destruct t as [|h [|l t2]]; try discriminate. cbn [app].
    destruct (hex_value h) as [hv|]; [|discriminate].
    destruct (hex_value l) as [lv|]; [|discriminate].
    cbn [mbind option_bind].
    destruct (unquote_plus_bytes t2) as [t'|] eqn:Et; [|discriminate].
    intros [= <-]. rewrite (IH t2 ltac:(cbn [length]; lia) t' r Et).
    now destruct (unquote_plus_bytes r). }
  destruct (unquote_plus_bytes t) as [t'|] eqn:Et; [|discriminate].
  intros [= <-]. rewrite (IH t ltac:(cbn [length]; lia) t' r Et).
  now destruct (unquote_plus_bytes r).
Qed.

Lemma unquote_quote_bytes (bs : list N) :
  Forall (fun b => b < 256) bs ->
  unquote_plus_bytes (flat_map quote_byte bs) = Some bs
  /\ Forall (fun c => query_char c = true /\ c <> 38 /\ c <> 61 /\ c <> 63)
       (flat_map quote_byte bs).
Proof.
  induction 1 as [|b bs Hb _ [IH1 IH2]]; [split; [reflexivity|constructor]|].
  destruct (quote_byte_facts b Hb) as [H1 H2]. cbn [flat_map]. split.
  - rewrite (unquote_plus_bytes_app _ [b] _ H1), IH1. reflexivity.
  - apply Forall_app. now split.
Qed.

(** [quote_plus] writes query characters other than [&], [=] and
    [?], and is read back. *)
Lemma quote_plus_round (s q : list N) :
  quote_plus s = Ok q ->
  unquote_plus q = Some s
  /\ Forall (fun c => query_char c = true /\ c <> 38 /\ c <> 61 /\ c <> 63) q.
Proof.
  unfold quote_plus, encode_text.
  destruct (utf8_encode s) as [bs|] eqn:E; cbn [bind]; [|discriminate].
  intros [= <-].
  destruct (unquote_quote_bytes bs (utf8_encode_bytes s bs E)) as [H1 H2].
  split; [|exact H2]. unfold unquote_plus. rewrite H1. cbn [mbind option_bind].
  now apply utf8_decode_strict_encode.
Qed.

Lemma split_first_fresh (sep : N) (k v : list N) :
  sep ∉ k -> split_first sep (k ++ sep :: v) = Some (k, v).
Proof.
  induction k as [|c k IH]; intros Hk; cbn [app split_first].
  - now rewrite N.eqb_refl.
  - apply not_elem_of_cons in Hk as [Hc Hk].
    destruct (N.eqb_spec c sep); [congruence|]. now rewrite IH.
Qed.

Lemma split_on_fresh (sep : N) (p : list N) :
  sep ∉ p -> split_on sep p = [p].
Proof.
  induction p as [|c p IH]; intros Hp; [reflexivity|].
  apply not_elem_of_cons in Hp as [Hc Hp]. cbn [split_on].
  destruct (N.eqb_spec c sep); [congruence|]. now rewrite IH.
Qed.

Lemma split_on_app (sep : N) (p s : list N) :
  sep ∉ p -> split_on sep (p ++ sep :: s) = p :: split_on sep s.
Proof.
  induction p as [|c p IH]; intros Hp; cbn [app split_on].
  - now rewrite N.eqb_refl.
  - apply not_elem_of_cons in Hp as [Hc Hp].
    destruct (N.eqb_spec c sep); [congruence|]. now rewrite IH.
Qed.

Lemma split_on_join (sep : N) (p : list N) (parts : list (list N)) :
  Forall (fun p => sep ∉ p) (p :: parts) ->
  split_on sep (join [sep] (p :: parts)) = p :: parts.
Proof.
  revert p. induction parts as [|p2 parts IH]; intros p Hall;
    apply Forall_cons in Hall as [Hp Hall].
  - now apply split_on_fresh.
  - change (join [sep] (p :: p2 :: parts))
      with (p ++ sep :: join [sep] (p2 :: parts)).
    rewrite split_on_app by exact Hp. now rewrite IH.
Qed.

Lemma urlencode_parts_round (params : list (list N * list N)) :
  forall parts,
    urlencode_parts params = Ok parts ->
    decode_pairs parts = Some params
    /\ length parts = length params
    /\ Forall (fun p => (38 ∉ p) /\ (63 ∉ p) /\ forallb query_char p = true
                        /\ p <> []) parts.
Proof.
  induction params as [|[k v] params IH]; intros parts;
    cbn [urlencode_parts].
  { intros [= <-]. split; [reflexivity|]. split; [reflexivity|constructor]. }
  destruct (quote_plus k) as [qk|] eqn:Ek; cbn [bind]; [|discriminate].
  destruct (quote_plus v) as [qv|] eqn:Ev; cbn [bind]; [|discriminate].
  destruct (urlencode_parts params) as [rest|]; cbn [bind]; [|discriminate].
  intros [= <-]. destruct (IH rest eq_refl) as (Hd & Hl & Hall).
  apply quote_plus_round in Ek as [Hk Hkc], Ev as [Hv Hvc].
  rewrite Forall_forall in Hkc, Hvc.
  split; [|split].
  - cbn [decode_pairs]. unfold decode_pair.
    change (qk ++ lit "=" ++ qv) with (qk ++ 61 :: qv).
    rewrite split_first_fresh by (intros Hin; now apply Hkc in Hin).
    cbn [mbind option_bind]. rewrite Hk, Hv. cbn [mbind option_bind].
    now rewrite Hd.
  - cbn [length]. now rewrite Hl.
  - constructor; [|exact Hall].
    change (qk ++ lit "=" ++ qv) with (qk ++ 61 :: qv).
    assert (Hin : forall c, c ∈ qk ++ 61 :: qv ->
                            query_char c = true /\ c <> 38 /\ c <> 63).
    { intros c Hc. apply elem_of_app in Hc as [Hc|Hc];
        [apply Hkc in Hc; easy|].
      apply elem_of_cons in Hc as [->|Hc]; [easy|apply Hvc in Hc; easy]. }
    split; [intros H; now apply Hin in H|].
    split; [intros H; now apply Hin in H|].
    split; [|now destruct qk].
    apply forallb_forall. intros c Hc. apply list_elem_of_In in Hc.
    now apply Hin in Hc.
Qed.

Lemma lstrip_question_app (s : list N) :
  lstrip_question (63 :: s) = lstrip_question s.
Proof. reflexivity. Qed.

(** X26: the request URL carries the parameters intact.  When
    [build_url] returns, the URL is the base without its trailing
    question marks, one question mark, and a query that is made of
    unreserved characters, [%], [+], [=] and [&] only (no second
    question mark), and that reads back, by splitting at [&] and [=]
    and undoing the escapes, as exactly the parameters that were
    given, in their order; a question mark at the end of the base
    makes no difference. *)
Theorem build_url_round_trip (base : str) (params : list (str * str))
    (url : str) :
  build_url base params = Ok url ->
  exists q,
    url = rstrip_question base ++ 63 :: q
    /\ query_decode q = Some params
    /\ forallb query_char q = true
    /\ (63 ∉ q)
    /\ build_url (base ++ [63]) params = Ok url.
Proof.
  unfold build_url, urlencode.
  destruct (urlencode_parts params) as [parts|] eqn:E; cbn [bind];
    [|discriminate].
  intros [= <-]. exists (join (lit "&") parts).
  destruct (urlencode_parts_round params parts E) as (Hd & Hl & Hall).
  split; [reflexivity|].
  assert (Hstrip : rstrip_question (base ++ [63]) = rstrip_question base).
  { unfold rstrip_question. rewrite rev_app_distr. reflexivity. }
  rewrite Hstrip.
  destruct parts as [|p parts].
  { destruct params; [|discriminate]. repeat split. apply not_elem_of_nil. }
  assert (Hjoin : forall c, c ∈ join (lit "&") (p :: parts) ->
                            query_char c = true /\ c <> 63).
  { clear Hd Hl E. revert p Hall.
    induction parts as [|p2 parts IH]; intros p Hall c Hc;
      apply Forall_cons in Hall as [(_ & H63 & Hq & _) Hall].
    - cbn [join] in Hc. rewrite forallb_forall in Hq. split.
      + apply Hq. now apply list_elem_of_In.
      + intros ->. contradiction.
    - change (join (lit "&") (p :: p2 :: parts))
        with (p ++ 38 :: join (lit "&") (p2 :: parts)) in Hc.
      apply elem_of_app in Hc as [Hc|Hc].
      + rewrite forallb_forall in Hq. split.
        * apply Hq. now apply list_elem_of_In.
        * intros ->. contradiction.
      + apply elem_of_cons in Hc as [->|Hc]; [easy|]. now apply (IH p2). }
  split; [|split; [|split; [|reflexivity]]].
  - unfold query_decode.
    assert (Hne : join (lit "&") (p :: parts) <> []).
    { apply Forall_cons in Hall as [(_ & _ & _ & Hp) _].
      destruct parts; cbn [join]; [exact Hp|]. now destruct p. }
    destruct (join (lit "&") (p :: parts)) as [|c t] eqn:Ej; [contradiction|].
    rewrite <- Ej. change (lit "&") with [38].
    rewrite split_on_join; [exact Hd|].
    eapply Forall_impl; [exact Hall|]. now intros x (H & _).
  - apply forallb_forall. intros c Hc. apply list_elem_of_In in Hc.
    now apply Hjoin in Hc.
  - intros H. now apply Hjoin in H.
Qed.

End Urls2.

Lemma build_url_round_trip_witness :
  exists url q,
    build_url (lit "http://example.org/oai?")
      [(lit "verb", ListRecords); (lit "resumptionToken", lit "a&b=c d/+")]
    = Ok url
    /\ url = lit "http://example.org/oai" ++ 63 :: q
    /\ query_decode q
       = Some [(lit "verb", ListRecords);
               (lit "resumptionToken", lit "a&b=c d/+")].
Proof.
  destruct (build_url (lit "http://example.org/oai?")
              [(lit "verb", ListRecords);
               (lit "resumptionToken", lit "a&b=c d/+")]) as [url|e] eqn:E.
  - destruct (build_url_round_trip _ _ _ E) as (q & Hu & Hd & _).
    exists url, q. split; [reflexivity|]. split; [exact Hu|exact Hd].
  - exfalso.
    apply (f_equal (fun r => match r with Ok _ => true | Raise _ => false end))
      in E.
    vm_compute in E. discriminate E.
Defined.

(** ** The preflight check and the JSONL export *)

Section Preflight.

Lemma findall_metadata_prefix (root : Element) :
  findall root (lit ".//oai:metadataPrefix") NS
  = Ok (filter (fun c => tag c = oai "metadataPrefix")
          (flat_map iter (children root))).
Proof. reflexivity. Qed.

(** X27: the preflight check accepts a desired prefix exactly when
    some [metadataPrefix] element of the response has a text that is
    not empty and whose stripped form is the desired prefix, and it
    ends in no other way than acceptance or [SystemExit]; a desired
    prefix with white space at either end is therefore rejected
    whatever the server offers. *)
Theorem preflight_check_metadata_prefix_accepts (root : Element)
    (desired_prefix : str) :
  (preflight_check_metadata_prefix root desired_prefix = Ok tt
   <-> exists el x,
         el ∈ flat_map iter (children root)
         /\ tag el = oai "metadataPrefix"
         /\ text el = Some x /\ x <> [] /\ strip x = desired_prefix)
  /\ (preflight_check_metadata_prefix root desired_prefix = Ok tt
      \/ preflight_check_metadata_prefix root desired_prefix
         = Raise SystemExit)
  /\ (strip desired_prefix <> desired_prefix ->
      preflight_check_metadata_prefix root desired_prefix = Raise SystemExit).
Proof.
  unfold preflight_check_metadata_prefix, metadata_prefixes.
  rewrite findall_metadata_prefix. cbn [bind].
  set (els := filter _ _).
  set (prefixes := omap _ els).
  assert (Hin : desired_prefix ∈ prefixes
                <-> exists el x,
                      el ∈ flat_map iter (children root)
                      /\ tag el = oai "metadataPrefix"
                      /\ text el = Some x /\ x <> []
                      /\ strip x = desired_prefix).
  { unfold prefixes. rewrite list_elem_of_omap. split.
    - intros (el & Hel & Ht). unfold els in Hel.
      apply list_elem_of_filter in Hel as [Htag Hel].
      destruct (text el) as [[|c t]|] eqn:Etx; try discriminate.
      injection Ht as <-. exists el, (c :: t). easy.
    - intros (el & x & Hel & Htag & Htx & Hne & Hs).
      exists el. split; [unfold els; now apply list_elem_of_filter|].
      rewrite Htx. destruct x as [|c t]; [contradiction|]. now rewrite Hs. }
  split; [|split].
  - rewrite <- Hin. case_bool_decide; split; try easy.
  - case_bool_decide; [now left|now right].
  - intros Hs. rewrite bool_decide_eq_false_2; [reflexivity|].
    intros H. apply Hin in H as (el & x & _ & _ & _ & _ & <-).
    apply Hs. apply strip_idempotent.
Qed.

End Preflight.

Section JsonlRows.










End JsonlRows.


(** ** Runs that start over *)

Section StartingOver.

(** C8: a run with a limit of five on a server that holds six items
    on two pages of three, started over: the checkpoint on disk
    offers to resume, the operator declines, and the loop is entered
    without a checkpoint dictionary.  After the three items of the
    first page [state.update] raises [AttributeError]: the run is
    aborted with three items in the segment file and three rows for
    each sink, where the limit asks for five, and the segment is left
    without its closing tags. *)
Theorem restart_run_misses_limit :
  let cfg := example_config (Some 5%Z) None in
  let d := default [] (state example_start) in
  load_state (st_path cfg) (files checkpointed_world) = Ok (Some (JDict d))
  /\ (forall float_truth,
        offers_resume float_truth cfg (Some (JDict d)) = Ok true)
  /\ items_of cfg [first_page; second_page] = 6%Z
  /\ let '(st, w) := restart cfg checkpointed_world in
     exists st' w',
       paging plain_tostring cfg [Ok first_page; Ok second_page] st w
       = (Aborted AttributeError, st', w')
       /\ num_items st' = 3%Z
       /\ count is_item (trace w') = 3%nat
       /\ count is_csv_row (trace w') = 3%nat
       /\ count is_jsonl_row (trace w') = 3%nat
       /\ count is_fetch (trace w') = 1%nat
       /\ files w' !! lit "harvest.xml"
          = Some (wrapper_open_tag ListRecords
                  ++ flat_map
                       (fun el =>
                          default [] (utf8_encode (plain_tostring el)) ++ [NL])
                       three_records)
       /\ files w' !! st_path cfg = None.
Proof.
  cbv zeta. split; [vm_compute; reflexivity|].
  split; [intros float_truth; vm_compute; reflexivity|].
  split; [vm_compute; reflexivity|].
  eexists _, _. split; [vm_compute; reflexivity|].
  repeat split; vm_compute; reflexivity.
Qed.

(** C10: a run that was started over meets a first page whose token
    is white space only.  The token is empty, but the run does not
    end as one that met its last page: [state.update] raises
    [AttributeError] before the checkpoint is written, so no
    checkpoint holds the token, the segment is not sealed, and the
    run is aborted.  With a token on the page the same run ends after
    the page as well, whereas the loop is to go on. *)
Theorem restart_run_stores_no_token :
  let cfg := example_config None None in
  let blank := example_page three_records (Some (lit "  ")) in
  page_token blank = []
  /\ page_token first_page = lit "t1"
  /\ let '(st, w) := restart cfg checkpointed_world in
     (exists st' w',
         paging plain_tostring cfg [Ok blank] st w
         = (Aborted AttributeError, st', w')
         /\ count is_save (trace w') = 0%nat
         /\ count is_seal (trace w') = 0%nat
         /\ files w' !! st_path cfg = None)
     /\ (exists st' w',
            paging plain_tostring cfg [Ok first_page; Ok second_page] st w
            = (Aborted AttributeError, st', w')
            /\ count is_fetch (trace w') = 1%nat
            /\ count is_save (trace w') = 0%nat
            /\ files w' !! st_path cfg = None).
Proof.
  cbv zeta. split; [vm_compute; reflexivity|].
  split; [vm_compute; reflexivity|].
  split; eexists _, _; (split; [vm_compute; reflexivity|]);
    repeat split; vm_compute; reflexivity.
Qed.

End StartingOver.

(** ** The segments on disk *)

Section Segments.

Variable ET_tostring : Element -> str.
Variable cfg : Config.

Local Abbreviation out := (out_path_for_index cfg).
Local Abbreviation replay := (files_after ET_tostring cfg).
Local Abbreviation tmp_path := (st_path cfg ++ lit ".tmp").

Lemma files_after_app (a b : list Event) (fs : FS) :
  replay (a ++ b) fs = replay b (replay a fs).
Proof. apply fold_left_app. Qed.

Lemma sealed_paths_app (a b : list Event) :
  sealed_paths (a ++ b) = sealed_paths a ++ sealed_paths b.
Proof. apply flat_map_app. Qed.

(** Two indices from one on name two files. *)
Lemma out_path_for_index_distinct (i j : Z) :
  (1 <= i)%Z -> (1 <= j)%Z -> i <> j -> out i <> out j.
Proof.
  intros Hi Hj Hne H. unfold out_path_for_index in H.
  destruct (Z.ltb_spec 1 i) as [Hi1|Hi1], (Z.ltb_spec 1 j) as [Hj1|Hj1].
  - do 2 apply app_inv_head in H. apply app_inv_tail in H.
    apply str_of_Z_injective in H; lia.
  - rewrite <- (app_nil_r (out_path cfg)) in H.
    now apply part_path_differs in H; [|right].
  - symmetry in H. rewrite <- (app_nil_r (out_path cfg)) in H.
    now apply part_path_differs in H; [|right].
  - lia.
Qed.

Lemma segment_is_no_state (idx : Z) : out idx <> st_path cfg.
Proof.
  unfold out_path_for_index, st_path, state_path_for.
  destruct (Z.ltb_spec 1 idx) as [Hi|Hi].
  - apply part_path_differs. now left.
  - intros H. apply (f_equal length) in H.
    rewrite length_app in H. cbn in H. lia.
Qed.

Lemma segment_is_no_tmp (idx : Z) : out idx <> tmp_path.
Proof.
  unfold out_path_for_index, st_path, state_path_for.
  destruct (Z.ltb_spec 1 idx) as [Hi|Hi].
  - rewrite <- app_assoc. apply part_path_differs. now left.
  - intros H. apply (f_equal length) in H.
    rewrite !length_app in H. cbn in H. lia.
Qed.

Lemma indices_nil (a : Z) : indices a a = [].
Proof. unfold indices. now rewrite Z.sub_diag. Qed.

Lemma indices_one (a : Z) : indices a (a + 1) = [a].
Proof.
  unfold indices. replace (a + 1 - a)%Z with 1%Z by lia.
  change (Z.to_nat 1) with 1%nat. cbn [seq map]. f_equal. lia.
Qed.

Lemma indices_app (a b c : Z) :
  (a <= b <= c)%Z -> indices a b ++ indices b c = indices a c.
Proof.
  intros H. unfold indices.
  replace (Z.to_nat (c - a)) with (Z.to_nat (b - a) + Z.to_nat (c - b))%nat
    by lia.
  rewrite seq_app, map_app. f_equal. cbn [Nat.add].
  rewrite <- (Nat.add_0_r (Z.to_nat (b - a))) at 1.
  rewrite <- fmap_add_seq.
  change (map ?f ?l) with (f <$> l). rewrite <- list_fmap_compose.
  apply list_fmap_ext. intros _ k _. cbn. lia.
Qed.

Lemma elem_of_indices (a b i : Z) : i ∈ indices a b <-> (a <= i < b)%Z.
Proof.
  unfold indices. rewrite list_elem_of_In, in_map_iff. split.
  - intros (k & <- & Hk). apply in_seq in Hk. lia.
  - intros H. exists (Z.to_nat (i - a)). split; [lia|].
    apply in_seq. lia.
Qed.

Lemma NoDup_indices (a b : Z) : NoDup (indices a b).
Proof.
  unfold indices. apply NoDup_fmap_2_strong; [|apply NoDup_seq].
  intros x y _ _ H. lia.
Qed.

(** One item. *)
Lemma write_item_segment (el : Element) (st : LoopState) (w : World)
    (o : option exn) (st1 : LoopState) (w1 : World) :
  write_item ET_tostring cfg el st w = (o, st1, w1) ->
  file_index st1 = file_index st
  /\ current_out st1 = current_out st
  /\ exists tr,
       trace w1 = trace w ++ tr
       /\ files w1 = replay tr (files w)
       /\ sealed_paths tr = [].
Proof.
  unfold write_item, encode_text.
  destruct (utf8_encode (ET_tostring el)) as [data|] eqn:U.
  2:{ intros [= <- <- <-]. repeat split. exists []. now rewrite app_nil_r. }
  assert (Hline : forall more fs,
             (forall fs' ev, ev ∈ more ->
                             event_on_files ET_tostring cfg fs' ev = fs') ->
             replay (EvItem (current_out st) el :: more) fs
             = fs_append (current_out st) (data ++ [NL]) fs).
  { intros more fs Hmore. unfold files_after. cbn [fold_left event_on_files].
    unfold item_line. rewrite U.
    fold (fs_append (current_out st) (data ++ [NL]) fs).
    generalize (fs_append (current_out st) (data ++ [NL]) fs).
    induction more as [|ev more IH]; intros fs0; [reflexivity|].
    cbn [fold_left]. rewrite Hmore by constructor.
    apply IH. intros fs' ev' Hin. apply Hmore. now constructor. }
  destruct (item_fields cfg el) as [[[i ds] v]|e]; intros [= <- <- <-].
  - split; [reflexivity|]. split; [reflexivity|].
    exists (EvItem (current_out st) el
            :: (if csv_enabled cfg then [EvCsvRow i ds v] else [])
            ++ (if jsonl_enabled cfg then [EvJsonlRow i ds v] else [])).
    split; [|split].
    + destruct (csv_enabled cfg), (jsonl_enabled cfg);
        cbn [emit on_files trace app]; now rewrite <- ?app_assoc.
    + rewrite Hline.
      * now destruct (csv_enabled cfg), (jsonl_enabled cfg).
      * intros fs' ev Hin.
        destruct (csv_enabled cfg), (jsonl_enabled cfg); cbn [app] in Hin;
          repeat (apply elem_of_cons in Hin as [->|Hin]; [reflexivity|]);
          now apply elem_of_nil in Hin.
    + now destruct (csv_enabled cfg), (jsonl_enabled cfg).
  - split; [reflexivity|]. split; [reflexivity|].
    exists [EvItem (current_out st) el]. split; [reflexivity|].
    split; [|reflexivity]. rewrite Hline; [reflexivity|].
    intros fs' ev Hin. now apply elem_of_nil in Hin.
Qed.

Lemma write_items_segment (elements : list Element) (st : LoopState)
    (w : World) (o : option exn) (st1 : LoopState) (w1 : World) :
  write_items ET_tostring cfg elements st w = (o, st1, w1) ->
  file_index st1 = file_index st
  /\ current_out st1 = current_out st
  /\ exists tr,
       trace w1 = trace w ++ tr
       /\ files w1 = replay tr (files w)
       /\ sealed_paths tr = [].
Proof.
  revert st w. induction elements as [|el rest IH]; intros st w;
    cbn [write_items].
  { intros [= <- <- <-]. repeat split. exists []. now rewrite app_nil_r. }
  destruct (limit_reached cfg (num_items st)).
  { intros [= <- <- <-]. repeat split. exists []. now rewrite app_nil_r. }
  destruct (write_item ET_tostring cfg el st w) as [[o0 st0] w0] eqn:E0.
  apply write_item_segment in E0 as (Hi0 & Hc0 & tr0 & Ht0 & Hf0 & Hs0).
  destruct o0 as [e|].
  - intros [= <- <- <-]. split; [exact Hi0|]. split; [exact Hc0|].
    exists tr0. now repeat split.
  - intros H. apply IH in H as (Hi1 & Hc1 & tr1 & Ht1 & Hf1 & Hs1).
    split; [congruence|]. split; [congruence|].
    exists (tr0 ++ tr1). split; [now rewrite Ht1, Ht0, app_assoc|].
    split; [now rewrite files_after_app, <- Hf0|].
    now rewrite sealed_paths_app, Hs0, Hs1.
Qed.

(** The rotation: nothing, or the closing tags at the end of the
    segment and the next segment opened. *)
Lemma rotate_segment (st : LoopState) (w : World) :
  aligned cfg st ->
  aligned cfg (rotate cfg st w).1
  /\ state (rotate cfg st w).1 = state st
  /\ (forall p, p <> current_out st -> p <> out (file_index st + 1) ->
                files (rotate cfg st w).2 !! p = files w !! p)
  /\ exists tr,
       trace (rotate cfg st w).2 = trace w ++ tr
       /\ files (rotate cfg st w).2 = replay tr (files w)
       /\ ((file_index (rotate cfg st w).1 = file_index st
            /\ sealed_paths tr = [])
           \/ (file_index (rotate cfg st w).1 = (file_index st + 1)%Z
               /\ sealed_paths tr = [current_out st]
               /\ ends_sealed cfg
                    (files (rotate cfg st w).2 !! current_out st))).
Proof.
  intros [Hout Hidx]. unfold rotate, aligned.
  destruct (rotation_due cfg (num_items st)); cbn [fst snd].
  2:{ split; [now split|]. split; [reflexivity|]. split; [reflexivity|].
      exists []. rewrite app_nil_r. split; [reflexivity|].
      split; [reflexivity|]. now left. }
  cbn [set_segment current_out file_index state emit on_files trace files].
  split; [split; [reflexivity|lia]|]. split; [reflexivity|].
  split.
  { intros p Hp Hnext. rewrite ensure_open_wrapper_other by exact Hnext.
    unfold write_close_wrapper, fs_append.
    now rewrite lookup_insert_ne by congruence. }
  exists [EvSeal (current_out st); EvOpen (out (file_index st + 1))].
  split; [now rewrite <- app_assoc|]. split; [reflexivity|]. right.
  split; [reflexivity|]. split; [reflexivity|].
  exists (default [] (files w !! current_out st)).
  rewrite ensure_open_wrapper_other.
  - unfold write_close_wrapper, fs_append. apply lookup_insert_eq.
  - rewrite Hout. apply out_path_for_index_distinct; lia.
Qed.

(** The checkpoint touches its own two files. *)
Lemma checkpoint_segment (rt : str) (st : LoopState) (w : World) :
  let '(st1, w1) := page_end (checkpoint cfg rt st w) in
  file_index st1 = file_index st
  /\ current_out st1 = current_out st
  /\ (forall p, p <> st_path cfg -> p <> tmp_path ->
                files w1 !! p = files w !! p)
  /\ (is_Some (files w !! st_path cfg) -> is_Some (files w1 !! st_path cfg))
  /\ exists tr,
       trace w1 = trace w ++ tr
       /\ files w1 = replay tr (files w)
       /\ sealed_paths tr = [].
Proof.
  unfold checkpoint. destruct (state st) as [d|]; cbn [page_end].
  2:{ repeat split; try easy. exists []. now rewrite app_nil_r. }
  set (d' := dict_update d _).
  unfold save_state, encode_text.
  destruct (utf8_encode (json_dumps (JDict d'))) as [data|] eqn:U;
    cbn [bind page_end].
  2:{ repeat split; try easy. exists []. now rewrite app_nil_r. }
  cbn [set_state file_index current_out emit on_files trace files].
  split; [reflexivity|]. split; [reflexivity|]. split; [|split].
  - intros p Hp Htmp. rewrite lookup_insert_ne by congruence.
    rewrite lookup_delete_ne by congruence.
    now rewrite lookup_insert_ne by congruence.
  - intros _. rewrite lookup_insert_eq. eauto.
  - exists [EvSaveState d']. split; [reflexivity|]. split; [|reflexivity].
    unfold files_after. cbn [fold_left event_on_files]. rewrite U.
    now rewrite delete_insert_eq.
Qed.

(** One page. *)
Lemma process_page_segment (root : Element) (st : LoopState) (w : World) :
  aligned cfg st ->
  let '(st1, w1) := page_end (process_page ET_tostring cfg root st w) in
  aligned cfg st1
  /\ (forall i, (1 <= i < file_index st)%Z ->
                files w1 !! out i = files w !! out i)
  /\ (is_Some (files w !! st_path cfg) -> is_Some (files w1 !! st_path cfg))
  /\ exists tr,
       trace w1 = trace w ++ tr
       /\ files w1 = replay tr (files w)
       /\ ((file_index st1 = file_index st /\ sealed_paths tr = [])
           \/ (file_index st1 = (file_index st + 1)%Z
               /\ sealed_paths tr = [current_out st]
               /\ ends_sealed cfg (files w1 !! current_out st))).
Proof.
  intros Hal. pose proof Hal as [Hout Hidx].
  assert (Hbelow : forall i, (1 <= i < file_index st)%Z ->
                             out i <> current_out st
                             /\ out i <> out (file_index st + 1)).
  { intros i Hi. rewrite Hout.
    split; apply out_path_for_index_distinct; lia. }
  assert (Hstate : st_path cfg <> current_out st
                   /\ st_path cfg <> out (file_index st + 1)).
  { rewrite Hout. split; intros H; symmetry in H; revert H;
      apply segment_is_no_state. }
  unfold process_page.
  destruct (findall root _ NS) as [elements|e]; cbn [page_end].
  2:{ split; [exact Hal|]. split; [reflexivity|]. split; [easy|].
      exists []. rewrite app_nil_r. split; [reflexivity|].
      split; [reflexivity|]. now left. }
  destruct (write_items _ _ _ _ _) as [[o st0] w0] eqn:E0.
  pose proof (fun p Hne => proj1 (write_items_disk ET_tostring cfg _ _ _ _ _ _
                                       p Hne E0)) as Hdisk0.
  apply write_items_segment in E0 as (Hi0 & Hc0 & tr0 & Ht0 & Hf0 & Hs0).
  assert (Hal0 : aligned cfg st0) by (split; congruence).
  assert (Hframe0 : forall p, p <> current_out st ->
                              files w0 !! p = files w !! p).
  { intros p Hp. apply Hdisk0. congruence. }
  destruct o as [e|]; cbn [page_end].
  { split; [exact Hal0|]. split; [intros i Hi; apply Hframe0, Hbelow, Hi|].
    split; [now rewrite Hframe0 by apply Hstate|].
    exists tr0. split; [exact Ht0|]. split; [exact Hf0|]. left.
    now split. }
  destruct (rotate_segment st0 w0 Hal0)
    as (Hal2 & _ & Hframe2 & tr2 & Ht2 & Hf2 & Hcase2).
  destruct (rotate cfg st0 w0) as [st2 w2]. cbn [fst snd] in *.
  rewrite Hi0, Hc0 in *.
  assert (Hrest : forall st3 w3 tr3,
             file_index st3 = file_index st2 ->
             current_out st3 = current_out st2 ->
             (forall p, p <> st_path cfg -> p <> tmp_path ->
                        files w3 !! p = files w2 !! p) ->
             (is_Some (files w2 !! st_path cfg) ->
              is_Some (files w3 !! st_path cfg)) ->
             trace w3 = trace w2 ++ tr3 ->
             files w3 = replay tr3 (files w2) ->
             sealed_paths tr3 = [] ->
             aligned cfg st3
             /\ (forall i, (1 <= i < file_index st)%Z ->
                           files w3 !! out i = files w !! out i)
             /\ (is_Some (files w !! st_path cfg) ->
                 is_Some (files w3 !! st_path cfg))
             /\ exists tr,
                  trace w3 = trace w ++ tr
                  /\ files w3 = replay tr (files w)
                  /\ ((file_index st3 = file_index st /\ sealed_paths tr = [])
                      \/ (file_index st3 = (file_index st + 1)%Z
                          /\ sealed_paths tr = [current_out st]
                          /\ ends_sealed cfg (files w3 !! current_out st)))).
  { intros st3 w3 tr3 Hi3 Hc3 Hframe3 Hsome3 Ht3 Hf3 Hs3.
    split; [destruct Hal2; split; congruence|]. split; [|split].
    - intros i Hi. rewrite Hframe3
        by (apply segment_is_no_state || apply segment_is_no_tmp).
      rewrite Hframe2 by apply Hbelow, Hi. apply Hframe0, Hbelow, Hi.
    - intros Hsome. apply Hsome3.
      rewrite Hframe2 by apply Hstate. now rewrite Hframe0 by apply Hstate.
    - exists ((tr0 ++ tr2) ++ tr3).
      split; [now rewrite Ht3, Ht2, Ht0, !app_assoc|].
      split; [now rewrite !files_after_app, <- Hf0, <- Hf2|].
      rewrite !sealed_paths_app, Hs0, Hs3, app_nil_r. cbn [app].
      destruct Hcase2 as [[Hsame Hnone]|(Hnext & Hone & Hsealed)].
      + left. split; congruence.
      + right. split; [congruence|]. split; [exact Hone|].
        rewrite Hframe3; [exact Hsealed| |]; rewrite Hout;
          [apply segment_is_no_state|apply segment_is_no_tmp]. }
  destruct (token_of root) as [rt|e]; cbn [page_end].
  2:{ apply (Hrest st2 w2 []); try easy. now rewrite app_nil_r. }
  pose proof (checkpoint_segment rt st2 w2) as Hcp.
  destruct (page_end (checkpoint cfg rt st2 w2)) as [st3 w3].
  destruct Hcp as (Hi3 & Hc3 & Hframe3 & Hsome3 & tr3 & Ht3 & Hf3 & Hs3).
  now apply (Hrest st3 w3 tr3).
Qed.

(** The end of a run that finishes. *)
Lemma finish_segment (st : LoopState) (w : World) :
  aligned cfg st ->
  files (finish cfg st w) = replay [EvSeal (current_out st); EvRemoveState]
                              (files w)
  /\ ends_sealed cfg (files (finish cfg st w) !! current_out st)
  /\ files (finish cfg st w) !! st_path cfg = None
  /\ (forall p, p <> current_out st -> p <> st_path cfg ->
                files (finish cfg st w) !! p = files w !! p).
Proof.
  intros [Hout _]. unfold finish, remove_state, write_close_wrapper, fs_append.
  cbn [emit on_files files]. split; [reflexivity|]. split; [|split].
  - exists (default [] (files w !! current_out st)).
    rewrite lookup_delete_ne
      by (rewrite Hout; intros H; symmetry in H; revert H;
          apply segment_is_no_state).
    apply lookup_insert_eq.
  - apply lookup_delete_eq.
  - intros p Hp Hs. rewrite lookup_delete_ne by congruence.
    now rewrite lookup_insert_ne by congruence.
Qed.

(** A run: the trace accounts for the files, the segments sealed are
    those the run rotated away from, in order, and at a normal end
    the current one; each of them ends with the closing tags when the
    run is over. *)
Lemma paging_segments (responses : list (result Element)) (st : LoopState)
    (w : World) :
  aligned cfg st ->
  let '(o, st', w') := paging ET_tostring cfg responses st w in
  aligned cfg st'
  /\ (file_index st <= file_index st')%Z
  /\ (forall i, (1 <= i < file_index st)%Z ->
                files w' !! out i = files w !! out i)
  /\ (if finished o then files w' !! st_path cfg = None
      else is_Some (files w !! st_path cfg) ->
           is_Some (files w' !! st_path cfg))
  /\ exists tr,
       trace w' = trace w ++ tr
       /\ files w' = replay tr (files w)
       /\ sealed_paths tr
          = map out (indices (file_index st) (file_index st'))
            ++ (if finished o then [current_out st'] else [])
       /\ (forall p, p ∈ sealed_paths tr -> ends_sealed cfg (files w' !! p)).
Proof.
  revert st w.
  assert (Hend : forall st w,
             aligned cfg st ->
             aligned cfg st
             /\ (file_index st <= file_index st)%Z
             /\ (forall i, (1 <= i < file_index st)%Z ->
                           files (finish cfg st w) !! out i = files w !! out i)
             /\ files (finish cfg st w) !! st_path cfg = None
             /\ exists tr,
                  trace (finish cfg st w) = trace w ++ tr
                  /\ files (finish cfg st w) = replay tr (files w)
                  /\ sealed_paths tr
                     = map out (indices (file_index st) (file_index st))
                       ++ [current_out st]
                  /\ (forall p, p ∈ sealed_paths tr ->
                                ends_sealed cfg (files (finish cfg st w) !! p))).
  { intros st w Hal. pose proof Hal as [Hout Hidx].
    destruct (finish_segment st w Hal) as (Hf & Hsealed & Hgone & Hframe).
    split; [exact Hal|]. split; [lia|]. split; [|split; [exact Hgone|]].
    - intros i Hi. apply Hframe; [|apply segment_is_no_state].
      rewrite Hout. apply out_path_for_index_distinct; lia.
    - exists [EvSeal (current_out st); EvRemoveState].
      split; [apply finish_trace|]. split; [exact Hf|].
      rewrite indices_nil. split; [reflexivity|].
      intros p Hp. cbn in Hp. apply list_elem_of_singleton in Hp.
      now subst p. }
  assert (Hstop : forall o st w,
             finished o = false -> aligned cfg st ->
             aligned cfg st
             /\ (file_index st <= file_index st)%Z
             /\ (forall i, (1 <= i < file_index st)%Z ->
                           files w !! out i = files w !! out i)
             /\ (if finished o then files w !! st_path cfg = None
                 else is_Some (files w !! st_path cfg) ->
                      is_Some (files w !! st_path cfg))
             /\ exists tr,
                  trace w = trace w ++ tr
                  /\ files w = replay tr (files w)
                  /\ sealed_paths tr
                     = map out (indices (file_index st) (file_index st))
                       ++ (if finished o then [current_out st] else [])
                  /\ (forall p, p ∈ sealed_paths tr ->
                                ends_sealed cfg (files w !! p))).
  { intros o st w Ho Hal. rewrite Ho.
    split; [exact Hal|]. split; [lia|]. split; [easy|]. split; [easy|].
    exists []. rewrite app_nil_r, indices_nil.
    split; [reflexivity|]. split; [reflexivity|]. split; [reflexivity|].
    intros p Hp. now apply elem_of_nil in Hp. }
  induction responses as [|response rest IH]; intros st w Hal;
    cbn [paging]; destruct (limit_reached cfg (num_items st)).
  1,3: now apply Hend.
  { now apply (Hstop Starved). }
  destruct response as [root|e].
  2:{ destruct (Hstop (Aborted e) (next_page st) w eq_refl Hal)
        as (H1 & H2 & H3 & H4 & _).
      split; [exact H1|]. split; [exact H2|]. split; [exact H3|].
      split; [exact H4|].
      exists [EvFetch (params (next_page st))].
      split; [reflexivity|]. split; [reflexivity|].
      rewrite indices_nil. split; [reflexivity|].
      intros p Hp. now apply elem_of_nil in Hp. }
  pose proof (process_page_segment root (next_page st)
                (emit (EvFetch (params (next_page st))) w) Hal) as Hpage.
  set (w0 := emit (EvFetch (params (next_page st))) w) in *.
  assert (Habort : forall e st1 w1,
             page_end (process_page ET_tostring cfg root (next_page st) w0)
             = (st1, w1) ->
             aligned cfg st1
             /\ (file_index st <= file_index st1)%Z
             /\ (forall i, (1 <= i < file_index st)%Z ->
                           files w1 !! out i = files w !! out i)
             /\ (is_Some (files w !! st_path cfg) ->
                 is_Some (files w1 !! st_path cfg))
             /\ exists tr,
                  trace w1 = trace w ++ tr
                  /\ files w1 = replay tr (files w)
                  /\ sealed_paths tr
                     = map out (indices (file_index st) (file_index st1))
                       ++ (if finished (Aborted e) then [current_out st1]
                           else [])
                  /\ (forall p, p ∈ sealed_paths tr ->
                                ends_sealed cfg (files w1 !! p))).
  { intros e st1 w1 E. rewrite E in Hpage.
    destruct Hpage as (Hal1 & Hframe1 & Hsome1 & tr1 & Ht1 & Hf1 & Hcase1).
    cbn [next_page file_index current_out] in *.
    split; [exact Hal1|].
    split; [destruct Hcase1 as [[-> _]|[-> _]]; lia|].
    split; [exact Hframe1|]. split; [exact Hsome1|].
    exists (EvFetch (params (next_page st)) :: tr1).
    split; [subst w0; cbn [emit trace] in Ht1; now rewrite Ht1, <- app_assoc|].
    split; [exact Hf1|]. cbn [sealed_paths flat_map app finished].
    fold (sealed_paths tr1). rewrite app_nil_r.
    destruct Hal as [Hout _].
    destruct Hcase1 as [[-> ->]|(-> & -> & Hsealed)].
    - rewrite indices_nil. split; [reflexivity|].
      intros p Hp. now apply elem_of_nil in Hp.
    - rewrite indices_one. cbn [map]. rewrite Hout.
      split; [reflexivity|]. intros p Hp.
      apply list_elem_of_singleton in Hp. subst p. now rewrite <- Hout. }
  destruct (process_page ET_tostring cfg root (next_page st) w0)
    as [rt st1 w1|e st1 w1] eqn:E; cbn [page_end] in Hpage.
  2:{ now apply (Habort e). }
  destruct (Habort RuntimeError st1 w1 eq_refl)
    as (Hal1 & Hle1 & Hframe1 & Hsome1 & tr1 & Ht1 & Hf1 & Hs1 & Hsealed1).
  cbn [finished] in Hs1. rewrite app_nil_r in Hs1.
  assert (Hjoin : forall o st' w',
             aligned cfg st'
             /\ (file_index st1 <= file_index st')%Z
             /\ (forall i, (1 <= i < file_index st1)%Z ->
                           files w' !! out i = files w1 !! out i)
             /\ (if finished o then files w' !! st_path cfg = None
                 else is_Some (files w1 !! st_path cfg) ->
                      is_Some (files w' !! st_path cfg))
             /\ (exists tr,
                    trace w' = trace w1 ++ tr
                    /\ files w' = replay tr (files w1)
                    /\ sealed_paths tr
                       = map out (indices (file_index st1) (file_index st'))
                         ++ (if finished o then [current_out st'] else [])
                    /\ (forall p, p ∈ sealed_paths tr ->
                                  ends_sealed cfg (files w' !! p))) ->
             aligned cfg st'
             /\ (file_index st <= file_index st')%Z
             /\ (forall i, (1 <= i < file_index st)%Z ->
                           files w' !! out i = files w !! out i)
             /\ (if finished o then files w' !! st_path cfg = None
                 else is_Some (files w !! st_path cfg) ->
                      is_Some (files w' !! st_path cfg))
             /\ exists tr,
                  trace w' = trace w ++ tr
                  /\ files w' = replay tr (files w)
                  /\ sealed_paths tr
                     = map out (indices (file_index st) (file_index st'))
                       ++ (if finished o then [current_out st'] else [])
                  /\ (forall p, p ∈ sealed_paths tr ->
                                ends_sealed cfg (files w' !! p))).
  { intros o st' w' (Hal' & Hle' & Hframe' & Hsome' & tr2 & Ht2 & Hf2 & Hs2
                     & Hsealed2).
    split; [exact Hal'|]. split; [lia|]. split; [|split].
    - intros i Hi. rewrite Hframe' by lia. now apply Hframe1.
    - destruct (finished o); [exact Hsome'|]. intros H. now apply Hsome', Hsome1.
    - exists (tr1 ++ tr2). split; [now rewrite Ht2, Ht1, app_assoc|].
      split; [now rewrite files_after_app, <- Hf1|].
      split.
      + rewrite sealed_paths_app, Hs1, Hs2, app_assoc, <- map_app.
        now rewrite indices_app by lia.
      + intros p Hp. rewrite sealed_paths_app in Hp.
        apply elem_of_app in Hp as [Hp|Hp]; [|now apply Hsealed2].
        pose proof (Hsealed1 p Hp) as Hsp. rewrite Hs1 in Hp.
        apply list_elem_of_fmap in Hp as (i & -> & Hi).
        apply elem_of_indices in Hi. destruct Hal as [_ Hidx].
        now rewrite Hframe' by lia. }
  destruct rt as [|c rt].
  - apply (Hjoin (Finished LastPage)). exact (Hend st1 w1 Hal1).
  - set (st2 := set_params _ st1).
    set (w2 := emit (EvSleep _) w1).
    specialize (IH st2 w2 Hal1).
    destruct (paging ET_tostring cfg rest st2 w2) as [[o st'] w'].
    apply Hjoin.
    destruct IH as (Hal' & Hle' & Hframe' & Hsome' & tr2 & Ht2 & Hf2 & Hs2
                    & Hsealed2).
    split; [exact Hal'|]. split; [exact Hle'|]. split; [exact Hframe'|].
    split; [exact Hsome'|].
    exists (EvSleep (sleep_between cfg) :: tr2).
    split; [subst w2; cbn [emit trace] in Ht2; now rewrite Ht2, <- app_assoc|].
    split; [exact Hf2|]. split; [exact Hs2|exact Hsealed2].
Qed.


(** *** What the files of the segments hold *)

Local Abbreviation lines := (lines_for ET_tostring).
Local Abbreviation close_tag := (wrapper_close_tag (verb cfg)).

Lemma lines_for_app (p : str) (a b : list Event) :
  lines p (a ++ b) = lines p a ++ lines p b.
Proof. apply flat_map_app. Qed.

(** What [ensure_open_wrapper] leaves in a file depends on what the
    file holds, a missing file counting as an empty one. *)
Lemma ensure_open_wrapper_default (p verb : str) (fs fs' : FS) :
  default [] (fs !! p) = default [] (fs' !! p) ->
  default [] (ensure_open_wrapper p verb fs !! p)
  = default [] (ensure_open_wrapper p verb fs' !! p).
Proof.
  intros H.
  assert (Hopen : forall (f : FS),
             default [] (ensure_open_wrapper p verb f !! p)
             = match default [] (f !! p) with
               | [] => wrapper_open_tag verb
               | content =>
                   let size := length content in
                   let tail_len := (TAIL_WINDOW `min` size)%nat in
                   let tail :=
                     utf8_decode_ignore (drop (size - tail_len) content) in
                   match str_rfind (wrapper_close_tag verb) tail with
                   | Some idx => take (size - tail_len + idx) content
                   | None => content
                   end
               end).
  { intros f. unfold ensure_open_wrapper.
    destruct (f !! p) as [[|b content]|] eqn:E; cbn [default from_option id].
    - now rewrite lookup_insert_eq.
    - cbv zeta. destruct (str_rfind _ _).
      + now rewrite lookup_insert_eq.
      + now rewrite E.
    - now rewrite lookup_insert_eq. }
  now rewrite !Hopen, H.
Qed.

(** A stretch that leaves the segments alone. *)
Lemma describes_quiet (fs0 fs : FS) (idx : Z) (tr : list Event) :
  (forall i, (1 <= i)%Z -> fs !! out i = fs0 !! out i) ->
  (forall p, lines p tr = []) ->
  describes ET_tostring cfg fs0 idx idx false tr fs.
Proof.
  intros Hsame Hnone. split; [|intros; apply Hnone].
  intros i Hi. unfold segment_file. cbv zeta.
  rewrite Hnone, Hsame by exact Hi.
  replace ((idx <? i)%Z && (i <=? idx)%Z) with false by lia.
  replace ((idx <=? i)%Z && (i <? idx)%Z) with false by lia.
  rewrite andb_false_r. cbn [orb app]. now rewrite app_nil_r.
Qed.

(** Two stretches, one after the other. *)
Lemma describes_app (fs0 fs1 fs2 : FS) (idx idx1 idx2 : Z) (b : bool)
    (tr1 tr2 : list Event) :
  (idx <= idx1 <= idx2)%Z ->
  describes ET_tostring cfg fs0 idx idx1 false tr1 fs1 ->
  describes ET_tostring cfg fs1 idx1 idx2 b tr2 fs2 ->
  describes ET_tostring cfg fs0 idx idx2 b (tr1 ++ tr2) fs2.
Proof.
  intros Hle [J1 N1] [J2 N2]. split.
  2:{ intros i Hi Hout. rewrite lines_for_app, N1, N2 by lia. reflexivity. }
  intros i Hi. rewrite (J2 i Hi). unfold segment_file. cbv zeta.
  rewrite lines_for_app.
  assert (Hfs1 : default [] (fs1 !! out i)
                 = segment_file ET_tostring cfg fs0 idx idx1 false tr1 i)
    by exact (J1 i Hi).
  unfold segment_file in Hfs1. cbv zeta in Hfs1.
  rewrite andb_false_r, orb_false_r in Hfs1.
  destruct (Z.lt_total i idx1) as [Hlt|[Heq|Hgt]].
  - (* the rest of the run leaves the segment alone *)
    rewrite (N2 i Hi) by lia.
    replace ((idx1 <? i)%Z && (i <=? idx2)%Z) with false by lia.
    replace ((idx1 <=? i)%Z && (i <? idx2)%Z) with false by lia.
    replace (i =? idx2)%Z with false by lia.
    cbn [andb orb app]. rewrite !app_nil_r, Hfs1.
    replace ((idx <? i)%Z && (i <=? idx2)%Z)
      with ((idx <? i)%Z && (i <=? idx1)%Z) by lia.
    replace ((idx <=? i)%Z && (i <? idx2)%Z)
      with ((idx <=? i)%Z && (i <? idx1)%Z) by lia.
    now rewrite orb_false_r.
  - (* the segment the first stretch ends in *)
    subst i.
    replace ((idx1 <? idx1)%Z && (idx1 <=? idx2)%Z) with false by lia.
    rewrite Hfs1.
    replace ((idx <=? idx1)%Z && (idx1 <? idx1)%Z) with false by lia.
    replace ((idx <? idx1)%Z && (idx1 <=? idx2)%Z)
      with ((idx <? idx1)%Z && (idx1 <=? idx1)%Z) by lia.
    replace ((idx <=? idx1)%Z && (idx1 <? idx2)%Z)
      with ((idx1 <=? idx1)%Z && (idx1 <? idx2)%Z) by lia.
    cbn [app]. now rewrite app_nil_r, <- !app_assoc.
  - (* a segment the first stretch did not reach *)
    rewrite (N1 i Hi) in Hfs1 |- * by lia.
    replace ((idx <? i)%Z && (i <=? idx1)%Z) with false in Hfs1 by lia.
    replace ((idx <=? i)%Z && (i <? idx1)%Z) with false in Hfs1 by lia.
    cbn [app] in Hfs1. rewrite app_nil_r in Hfs1. cbn [app].
    rewrite (ensure_open_wrapper_default _ _ fs1 fs0 Hfs1), Hfs1.
    replace ((idx1 <? i)%Z && (i <=? idx2)%Z)
      with ((idx <? i)%Z && (i <=? idx2)%Z) by lia.
    replace ((idx1 <=? i)%Z && (i <? idx2)%Z)
      with ((idx <=? i)%Z && (i <? idx2)%Z) by lia.
    reflexivity.
Qed.

Lemma lines_for_quiet (p : str) (tr : list Event) :
  count is_item tr = 0%nat -> lines p tr = [].
Proof.
  induction tr as [|ev tr IH]; [reflexivity|].
  rewrite count_cons. destruct ev; cbn [is_item]; intros H;
    try discriminate; cbn [lines_for flat_map app]; apply IH; lia.
Qed.

(** The items of a page go to the current segment. *)
Lemma write_item_contents (el : Element) (st : LoopState) (w : World)
    (o : option exn) (st1 : LoopState) (w1 : World) (tr : list Event) :
  write_item ET_tostring cfg el st w = (o, st1, w1) ->
  trace w1 = trace w ++ tr ->
  (forall p, default [] (files w1 !! p)
             = default [] (files w !! p) ++ lines p tr)
  /\ (forall p, p <> current_out st -> lines p tr = []).
Proof.
  unfold write_item, encode_text.
  destruct (utf8_encode (ET_tostring el)) as [data|] eqn:U.
  { assert (Hline : forall p more,
               count is_item more = 0%nat ->
               default [] (fs_append (current_out st) (data ++ [NL])
                             (files w) !! p)
               = default [] (files w !! p)
                 ++ lines p (EvItem (current_out st) el :: more)).
    { intros p more Hmore. cbn [lines_for flat_map].
      fold (lines p more). rewrite (lines_for_quiet p more Hmore), app_nil_r.
      unfold fs_append, item_line. rewrite U. case_bool_decide as Hp.
      - subst p. now rewrite lookup_insert_eq.
      - rewrite lookup_insert_ne by exact Hp. now rewrite app_nil_r. }
    assert (Hother : forall p more,
               count is_item more = 0%nat -> p <> current_out st ->
               lines p (EvItem (current_out st) el :: more) = []).
    { intros p more Hmore Hp. cbn [lines_for flat_map].
      fold (lines p more). rewrite (lines_for_quiet p more Hmore), app_nil_r.
      now rewrite bool_decide_eq_false_2 by congruence. }
    destruct (item_fields cfg el) as [[[i ds] v]|e]; intros [= <- <- <-];
      cbn [emit on_files trace files].
    - intros Ht.
      assert (Htr : tr = EvItem (current_out st) el
                         :: (if csv_enabled cfg then [EvCsvRow i ds v] else [])
                         ++ (if jsonl_enabled cfg
                             then [EvJsonlRow i ds v] else [])).
      { apply (app_inv_head (trace w)). rewrite <- Ht.
        destruct (csv_enabled cfg), (jsonl_enabled cfg);
          cbn [emit on_files trace app]; now rewrite <- ?app_assoc. }
      assert (Hq : count is_item
                     ((if csv_enabled cfg then [EvCsvRow i ds v] else [])
                      ++ (if jsonl_enabled cfg
                          then [EvJsonlRow i ds v] else [])) = 0%nat)
        by now destruct (csv_enabled cfg), (jsonl_enabled cfg).
      subst tr. split.
      + intros p. rewrite <- (Hline p _ Hq).
        now destruct (csv_enabled cfg), (jsonl_enabled cfg).
      + intros p Hp. now apply Hother.
    - intros Ht. apply app_inv_head in Ht. subst tr. split.
      + intros p. now apply Hline.
      + intros p Hp. now apply Hother. }
  intros [= <- <- <-] Ht.
  rewrite <- (app_nil_r (trace w)) in Ht at 1. apply app_inv_head in Ht.
  subst tr. split; [intros p; now rewrite app_nil_r|reflexivity].
Qed.

Lemma write_items_contents (elements : list Element) (st : LoopState)
    (w : World) (o : option exn) (st1 : LoopState) (w1 : World)
    (tr : list Event) :
  write_items ET_tostring cfg elements st w = (o, st1, w1) ->
  trace w1 = trace w ++ tr ->
  (forall p, default [] (files w1 !! p)
             = default [] (files w !! p) ++ lines p tr)
  /\ (forall p, p <> current_out st -> lines p tr = []).
Proof.
  revert st w tr. induction elements as [|el rest IH]; intros st w tr;
    cbn [write_items].
  { intros [= <- <- <-] Ht.
    rewrite <- (app_nil_r (trace w)) in Ht at 1. apply app_inv_head in Ht.
    subst tr. split; [intros p; now rewrite app_nil_r|reflexivity]. }
  destruct (limit_reached cfg (num_items st)).
  { intros [= <- <- <-] Ht.
    rewrite <- (app_nil_r (trace w)) in Ht at 1. apply app_inv_head in Ht.
    subst tr. split; [intros p; now rewrite app_nil_r|reflexivity]. }
  destruct (write_item ET_tostring cfg el st w) as [[o0 st0] w0] eqn:E0.
  pose proof (write_item_segment _ _ _ _ _ _ E0) as (_ & Hc0 & tr0 & Ht0 & _).
  pose proof (write_item_contents _ _ _ _ _ _ tr0 E0 Ht0) as [Hf0 Hn0].
  destruct o0 as [e|].
  - intros [= <- <- <-] Ht. rewrite Ht0 in Ht. apply app_inv_head in Ht.
    subst tr. now split.
  - intros H Ht.
    pose proof (write_items_segment _ _ _ _ _ _ H) as (_ & _ & tr1 & Ht1 & _).
    pose proof (IH _ _ tr1 H Ht1) as [Hf1 Hn1].
    assert (Htr : tr = tr0 ++ tr1).
    { apply (app_inv_head (trace w)). now rewrite <- Ht, Ht1, Ht0, app_assoc. }
    subst tr. split.
    + intros p. now rewrite Hf1, Hf0, lines_for_app, app_assoc.
    + intros p Hp. rewrite lines_for_app, Hn0 by exact Hp.
      apply Hn1. congruence.
Qed.


Lemma describes_items (st : LoopState) (fs fs1 : FS) (tr : list Event) :
  aligned cfg st ->
  (forall p, default [] (fs1 !! p) = default [] (fs !! p) ++ lines p tr) ->
  (forall p, p <> current_out st -> lines p tr = []) ->
  describes ET_tostring cfg fs (file_index st) (file_index st) false tr fs1.
Proof.
  intros [Hout Hidx] Hf Hn. split.
  - intros i Hi. unfold segment_file. cbv zeta. rewrite Hf.
    replace ((file_index st <? i)%Z && (i <=? file_index st)%Z)
      with false by lia.
    replace ((file_index st <=? i)%Z && (i <? file_index st)%Z)
      with false by lia.
    rewrite andb_false_r. cbn [orb]. now rewrite app_nil_r.
  - intros i Hi Hne. apply Hn. rewrite Hout.
    apply out_path_for_index_distinct; lia.
Qed.

Lemma describes_rotation (st : LoopState) (w : World) :
  aligned cfg st ->
  exists tr,
    trace (rotate cfg st w).2 = trace w ++ tr
    /\ describes ET_tostring cfg (files w) (file_index st)
         (file_index (rotate cfg st w).1) false tr (files (rotate cfg st w).2).
Proof.
  intros Hal. pose proof Hal as [Hout Hidx]. unfold rotate.
  destruct (rotation_due cfg (num_items st)); cbn [fst snd].
  2:{ exists []. rewrite app_nil_r. split; [reflexivity|].
      now apply describes_quiet. }
  cbn [set_segment current_out file_index emit on_files trace files].
  exists [EvSeal (current_out st); EvOpen (out (file_index st + 1))].
  split; [now rewrite <- app_assoc|]. split; [|reflexivity].
  intros i Hi. unfold segment_file. cbv zeta.
  change (lines (out i) [EvSeal (current_out st);
                         EvOpen (out (file_index st + 1))])
    with (@nil N).
  rewrite andb_false_r, orb_false_r. cbn [app].
  unfold write_close_wrapper.
  destruct (Z.lt_total i (file_index st)) as [Hlt|[Heq|Hgt]].
  - replace ((file_index st <? i)%Z && (i <=? file_index st + 1)%Z)
      with false by lia.
    replace ((file_index st <=? i)%Z && (i <? file_index st + 1)%Z)
      with false by lia.
    rewrite app_nil_r.
    rewrite ensure_open_wrapper_other
      by (apply out_path_for_index_distinct; lia).
    unfold fs_append. rewrite lookup_insert_ne; [reflexivity|].
    rewrite Hout. apply out_path_for_index_distinct; lia.
  - subst i.
    replace ((file_index st <? file_index st)%Z
             && (file_index st <=? file_index st + 1)%Z) with false by lia.
    replace ((file_index st <=? file_index st)%Z
             && (file_index st <? file_index st + 1)%Z) with true by lia.
    rewrite ensure_open_wrapper_other
      by (apply out_path_for_index_distinct; lia).
    unfold fs_append. rewrite <- Hout. now rewrite lookup_insert_eq.
  - replace ((file_index st <=? i)%Z && (i <? file_index st + 1)%Z)
      with false by lia.
    rewrite app_nil_r.
    assert (Hcur : fs_append (current_out st) close_tag (files w) !! out i
                   = files w !! out i).
    { unfold fs_append. rewrite lookup_insert_ne; [reflexivity|].
      rewrite Hout. apply out_path_for_index_distinct; lia. }
    destruct (Z.eq_dec i (file_index st + 1)%Z) as [->|Hne].
    + replace ((file_index st <? file_index st + 1)%Z
               && (file_index st + 1 <=? file_index st + 1)%Z)
        with true by lia.
      apply ensure_open_wrapper_default. now rewrite Hcur.
    + replace ((file_index st <? i)%Z && (i <=? file_index st + 1)%Z)
        with false by lia.
      rewrite ensure_open_wrapper_other
        by (apply out_path_for_index_distinct; lia).
      now rewrite Hcur.
Qed.

Lemma checkpoint_trace (rt : str) (st : LoopState) (w : World) :
  let '(st1, w1) := page_end (checkpoint cfg rt st w) in
  exists tr, trace w1 = trace w ++ tr /\ count is_item tr = 0%nat.
Proof.
  unfold checkpoint. destruct (state st) as [d|]; cbn [page_end].
  2:{ exists []. now rewrite app_nil_r. }
  destruct (save_state _ _ _); cbn [page_end emit on_files trace].
  - eexists [_]. split; reflexivity.
  - exists []. now rewrite app_nil_r.
Qed.

(** One page: its items are in the segment that was current, which
    ends with the closing tags when the page ended in a rotation. *)
Lemma process_page_contents (root : Element) (st : LoopState) (w : World) :
  aligned cfg st ->
  let '(st1, w1) := page_end (process_page ET_tostring cfg root st w) in
  exists tr,
    trace w1 = trace w ++ tr
    /\ describes ET_tostring cfg (files w) (file_index st) (file_index st1)
         false tr (files w1).
Proof.
  intros Hal. unfold process_page.
  destruct (findall root _ NS) as [elements|e]; cbn [page_end].
  2:{ exists []. rewrite app_nil_r. split; [reflexivity|].
      now apply describes_quiet. }
  destruct (write_items _ _ _ _ _) as [[o st0] w0] eqn:E0.
  pose proof (write_items_segment _ _ _ _ _ _ E0)
    as (Hi0 & Hc0 & tr0 & Ht0 & _).
  pose proof (write_items_contents _ _ _ _ _ _ tr0 E0 Ht0) as [Hf0 Hn0].
  pose proof (describes_items st _ _ tr0 Hal Hf0 Hn0) as D0.
  assert (Hal0 : aligned cfg st0) by (destruct Hal; split; congruence).
  destruct o as [e|]; cbn [page_end].
  { exists tr0. rewrite Hi0. now split. }
  destruct (rotate_segment st0 w0 Hal0)
    as (Hal2 & _ & _ & trr & _ & _ & Hcase2).
  destruct (describes_rotation st0 w0 Hal0) as (tr2 & Ht2 & D2).
  destruct (rotate cfg st0 w0) as [st2 w2]. cbn [fst snd] in *.
  assert (D02 : describes ET_tostring cfg (files w) (file_index st)
                  (file_index st2) false (tr0 ++ tr2) (files w2)).
  { apply (describes_app _ (files w0) _ _ (file_index st)).
    - destruct Hcase2 as [[H2 _]|[H2 _]]; lia.
    - exact D0.
    - now rewrite <- Hi0. }
  assert (Hrest : forall st3 w3 tr3,
             file_index st3 = file_index st2 ->
             (forall p, p <> st_path cfg -> p <> tmp_path ->
                        files w3 !! p = files w2 !! p) ->
             trace w3 = trace w2 ++ tr3 ->
             count is_item tr3 = 0%nat ->
             exists tr,
               trace w3 = trace w ++ tr
               /\ describes ET_tostring cfg (files w) (file_index st)
                    (file_index st3) false tr (files w3)).
  { intros st3 w3 tr3 Hi3 Hframe3 Ht3 Hq3.
    exists ((tr0 ++ tr2) ++ tr3).
    split; [now rewrite Ht3, Ht2, Ht0, !app_assoc|].
    apply (describes_app _ (files w2) _ _ (file_index st2)).
    - destruct Hcase2 as [[H2 _]|[H2 _]]; lia.
    - exact D02.
    - rewrite Hi3. apply describes_quiet.
      + intros i Hi. apply Hframe3;
          [apply segment_is_no_state|apply segment_is_no_tmp].
      + intros p. now apply lines_for_quiet. }
  destruct (token_of root) as [rt|e]; cbn [page_end].
  2:{ apply (Hrest st2 w2 []); try easy. now rewrite app_nil_r. }
  pose proof (checkpoint_segment rt st2 w2) as Hcp.
  pose proof (checkpoint_trace rt st2 w2) as Hct.
  destruct (page_end (checkpoint cfg rt st2 w2)) as [st3 w3].
  destruct Hcp as (Hi3 & _ & Hframe3 & _).
  destruct Hct as (tr3 & Ht3 & Hq3).
  now apply (Hrest st3 w3 tr3).
Qed.

Lemma describes_finish (st : LoopState) (w : World) :
  aligned cfg st ->
  describes ET_tostring cfg (files w) (file_index st) (file_index st) true
    [EvSeal (current_out st); EvRemoveState] (files (finish cfg st w)).
Proof.
  intros Hal. pose proof Hal as [Hout Hidx].
  destruct (finish_segment st w Hal) as (_ & _ & _ & Hframe).
  split; [|reflexivity].
  intros i Hi. unfold segment_file. cbv zeta.
  change (lines (out i) [EvSeal (current_out st); EvRemoveState])
    with (@nil N).
  replace ((file_index st <? i)%Z && (i <=? file_index st)%Z)
    with false by lia.
  replace ((file_index st <=? i)%Z && (i <? file_index st)%Z)
    with false by lia.
  rewrite andb_true_r. cbn [orb app].
  destruct (Z.eqb_spec i (file_index st)) as [->|Hne].
  - rewrite <- Hout.
    unfold finish, remove_state, write_close_wrapper, fs_append.
    cbn [emit on_files files].
    rewrite lookup_delete_ne
      by (rewrite Hout; intros H; symmetry in H; revert H;
          apply segment_is_no_state).
    now rewrite lookup_insert_eq.
  - rewrite app_nil_r.
    rewrite Hframe; [reflexivity| |apply segment_is_no_state].
    rewrite Hout. apply out_path_for_index_distinct; lia.
Qed.

(** A run: the file of every segment is what it was, then the items
    the run wrote to it, then the closing tags if the run rotated
    away from it or ended normally in it. *)
Lemma paging_contents (responses : list (result Element)) (st : LoopState)
    (w : World) :
  aligned cfg st ->
  let '(o, st', w') := paging ET_tostring cfg responses st w in
  exists tr,
    trace w' = trace w ++ tr
    /\ describes ET_tostring cfg (files w) (file_index st) (file_index st')
         (finished o) tr (files w').
Proof.
  revert st w.
  assert (Hend : forall st w,
             aligned cfg st ->
             exists tr,
               trace (finish cfg st w) = trace w ++ tr
               /\ describes ET_tostring cfg (files w) (file_index st)
                    (file_index st) true tr (files (finish cfg st w))).
  { intros st w Hal. exists [EvSeal (current_out st); EvRemoveState].
    split; [apply finish_trace|now apply describes_finish]. }
  induction responses as [|response rest IH]; intros st w Hal;
    cbn [paging]; destruct (limit_reached cfg (num_items st)).
  1,3: now apply Hend.
  { exists []. rewrite app_nil_r. split; [reflexivity|].
    now apply describes_quiet. }
  destruct response as [root|e].
  2:{ exists [EvFetch (params (next_page st))]. split; [reflexivity|].
      now apply describes_quiet. }
  set (w0 := emit (EvFetch (params (next_page st))) w).
  pose proof (process_page_contents root (next_page st) w0 Hal) as Hpage.
  pose proof (process_page_segment root (next_page st) w0 Hal) as Hseg.
  assert (Hfetch : forall st1 w1 tr1,
             (file_index st <= file_index st1)%Z ->
             trace w1 = trace w0 ++ tr1 ->
             describes ET_tostring cfg (files w0) (file_index st)
               (file_index st1) false tr1 (files w1) ->
             trace w1 = trace w ++ EvFetch (params (next_page st)) :: tr1
             /\ describes ET_tostring cfg (files w) (file_index st)
                  (file_index st1) false
                  (EvFetch (params (next_page st)) :: tr1) (files w1)).
  { intros st1 w1 tr1 Hle1 Ht1 D1. split.
    - rewrite Ht1. subst w0. cbn [emit trace]. now rewrite <- app_assoc.
    - apply (describes_app _ (files w) _ _ (file_index st) _ _
               [EvFetch (params (next_page st))] tr1);
        [lia|now apply describes_quiet|exact D1]. }
  destruct (process_page ET_tostring cfg root (next_page st) w0)
    as [rt st1 w1|e st1 w1] eqn:E; cbn [page_end] in Hpage, Hseg;
    destruct Hpage as (tr1 & Ht1 & D1);
    destruct Hseg as (Hal1 & _ & _ & tr1' & _ & _ & Hcase1);
    cbn [next_page file_index] in Hcase1;
    assert (Hle1 : (file_index st <= file_index st1)%Z)
      by (destruct Hcase1 as [[H1 _]|[H1 _]]; lia);
    destruct (Hfetch st1 w1 tr1 Hle1 Ht1 D1) as [Ht D].
  2:{ eexists. split; [exact Ht|exact D]. }
  destruct rt as [|c rt].
  - destruct (Hend st1 w1 Hal1) as (tr2 & Ht2 & D2).
    exists ((EvFetch (params (next_page st)) :: tr1) ++ tr2).
    split; [now rewrite Ht2, Ht, <- app_assoc|].
    apply (describes_app _ (files w1) _ _ (file_index st1)); [lia|exact D|].
    exact D2.
  - set (st2 := set_params _ st1).
    set (w2 := emit (EvSleep _) w1).
    specialize (IH st2 w2 Hal1).
    pose proof (paging_segments rest st2 w2 Hal1) as Hmono.
    destruct (paging ET_tostring cfg rest st2 w2) as [[o st'] w'].
    destruct IH as (tr2 & Ht2 & D2).
    destruct Hmono as (_ & Hle' & _).
    exists ((EvFetch (params (next_page st)) :: tr1)
            ++ EvSleep (sleep_between cfg) :: tr2).
    split.
    { rewrite Ht2. subst w2. cbn [emit trace]. rewrite Ht.
      now rewrite <- !app_assoc. }
    apply (describes_app _ (files w1) _ _ (file_index st1)); [|exact D|].
    { subst st2. cbn [set_params file_index] in Hle'. lia. }
    apply (describes_app _ (files w1) _ _ (file_index st1) _ _
             [EvSleep (sleep_between cfg)] tr2).
    + subst st2. cbn [set_params file_index] in Hle'. lia.
    + now apply describes_quiet.
    + exact D2.
Qed.

End Segments.

Section SealedSegments.

Variable ET_tostring : Element -> str.
Variable cfg : Config.

Lemma sealed_paths_distinct (a b : Z) (last : list str) :
  (1 <= a)%Z ->
  (forall p, p ∈ last -> p = out_path_for_index cfg b) ->
  NoDup last ->
  NoDup (map (out_path_for_index cfg) (indices a b) ++ last)
  /\ out_path_for_index cfg b ∉ map (out_path_for_index cfg) (indices a b).
Proof.
  intros Ha Hlast Hnd.
  assert (Hnot : out_path_for_index cfg b
                 ∉ map (out_path_for_index cfg) (indices a b)).
  { intros Hin. apply list_elem_of_fmap in Hin as (i & Heq & Hi).
    apply elem_of_indices in Hi. revert Heq.
    apply out_path_for_index_distinct; lia. }
  split; [|exact Hnot]. apply NoDup_app. split; [|split; [|exact Hnd]].
  - apply NoDup_fmap_2_strong; [|apply NoDup_indices].
    intros x y Hx Hy Heq. apply elem_of_indices in Hx, Hy.
    destruct (Z.eq_dec x y) as [E|E]; [exact E|]. exfalso. revert Heq.
    apply out_path_for_index_distinct; lia.
  - intros p Hp Hin. apply Hlast in Hin. subst p. now apply Hnot.
Qed.

(** C2, as the code has it.  A run starts at segment [file_index st],
    which its index names.  When it is over, the file of every
    segment is what it was before the run (for a segment the run
    opened: as [ensure_open_wrapper] prepared it), then the items the
    run wrote to it, then the closing tags for the segments the run
    rotated away from and, when the run ended normally, for the
    current one.  The segments sealed are exactly these, each once,
    and their files end with the closing tags.  A run that ends
    normally seals the current segment and removes the checkpoint as
    its last two steps, and the checkpoint file is gone.  A run that
    ends with an exception (or waits for a page) has not sealed the
    current segment, whose file is left without closing tags after
    its items, and it keeps the checkpoint file.  The files are
    those the events of the trace account for. *)
Theorem paging_seals_when_finished (responses : list (result Element))
    (st : LoopState) (w : World) :
  aligned cfg st ->
  let '(o, st', w') := paging ET_tostring cfg responses st w in
  exists tr,
    trace w' = trace w ++ tr
    /\ (forall i, (1 <= i)%Z ->
                  default [] (files w' !! out_path_for_index cfg i)
                  = segment_file ET_tostring cfg (files w) (file_index st)
                      (file_index st') (finished o) tr i)
    /\ sealed_paths tr
       = map (out_path_for_index cfg)
           (indices (file_index st) (file_index st'))
         ++ (if finished o then [current_out st'] else [])
    /\ NoDup (sealed_paths tr)
    /\ (forall p, p ∈ sealed_paths tr -> ends_sealed cfg (files w' !! p))
    /\ files w' = files_after ET_tostring cfg tr (files w)
    /\ current_out st' = out_path_for_index cfg (file_index st')
    /\ match o with
       | Finished _ =>
           (exists tr0, tr = tr0 ++ [EvSeal (current_out st'); EvRemoveState])
           /\ files w' !! st_path cfg = None
       | _ =>
           (current_out st' ∉ sealed_paths tr)
           /\ (EvRemoveState ∉ tr)
           /\ (is_Some (files w !! st_path cfg) ->
               is_Some (files w' !! st_path cfg))
       end.
Proof.
  intros Hal.
  pose proof (paging_segments ET_tostring cfg responses st w Hal) as Hseg.
  pose proof (paging_contents ET_tostring cfg responses st w Hal) as Hcon.
  pose proof (paging_envelope ET_tostring cfg responses st w) as Henv.
  destruct (paging ET_tostring cfg responses st w) as [[o st'] w'].
  destruct Hseg
    as (Hal' & Hle & _ & Hstate & tr & Ht & Hfiles & Hsealed & Hends).
  destruct Hcon as (tr1 & Ht1 & [Hdesc _]).
  destruct Henv as (tr2 & Ht2 & Hshape).
  assert (tr1 = tr) by (apply (app_inv_head (trace w)); congruence).
  assert (tr2 = tr) by (apply (app_inv_head (trace w)); congruence).
  subst tr1 tr2. destruct Hal as [_ Hidx]. destruct Hal' as [Hout' Hidx'].
  destruct (sealed_paths_distinct (file_index st) (file_index st')
              (if finished o then [current_out st'] else []) Hidx)
    as [Hnodup Hnot].
  { intros p Hp. destruct (finished o);
      [apply list_elem_of_singleton in Hp; congruence|
       now apply elem_of_nil in Hp]. }
  { destruct (finished o); [apply NoDup_singleton|constructor]. }
  exists tr. split; [exact Ht|]. split; [exact Hdesc|].
  split; [exact Hsealed|]. split; [now rewrite Hsealed|].
  split; [exact Hends|]. split; [exact Hfiles|]. split; [exact Hout'|].
  destruct o as [why|e|]; cbn [finished] in *.
  - destruct Hshape as (_ & _ & Hlast). now split.
  - destruct Hshape as (_ & _ & Hkept). rewrite Hsealed, app_nil_r, Hout'.
    now split.
  - destruct Hshape as (_ & _ & Hkept). rewrite Hsealed, app_nil_r, Hout'.
    now split.
Qed.

End SealedSegments.

(** A run that rotates after every page of three: two segments are
    rotated away from, the third is sealed at the end. *)
Lemma paging_seals_when_finished_witness :
  let cfg := example_config None (Some 3%Z) in
  let '(o, st', w') :=
    paging plain_tostring cfg [Ok first_page; Ok second_page]
      example_start empty_world in
  exists tr,
    trace w' = trace empty_world ++ tr
    /\ (forall i, (1 <= i)%Z ->
                  default [] (files w' !! out_path_for_index cfg i)
                  = segment_file plain_tostring cfg (files empty_world)
                      (file_index example_start) (file_index st')
                      (finished o) tr i)
    /\ sealed_paths tr
       = map (out_path_for_index cfg)
           (indices (file_index example_start) (file_index st'))
         ++ (if finished o then [current_out st'] else [])
    /\ NoDup (sealed_paths tr)
    /\ (forall p, p ∈ sealed_paths tr -> ends_sealed cfg (files w' !! p))
    /\ files w' = files_after plain_tostring cfg tr (files empty_world)
    /\ current_out st' = out_path_for_index cfg (file_index st')
    /\ match o with
       | Finished _ =>
           (exists tr0, tr = tr0 ++ [EvSeal (current_out st'); EvRemoveState])
           /\ files w' !! st_path cfg = None
       | _ =>
           (current_out st' ∉ sealed_paths tr)
           /\ (EvRemoveState ∉ tr)
           /\ (is_Some (files empty_world !! st_path cfg) ->
               is_Some (files w' !! st_path cfg))
       end.
Proof.
  apply (paging_seals_when_finished plain_tostring
           (example_config None (Some 3%Z)) [Ok first_page; Ok second_page]
           example_start empty_world).
  split; [reflexivity|]. cbn. lia.
Defined.

(** The same run, evaluated: three segments, the first two with three
    records each between the tags, the third with the tags only. *)
Lemma rotated_segments_on_disk :
  let cfg := example_config None (Some 3%Z) in
  let '(o, st', w') :=
    paging plain_tostring cfg [Ok first_page; Ok second_page]
      example_start (on_files (ensure_open_wrapper (lit "harvest.xml")
                                 ListRecords) empty_world) in
  let body := flat_map (item_line plain_tostring) three_records in
  o = Finished LastPage
  /\ files w' !! lit "harvest.xml"
     = Some (wrapper_open_tag ListRecords ++ body
             ++ wrapper_close_tag ListRecords)
  /\ files w' !! lit "harvest_part2.xml"
     = Some (wrapper_open_tag ListRecords ++ body
             ++ wrapper_close_tag ListRecords)
  /\ files w' !! lit "harvest_part3.xml"
     = Some (wrapper_open_tag ListRecords ++ wrapper_close_tag ListRecords)
  /\ files w' !! st_path cfg = None.
Proof. cbv zeta. vm_compute. repeat split. Qed.

(** ** The items of a run, in order *)

Section WrittenElements.

Variable ET_tostring : Element -> str.
Variable cfg : Config.

Lemma written_elements_app (a b : list Event) :
  written_elements (a ++ b) = written_elements a ++ written_elements b.
Proof. apply flat_map_app. Qed.

Lemma written_elements_length (tr : list Event) :
  length (written_elements tr) = count is_item tr.
Proof.
  induction tr as [|ev tr IH]; [reflexivity|].
  rewrite count_cons. destruct ev; cbn [written_elements flat_map app is_item];
    fold (written_elements tr); cbn [length]; lia.
Qed.

Lemma write_item_elements (el : Element) (st : LoopState) (w : World)
    (o : option exn) (st1 : LoopState) (w1 : World) :
  write_item ET_tostring cfg el st w = (o, st1, w1) ->
  exists tr,
    trace w1 = trace w ++ tr
    /\ (written_elements tr = [el] \/ (written_elements tr = [] /\ o <> None))
    /\ (o = None -> written_elements tr = [el]).
Proof.
  unfold write_item.
  destruct (encode_text (ET_tostring el)) as [data|e].
  2:{ intros [= <- <- <-]. exists []. rewrite app_nil_r.
      split; [reflexivity|]. split; [now right|discriminate]. }
  destruct (item_fields cfg el) as [[[i ds] v]|e]; intros [= <- <- <-].
  - exists (EvItem (current_out st) el
            :: (if csv_enabled cfg then [EvCsvRow i ds v] else [])
            ++ (if jsonl_enabled cfg then [EvJsonlRow i ds v] else [])).
    split.
    + destruct (csv_enabled cfg), (jsonl_enabled cfg);
        cbn [emit on_files trace app]; now rewrite <- ?app_assoc.
    + destruct (csv_enabled cfg), (jsonl_enabled cfg); now split; [left|].
  - exists [EvItem (current_out st) el]. split; [reflexivity|].
    split; [now left|discriminate].
Qed.

(** The loop over the elements of a page writes the first of them, in
    order; when it ends without an exception it has written them all
    or has reached the limit. *)
Lemma write_items_elements (elements : list Element) (st : LoopState)
    (w : World) (o : option exn) (st1 : LoopState) (w1 : World) :
  write_items ET_tostring cfg elements st w = (o, st1, w1) ->
  exists tr k,
    trace w1 = trace w ++ tr
    /\ written_elements tr = take k elements
    /\ (o = None ->
        (length elements <= k)%nat
        \/ limit_reached cfg (num_items st1) = true).
Proof.
  revert st w. induction elements as [|el rest IH]; intros st w;
    cbn [write_items].
  { intros [= <- <- <-]. exists [], 0%nat. rewrite app_nil_r.
    split; [reflexivity|]. split; [reflexivity|]. intros _. left. cbn. lia. }
  destruct (limit_reached cfg (num_items st)) eqn:Hlim.
  { intros [= <- <- <-]. exists [], 0%nat. rewrite app_nil_r.
    split; [reflexivity|]. split; [reflexivity|]. intros _. now right. }
  destruct (write_item ET_tostring cfg el st w) as [[o0 st0] w0] eqn:E0.
  apply write_item_elements in E0 as (tr0 & Ht0 & Hw0 & Hnone0).
  destruct o0 as [e|].
  - intros [= <- <- <-].
    destruct Hw0 as [Hw0|[Hw0 _]].
    + exists tr0, 1%nat. split; [exact Ht0|]. split; [exact Hw0|discriminate].
    + exists tr0, 0%nat. split; [exact Ht0|]. split; [exact Hw0|discriminate].
  - intros H. apply IH in H as (tr1 & k1 & Ht1 & Hw1 & Hnone1).
    exists (tr0 ++ tr1), (S k1). split; [now rewrite Ht1, Ht0, app_assoc|].
    split.
    + rewrite written_elements_app, (Hnone0 eq_refl), Hw1. reflexivity.
    + intros Ho. destruct (Hnone1 Ho) as [Hall|Hl]; [left|now right].
      cbn [length]. lia.
Qed.

Lemma written_elements_quiet (tr : list Event) :
  count is_item tr = 0%nat -> written_elements tr = [].
Proof.
  intros H. apply length_zero_iff_nil. now rewrite written_elements_length.
Qed.

(** One page. *)
Lemma process_page_elements (root : Element) (st : LoopState) (w : World) :
  exists tr k,
    trace (page_end (process_page ET_tostring cfg root st w)).2
    = trace w ++ tr
    /\ written_elements tr = take k (elements_of cfg root)
    /\ match process_page ET_tostring cfg root st w with
       | PageDone _ st1 _ =>
           (length (elements_of cfg root) <= k)%nat
           \/ limit_reached cfg (num_items st1) = true
       | PageRaised _ _ _ => True
       end.
Proof.
  unfold process_page. rewrite findall_elements.
  destruct (write_items _ _ _ _ _) as [[o st0] w0] eqn:E0.
  apply write_items_elements in E0 as (tr0 & k & Ht0 & Hw0 & Hnone0).
  destruct o as [e|]; cbn [page_end snd].
  { exists tr0, k. now split. }
  destruct (rotate_tally cfg st0 w0) as (Hn2 & _ & tr2 & Ht2 & Hy2).
  destruct (rotate cfg st0 w0) as [st2 w2]. cbn [fst snd] in *.
  assert (Hq2 : written_elements tr2 = [])
    by (apply written_elements_quiet, Hy2).
  rewrite token_of_page.
  pose proof (checkpoint_trace cfg (page_token root) st2 w2) as Hct.
  unfold checkpoint in *.
  destruct (state st2) as [d|]; cbn [page_end snd] in *.
  2:{ exists (tr0 ++ tr2), k. split; [now rewrite Ht2, Ht0, app_assoc|].
      split; [|exact I]. now rewrite written_elements_app, Hq2, app_nil_r. }
  destruct (save_state _ _ _) as [fs|e]; cbn [page_end snd] in *.
  - destruct Hct as (tr3 & Ht3 & Hq3). exists ((tr0 ++ tr2) ++ tr3), k.
    split; [now rewrite Ht3, Ht2, Ht0, !app_assoc|].
    split.
    + rewrite !written_elements_app, Hq2, !app_nil_r.
      now rewrite (written_elements_quiet tr3 Hq3), app_nil_r.
    + cbn [set_state num_items]. rewrite Hn2. now apply Hnone0.
  - exists (tr0 ++ tr2), k. split; [now rewrite Ht2, Ht0, app_assoc|].
    split; [|exact I]. now rewrite written_elements_app, Hq2, app_nil_r.
Qed.

(** The items a run writes are the first of the items the server
    returned, in their order: none is left out, written twice or out
    of place. *)
Lemma paging_written_elements (responses : list (result Element))
    (st : LoopState) (w : World) :
  exists tr,
    trace (paging ET_tostring cfg responses st w).2 = trace w ++ tr
    /\ written_elements tr `prefix_of` served cfg responses.
Proof.
  revert st w. induction responses as [|response rest IH]; intros st w;
    cbn [paging]; destruct (limit_reached cfg (num_items st)); cbn [snd].
  1,3: exists [EvSeal (current_out st); EvRemoveState];
       (split; [apply finish_trace|apply prefix_nil]).
  { exists []. rewrite app_nil_r. split; [reflexivity|apply prefix_nil]. }
  destruct response as [root|e]; cbn [snd].
  2:{ exists [EvFetch (params (next_page st))].
      split; [reflexivity|apply prefix_nil]. }
  set (w0 := emit (EvFetch (params (next_page st))) w).
  destruct (process_page_elements root (next_page st) w0)
    as (tr1 & k & Ht1 & Hw1 & Hdone).
  assert (Hpre : written_elements tr1
                 `prefix_of` served cfg (Ok root :: rest)).
  { rewrite Hw1. cbn [served flat_map].
    apply prefix_app_r. exists (drop k (elements_of cfg root)).
    now rewrite take_drop. }
  destruct (process_page ET_tostring cfg root (next_page st) w0)
    as [rt st1 w1|e st1 w1]; cbn [page_end snd] in Ht1; cbn [snd].
  2:{ exists (EvFetch (params (next_page st)) :: tr1).
      split; [rewrite Ht1; subst w0; cbn [emit trace];
              now rewrite <- app_assoc|exact Hpre]. }
  destruct rt as [|c rt]; cbn [snd].
  { exists ((EvFetch (params (next_page st)) :: tr1)
            ++ [EvSeal (current_out st1); EvRemoveState]).
    split.
    - rewrite finish_trace, Ht1. subst w0. cbn [emit trace].
      now rewrite <- !app_assoc.
    - rewrite written_elements_app. cbn [written_elements flat_map app].
      fold (written_elements tr1). now rewrite app_nil_r. }
  set (st2 := set_params _ st1).
  set (w2 := emit (EvSleep _) w1).
  destruct Hdone as [Hall|Hlim].
  - destruct (IH st2 w2) as (tr2 & Ht2 & Hw2).
    exists ((EvFetch (params (next_page st)) :: tr1)
            ++ EvSleep (sleep_between cfg) :: tr2).
    split.
    + rewrite Ht2. subst w2 w0. cbn [emit trace]. rewrite Ht1.
      cbn [emit trace]. now rewrite <- !app_assoc.
    + rewrite written_elements_app. cbn [written_elements flat_map app].
      fold (written_elements tr1). fold (written_elements tr2).
      rewrite Hw1, take_ge by exact Hall. cbn [served flat_map].
      now apply prefix_app.
  - rewrite paging_at_limit by exact Hlim. cbn [snd].
    exists ((EvFetch (params (next_page st)) :: tr1)
            ++ [EvSleep (sleep_between cfg);
                EvSeal (current_out st1); EvRemoveState]).
    split.
    + rewrite finish_trace. subst w2 w0 st2.
      cbn [emit trace set_params current_out]. rewrite Ht1.
      cbn [emit trace]. now rewrite <- !app_assoc.
    + rewrite written_elements_app. cbn [written_elements flat_map app].
      fold (written_elements tr1). now rewrite app_nil_r.
Qed.

End WrittenElements.

(** ** The item limit, on disk *)

Section ItemLimitOnDisk.

Variable ET_tostring : Element -> str.
Variable cfg : Config.

Lemma served_pages (pages : list Element) (rest : list (result Element)) :
  served cfg (map Ok pages ++ rest)
  = flat_map (elements_of cfg) pages ++ served cfg rest.
Proof.
  unfold served. rewrite flat_map_app. f_equal.
  induction pages as [|p pages IH]; [reflexivity|].
  cbn [map flat_map]. now rewrite IH.
Qed.

Lemma prefix_is_take (l a b : list Element) :
  l `prefix_of` a ++ b -> (length l <= length a)%nat ->
  l = take (length l) a.
Proof.
  intros [k Hk] Hlen.
  rewrite <- (take_app_le a b) by exact Hlen.
  rewrite Hk. now rewrite take_app_length.
Qed.

(** X30: the item limit on a run that holds its checkpoint
    dictionary (a fresh or a resumed run).  With [max_items = N], on
    a server whose pages are processed without an exception, carry a
    token as long as the limit is not reached, and hold enough items
    to reach it on the page [last], the run ends normally with [N]
    items counted.  It has written the first [N - num_items] items of
    the pages, in their order, one row for each to every enabled
    sink; the file of every segment holds what it held, then the
    items written to it, then the closing tags; the checkpoint file
    is gone.  The run has fetched the pages up to [last] and no
    response after it, and nothing after the item that reaches the
    limit. *)
Theorem max_items_enforced (N : Z) (init : list Element) (last : Element)
    (rest : list (result Element)) (st : LoopState) (w : World)
    (d : list (str * json)) :
  max_items cfg = Some N ->
  state st = Some d -> json_ok (JDict d) = true ->
  aligned cfg st ->
  forallb (page_ok ET_tostring cfg) (init ++ [last]) = true ->
  forallb has_token init = true ->
  (num_items st + items_of cfg init < N
   <= num_items st + items_of cfg (init ++ [last]))%Z ->
  exists why st' w' tr,
    paging ET_tostring cfg (map Ok init ++ Ok last :: rest) st w
    = (Finished why, st', w')
    /\ trace w' = trace w ++ tr
    /\ num_items st' = N
    /\ written_elements tr
       = take (Z.to_nat (N - num_items st))
           (flat_map (elements_of cfg) (init ++ [last]))
    /\ (forall i, (1 <= i)%Z ->
                  default [] (files w' !! out_path_for_index cfg i)
                  = segment_file ET_tostring cfg (files w) (file_index st)
                      (file_index st') true tr i)
    /\ files w' = files_after ET_tostring cfg tr (files w)
    /\ files w' !! st_path cfg = None
    /\ Z.of_nat (count is_item tr) = (N - num_items st)%Z
    /\ count is_csv_row tr
       = (if csv_enabled cfg then count is_item tr else 0%nat)
    /\ count is_jsonl_row tr
       = (if jsonl_enabled cfg then count is_item tr else 0%nat)
    /\ count is_fetch tr = S (length init)
    /\ fetches_after (count is_item tr) tr = 0%nat.
Proof.
  intros Hmax Hst Hd Hal Hok Htok Hsum.
  destruct (max_items_counts ET_tostring cfg N init last rest st w d
              Hmax Hst Hd Hok Htok Hsum)
    as (why & st' & w' & tr & Hrun & Ht & Hn & Hitems & Hcsv & Hjsonl
        & Hfetch & Hafter).
  pose proof (paging_segments ET_tostring cfg
                (map Ok init ++ Ok last :: rest) st w Hal) as Hseg.
  pose proof (paging_contents ET_tostring cfg
                (map Ok init ++ Ok last :: rest) st w Hal) as Hcon.
  pose proof (paging_written_elements ET_tostring cfg
                (map Ok init ++ Ok last :: rest) st w) as Hwr.
  rewrite Hrun in Hseg, Hcon, Hwr. cbn [snd finished] in *.
  destruct Hseg as (_ & _ & _ & Hgone & tr1 & Ht1 & Hfiles & _).
  destruct Hcon as (tr2 & Ht2 & [Hdesc _]).
  destruct Hwr as (tr3 & Ht3 & Hpre).
  assert (tr1 = tr) by (apply (app_inv_head (trace w)); congruence).
  assert (tr2 = tr) by (apply (app_inv_head (trace w)); congruence).
  assert (tr3 = tr) by (apply (app_inv_head (trace w)); congruence).
  subst tr1 tr2 tr3.
  exists why, st', w', tr. split; [exact Hrun|]. split; [exact Ht|].
  split; [exact Hn|]. split.
  { change (Ok last :: rest) with (map Ok [last] ++ rest) in Hpre.
    rewrite app_assoc, <- map_app, served_pages in Hpre.
    assert (Hlen : length (written_elements tr)
                   = Z.to_nat (N - num_items st))
      by (rewrite written_elements_length; lia).
    rewrite <- Hlen. apply (prefix_is_take _ _ _ Hpre).
    rewrite Hlen. unfold items_of in Hsum. lia. }
  split; [exact Hdesc|]. split; [exact Hfiles|]. split; [exact Hgone|].
  now repeat split.
Qed.

End ItemLimitOnDisk.

(** With a limit of five and two pages of three records, the run ends
    during the second page and does not touch the response after
    it. *)
Lemma max_items_enforced_witness :
  let cfg := example_config (Some 5%Z) None in
  exists why st' w' tr,
    paging plain_tostring cfg
      (map Ok [first_page] ++ Ok second_page :: [Raise RuntimeError])
      example_start empty_world
    = (Finished why, st', w')
    /\ trace w' = trace empty_world ++ tr
    /\ num_items st' = 5%Z
    /\ written_elements tr
       = take (Z.to_nat (5 - num_items example_start))
           (flat_map (elements_of cfg) ([first_page] ++ [second_page]))
    /\ (forall i, (1 <= i)%Z ->
                  default [] (files w' !! out_path_for_index cfg i)
                  = segment_file plain_tostring cfg (files empty_world)
                      (file_index example_start) (file_index st') true tr i)
    /\ files w' = files_after plain_tostring cfg tr (files empty_world)
    /\ files w' !! st_path cfg = None
    /\ Z.of_nat (count is_item tr) = (5 - num_items example_start)%Z
    /\ count is_csv_row tr
       = (if csv_enabled cfg then count is_item tr else 0%nat)
    /\ count is_jsonl_row tr
       = (if jsonl_enabled cfg then count is_item tr else 0%nat)
    /\ count is_fetch tr = S (length [first_page])
    /\ fetches_after (count is_item tr) tr = 0%nat.
Proof.
  eapply (max_items_enforced plain_tostring (example_config (Some 5%Z) None)
            5%Z [first_page] second_page [Raise RuntimeError]
            example_start empty_world).
  - reflexivity.
  - reflexivity.
  - reflexivity.
  - split; [reflexivity|]. cbn. lia.
  - vm_compute. reflexivity.
  - vm_compute. reflexivity.
  - vm_compute. split; [reflexivity|discriminate].
Defined.
